(** * ShaderProj: resource states, committed resources, shader cache,
      pass bindings, program loading and the per-frame schedule.

    A shallow embedding of the render-graph core of ShaderProj
    (Buffer.cpp, Image.cpp, Compiler.cpp, ShRenderpass.cpp, ShProgram.cpp,
    ShaderProj.cpp), of its command line (Options.cpp) and of the frame
    pacing of VulkanApp.cpp, with the properties of them that the
    specification states and further ones that the code shows.

    Conventions.
    - A Vulkan handle is a number, [0] being the null handle; the C++ test
      [!h] is [is_null h].
    - A call into the Vulkan device is a field of [Device]: the result code
      and value the driver answers with.  The model never invents a driver
      answer.  The sources use the value-returning overloads of Vulkan-Hpp
      with exceptions enabled: on an error code such a call throws
      [vk::SystemError] instead of returning ([Throws]); the overloads that
      take an output pointer return the result code.
    - [double] and [float] quantities (times, durations, the blend factor)
      are exact rationals [Q]; rounding is not modelled.
    - An access outside a fixed-size array, undefined in C++, and a failed
      [assert] make the modelled function return [None]; so does an
      exception that leaves it, where the function is modelled in [option]
      (nothing in the sources catches a Vulkan exception). *)

From Stdlib Require Import ZArith QArith Qminmax Qabs Lia Lqa.
From stdpp Require Import base tactics option list strings gmap.

Local Open Scope Z_scope.

(** ** Vulkan vocabulary used by the sources *)

Module vk.

Definition Handle := N.
Definition null : Handle := 0%N.
Definition is_null (h : Handle) : bool := N.eqb h 0.

Inductive PipelineStageFlagBits : Set :=
| eTopOfPipe | eTransfer | eFragmentShader | eColorAttachmentOutput.

Inductive AccessFlagBits : Set :=
| eNoneKHR | eTransferRead | eShaderRead | eColorAttachmentWrite
| eTransferWrite.

Inductive ImageLayout : Set :=
| eUndefined | ePresentSrcKHR | eShaderReadOnlyOptimal
| eColorAttachmentOptimal | eTransferSrcOptimal | eTransferDstOptimal.

(** [vk::MemoryPropertyFlagBits], as the bits of the Vulkan headers. *)
Definition eDeviceLocal : Z := 1.
Definition eHostVisible : Z := 2.

Inductive Result : Set := eSuccess | eError.

End vk.

(** ** How a call ends *)

(** A call returns a value, is left by a [vk::SystemError] that Vulkan-Hpp
    throws, or stops at a failed [assert]. *)
Inductive Outcome (A : Type) : Type :=
| Returns (value : A)
| Throws
| AssertFails.

Arguments Returns {A} value.
Arguments Throws {A}.
Arguments AssertFails {A}.

#[global] Instance Outcome_ret : MRet Outcome := λ A value, Returns value.
#[global] Instance Outcome_bind : MBind Outcome := λ A B f outcome,
  match outcome with
  | Returns value => f value
  | Throws => Throws
  | AssertFails => AssertFails
  end.

(** The view of a caller modelled in [option]: the value of a call that
    returned. *)
Definition returned {A : Type} (outcome : Outcome A) : option A :=
  match outcome with
  | Returns value => Some value
  | Throws | AssertFails => None
  end.

Module vkhpp.

(** [vk::createResultValue]: the value-returning overloads hand out the
    value when the driver answers [eSuccess] and throw otherwise. *)
Definition createResultValue {A : Type} (answer : vk.Result * A)
    : Outcome A :=
  match answer.1 with
  | vk.eSuccess => Returns answer.2
  | vk.eError => Throws
  end.

(** The same for a call without a value ([void] in the sources). *)
Definition resultCheck (answer : vk.Result) : Outcome unit :=
  createResultValue (answer, tt).

End vkhpp.

(** ** ShaderProj.h: resources and their logical states *)

Record Image : Set := mkImage {
  img_deviceMemory : vk.Handle;
  img_image : vk.Handle;
  img_imageView : vk.Handle;
  img_width : Z;
  img_height : Z;
  img_depth : Z
}.

(** [Image image;] : default member initialisers. *)
Definition Image_default : Image := mkImage vk.null vk.null vk.null 0 0 0.

Inductive ImageState : Set :=
| IS_Undefined | IS_Present | IS_ShaderResource | IS_RenderTarget
| IS_TransferSrc | IS_TransferDst.

(** [uint32_t(state)]: the enumerators count from [Undefined = 0]. *)
Definition ImageState_index (s : ImageState) : nat :=
  match s with
  | IS_Undefined => 0 | IS_Present => 1 | IS_ShaderResource => 2
  | IS_RenderTarget => 3 | IS_TransferSrc => 4 | IS_TransferDst => 5
  end%nat.

Record Buffer : Set := mkBuffer {
  buf_deviceMemory : vk.Handle;
  buf_buffer : vk.Handle
}.

Definition Buffer_default : Buffer := mkBuffer vk.null vk.null.

Inductive BufferState : Set :=
| BS_Undefined | BS_TransferSrc | BS_TransferDst.

Definition BufferState_index (s : BufferState) : nat :=
  match s with
  | BS_Undefined => 0 | BS_TransferSrc => 1 | BS_TransferDst => 2
  end%nat.

Definition c_MaxPassInputs : nat := 4.
Definition c_MaxPasses : nat := 4.
Definition c_HistoryLength : nat := 2.
Definition c_RenderImageCount : nat := (c_MaxPasses + 1) * c_HistoryLength.

(** ** Image.cpp / Buffer.cpp: the state tables and the barriers *)

Record ImageStateMapping : Set := mkImageStateMapping {
  ism_stageMask : vk.PipelineStageFlagBits;
  ism_accessMask : vk.AccessFlagBits;
  ism_layout : vk.ImageLayout
}.

Definition g_ImageStates : list ImageStateMapping := [
  mkImageStateMapping vk.eTopOfPipe vk.eNoneKHR vk.eUndefined;
  mkImageStateMapping vk.eTransfer vk.eTransferRead vk.ePresentSrcKHR;
  mkImageStateMapping vk.eFragmentShader vk.eShaderRead
                      vk.eShaderReadOnlyOptimal;
  mkImageStateMapping vk.eColorAttachmentOutput vk.eColorAttachmentWrite
                      vk.eColorAttachmentOptimal;
  mkImageStateMapping vk.eTransfer vk.eTransferRead vk.eTransferSrcOptimal;
  mkImageStateMapping vk.eTransfer vk.eTransferWrite vk.eTransferDstOptimal
].

(** The one [pipelineBarrier] command [ImageBarrier] records. *)
Record ImageMemoryBarrier : Set := mkImageMemoryBarrier {
  imb_srcStageMask : vk.PipelineStageFlagBits;
  imb_dstStageMask : vk.PipelineStageFlagBits;
  imb_srcAccessMask : vk.AccessFlagBits;
  imb_dstAccessMask : vk.AccessFlagBits;
  imb_oldLayout : vk.ImageLayout;
  imb_newLayout : vk.ImageLayout;
  imb_image : vk.Handle;
  imb_baseMipLevel : Z;
  imb_levelCount : Z;
  imb_layerCount : Z
}.

Definition ImageBarrier (image : vk.Handle) (before after : ImageState)
    (layerCount baseMipLevel mipLevels : Z) : option ImageMemoryBarrier :=
  mappingBefore ← g_ImageStates !! ImageState_index before;
  mappingAfter ← g_ImageStates !! ImageState_index after;
  Some {| imb_srcStageMask := ism_stageMask mappingBefore;
          imb_dstStageMask := ism_stageMask mappingAfter;
          imb_srcAccessMask := ism_accessMask mappingBefore;
          imb_dstAccessMask := ism_accessMask mappingAfter;
          imb_oldLayout := ism_layout mappingBefore;
          imb_newLayout := ism_layout mappingAfter;
          imb_image := image;
          imb_baseMipLevel := baseMipLevel;
          imb_levelCount := mipLevels;
          imb_layerCount := layerCount |}.

(** Source and destination side of a recorded image barrier. *)
Definition imb_src (b : ImageMemoryBarrier) : ImageStateMapping :=
  mkImageStateMapping (imb_srcStageMask b) (imb_srcAccessMask b)
                      (imb_oldLayout b).
Definition imb_dst (b : ImageMemoryBarrier) : ImageStateMapping :=
  mkImageStateMapping (imb_dstStageMask b) (imb_dstAccessMask b)
                      (imb_newLayout b).

Record BufferStateMapping : Set := mkBufferStateMapping {
  bsm_stageMask : vk.PipelineStageFlagBits;
  bsm_accessMask : vk.AccessFlagBits
}.

Definition g_BufferStates : list BufferStateMapping := [
  mkBufferStateMapping vk.eTopOfPipe vk.eNoneKHR;
  mkBufferStateMapping vk.eTransfer vk.eTransferRead;
  mkBufferStateMapping vk.eTransfer vk.eTransferWrite
].

Record BufferMemoryBarrier : Set := mkBufferMemoryBarrier {
  bmb_srcStageMask : vk.PipelineStageFlagBits;
  bmb_dstStageMask : vk.PipelineStageFlagBits;
  bmb_srcAccessMask : vk.AccessFlagBits;
  bmb_dstAccessMask : vk.AccessFlagBits;
  bmb_buffer : vk.Handle
}.

Definition BufferBarrier (buffer : vk.Handle) (before after : BufferState)
    : option BufferMemoryBarrier :=
  mappingBefore ← g_BufferStates !! BufferState_index before;
  mappingAfter ← g_BufferStates !! BufferState_index after;
  Some {| bmb_srcStageMask := bsm_stageMask mappingBefore;
          bmb_dstStageMask := bsm_stageMask mappingAfter;
          bmb_srcAccessMask := bsm_accessMask mappingBefore;
          bmb_dstAccessMask := bsm_accessMask mappingAfter;
          bmb_buffer := buffer |}.

Definition bmb_src (b : BufferMemoryBarrier) : BufferStateMapping :=
  mkBufferStateMapping (bmb_srcStageMask b) (bmb_srcAccessMask b).
Definition bmb_dst (b : BufferMemoryBarrier) : BufferStateMapping :=
  mkBufferStateMapping (bmb_dstStageMask b) (bmb_dstAccessMask b).

(** ** Buffer.cpp / Image.cpp: committed resources *)

Record MemoryRequirements : Set := mkMemoryRequirements {
  mr_size : Z;
  mr_memoryTypeBits : Z
}.

(** [vk::PhysicalDeviceMemoryProperties]: the property flags of the
    [memoryTypeCount] memory types, in index order. *)
Record PhysicalDevice : Set := mkPhysicalDevice {
  memoryTypes : list Z
}.

Record ImageCreateInfo : Set := mkImageCreateInfo {
  ici_width : Z;
  ici_height : Z;
  ici_depth : Z;
  ici_mipLevels : Z;
  ici_arrayLayers : Z
}.

Record BufferCreateInfo : Set := mkBufferCreateInfo {
  bci_size : Z
}.

(** The answers of the driver to the calls the two creation functions
    make: the result code and, for the creating calls, the handle written.
    [allocateMemory] receives the allocation size and the memory type
    index; the bind calls receive object, memory and offset. *)
Record Device : Type := mkDevice {
  createBuffer : BufferCreateInfo → vk.Result * vk.Handle;
  getBufferMemoryRequirements : vk.Handle → MemoryRequirements;
  createImage : ImageCreateInfo → vk.Result * vk.Handle;
  getImageMemoryRequirements : vk.Handle → MemoryRequirements;
  allocateMemory : Z → nat → vk.Result * vk.Handle;
  bindBufferMemory : vk.Handle → vk.Handle → Z → vk.Result;
  bindImageMemory : vk.Handle → vk.Handle → Z → vk.Result;
  createImageView : vk.Handle → ImageCreateInfo → vk.Result * vk.Handle
}.

(** The memory-type loop of both creation functions:
    [for (i = 0; i < memoryTypeCount; i++) if (...) break;]
    returns the index the loop stops at, [memoryTypeCount] when no type
    matches.  [i] is the index of the head of [types]. *)
Fixpoint findMemoryType (memoryTypeBits wanted : Z) (types : list Z)
    (i : nat) : nat :=
  match types with
  | [] => i
  | propertyFlags :: rest =>
      if negb (Z.land memoryTypeBits (Z.shiftl 1 (Z.of_nat i)) =? 0)
         && (Z.land propertyFlags wanted =? wanted)
      then i
      else findMemoryType memoryTypeBits wanted rest (S i)
  end.

Definition CreateCommittedBuffer (physicalDevice : PhysicalDevice)
    (device : Device) (info : BufferCreateInfo) (memoryType : Z)
    : Outcome Buffer :=
  let buffer := Buffer_default in
  created ← vkhpp.createResultValue (createBuffer device info);
  let buffer := mkBuffer (buf_deviceMemory buffer) created in
  if vk.is_null (buf_buffer buffer) then Returns buffer
  else
    let memRequirements :=
      getBufferMemoryRequirements device (buf_buffer buffer) in
    let memTypeIndex :=
      findMemoryType (mr_memoryTypeBits memRequirements) memoryType
                     (memoryTypes physicalDevice) 0 in
    if negb (memTypeIndex <? length (memoryTypes physicalDevice))%nat
    then AssertFails (* assert(memTypeIndex < memProperties.memoryTypeCount) *)
    else
      memory ← vkhpp.createResultValue
                 (allocateMemory device (mr_size memRequirements)
                                 memTypeIndex);
      let buffer := mkBuffer memory (buf_buffer buffer) in
      if vk.is_null (buf_deviceMemory buffer) then Returns buffer
      else
        _ ← vkhpp.resultCheck
              (bindBufferMemory device (buf_buffer buffer)
                                (buf_deviceMemory buffer) 0);
        Returns buffer.

Definition CreateCommittedImage (physicalDevice : PhysicalDevice)
    (device : Device) (info : ImageCreateInfo) : Outcome Image :=
  let image := Image_default in
  created ← vkhpp.createResultValue (createImage device info);
  let image := mkImage (img_deviceMemory image) created
                       (img_imageView image) 0 0 0 in
  if vk.is_null (img_image image) then Returns image
  else
    let memRequirements :=
      getImageMemoryRequirements device (img_image image) in
    let memPropertyFlags := vk.eDeviceLocal in
    let memTypeIndex :=
      findMemoryType (mr_memoryTypeBits memRequirements) memPropertyFlags
                     (memoryTypes physicalDevice) 0 in
    if negb (memTypeIndex <? length (memoryTypes physicalDevice))%nat
    then AssertFails (* assert(memTypeIndex < memProperties.memoryTypeCount) *)
    else
      memory ← vkhpp.createResultValue
                 (allocateMemory device (mr_size memRequirements)
                                 memTypeIndex);
      let image :=
        mkImage memory (img_image image) (img_imageView image) 0 0 0 in
      if vk.is_null (img_deviceMemory image) then Returns image
      else
        _ ← vkhpp.resultCheck
              (bindImageMemory device (img_image image)
                               (img_deviceMemory image) 0);
        view ← vkhpp.createResultValue
                 (createImageView device (img_image image) info);
        Returns (mkImage (img_deviceMemory image) (img_image image) view
                         (ici_width info) (ici_height info)
                         (ici_depth info)).

(** [DestroyCommittedImage]: the three handles are released and reset. *)
Definition DestroyCommittedImage (image : Image) : Image :=
  mkImage vk.null vk.null vk.null (img_width image) (img_height image)
          (img_depth image).

Definition DestroyCommittedBuffer (buffer : Buffer) : Buffer :=
  mkBuffer vk.null vk.null.



(** ** Compiler.cpp: compilation with the on-disk cache *)

(** [typedef std::vector<char> blob]. *)
Definition blob := string.

(** A path is its name without the extension, and the extension;
    [replace_extension] swaps the second component. *)
Definition path : Set := (string * string)%type.

Definition replace_extension (p : path) (ext : string) : path := (p.1, ext).

(** A file as the compiler sees it: [fs::last_write_time] in clock ticks and
    the answer of [ReadFile], which ShaderProj.h declares and whose
    definition is not among the sources: [Some data] when it returns true
    and fills the blob, [None] when it returns false. *)
Record File : Set := mkFile {
  last_write_time : Z;
  read_result : option blob
}.

(** The file system: [fs::exists p] is [is_Some (files !! p)]. *)
Abbreviation FileSystem := (gmap path File).

Definition ReadFile (files : FileSystem) (name : path) : option blob :=
  files !! name ≫= read_result.

(** The answer of glslang for a merged source text. *)
Inductive GlslangResult : Set :=
| ParseError (infoLog : string)
| LinkError (infoLog : string)
| Spirv (binary : blob).

Inductive CompilerLog : Set :=
| LogShaderMissing (file : path)
| LogUsingCached (file : path)
| LogCompiling (file : path)
| LogCompileError (infoLog : string)
| LogCompileOK
| LogCannotRead (file : path).

Record CompileShaderResult : Type := mkCompileShaderResult {
  cs_return : bool;
  cs_output : blob;
  cs_files : FileSystem;
  cs_log : list CompilerLog
}.

(** [mergedSource]: all preambles in order, then the contents. *)
Definition mergeSource (preambles : list blob) (contents : blob) : blob :=
  foldr String.append contents preambles.

(** [glslang::OutputSpvBin(spirv, baseName)], which belongs to glslang: it
    opens the file for writing and writes the words; when the file cannot
    be opened it writes nothing and returns false.  [opened] is whether
    the file can be opened, [now] the time of the write. *)
Definition OutputSpvBin (opened : bool) (now : Z) (spirv : blob)
    (baseName : path) (files : FileSystem) : bool * FileSystem :=
  if opened then (true, <[baseName := mkFile now (Some spirv)]> files)
  else (false, files).

Section Compiler.

(** glslang (shader stage chosen from the file name, parse, link and SPIR-V
    generation), the time at which [OutputSpvBin] writes the artifact, and
    whether it can open the artifact for writing. *)
Variable glslang : path → blob → GlslangResult.
Variable now : Z.
Variable opened : bool.

Definition CompileShader (files : FileSystem) (shaderFile : path)
    (preambles : list blob) (output : blob) : CompileShaderResult :=
  match files !! shaderFile with
  | None =>
      mkCompileShaderResult false output files [LogShaderMissing shaderFile]
  | Some input =>
      let outputFile := replace_extension shaderFile ".spv" in
      (* the cache test; [Some out] is a hit, [None] falls through with the
         blob [output.clear()] may have emptied *)
      let cached : option blob * blob :=
        match files !! outputFile with
        | Some artifact =>
            let inputTime := last_write_time input in
            let outputTime := last_write_time artifact in
            if inputTime <? outputTime then
              match ReadFile files outputFile with
              | Some data => (Some data, data)
              | None => (None, ""%string)
              end
            else (None, output)
        | None => (None, output)
        end in
      match cached with
      | (Some data, _) =>
          mkCompileShaderResult true data files [LogUsingCached outputFile]
      | (None, output) =>
          match ReadFile files shaderFile with
          | Some contents =>
              let mergedSource := mergeSource preambles contents in
              match glslang shaderFile mergedSource with
              | ParseError infoLog =>
                  mkCompileShaderResult false output files
                    [LogCompiling shaderFile; LogCompileError infoLog]
              | LinkError infoLog =>
                  mkCompileShaderResult false output files
                    [LogCompiling shaderFile; LogCompileError infoLog]
              | Spirv spirv =>
                  (* the flag [OutputSpvBin] returns is not looked at *)
                  let written :=
                    OutputSpvBin opened now spirv outputFile files in
                  mkCompileShaderResult true spirv written.2
                    [LogCompiling shaderFile; LogCompileOK]
              end
          | None =>
              mkCompileShaderResult false output files
                [LogCannotRead shaderFile]
          end
      end
  end.

End Compiler.

(** The call returned the cached artifact without running the compiler. *)
Definition compilation_bypassed (r : CompileShaderResult) : Prop :=
  cs_return r = true ∧ ∀ f, LogCompiling f ∉ cs_log r.


(** ** Declarations: what the loaders read from description.json *)

(** One element of a pass node's ["inputs"]: ["type"], ["id"], ["channel"]
    ([asInt]) and ["filepath"]. *)
Record InputNode : Set := mkInputNode {
  in_type : string;
  in_id : string;
  in_channel : Z;
  in_filepath : string
}.

(** One element of [root[0]["renderpass"]]: ["type"], ["outputs"][0]["id"],
    ["inputs"] and ["code"]. *)
Record PassNode : Set := mkPassNode {
  pn_type : string;
  pn_outputId : string;
  pn_inputs : list InputNode;
  pn_code : string
}.

(** [array[index]] for a C++ [int] index: [None] outside the array. *)
Definition at_int {A : Type} (l : list A) (index : Z) : option A :=
  if index <? 0 then None else l !! Z.to_nat index.

Definition set_int {A : Type} (l : list A) (index : Z) (x : A)
    : option (list A) :=
  if (index <? 0) || negb (index <? Z.of_nat (length l)) then None
  else Some (<[Z.to_nat index := x]> l).

(** ** ShRenderpass.cpp *)

Record CommonResources : Set := mkCommonResources {
  cr_height : Z;
  cr_width : Z;
  cr_constantBuffer : vk.Handle;
  cr_dummyCubemap : vk.Handle;
  cr_dummyTexture : vk.Handle;
  cr_dummyVolume : vk.Handle;
  cr_defaultSampler : vk.Handle;
  cr_images : list Image
}.

(** [vk::DescriptorImageInfo]; the layout is always
    [eShaderReadOnlyOptimal]. *)
Record DescriptorImageInfo : Set := mkDescriptorImageInfo {
  dii_imageView : vk.Handle;
  dii_sampler : vk.Handle
}.

(** One [updateDescriptorSets] call of [CreateBindingSets]: the destination
    set, the image infos of bindings 0..3 and the uniform buffer of
    binding 4. *)
Record DescriptorWrite : Set := mkDescriptorWrite {
  dw_dstSet : vk.Handle;
  dw_imageInfos : list DescriptorImageInfo;
  dw_uniformBuffer : vk.Handle
}.

Inductive PassLog : Set :=
| LogCannotFindInputBuffer (programName bufferId : string)
| LogNoImagePass (programName : string)
| LogCannotOpen.

(** The members of [ShRenderpass] that binding and scheduling use; [this]
    is the address of the object, the identity [pass.get() == this]
    compares.  Shader data, pipeline and framebuffer objects are left out. *)
Record ShRenderpass : Set := mkShRenderpass {
  this : nat;
  m_ProgramName : string;
  m_Declaration : PassNode;
  m_OutputId : string;
  m_InputIds : list string;
  m_StaticInputs : list Image;
  m_Samplers : list vk.Handle;
  m_DescriptorSets : list vk.Handle;
  m_RenderTargetIndices : list nat;
  m_RenderTargetViews : list vk.Handle;
  m_Push_iChannelResolution : list (Z * Z * Z)
}.

(** The constructor: output id, the ids of the buffer inputs, zeroed push
    constants and render-target indices, null handles elsewhere. *)
Definition ShRenderpass_ctor (addr : nat) (programName : string)
    (declaration : PassNode) : ShRenderpass :=
  {| this := addr;
     m_ProgramName := programName;
     m_Declaration := declaration;
     m_OutputId := pn_outputId declaration;
     m_InputIds :=
       in_id <$> filter (λ node, in_type node = "buffer"%string)
                        (pn_inputs declaration);
     m_StaticInputs := replicate c_MaxPassInputs Image_default;
     m_Samplers := replicate c_MaxPassInputs vk.null;
     m_DescriptorSets := replicate c_HistoryLength vk.null;
     m_RenderTargetIndices := replicate c_HistoryLength 0%nat;
     m_RenderTargetViews := replicate c_HistoryLength vk.null;
     m_Push_iChannelResolution := replicate c_MaxPassInputs (0, 0, 0) |}.

(** The search loop over [passes] for a buffer input: the
    [sourceBufferIndex] of the first pass whose output id is [bufferId],
    [passIndex] being the index of the head of [passes]. *)
Fixpoint findSourceBuffer (self : nat) (bufferId : string) (frame : nat)
    (passes : list ShRenderpass) (passIndex : nat) : option nat :=
  match passes with
  | [] => None
  | pass :: rest =>
      if String.eqb (m_OutputId pass) bufferId then
        let sourceFrame :=
          if (this pass =? self)%nat
          then (if (frame =? 0)%nat then 1 else 0)%nat   (* !frame *)
          else frame in
        let sourceBufferIndex := (passIndex * 2 + sourceFrame)%nat in
        Some sourceBufferIndex
      else findSourceBuffer self bufferId frame rest (S passIndex)
  end.

(** What the loop over the input nodes carries for one frame. *)
Record BindingState : Set := mkBindingState {
  bs_imageInfos : list DescriptorImageInfo;
  bs_push : list (Z * Z * Z);
  bs_log : list PassLog
}.

(** The [if / else if] chain of the loop over [m_Declaration["inputs"]]:
    the image view and size chosen for a node, and what it logs.  [static]
    is [m_StaticInputs[samplerChannel]]. *)
Definition chooseInput (common : CommonResources)
    (passes : list ShRenderpass) (self : ShRenderpass) (frame : nat)
    (node : InputNode) (static : Image)
    : option (vk.Handle * (Z * Z * Z) * list PassLog) :=
  if negb (vk.is_null (img_imageView static)) then
    Some (img_imageView static,
          (img_width static, img_height static, img_depth static), [])
  else if String.eqb (in_type node) "cubemap" then
    Some (cr_dummyCubemap common, (0, 0, 0), [])
  else if String.eqb (in_type node) "volume" then
    Some (cr_dummyVolume common, (0, 0, 0), [])
  else if String.eqb (in_type node) "buffer" then
    let bufferId := in_id node in
    found ←
      match findSourceBuffer (this self) bufferId frame passes 0 with
      | Some sourceBufferIndex =>
          image ← cr_images common !! sourceBufferIndex;
          Some (img_imageView image, (cr_width common, cr_height common, 1))
      | None => Some (vk.null, (0, 0, 0))
      end;
    Some (found.1, found.2,
          if vk.is_null found.1
          then [LogCannotFindInputBuffer (m_ProgramName self) bufferId]
          else [])
  else Some (vk.null, (0, 0, 0), []).

(** The body of the loop over [m_Declaration["inputs"]]: the choice above,
    then the updates of [imageInfos] and [m_Push]. *)
Definition bindInput (common : CommonResources)
    (passes : list ShRenderpass) (self : ShRenderpass) (frame : nat)
    (st : BindingState) (node : InputNode) : option BindingState :=
  let samplerChannel := in_channel node in
  static ← at_int (m_StaticInputs self) samplerChannel;
  chosen ← chooseInput common passes self frame node static;
  let '(imageView, inputSize, logged) := chosen in
  info ← at_int (bs_imageInfos st) samplerChannel;
  imageInfos ←
    (if negb (vk.is_null imageView)
     then set_int (bs_imageInfos st) samplerChannel
                  (mkDescriptorImageInfo imageView (dii_sampler info))
     else Some (bs_imageInfos st));
  push ← set_int (bs_push st) samplerChannel inputSize;
  Some (mkBindingState imageInfos push (bs_log st ++ logged)).

(** A loop whose body may be undefined: left to right, stopping at the
    first [None]. *)
Fixpoint foldM {A B : Type} (f : A → B → option A) (a : A) (l : list B)
    : option A :=
  match l with
  | [] => Some a
  | x :: rest => a' ← f a x; foldM f a' rest
  end.

(** The initial [imageInfos] of a frame: the dummy texture with the pass's
    sampler of the channel, or the default sampler when that is null. *)
Definition initialImageInfos (common : CommonResources)
    (self : ShRenderpass) : option (list DescriptorImageInfo) :=
  mapM (λ channel : nat,
          own ← m_Samplers self !! channel;
          let sampler :=
            if negb (vk.is_null own) then own else cr_defaultSampler common in
          Some (mkDescriptorImageInfo (cr_dummyTexture common) sampler))
       (seq 0 c_MaxPassInputs).

Record BindingSetsResult : Set := mkBindingSetsResult {
  bsr_pass : ShRenderpass;
  bsr_writes : list DescriptorWrite;
  bsr_log : list PassLog
}.

(** One iteration of [for (int frame = 0; frame < 2; frame++)]. *)
Definition CreateBindingSets_frame (common : CommonResources)
    (passes : list ShRenderpass) (outputIndex : nat)
    (acc : BindingSetsResult) (frame : nat) : option BindingSetsResult :=
  let self := bsr_pass acc in
  imageInfos ← initialImageInfos common self;
  st ← foldM (bindInput common passes self frame)
             (mkBindingState imageInfos (m_Push_iChannelResolution self) [])
             (pn_inputs (m_Declaration self));
  dstSet ← m_DescriptorSets self !! frame;
  let write :=
    mkDescriptorWrite dstSet (bs_imageInfos st) (cr_constantBuffer common) in
  let targetIndex := (outputIndex * 2 + frame)%nat in
  _ ← m_RenderTargetIndices self !! frame;
  _ ← m_RenderTargetViews self !! frame;
  target ← cr_images common !! targetIndex;
  Some {| bsr_pass :=
            {| this := this self;
               m_ProgramName := m_ProgramName self;
               m_Declaration := m_Declaration self;
               m_OutputId := m_OutputId self;
               m_InputIds := m_InputIds self;
               m_StaticInputs := m_StaticInputs self;
               m_Samplers := m_Samplers self;
               m_DescriptorSets := m_DescriptorSets self;
               m_RenderTargetIndices :=
                 <[frame := targetIndex]> (m_RenderTargetIndices self);
               m_RenderTargetViews :=
                 <[frame := img_imageView target]> (m_RenderTargetViews self);
               m_Push_iChannelResolution := bs_push st |};
          bsr_writes := bsr_writes acc ++ [write];
          bsr_log := bsr_log acc ++ bs_log st |}.

Definition CreateBindingSets (common : CommonResources)
    (passes : list ShRenderpass) (self : ShRenderpass) (outputIndex : nat)
    : option BindingSetsResult :=
  foldM (CreateBindingSets_frame common passes outputIndex)
        (mkBindingSetsResult self [] []) (seq 0 c_HistoryLength).

(** ** ShProgram.cpp *)

Record ShProgram : Set := mkShProgram {
  m_CommonSourcePath : string;
  m_Passes : list ShRenderpass;
  m_ImagePassIndex : nat;
  m_Name : string
}.

Definition ShProgram_ctor (name : string) : ShProgram :=
  mkShProgram "" [] 0 name.

Definition GetPasses (p : ShProgram) : list ShRenderpass := m_Passes p.
Definition GetImagePassIndex (p : ShProgram) : nat := m_ImagePassIndex p.
Definition GetName (p : ShProgram) : string := m_Name p.

(** What the loop of [Load] carries: the image pass seen last, the passes
    pushed so far, the common source and the next free address of
    [make_shared]. *)
Record LoadState : Set := mkLoadState {
  ls_imagePass : option ShRenderpass;
  ls_passes : list ShRenderpass;
  ls_commonSourcePath : string;
  ls_heap : nat
}.

Definition Load_node (name : string) (st : LoadState) (node : PassNode)
    : LoadState :=
  if String.eqb (pn_type node) "buffer" || String.eqb (pn_type node) "image"
  then
    let pass := ShRenderpass_ctor (ls_heap st) name node in
    if String.eqb (pn_type node) "image" then
      mkLoadState (Some pass) (ls_passes st) (ls_commonSourcePath st)
                  (S (ls_heap st))
    else
      mkLoadState (ls_imagePass st) (ls_passes st ++ [pass])
                  (ls_commonSourcePath st) (S (ls_heap st))
  else if String.eqb (pn_type node) "common" then
    mkLoadState (ls_imagePass st) (ls_passes st) (pn_code node) (ls_heap st)
  else st.

Record LoadResult : Set := mkLoadResult {
  lr_return : bool;
  lr_program : ShProgram;
  lr_log : list PassLog
}.

(** [ShProgram::Load].  [description] is [None] when the file cannot be
    opened, otherwise the nodes of [root[0]["renderpass"]] (none when the
    text did not parse); [heap] is the first address [make_shared] hands
    out. *)
Definition Load (self : ShProgram) (description : option (list PassNode))
    (heap : nat) : LoadResult :=
  match description with
  | None => mkLoadResult false self [LogCannotOpen]
  | Some nodes =>
      let st :=
        foldl (Load_node (m_Name self))
              (mkLoadState None (m_Passes self) (m_CommonSourcePath self) heap)
              nodes in
      match ls_imagePass st with
      | None =>
          mkLoadResult false
            (mkShProgram (ls_commonSourcePath st) (ls_passes st)
                         (m_ImagePassIndex self) (m_Name self))
            [LogNoImagePass (m_Name self)]
      | Some imagePass =>
          mkLoadResult true
            (mkShProgram (ls_commonSourcePath st)
                         (ls_passes st ++ [imagePass])
                         (length (ls_passes st)) (m_Name self))
            []
      end
  end.

(** The number of nodes of type "image" in a description. *)
Definition count_image_nodes (nodes : list PassNode) : nat :=
  length (filter (λ node, pn_type node = "image"%string) nodes).


(** ** ShaderProj.cpp: the script *)

Record ScriptEntry : Set := mkScriptEntry {
  programName : string;
  programIndex : Z;
  duration : Q
}.

(** [ScriptEntry entry;] : default member initialisers. *)
Definition ScriptEntry_default : ScriptEntry := mkScriptEntry "" (-1) 1.

(** One element of the script array as [LoadScript] looks at it: a string,
    an object with [node["program"].asString()] and, when
    [node["duration"].isNumeric()], its [asDouble()], or anything else. *)
Inductive ScriptNode : Set :=
| SN_String (name : string)
| SN_Object (program : string) (numericDuration : option Q)
| SN_Other.

Definition LoadScript_node (script : list ScriptEntry) (node : ScriptNode)
    : list ScriptEntry :=
  let entry := ScriptEntry_default in
  match node with
  | SN_String name =>
      script ++ [mkScriptEntry name (programIndex entry) (duration entry)]
  | SN_Object program numericDuration =>
      script ++ [mkScriptEntry program (programIndex entry)
                   (match numericDuration with
                    | Some d => d
                    | None => duration entry
                    end)]
  | SN_Other => script
  end.

(** [LoadScript]: [scriptFile] is [None] when the file cannot be opened or
    parsed, otherwise the elements of the root value. *)
Definition LoadScript (scriptFile : option (list ScriptNode))
    (script : list ScriptEntry) : bool * list ScriptEntry :=
  match scriptFile with
  | None => (false, script)
  | Some root =>
      let script := foldl LoadScript_node script root in
      match script with
      | [] => (false, script)
      | _ => (true, script)
      end
  end.

(** ** ShaderProj.cpp: the application *)

Record ShaderProj : Type := mkShaderProj {
  m_BufferLayoutInitd : bool;
  m_Paused : bool;
  m_ResetRequired : bool;
  m_StaticResourcesInitd : bool;
  m_CurrentDuration : Q;
  m_CurrentTime : Q;
  m_CurrentTimeDelta : Q;
  m_ActiveProgram : Z;
  m_FrameIndex : Z;
  m_ScriptIndex : Z;
  m_ConstantBuffer : Buffer;
  m_DummyCubemap : Image;
  m_DummyTexture : Image;
  m_DummyVolume : Image;
  m_Images : list Image;
  m_BlitDescriptorSets : list vk.Handle;
  m_SwapChainLayoutInitd : list bool;
  m_Script : list ScriptEntry;
  m_Programs : list ShProgram;
  m_SwapChainFramebuffers : list vk.Handle;
  m_Sampler : vk.Handle
}.

(** Assignments to single members. *)
Definition set_m_BufferLayoutInitd (v : bool) (s : ShaderProj) : ShaderProj :=
  {| m_BufferLayoutInitd := v;
     m_Paused := m_Paused s;
     m_ResetRequired := m_ResetRequired s;
     m_StaticResourcesInitd := m_StaticResourcesInitd s;
     m_CurrentDuration := m_CurrentDuration s;
     m_CurrentTime := m_CurrentTime s;
     m_CurrentTimeDelta := m_CurrentTimeDelta s;
     m_ActiveProgram := m_ActiveProgram s;
     m_FrameIndex := m_FrameIndex s;
     m_ScriptIndex := m_ScriptIndex s;
     m_ConstantBuffer := m_ConstantBuffer s;
     m_DummyCubemap := m_DummyCubemap s;
     m_DummyTexture := m_DummyTexture s;
     m_DummyVolume := m_DummyVolume s;
     m_Images := m_Images s;
     m_BlitDescriptorSets := m_BlitDescriptorSets s;
     m_SwapChainLayoutInitd := m_SwapChainLayoutInitd s;
     m_Script := m_Script s;
     m_Programs := m_Programs s;
     m_SwapChainFramebuffers := m_SwapChainFramebuffers s;
     m_Sampler := m_Sampler s |}.

Definition set_m_Paused (v : bool) (s : ShaderProj) : ShaderProj :=
  {| m_BufferLayoutInitd := m_BufferLayoutInitd s;
     m_Paused := v;
     m_ResetRequired := m_ResetRequired s;
     m_StaticResourcesInitd := m_StaticResourcesInitd s;
     m_CurrentDuration := m_CurrentDuration s;
     m_CurrentTime := m_CurrentTime s;
     m_CurrentTimeDelta := m_CurrentTimeDelta s;
     m_ActiveProgram := m_ActiveProgram s;
     m_FrameIndex := m_FrameIndex s;
     m_ScriptIndex := m_ScriptIndex s;
     m_ConstantBuffer := m_ConstantBuffer s;
     m_DummyCubemap := m_DummyCubemap s;
     m_DummyTexture := m_DummyTexture s;
     m_DummyVolume := m_DummyVolume s;
     m_Images := m_Images s;
     m_BlitDescriptorSets := m_BlitDescriptorSets s;
     m_SwapChainLayoutInitd := m_SwapChainLayoutInitd s;
     m_Script := m_Script s;
     m_Programs := m_Programs s;
     m_SwapChainFramebuffers := m_SwapChainFramebuffers s;
     m_Sampler := m_Sampler s |}.

Definition set_m_ResetRequired (v : bool) (s : ShaderProj) : ShaderProj :=
  {| m_BufferLayoutInitd := m_BufferLayoutInitd s;
     m_Paused := m_Paused s;
     m_ResetRequired := v;
     m_StaticResourcesInitd := m_StaticResourcesInitd s;
     m_CurrentDuration := m_CurrentDuration s;
     m_CurrentTime := m_CurrentTime s;
     m_CurrentTimeDelta := m_CurrentTimeDelta s;
     m_ActiveProgram := m_ActiveProgram s;
     m_FrameIndex := m_FrameIndex s;
     m_ScriptIndex := m_ScriptIndex s;
     m_ConstantBuffer := m_ConstantBuffer s;
     m_DummyCubemap := m_DummyCubemap s;
     m_DummyTexture := m_DummyTexture s;
     m_DummyVolume := m_DummyVolume s;
     m_Images := m_Images s;
     m_BlitDescriptorSets := m_BlitDescriptorSets s;
     m_SwapChainLayoutInitd := m_SwapChainLayoutInitd s;
     m_Script := m_Script s;
     m_Programs := m_Programs s;
     m_SwapChainFramebuffers := m_SwapChainFramebuffers s;
     m_Sampler := m_Sampler s |}.

Definition set_m_StaticResourcesInitd (v : bool) (s : ShaderProj) : ShaderProj :=
  {| m_BufferLayoutInitd := m_BufferLayoutInitd s;
     m_Paused := m_Paused s;
     m_ResetRequired := m_ResetRequired s;
     m_StaticResourcesInitd := v;
     m_CurrentDuration := m_CurrentDuration s;
     m_CurrentTime := m_CurrentTime s;
     m_CurrentTimeDelta := m_CurrentTimeDelta s;
     m_ActiveProgram := m_ActiveProgram s;
     m_FrameIndex := m_FrameIndex s;
     m_ScriptIndex := m_ScriptIndex s;
     m_ConstantBuffer := m_ConstantBuffer s;
     m_DummyCubemap := m_DummyCubemap s;
     m_DummyTexture := m_DummyTexture s;
     m_DummyVolume := m_DummyVolume s;
     m_Images := m_Images s;
     m_BlitDescriptorSets := m_BlitDescriptorSets s;
     m_SwapChainLayoutInitd := m_SwapChainLayoutInitd s;
     m_Script := m_Script s;
     m_Programs := m_Programs s;
     m_SwapChainFramebuffers := m_SwapChainFramebuffers s;
     m_Sampler := m_Sampler s |}.

Definition set_m_CurrentDuration (v : Q) (s : ShaderProj) : ShaderProj :=
  {| m_BufferLayoutInitd := m_BufferLayoutInitd s;
     m_Paused := m_Paused s;
     m_ResetRequired := m_ResetRequired s;
     m_StaticResourcesInitd := m_StaticResourcesInitd s;
     m_CurrentDuration := v;
     m_CurrentTime := m_CurrentTime s;
     m_CurrentTimeDelta := m_CurrentTimeDelta s;
     m_ActiveProgram := m_ActiveProgram s;
     m_FrameIndex := m_FrameIndex s;
     m_ScriptIndex := m_ScriptIndex s;
     m_ConstantBuffer := m_ConstantBuffer s;
     m_DummyCubemap := m_DummyCubemap s;
     m_DummyTexture := m_DummyTexture s;
     m_DummyVolume := m_DummyVolume s;
     m_Images := m_Images s;
     m_BlitDescriptorSets := m_BlitDescriptorSets s;
     m_SwapChainLayoutInitd := m_SwapChainLayoutInitd s;
     m_Script := m_Script s;
     m_Programs := m_Programs s;
     m_SwapChainFramebuffers := m_SwapChainFramebuffers s;
     m_Sampler := m_Sampler s |}.

Definition set_m_CurrentTime (v : Q) (s : ShaderProj) : ShaderProj :=
  {| m_BufferLayoutInitd := m_BufferLayoutInitd s;
     m_Paused := m_Paused s;
     m_ResetRequired := m_ResetRequired s;
     m_StaticResourcesInitd := m_StaticResourcesInitd s;
     m_CurrentDuration := m_CurrentDuration s;
     m_CurrentTime := v;
     m_CurrentTimeDelta := m_CurrentTimeDelta s;
     m_ActiveProgram := m_ActiveProgram s;
     m_FrameIndex := m_FrameIndex s;
     m_ScriptIndex := m_ScriptIndex s;
     m_ConstantBuffer := m_ConstantBuffer s;
     m_DummyCubemap := m_DummyCubemap s;
     m_DummyTexture := m_DummyTexture s;
     m_DummyVolume := m_DummyVolume s;
     m_Images := m_Images s;
     m_BlitDescriptorSets := m_BlitDescriptorSets s;
     m_SwapChainLayoutInitd := m_SwapChainLayoutInitd s;
     m_Script := m_Script s;
     m_Programs := m_Programs s;
     m_SwapChainFramebuffers := m_SwapChainFramebuffers s;
     m_Sampler := m_Sampler s |}.

Definition set_m_CurrentTimeDelta (v : Q) (s : ShaderProj) : ShaderProj :=
  {| m_BufferLayoutInitd := m_BufferLayoutInitd s;
     m_Paused := m_Paused s;
     m_ResetRequired := m_ResetRequired s;
     m_StaticResourcesInitd := m_StaticResourcesInitd s;
     m_CurrentDuration := m_CurrentDuration s;
     m_CurrentTime := m_CurrentTime s;
     m_CurrentTimeDelta := v;
     m_ActiveProgram := m_ActiveProgram s;
     m_FrameIndex := m_FrameIndex s;
     m_ScriptIndex := m_ScriptIndex s;
     m_ConstantBuffer := m_ConstantBuffer s;
     m_DummyCubemap := m_DummyCubemap s;
     m_DummyTexture := m_DummyTexture s;
     m_DummyVolume := m_DummyVolume s;
     m_Images := m_Images s;
     m_BlitDescriptorSets := m_BlitDescriptorSets s;
     m_SwapChainLayoutInitd := m_SwapChainLayoutInitd s;
     m_Script := m_Script s;
     m_Programs := m_Programs s;
     m_SwapChainFramebuffers := m_SwapChainFramebuffers s;
     m_Sampler := m_Sampler s |}.

Definition set_m_ActiveProgram (v : Z) (s : ShaderProj) : ShaderProj :=
  {| m_BufferLayoutInitd := m_BufferLayoutInitd s;
     m_Paused := m_Paused s;
     m_ResetRequired := m_ResetRequired s;
     m_StaticResourcesInitd := m_StaticResourcesInitd s;
     m_CurrentDuration := m_CurrentDuration s;
     m_CurrentTime := m_CurrentTime s;
     m_CurrentTimeDelta := m_CurrentTimeDelta s;
     m_ActiveProgram := v;
     m_FrameIndex := m_FrameIndex s;
     m_ScriptIndex := m_ScriptIndex s;
     m_ConstantBuffer := m_ConstantBuffer s;
     m_DummyCubemap := m_DummyCubemap s;
     m_DummyTexture := m_DummyTexture s;
     m_DummyVolume := m_DummyVolume s;
     m_Images := m_Images s;
     m_BlitDescriptorSets := m_BlitDescriptorSets s;
     m_SwapChainLayoutInitd := m_SwapChainLayoutInitd s;
     m_Script := m_Script s;
     m_Programs := m_Programs s;
     m_SwapChainFramebuffers := m_SwapChainFramebuffers s;
     m_Sampler := m_Sampler s |}.

Definition set_m_FrameIndex (v : Z) (s : ShaderProj) : ShaderProj :=
  {| m_BufferLayoutInitd := m_BufferLayoutInitd s;
     m_Paused := m_Paused s;
     m_ResetRequired := m_ResetRequired s;
     m_StaticResourcesInitd := m_StaticResourcesInitd s;
     m_CurrentDuration := m_CurrentDuration s;
     m_CurrentTime := m_CurrentTime s;
     m_CurrentTimeDelta := m_CurrentTimeDelta s;
     m_ActiveProgram := m_ActiveProgram s;
     m_FrameIndex := v;
     m_ScriptIndex := m_ScriptIndex s;
     m_ConstantBuffer := m_ConstantBuffer s;
     m_DummyCubemap := m_DummyCubemap s;
     m_DummyTexture := m_DummyTexture s;
     m_DummyVolume := m_DummyVolume s;
     m_Images := m_Images s;
     m_BlitDescriptorSets := m_BlitDescriptorSets s;
     m_SwapChainLayoutInitd := m_SwapChainLayoutInitd s;
     m_Script := m_Script s;
     m_Programs := m_Programs s;
     m_SwapChainFramebuffers := m_SwapChainFramebuffers s;
     m_Sampler := m_Sampler s |}.

Definition set_m_ScriptIndex (v : Z) (s : ShaderProj) : ShaderProj :=
  {| m_BufferLayoutInitd := m_BufferLayoutInitd s;
     m_Paused := m_Paused s;
     m_ResetRequired := m_ResetRequired s;
     m_StaticResourcesInitd := m_StaticResourcesInitd s;
     m_CurrentDuration := m_CurrentDuration s;
     m_CurrentTime := m_CurrentTime s;
     m_CurrentTimeDelta := m_CurrentTimeDelta s;
     m_ActiveProgram := m_ActiveProgram s;
     m_FrameIndex := m_FrameIndex s;
     m_ScriptIndex := v;
     m_ConstantBuffer := m_ConstantBuffer s;
     m_DummyCubemap := m_DummyCubemap s;
     m_DummyTexture := m_DummyTexture s;
     m_DummyVolume := m_DummyVolume s;
     m_Images := m_Images s;
     m_BlitDescriptorSets := m_BlitDescriptorSets s;
     m_SwapChainLayoutInitd := m_SwapChainLayoutInitd s;
     m_Script := m_Script s;
     m_Programs := m_Programs s;
     m_SwapChainFramebuffers := m_SwapChainFramebuffers s;
     m_Sampler := m_Sampler s |}.

Definition set_m_Images (v : list Image) (s : ShaderProj) : ShaderProj :=
  {| m_BufferLayoutInitd := m_BufferLayoutInitd s;
     m_Paused := m_Paused s;
     m_ResetRequired := m_ResetRequired s;
     m_StaticResourcesInitd := m_StaticResourcesInitd s;
     m_CurrentDuration := m_CurrentDuration s;
     m_CurrentTime := m_CurrentTime s;
     m_CurrentTimeDelta := m_CurrentTimeDelta s;
     m_ActiveProgram := m_ActiveProgram s;
     m_FrameIndex := m_FrameIndex s;
     m_ScriptIndex := m_ScriptIndex s;
     m_ConstantBuffer := m_ConstantBuffer s;
     m_DummyCubemap := m_DummyCubemap s;
     m_DummyTexture := m_DummyTexture s;
     m_DummyVolume := m_DummyVolume s;
     m_Images := v;
     m_BlitDescriptorSets := m_BlitDescriptorSets s;
     m_SwapChainLayoutInitd := m_SwapChainLayoutInitd s;
     m_Script := m_Script s;
     m_Programs := m_Programs s;
     m_SwapChainFramebuffers := m_SwapChainFramebuffers s;
     m_Sampler := m_Sampler s |}.

Definition set_m_SwapChainLayoutInitd (v : list bool) (s : ShaderProj) : ShaderProj :=
  {| m_BufferLayoutInitd := m_BufferLayoutInitd s;
     m_Paused := m_Paused s;
     m_ResetRequired := m_ResetRequired s;
     m_StaticResourcesInitd := m_StaticResourcesInitd s;
     m_CurrentDuration := m_CurrentDuration s;
     m_CurrentTime := m_CurrentTime s;
     m_CurrentTimeDelta := m_CurrentTimeDelta s;
     m_ActiveProgram := m_ActiveProgram s;
     m_FrameIndex := m_FrameIndex s;
     m_ScriptIndex := m_ScriptIndex s;
     m_ConstantBuffer := m_ConstantBuffer s;
     m_DummyCubemap := m_DummyCubemap s;
     m_DummyTexture := m_DummyTexture s;
     m_DummyVolume := m_DummyVolume s;
     m_Images := m_Images s;
     m_BlitDescriptorSets := m_BlitDescriptorSets s;
     m_SwapChainLayoutInitd := v;
     m_Script := m_Script s;
     m_Programs := m_Programs s;
     m_SwapChainFramebuffers := m_SwapChainFramebuffers s;
     m_Sampler := m_Sampler s |}.

Definition set_m_Script (v : list ScriptEntry) (s : ShaderProj) : ShaderProj :=
  {| m_BufferLayoutInitd := m_BufferLayoutInitd s;
     m_Paused := m_Paused s;
     m_ResetRequired := m_ResetRequired s;
     m_StaticResourcesInitd := m_StaticResourcesInitd s;
     m_CurrentDuration := m_CurrentDuration s;
     m_CurrentTime := m_CurrentTime s;
     m_CurrentTimeDelta := m_CurrentTimeDelta s;
     m_ActiveProgram := m_ActiveProgram s;
     m_FrameIndex := m_FrameIndex s;
     m_ScriptIndex := m_ScriptIndex s;
     m_ConstantBuffer := m_ConstantBuffer s;
     m_DummyCubemap := m_DummyCubemap s;
     m_DummyTexture := m_DummyTexture s;
     m_DummyVolume := m_DummyVolume s;
     m_Images := m_Images s;
     m_BlitDescriptorSets := m_BlitDescriptorSets s;
     m_SwapChainLayoutInitd := m_SwapChainLayoutInitd s;
     m_Script := v;
     m_Programs := m_Programs s;
     m_SwapChainFramebuffers := m_SwapChainFramebuffers s;
     m_Sampler := m_Sampler s |}.

Definition set_m_Programs (v : list ShProgram) (s : ShaderProj) : ShaderProj :=
  {| m_BufferLayoutInitd := m_BufferLayoutInitd s;
     m_Paused := m_Paused s;
     m_ResetRequired := m_ResetRequired s;
     m_StaticResourcesInitd := m_StaticResourcesInitd s;
     m_CurrentDuration := m_CurrentDuration s;
     m_CurrentTime := m_CurrentTime s;
     m_CurrentTimeDelta := m_CurrentTimeDelta s;
     m_ActiveProgram := m_ActiveProgram s;
     m_FrameIndex := m_FrameIndex s;
     m_ScriptIndex := m_ScriptIndex s;
     m_ConstantBuffer := m_ConstantBuffer s;
     m_DummyCubemap := m_DummyCubemap s;
     m_DummyTexture := m_DummyTexture s;
     m_DummyVolume := m_DummyVolume s;
     m_Images := m_Images s;
     m_BlitDescriptorSets := m_BlitDescriptorSets s;
     m_SwapChainLayoutInitd := m_SwapChainLayoutInitd s;
     m_Script := m_Script s;
     m_Programs := v;
     m_SwapChainFramebuffers := m_SwapChainFramebuffers s;
     m_Sampler := m_Sampler s |}.

Definition set_m_SwapChainFramebuffers (v : list vk.Handle) (s : ShaderProj) : ShaderProj :=
  {| m_BufferLayoutInitd := m_BufferLayoutInitd s;
     m_Paused := m_Paused s;
     m_ResetRequired := m_ResetRequired s;
     m_StaticResourcesInitd := m_StaticResourcesInitd s;
     m_CurrentDuration := m_CurrentDuration s;
     m_CurrentTime := m_CurrentTime s;
     m_CurrentTimeDelta := m_CurrentTimeDelta s;
     m_ActiveProgram := m_ActiveProgram s;
     m_FrameIndex := m_FrameIndex s;
     m_ScriptIndex := m_ScriptIndex s;
     m_ConstantBuffer := m_ConstantBuffer s;
     m_DummyCubemap := m_DummyCubemap s;
     m_DummyTexture := m_DummyTexture s;
     m_DummyVolume := m_DummyVolume s;
     m_Images := m_Images s;
     m_BlitDescriptorSets := m_BlitDescriptorSets s;
     m_SwapChainLayoutInitd := m_SwapChainLayoutInitd s;
     m_Script := m_Script s;
     m_Programs := m_Programs s;
     m_SwapChainFramebuffers := v;
     m_Sampler := m_Sampler s |}.

(** A freshly constructed application, with the objects [Init] creates. *)
Definition ShaderProj_ctor (programs : list ShProgram) : ShaderProj :=
  {| m_BufferLayoutInitd := false;
     m_Paused := false;
     m_ResetRequired := true;
     m_StaticResourcesInitd := false;
     m_CurrentDuration := 0;
     m_CurrentTime := 0;
     m_CurrentTimeDelta := 0;
     m_ActiveProgram := 0;
     m_FrameIndex := 0;
     m_ScriptIndex := 0;
     m_ConstantBuffer := Buffer_default;
     m_DummyCubemap := Image_default;
     m_DummyTexture := Image_default;
     m_DummyVolume := Image_default;
     m_Images := replicate c_RenderImageCount Image_default;
     m_BlitDescriptorSets := replicate c_RenderImageCount vk.null;
     m_SwapChainLayoutInitd := [];
     m_Script := [];
     m_Programs := programs;
     m_SwapChainFramebuffers := [];
     m_Sampler := vk.null |}.

(** The program search of [SetScript]: the index of the first program with
    the given name, [-1] when there is none; [index] is the index of the
    head of [programs]. *)
Fixpoint findProgram (programs : list ShProgram) (name : string)
    (index : Z) : Z :=
  match programs with
  | [] => -1
  | program :: rest =>
      if String.eqb (GetName program) name then index
      else findProgram rest name (index + 1)
  end.

Definition SetScript_entry (programs : list ShProgram) (baseInterval : Q)
    (m_Script : list ScriptEntry) (entry : ScriptEntry) : list ScriptEntry :=
  let entry :=
    mkScriptEntry (programName entry) (-1)
                  (duration entry * baseInterval)%Q in
  let entry :=
    mkScriptEntry (programName entry)
                  (findProgram programs (programName entry) 0)
                  (duration entry) in
  if programIndex entry <? 0 then m_Script else m_Script ++ [entry].

Definition SetScript (script : list ScriptEntry) (baseInterval : Q)
    (s : ShaderProj) : bool * ShaderProj :=
  let s :=
    set_m_Script
      (foldl (SetScript_entry (m_Programs s) baseInterval) (m_Script s) script)
      s in
  match m_Script s with
  | [] => (false, s)
  | first :: _ =>
      (true,
       set_m_CurrentDuration (duration first)
         (set_m_ActiveProgram (programIndex first) s))
  end.

(** The tail of [NextProgram] and [PreviousProgram]: [None] when
    [m_Script[m_ScriptIndex]] is outside the script. *)
Definition selectEntry (s : ShaderProj) : option ShaderProj :=
  entry ← at_int (m_Script s) (m_ScriptIndex s);
  Some (set_m_ResetRequired true
          (set_m_CurrentDuration (duration entry)
             (set_m_ActiveProgram (programIndex entry) s))).

Definition PreviousProgram (s : ShaderProj) : option ShaderProj :=
  match m_Script s with
  | [] => Some s
  | _ =>
      let s := set_m_ScriptIndex (m_ScriptIndex s - 1) s in
      let s :=
        if m_ScriptIndex s <? 0
        then set_m_ScriptIndex (Z.of_nat (length (m_Script s)) - 1) s
        else s in
      selectEntry s
  end.

Definition NextProgram (s : ShaderProj) : option ShaderProj :=
  match m_Script s with
  | [] => Some s
  | _ =>
      let s :=
        set_m_ScriptIndex
          (Z.rem (m_ScriptIndex s + 1) (Z.of_nat (length (m_Script s)))) s in
      selectEntry s
  end.

(** [a > b] on times. *)
Definition Qgtb (a b : Q) : bool := negb (Qle_bool a b).

Definition Animate (fElapsedTimeSeconds : Q) (s : ShaderProj)
    : option ShaderProj :=
  if m_Paused s then Some s
  else
    let s := set_m_CurrentTime (m_CurrentTime s + fElapsedTimeSeconds)%Q s in
    let s := set_m_CurrentTimeDelta fElapsedTimeSeconds s in
    if Qgtb (m_CurrentDuration s) 0
       && Qgtb (m_CurrentTime s) (m_CurrentDuration s)
    then NextProgram s
    else Some s.

Definition BackBufferResizing (s : ShaderProj) : ShaderProj :=
  set_m_SwapChainFramebuffers []
    (set_m_Images (DestroyCommittedImage <$> m_Images s) s).

(** The blend factor block of [Render]. *)
Definition crossfadeFactor (m_CurrentTime m_CurrentDuration : Q) : Q :=
  let factor := 1%Q in
  if Qgtb m_CurrentDuration 0 then
    let transitionTime := (1 # 2)%Q in
    let factor :=
      (Qmin m_CurrentTime (m_CurrentDuration - m_CurrentTime)
       / transitionTime)%Q in
    Qmax 0 (Qmin 1 factor)
  else factor.

(** [++m_FrameIndex] on a 32-bit [int], two's complement. *)
Definition wrap_int32 (z : Z) : Z := (z + 2 ^ 31) mod 2 ^ 32 - 2 ^ 31.

(** [m_FrameIndex % c_HistoryLength]: the [int] is converted to
    [uint32_t] before the remainder is taken. *)
Definition historyIndexOf (m_FrameIndex : Z) : nat :=
  Z.to_nat ((m_FrameIndex mod 2 ^ 32) mod Z.of_nat c_HistoryLength).

(** What one frame receives from the window system and the driver: the
    window size, the swap-chain images with the index [BeginFrame]
    acquired, and the device that answers while pool image [index] is being
    created. *)
Record FrameEnv : Type := mkFrameEnv {
  env_width : Z;
  env_height : Z;
  env_physicalDevice : PhysicalDevice;
  env_device : nat → Device;
  env_swapChainImages : list vk.Handle;
  env_swapChainIndex : nat;
  env_createFramebuffer : vk.Handle → vk.Handle
}.

Definition GetSwapChainImageCount (env : FrameEnv) : nat :=
  length (env_swapChainImages env).

(** The pool images of [CreateBuffersAndBindings], created in index
    order. *)
Definition createPoolImages (env : FrameEnv) (count : nat)
    : option (list Image) :=
  mapM (λ index,
          returned
            (CreateCommittedImage (env_physicalDevice env)
               (env_device env index)
               (mkImageCreateInfo (env_width env) (env_height env) 1 1 1)))
       (seq 0 count).

Record ProgramBinding : Set := mkProgramBinding {
  pb_passes : list ShRenderpass;
  pb_writes : list DescriptorWrite;
  pb_log : list PassLog
}.

(** The inner loop of [CreateBuffersAndBindings] over the passes of one
    program: every pass is rebound in place, and sees the vector as the
    passes before it left it. *)
Definition bindProgram (common : CommonResources) (program : ShProgram)
    : option (ShProgram * list DescriptorWrite * list PassLog) :=
  r ← foldM (λ acc index,
               pass ← pb_passes acc !! index;
               b ← CreateBindingSets common (pb_passes acc) pass index;
               Some (mkProgramBinding (<[index := bsr_pass b]> (pb_passes acc))
                                      (pb_writes acc ++ bsr_writes b)
                                      (pb_log acc ++ bsr_log b)))
            (mkProgramBinding (GetPasses program) [] [])
            (seq 0 (length (GetPasses program)));
  Some (mkShProgram (m_CommonSourcePath program) (pb_passes r)
                    (m_ImagePassIndex program) (m_Name program),
        pb_writes r, pb_log r).

(** What [CreateBuffersAndBindings] leaves: the new state, the blit
    descriptor of every pool image (set, view), the descriptor writes of the
    passes and the log. *)
Record Rebuild : Type := mkRebuild {
  rb_state : ShaderProj;
  rb_blitWrites : list (vk.Handle * vk.Handle);
  rb_writes : list DescriptorWrite;
  rb_log : list PassLog
}.

(** [CreateBuffersAndBindings]: new pool images and their blit
    descriptors, cleared layout flags, the binding sets of every pass of
    every program, and the swap-chain framebuffers.  The pipelines and the
    per-pass framebuffers are device objects the model does not follow. *)
Definition CreateBuffersAndBindings (env : FrameEnv) (s : ShaderProj)
    : option Rebuild :=
  images ← createPoolImages env (length (m_Images s));
  blitWrites ←
    mapM (λ index,
            image ← images !! index;
            dstSet ← m_BlitDescriptorSets s !! index;
            Some (dstSet, img_imageView image))
         (seq 0 (length (m_Images s)));
  let s := set_m_Images images s in
  let s := set_m_BufferLayoutInitd false s in
  let s :=
    set_m_SwapChainLayoutInitd
      (replicate (GetSwapChainImageCount env) false) s in
  let common :=
    {| cr_height := env_height env;
       cr_width := env_width env;
       cr_constantBuffer := buf_buffer (m_ConstantBuffer s);
       cr_dummyCubemap := img_imageView (m_DummyCubemap s);
       cr_dummyTexture := img_imageView (m_DummyTexture s);
       cr_dummyVolume := img_imageView (m_DummyVolume s);
       cr_defaultSampler := m_Sampler s;
       cr_images := m_Images s |} in
  bound ← mapM (bindProgram common) (m_Programs s);
  let s := set_m_Programs (fmap (λ b, b.1.1) bound) s in
  (* assert(m_SwapChainFramebuffers.empty()) *)
  match m_SwapChainFramebuffers s with
  | [] =>
      let s :=
        set_m_SwapChainFramebuffers
          (env_createFramebuffer env <$> env_swapChainImages env) s in
      Some (mkRebuild s blitWrites (concat (fmap (λ b, b.1.2) bound))
                      (concat (fmap (λ b, b.2) bound)))
  | _ => None
  end.

(** A [ClearImage] call: image, layer count and the state before. *)
Record Clear : Set := mkClear {
  cl_image : vk.Handle;
  cl_layerCount : Z;
  cl_stateBefore : ImageState
}.

(** One iteration of the pass loop of [Render]. *)
Record PassExecution : Set := mkPassExecution {
  pe_pass : nat;
  pe_renderTargetIndex : nat;
  pe_dstImage : vk.Handle;
  pe_descriptorSet : vk.Handle;
  pe_barrierIn : ImageMemoryBarrier;
  pe_push : list (Z * Z * Z);
  pe_barrierOut : ImageMemoryBarrier
}.

(** What [Render] records for one frame, in program order. *)
Record Frame : Type := mkFrame {
  fr_rebuilt : option Rebuild;
  fr_clears : list Clear;
  fr_iFrame : Z;
  fr_iTime : Q;
  fr_historyIndex : nat;
  fr_passes : list PassExecution;
  fr_factor : Q;
  fr_finalBufferIndex : nat;
  fr_blitDescriptorSet : vk.Handle;
  fr_swapChainIndex : nat;
  fr_swapStateBefore : ImageState;
  fr_swapBarrierIn : ImageMemoryBarrier;
  fr_swapFramebuffer : vk.Handle;
  fr_swapBarrierOut : ImageMemoryBarrier
}.

(** The body of the pass loop: the render target of the history index, the
    barrier to [RenderTarget], the draw with the descriptor set of the
    history index and the push constants, and the barrier back. *)
Definition executePass (s : ShaderProj) (historyIndex : nat)
    (pass : ShRenderpass) : option PassExecution :=
  renderTargetIndex ← m_RenderTargetIndices pass !! historyIndex;
  dstImage ← m_Images s !! renderTargetIndex;
  let vkDstImage := img_image dstImage in
  vkDescriptorSet ← m_DescriptorSets pass !! historyIndex;
  barrierIn ← ImageBarrier vkDstImage IS_ShaderResource IS_RenderTarget 1 0 1;
  barrierOut ← ImageBarrier vkDstImage IS_RenderTarget IS_ShaderResource 1 0 1;
  Some (mkPassExecution (this pass) renderTargetIndex vkDstImage
                        vkDescriptorSet barrierIn
                        (m_Push_iChannelResolution pass) barrierOut).

(** [ShaderProj::Render], statement by statement.  The sleep while paused
    and the mouse uniforms are left out; [None] is an access outside an
    array or a failed assertion. *)
Definition Render (env : FrameEnv) (s : ShaderProj)
    : option (ShaderProj * Frame) :=
  image0 ← m_Images s !! 0%nat;
  rebuilt ←
    (if vk.is_null (img_image image0)
     then Some <$> CreateBuffersAndBindings env s
     else Some None);
  let s := match rebuilt with Some r => rb_state r | None => s end in
  let staticClears :=
    if negb (m_StaticResourcesInitd s) then
      [mkClear (img_image (m_DummyTexture s)) 1 IS_Undefined;
       mkClear (img_image (m_DummyCubemap s)) 6 IS_Undefined;
       mkClear (img_image (m_DummyVolume s)) 1 IS_Undefined]
    else [] in
  let s := set_m_StaticResourcesInitd true s in
  s ←
    (if m_ResetRequired s then
       _ ← at_int (m_Programs s) (m_ActiveProgram s);
       Some (set_m_ResetRequired false
               (set_m_CurrentTime 0 (set_m_FrameIndex 0 s)))
     else Some s);
  let bufferClears :=
    if negb (m_BufferLayoutInitd s) then
      (λ buffer,
         mkClear (img_image buffer) 1
                 (if m_BufferLayoutInitd s then IS_ShaderResource
                  else IS_Undefined)) <$> m_Images s
    else [] in
  let s := set_m_BufferLayoutInitd true s in
  program ← at_int (m_Programs s) (m_ActiveProgram s);
  let historyIndex := historyIndexOf (m_FrameIndex s) in
  passes ← mapM (executePass s historyIndex) (GetPasses program);
  let factor := crossfadeFactor (m_CurrentTime s) (m_CurrentDuration s) in
  let finalBufferIndex :=
    (GetImagePassIndex program * c_HistoryLength + historyIndex)%nat in
  let swapChainIndex := env_swapChainIndex env in
  vkDstImage ← env_swapChainImages env !! swapChainIndex;
  vkDescriptorSet ← m_BlitDescriptorSets s !! finalBufferIndex;
  initd ← m_SwapChainLayoutInitd s !! swapChainIndex;
  let stateBefore := if initd : bool then IS_Present else IS_Undefined in
  barrierIn ← ImageBarrier vkDstImage stateBefore IS_RenderTarget 1 0 1;
  let frameIndex := m_FrameIndex s in
  let s :=
    set_m_SwapChainLayoutInitd
      (<[swapChainIndex := true]> (m_SwapChainLayoutInitd s)) s in
  framebuffer ← m_SwapChainFramebuffers s !! swapChainIndex;
  barrierOut ← ImageBarrier vkDstImage IS_RenderTarget IS_Present 1 0 1;
  let s' := set_m_FrameIndex (wrap_int32 (m_FrameIndex s + 1)) s in
  Some (s',
        {| fr_rebuilt := rebuilt;
           fr_clears := staticClears ++ bufferClears;
           fr_iFrame := frameIndex;
           fr_iTime := m_CurrentTime s;
           fr_historyIndex := historyIndex;
           fr_passes := passes;
           fr_factor := factor;
           fr_finalBufferIndex := finalBufferIndex;
           fr_blitDescriptorSet := vkDescriptorSet;
           fr_swapChainIndex := swapChainIndex;
           fr_swapStateBefore := stateBefore;
           fr_swapBarrierIn := barrierIn;
           fr_swapFramebuffer := framebuffer;
           fr_swapBarrierOut := barrierOut |}).

(** ** The frame loop *)

(** What happens to the application between and at frames: time passes,
    the user switches programs, the back buffer is about to be resized (or
    the shaders were reloaded), a frame is rendered. *)
Inductive Event : Type :=
| EvAnimate (fElapsedTimeSeconds : Q)
| EvPreviousProgram
| EvNextProgram
| EvBackBufferResizing
| EvRender (env : FrameEnv).

Definition step (s : ShaderProj) (e : Event)
    : option (ShaderProj * list Frame) :=
  match e with
  | EvAnimate dt => s' ← Animate dt s; Some (s', [])
  | EvPreviousProgram => s' ← PreviousProgram s; Some (s', [])
  | EvNextProgram => s' ← NextProgram s; Some (s', [])
  | EvBackBufferResizing => Some (BackBufferResizing s, [])
  | EvRender env => r ← Render env s; Some (r.1, [r.2])
  end.

(** The frames rendered along a sequence of events, oldest first. *)
Fixpoint run (s : ShaderProj) (events : list Event)
    : option (ShaderProj * list Frame) :=
  match events with
  | [] => Some (s, [])
  | e :: rest =>
      r ← step s e;
      r' ← run r.1 rest;
      Some (r'.1, r.2 ++ r'.2)
  end.

(** ** The statements of the specification, in its own words *)

(** [clamp(x, lo, hi)]. *)
Definition clamp (x lo hi : Q) : Q := Qmin (Qmax x lo) hi.

(** "Crossfade factor = clamp(min(elapsed, duration − elapsed) /
    transitionWindow, 0, 1)". *)
Definition spec_crossfade (elapsed duration transitionWindow : Q) : Q :=
  clamp (Qmin elapsed (duration - elapsed) / transitionWindow) 0 1.

(** The transition window of [Render]. *)
Definition transitionWindow : Q := 1 # 2.

(** "The slot has been composited since the swap-chain flags were last
    (re)created": some earlier frame [g] rendered to [slot], and no frame
    after [g] up to now rebuilt the buffers. *)
Definition composited_since_creation (earlier : list Frame) (slot : nat)
    : Prop :=
  ∃ older g newer,
    earlier = older ++ g :: newer
    ∧ fr_swapChainIndex g = slot
    ∧ Forall (λ h, fr_rebuilt h = None) newer.

(** The other parity, [!frame]. *)
Definition opposite (frame : nat) : nat :=
  if (frame =? 0)%nat then 1%nat else 0%nat.

(** The flag of every slot says whether the slot has been composited since
    the flags were created. *)
Definition flags_track (s : ShaderProj) (past : list Frame) : Prop :=
  ∀ slot (b : bool),
    m_SwapChainLayoutInitd s !! slot = Some b →
    (b = true ↔ composited_since_creation past slot).

(** The state in which the frame proper runs: the one [Render] was called
    in, or the one [CreateBuffersAndBindings] left. *)
Definition frame_state (s : ShaderProj) (fr : Frame) : ShaderProj :=
  match fr_rebuilt fr with
  | Some r => rb_state r
  | None => s
  end.

(** A buffer input id resolves to the pass [q] at index [k] of [passes]:
    [q] is the first pass whose output id is the id. *)
Definition resolves_to (passes : list ShRenderpass) (bufferId : string)
    (k : nat) (q : ShRenderpass) : Prop :=
  passes !! k = Some q
  ∧ m_OutputId q = bufferId
  ∧ ∀ j q', (j < k)%nat → passes !! j = Some q' → m_OutputId q' ≠ bufferId.

(** The sizes of the fixed-size arrays of a pass, and channels and pass
    counts within them: what the C++ types and [c_MaxPassInputs],
    [c_RenderImageCount] demand of a declaration. *)
Definition well_sized (common : CommonResources)
    (passes : list ShRenderpass) (self : ShRenderpass) (outputIndex : nat)
    : Prop :=
  length (m_StaticInputs self) = c_MaxPassInputs
  ∧ length (m_Samplers self) = c_MaxPassInputs
  ∧ length (m_Push_iChannelResolution self) = c_MaxPassInputs
  ∧ length (m_DescriptorSets self) = c_HistoryLength
  ∧ length (m_RenderTargetIndices self) = c_HistoryLength
  ∧ length (m_RenderTargetViews self) = c_HistoryLength
  ∧ length (cr_images common) = c_RenderImageCount
  ∧ (length passes ≤ c_MaxPasses + 1)%nat
  ∧ (outputIndex < c_MaxPasses + 1)%nat
  ∧ Forall (λ node, 0 ≤ in_channel node < Z.of_nat c_MaxPassInputs)
           (pn_inputs (m_Declaration self)).

(** The terminal pass is the last pass of the program. *)
Definition terminal_last (p : ShProgram) : Prop :=
  (GetImagePassIndex p + 1 = length (GetPasses p))%nat.

(** ** Concrete inputs *)

(** A device on which object creation succeeds and every allocation
    fails (the driver answers with an error code), with one device-local
    memory type. *)
Definition device_out_of_memory : Device :=
  {| createBuffer := λ _, (vk.eSuccess, 7%N);
     getBufferMemoryRequirements := λ _, mkMemoryRequirements 64 1;
     createImage := λ _, (vk.eSuccess, 9%N);
     getImageMemoryRequirements := λ _, mkMemoryRequirements 64 1;
     allocateMemory := λ _ _, (vk.eError, vk.null);
     bindBufferMemory := λ _ _ _, vk.eSuccess;
     bindImageMemory := λ _ _ _, vk.eSuccess;
     createImageView := λ _ _, (vk.eSuccess, 11%N) |}.


Definition one_local_memory_type : PhysicalDevice :=
  mkPhysicalDevice [vk.eDeviceLocal].

(** A source written at time 1 and a newer artifact, written at time 2,
    that cannot be read. *)
Definition files_unreadable_artifact : FileSystem :=
  <[("pass", ".glsl") := mkFile 1 (Some "void mainImage() {}"%string)]>
    (<[("pass", ".spv") := mkFile 2 None]> ∅).

(** A source written at time 1 and a readable artifact written at time 2;
    and the same two files with other contents. *)
Definition files_fresh_artifact : FileSystem :=
  <[("pass", ".glsl") := mkFile 1 (Some "void mainImage() {}"%string)]>
    (<[("pass", ".spv") := mkFile 2 (Some "spirv"%string)]> ∅).

Definition files_fresh_artifact_edited : FileSystem :=
  <[("pass", ".glsl") := mkFile 1 (Some "// edited"%string)]>
    (<[("pass", ".spv") := mkFile 2 (Some "other"%string)]> ∅).



(** A program with a feedback buffer: pass "A" samples its own output on
    channel 0 and an undeclared buffer on channel 1; the image pass samples
    "A" on channel 0. *)
Definition demo_nodes : list PassNode :=
  [mkPassNode "common" "" [] "common.glsl";
   mkPassNode "buffer" "A"
     [mkInputNode "buffer" "A" 0 ""; mkInputNode "buffer" "missing" 1 ""]
     "a.glsl";
   mkPassNode "image" "out" [mkInputNode "buffer" "A" 0 ""] "image.glsl"].

Definition demo_program (name : string) (heap : nat) : ShProgram :=
  lr_program (Load (ShProgram_ctor name) (Some demo_nodes) heap).

Definition demo_programs : list ShProgram :=
  [demo_program "foo" 100; demo_program "bar" 200].

(** The script ["foo", {"program": "bar", "duration": 5}]. *)
Definition demo_script_file : list ScriptNode :=
  [SN_String "foo"; SN_Object "bar" (Some 5%Q)].

Definition demo_script : list ScriptEntry :=
  (LoadScript (Some demo_script_file) []).2.

(** The application after [SetScript] with interval 2. *)
Definition demo_app : ShaderProj :=
  (SetScript demo_script 2 (ShaderProj_ctor demo_programs)).2.

(** A driver that creates every object: the handles of pool image [index]
    are [10 + 3 * index] and the two that follow. *)
Definition demo_device (index : nat) : Device :=
  {| createBuffer := λ _, (vk.eSuccess, 7%N);
     getBufferMemoryRequirements := λ _, mkMemoryRequirements 64 1;
     createImage := λ _, (vk.eSuccess, N.of_nat (10 + 3 * index));
     getImageMemoryRequirements := λ _, mkMemoryRequirements 64 1;
     allocateMemory := λ _ _, (vk.eSuccess, N.of_nat (11 + 3 * index));
     bindBufferMemory := λ _ _ _, vk.eSuccess;
     bindImageMemory := λ _ _ _, vk.eSuccess;
     createImageView := λ _ _, (vk.eSuccess, N.of_nat (12 + 3 * index)) |}.

(** A frame on a 640x480 window with three swap-chain images. *)
Definition demo_env (swapChainIndex : nat) : FrameEnv :=
  {| env_width := 640;
     env_height := 480;
     env_physicalDevice := one_local_memory_type;
     env_device := demo_device;
     env_swapChainImages := [201%N; 202%N; 203%N];
     env_swapChainIndex := swapChainIndex;
     env_createFramebuffer := λ view, (view + 100)%N |}.

(** The two passes of the demo program and the resources they bind
    against: ten pool images with views [12 + 3 * index], and distinct
    dummy views. *)
Definition demo_input_self : InputNode := mkInputNode "buffer" "A" 0 "".
Definition demo_input_missing : InputNode :=
  mkInputNode "buffer" "missing" 1 "".

Definition demo_pass_A : ShRenderpass :=
  ShRenderpass_ctor 100 "foo"
    (mkPassNode "buffer" "A" [demo_input_self; demo_input_missing] "a.glsl").

Definition demo_pass_image : ShRenderpass :=
  ShRenderpass_ctor 101 "foo"
    (mkPassNode "image" "out" [demo_input_self] "image.glsl").

Definition demo_passes : list ShRenderpass := [demo_pass_A; demo_pass_image].

Definition demo_common : CommonResources :=
  {| cr_height := 480;
     cr_width := 640;
     cr_constantBuffer := 5%N;
     cr_dummyCubemap := 2%N;
     cr_dummyTexture := 1%N;
     cr_dummyVolume := 3%N;
     cr_defaultSampler := 4%N;
     cr_images :=
       (λ index, mkImage (N.of_nat (11 + 3 * index))
                         (N.of_nat (10 + 3 * index))
                         (N.of_nat (12 + 3 * index)) 640 480 1)
         <$> seq 0 c_RenderImageCount |}.

(** Four frames: slot 0, slot 1, slot 0 again, and slot 0 once more after
    the back buffer was resized. *)
Definition demo_events : list Event :=
  [EvRender (demo_env 0); EvAnimate (21 # 10); EvRender (demo_env 1);
   EvRender (demo_env 0); EvBackBufferResizing; EvRender (demo_env 0)].

(** ** Image.cpp: loading textures and volumes *)

(** The commands the loaders and [ClearImage] record. *)
Inductive Command : Set :=
| CmdPipelineBarrier (barrier : ImageMemoryBarrier)
| CmdCopyBufferToImage (srcBuffer dstImage : vk.Handle)
    (dstImageLayout : vk.ImageLayout)
    (bufferRowLength bufferImageHeight mipLevel : Z) (width height depth : Z)
| CmdBlitImage (srcImage : vk.Handle) (srcImageLayout : vk.ImageLayout)
    (dstImage : vk.Handle) (dstImageLayout : vk.ImageLayout)
    (srcMipLevel dstMipLevel : Z)
    (srcWidth srcHeight dstWidth dstHeight : Z)
| CmdClearColorImage (image : vk.Handle) (imageLayout : vk.ImageLayout)
    (layerCount levelCount : Z).

Inductive LoaderLog : Set :=
| LogUploadBufferFailed (size : Z)
| LogMapFailed
| LogLoadImageFailed (fileName : string)
| LogCreateImageFailed (width height mipLevels : Z)
| LogCreateVolumeFailed (width height depth channels : Z)
| LogLoaded (fileName : string).

(** What a loader does besides returning, in program order. *)
Inductive Effect : Set :=
| EfLog (message : LoaderLog)
| EfBegin
| EfCommand (command : Command)
| EfEnd
| EfSubmit
| EfWaitIdle
| EfMemcpy (bytes : Z)
| EfDestroyBuffer (buffer : Buffer)
| EfDestroyImage (image : Image).

(** [g_ImageCache], keyed by file name. *)
Abbreviation ImageCache := (gmap string Image).

Definition generic_string (p : path) : string := (p.1 ++ p.2)%string.

(** Conversions between [int], [uint32_t] and [size_t], and [int]
    multiplication, undefined when it overflows. *)
Definition to_uint32 (z : Z) : Z := z mod 2 ^ 32.
Definition to_size_t (z : Z) : Z := z mod 2 ^ 64.
Definition mul_int (a b : Z) : option Z :=
  let r := a * b in
  if (r <? - 2 ^ 31) || (2 ^ 31 - 1 <? r) then None else Some r.
Definition mul_uint32 (a b : Z) : Z := (a * b) mod 2 ^ 32.

(** [ClearImage]: two barriers around the clear; the omitted arguments of
    [ImageBarrier] are [baseMipLevel = 0] and [mipLevels = 1]. *)
Definition ClearImage (vkImage : vk.Handle) (layerCount : Z)
    (stateBefore : ImageState) : option (list Command) :=
  barrierIn ← ImageBarrier vkImage stateBefore IS_TransferDst layerCount 0 1;
  barrierOut ← ImageBarrier vkImage IS_TransferDst IS_ShaderResource
                            layerCount 0 1;
  Some [CmdPipelineBarrier barrierIn;
        CmdClearColorImage vkImage vk.eTransferDstOptimal layerCount 1;
        CmdPipelineBarrier barrierOut].

(** The mip counting loop of [LoadTexture]:
    [while (mipWidth > 1 && mipHeight > 1)].  [fuel] bounds the number of
    iterations; [None] is a loop still running when it is used up. *)
Fixpoint mipLevelLoop (fuel : nat) (mipWidth mipHeight mipLevels : Z)
    : option Z :=
  if (1 <? mipWidth) && (1 <? mipHeight) then
    match fuel with
    | O => None
    | S fuel =>
        mipLevelLoop fuel (Z.max (Z.shiftr mipWidth 1) 1)
                     (Z.max (Z.shiftr mipHeight 1) 1) (mipLevels + 1)
    end
  else Some mipLevels.

(** The volume file header: [char magic[4]] and four [uint32_t], read in
    place from the file's bytes on a little-endian machine;
    [sizeof(VolumeHeader)] is 20. *)
Record VolumeHeader : Set := mkVolumeHeader {
  vh_magic : list Z;
  vh_width : Z;
  vh_height : Z;
  vh_depth : Z;
  vh_channels : Z
}.

Definition sizeof_VolumeHeader : Z := 20.

Definition byte_at (data : blob) (offset : nat) : Z :=
  match String.get offset data with
  | Some c => Z.of_N (Ascii.N_of_ascii c)
  | None => 0
  end.

Definition uint32_at (data : blob) (offset : nat) : Z :=
  byte_at data offset + 2 ^ 8 * byte_at data (offset + 1)
  + 2 ^ 16 * byte_at data (offset + 2) + 2 ^ 24 * byte_at data (offset + 3).

Definition headerOf (data : blob) : VolumeHeader :=
  {| vh_magic := byte_at data <$> [0; 1; 2; 3]%nat;
     vh_width := uint32_at data 4;
     vh_height := uint32_at data 8;
     vh_depth := uint32_at data 12;
     vh_channels := uint32_at data 16 |}.

Definition blob_size (data : blob) : Z := Z.of_nat (String.length data).

(** The four early returns of [LoadVolume] on the file's bytes: [true]
    when none of them is taken. *)
Definition volumeAccepted (data : blob) : bool :=
  if blob_size data <? sizeof_VolumeHeader then false
  else
    let header := headerOf data in
    if negb (bool_decide (vh_magic header = [66; 73; 78; 0])) then false
    else if negb (blob_size data
                  =? sizeof_VolumeHeader
                     + mul_uint32
                         (mul_uint32
                            (mul_uint32 (vh_width header) (vh_height header))
                            (vh_depth header))
                         (vh_channels header))
    then false
    else if (vh_width header =? 0) || (vh_height header =? 0)
            || (vh_depth header =? 0) || (vh_channels header =? 0)
            || (4 <? vh_channels header)
    then false
    else true.

Section Loaders.

Variable physicalDevice : PhysicalDevice.
Variable device : Device.
(** [device.mapMemory(memory, 0, size, ...)]: whether it succeeds with a
    pointer. *)
Variable mapMemory : vk.Handle → Z → bool.
(** [queue.submit] of the recorded commands. *)
Variable submit : list Command → vk.Result.
(** [stbi_load]: width and height of the decoded image, [None] when the
    file cannot be decoded. *)
Variable stbi_load : string → option (Z * Z).
(** The bytes [ReadFile(fileName, data)] leaves in a fresh blob. *)
Variable readData : path → blob.

(** [UploadImage]: the staging buffer ([Buffer()] on failure) and its
    effects. *)
Definition UploadImage (image : vk.Handle) (width height depth channels : Z)
    : option (Buffer * list Effect) :=
  let memRequirements := getImageMemoryRequirements device image in
  let bufferDesc := mkBufferCreateInfo (mr_size memRequirements) in
  buffer ← returned (CreateCommittedBuffer physicalDevice device bufferDesc
                       vk.eHostVisible);
  if vk.is_null (buf_buffer buffer) then
    Some (Buffer_default,
          [EfLog (LogUploadBufferFailed (bci_size bufferDesc))])
  else if negb (mapMemory (buf_deviceMemory buffer) (bci_size bufferDesc))
  then
    Some (Buffer_default,
          [EfLog LogMapFailed;
           EfDestroyBuffer buffer])
  else
    wh ← mul_int width height;
    whd ← mul_int wh depth;
    bytes ← mul_int whd channels;
    Some (buffer,
          [EfMemcpy (to_size_t bytes);
           EfCommand
             (CmdCopyBufferToImage (buf_buffer buffer) image
                vk.eTransferDstOptimal (to_uint32 width) (to_uint32 height) 0
                (to_uint32 width) (to_uint32 height) (to_uint32 depth))]).

(** One iteration of the blit loop of [LoadTexture]. *)
Definition blitMip (image : vk.Handle) (st : Z * Z * list Effect)
    (mipLevel : Z) : option (Z * Z * list Effect) :=
  let '(mipWidth, mipHeight, effects) := st in
  let dstMipWidth := Z.max (Z.shiftr mipWidth 1) 1 in
  let dstMipHeight := Z.max (Z.shiftr mipHeight 1) 1 in
  toSrc ← ImageBarrier image IS_TransferDst IS_TransferSrc 1 (mipLevel - 1) 1;
  toResource ← ImageBarrier image IS_TransferSrc IS_ShaderResource 1
                            (mipLevel - 1) 1;
  Some (dstMipWidth, dstMipHeight,
        effects
        ++ [EfCommand (CmdPipelineBarrier toSrc);
            EfCommand
              (CmdBlitImage image vk.eTransferSrcOptimal
                 image vk.eTransferDstOptimal (mipLevel - 1) mipLevel
                 mipWidth mipHeight dstMipWidth dstMipHeight);
            EfCommand (CmdPipelineBarrier toResource)]).

(** The commands of a sequence of effects. *)
Definition commandsOf (effects : list Effect) : list Command :=
  omap (λ e, match e with EfCommand c => Some c | _ => None end) effects.

Definition LoadTexture (cache : ImageCache) (fileName : path)
    : option (Image * ImageCache * list Effect) :=
  let fileNameStr := generic_string fileName in
  match cache !! fileNameStr with
  | Some found => Some (found, cache, [])
  | None =>
      match stbi_load fileNameStr with
      | None =>
          Some (Image_default, cache,
                [EfLog (LogLoadImageFailed fileNameStr)])
      | Some (width, height) =>
          mipLevels ← mipLevelLoop (Z.to_nat width) width height 1;
          let imageInfo :=
            mkImageCreateInfo (to_uint32 width) (to_uint32 height) 1
                              mipLevels 1 in
          image ← returned
                    (CreateCommittedImage physicalDevice device imageInfo);
          if vk.is_null (img_image image) then
            Some (Image_default, cache,
                  [EfLog (LogCreateImageFailed width height mipLevels)])
          else
            toDst ← ImageBarrier (img_image image) IS_Undefined
                                 IS_TransferDst 1 0 mipLevels;
            upload ← UploadImage (img_image image) width height 1 4;
            let '(buffer, uploadEffects) := upload in
            let effects :=
              [EfBegin; EfCommand (CmdPipelineBarrier toDst)]
              ++ uploadEffects in
            if vk.is_null (buf_buffer buffer) then
              Some (Image_default, cache,
                    effects ++ [EfEnd; EfDestroyImage image])
            else
              st ← foldM (blitMip (img_image image))
                         (width, height, effects)
                         (Z.of_nat <$> seq 1 (Z.to_nat (mipLevels - 1)));
              let '(_, _, effects) := st in
              lastToResource ← ImageBarrier (img_image image) IS_TransferDst
                                 IS_ShaderResource 1 (mipLevels - 1) 1;
              let effects :=
                effects
                ++ [EfCommand (CmdPipelineBarrier lastToResource); EfEnd] in
              match submit (commandsOf effects) with
              | vk.eSuccess =>
                  Some (image, <[fileNameStr := image]> cache,
                        effects
                        ++ [EfSubmit; EfWaitIdle; EfDestroyBuffer buffer;
                            EfLog (LogLoaded fileNameStr)])
              | vk.eError => None (* assert(res == vk::Result::eSuccess) *)
              end
      end
  end.

Definition LoadVolume (cache : ImageCache) (fileName : path)
    : option (Image * ImageCache * list Effect) :=
  let fileNameStr := generic_string fileName in
  match cache !! fileNameStr with
  | Some found => Some (found, cache, [])
  | None =>
      let data := readData fileName in
      if negb (volumeAccepted data) then Some (Image_default, cache, [])
      else
        let header := headerOf data in
        let imageInfo :=
          mkImageCreateInfo (vh_width header) (vh_height header)
                            (vh_depth header) 1 1 in
        image ← returned
                  (CreateCommittedImage physicalDevice device imageInfo);
        if vk.is_null (img_image image) then
          Some (Image_default, cache,
                [EfLog (LogCreateVolumeFailed (vh_width header)
                          (vh_height header) (vh_depth header)
                          (vh_channels header))])
        else
          toDst ← ImageBarrier (img_image image) IS_Undefined IS_TransferDst
                               1 0 1;
          upload ← UploadImage (img_image image)
                     (wrap_int32 (vh_width header))
                     (wrap_int32 (vh_height header))
                     (wrap_int32 (vh_depth header))
                     (wrap_int32 (vh_channels header));
          let '(buffer, uploadEffects) := upload in
          toResource ← ImageBarrier (img_image image) IS_TransferDst
                                    IS_ShaderResource 1 0 1;
          let effects :=
            [EfBegin; EfCommand (CmdPipelineBarrier toDst)]
            ++ uploadEffects
            ++ [EfCommand (CmdPipelineBarrier toResource); EfEnd] in
          if vk.is_null (buf_buffer buffer) then
            Some (Image_default, cache, effects)
          else
            match submit (commandsOf effects) with
            | vk.eSuccess =>
                Some (image, <[fileNameStr := image]> cache,
                      effects
                      ++ [EfSubmit; EfWaitIdle; EfDestroyBuffer buffer;
                          EfLog (LogLoaded fileNameStr)])
            | vk.eError => None (* assert(res == vk::Result::eSuccess) *)
            end
  end.

End Loaders.

(** ** Vocabulary for the properties of the loaders *)

(** The extent of mip level [level] of an image of extent [size]. *)
Definition mipExtent (size : Z) (level : nat) : Z :=
  Z.max (Z.shiftr size (Z.of_nat level)) 1.

#[global] Instance ImageLayout_eq_dec : EqDecision vk.ImageLayout.
Proof. solve_decision. Defined.

(** The layout of every mip level of one image, as the commands recorded so
    far leave it.  A barrier must name the current layout of every level
    it covers and moves them to its new layout; a copy, blit or clear must
    name the current layout of the levels it touches. *)
Definition levelsHave (layouts : list vk.ImageLayout) (base count : Z)
    (layout : vk.ImageLayout) : bool :=
  (0 <=? base) && (0 <? count)
  && (base + count <=? Z.of_nat (length layouts))
  && forallb (λ l, bool_decide (l = layout))
             (take (Z.to_nat count) (drop (Z.to_nat base) layouts)).

Definition setLevels (layouts : list vk.ImageLayout) (base count : Z)
    (layout : vk.ImageLayout) : list vk.ImageLayout :=
  take (Z.to_nat base) layouts
  ++ replicate (Z.to_nat count) layout
  ++ drop (Z.to_nat (base + count)) layouts.

Definition trackCommand (layouts : list vk.ImageLayout) (c : Command)
    : option (list vk.ImageLayout) :=
  match c with
  | CmdPipelineBarrier b =>
      if levelsHave layouts (imb_baseMipLevel b) (imb_levelCount b)
                    (imb_oldLayout b)
      then Some (setLevels layouts (imb_baseMipLevel b) (imb_levelCount b)
                           (imb_newLayout b))
      else None
  | CmdCopyBufferToImage _ _ layout _ _ mipLevel _ _ _ =>
      if levelsHave layouts mipLevel 1 layout then Some layouts else None
  | CmdBlitImage _ srcLayout _ dstLayout srcLevel dstLevel _ _ _ _ =>
      if levelsHave layouts srcLevel 1 srcLayout
         && levelsHave layouts dstLevel 1 dstLayout
      then Some layouts else None
  | CmdClearColorImage _ layout _ levelCount =>
      if levelsHave layouts 0 levelCount layout then Some layouts else None
  end.

Definition trackCommands (layouts : list vk.ImageLayout)
    (commands : list Command) : option (list vk.ImageLayout) :=
  foldM trackCommand layouts commands.

(** Every blit reads a level at its extent and writes the next one at its
    extent, for an image of the given size. *)
Definition blitExtentsOk (width height : Z) (c : Command) : Prop :=
  match c with
  | CmdBlitImage _ _ _ _ srcLevel dstLevel srcW srcH dstW dstH =>
      0 ≤ srcLevel ∧ dstLevel = srcLevel + 1
      ∧ srcW = mipExtent width (Z.to_nat srcLevel)
      ∧ srcH = mipExtent height (Z.to_nat srcLevel)
      ∧ dstW = mipExtent width (Z.to_nat dstLevel)
      ∧ dstH = mipExtent height (Z.to_nat dstLevel)
  | _ => True
  end.

(** ** Options.cpp: the command line *)

Record CommandLineOptions : Set := mkCommandLineOptions {
  opt_help : bool;
  opt_debug : bool;
  opt_width : Z;
  opt_height : Z;
  opt_refreshRate : Z;
  opt_fullscreen : bool;
  opt_monitor : Z;
  opt_interval : Z;
  opt_shader : string;
  opt_projectPath : string;
  opt_scriptFile : string;
  opt_errorMessage : string
}.

(** [CommandLineOptions options;] : the default member initialisers. *)
Definition CommandLineOptions_default : CommandLineOptions :=
  {| opt_help := false;
     opt_debug := false;
     opt_width := 1024;
     opt_height := 768;
     opt_refreshRate := 60;
     opt_fullscreen := false;
     opt_monitor := 0;
     opt_interval := 0;
     opt_shader := "";
     opt_projectPath := "";
     opt_scriptFile := "";
     opt_errorMessage := "" |}.

Definition set_opt_debug (v : bool) (o : CommandLineOptions) :=
  mkCommandLineOptions (opt_help o) v (opt_width o) (opt_height o)
    (opt_refreshRate o) (opt_fullscreen o) (opt_monitor o) (opt_interval o)
    (opt_shader o) (opt_projectPath o) (opt_scriptFile o)
    (opt_errorMessage o).
Definition set_opt_width (v : Z) (o : CommandLineOptions) :=
  mkCommandLineOptions (opt_help o) (opt_debug o) v (opt_height o)
    (opt_refreshRate o) (opt_fullscreen o) (opt_monitor o) (opt_interval o)
    (opt_shader o) (opt_projectPath o) (opt_scriptFile o)
    (opt_errorMessage o).
Definition set_opt_height (v : Z) (o : CommandLineOptions) :=
  mkCommandLineOptions (opt_help o) (opt_debug o) (opt_width o) v
    (opt_refreshRate o) (opt_fullscreen o) (opt_monitor o) (opt_interval o)
    (opt_shader o) (opt_projectPath o) (opt_scriptFile o)
    (opt_errorMessage o).
Definition set_opt_refreshRate (v : Z) (o : CommandLineOptions) :=
  mkCommandLineOptions (opt_help o) (opt_debug o) (opt_width o)
    (opt_height o) v (opt_fullscreen o) (opt_monitor o) (opt_interval o)
    (opt_shader o) (opt_projectPath o) (opt_scriptFile o)
    (opt_errorMessage o).
Definition set_opt_fullscreen (v : bool) (o : CommandLineOptions) :=
  mkCommandLineOptions (opt_help o) (opt_debug o) (opt_width o)
    (opt_height o) (opt_refreshRate o) v (opt_monitor o) (opt_interval o)
    (opt_shader o) (opt_projectPath o) (opt_scriptFile o)
    (opt_errorMessage o).
Definition set_opt_monitor (v : Z) (o : CommandLineOptions) :=
  mkCommandLineOptions (opt_help o) (opt_debug o) (opt_width o)
    (opt_height o) (opt_refreshRate o) (opt_fullscreen o) v (opt_interval o)
    (opt_shader o) (opt_projectPath o) (opt_scriptFile o)
    (opt_errorMessage o).
Definition set_opt_interval (v : Z) (o : CommandLineOptions) :=
  mkCommandLineOptions (opt_help o) (opt_debug o) (opt_width o)
    (opt_height o) (opt_refreshRate o) (opt_fullscreen o) (opt_monitor o) v
    (opt_shader o) (opt_projectPath o) (opt_scriptFile o)
    (opt_errorMessage o).
Definition set_opt_shader (v : string) (o : CommandLineOptions) :=
  mkCommandLineOptions (opt_help o) (opt_debug o) (opt_width o)
    (opt_height o) (opt_refreshRate o) (opt_fullscreen o) (opt_monitor o)
    (opt_interval o) v (opt_projectPath o) (opt_scriptFile o)
    (opt_errorMessage o).
Definition set_opt_projectPath (v : string) (o : CommandLineOptions) :=
  mkCommandLineOptions (opt_help o) (opt_debug o) (opt_width o)
    (opt_height o) (opt_refreshRate o) (opt_fullscreen o) (opt_monitor o)
    (opt_interval o) (opt_shader o) v (opt_scriptFile o)
    (opt_errorMessage o).
Definition set_opt_scriptFile (v : string) (o : CommandLineOptions) :=
  mkCommandLineOptions (opt_help o) (opt_debug o) (opt_width o)
    (opt_height o) (opt_refreshRate o) (opt_fullscreen o) (opt_monitor o)
    (opt_interval o) (opt_shader o) (opt_projectPath o) v
    (opt_errorMessage o).
Definition set_opt_errorMessage (v : string) (o : CommandLineOptions) :=
  mkCommandLineOptions (opt_help o) (opt_debug o) (opt_width o)
    (opt_height o) (opt_refreshRate o) (opt_fullscreen o) (opt_monitor o)
    (opt_interval o) (opt_shader o) (opt_projectPath o) (opt_scriptFile o) v.

(** The usage text [parse] leaves in [errorMessage] for [-h]. *)
Definition usageText : string :=
"Standalone player for Shadertoys.
Available options:
   -h, --help: show this message
   -W, --width <value>: set window or screen width
   -H, --height <value>: set window or screen height
   -R, --rate <value>: set refresh rate in full screen mode
   -f, --fullscreen: enable full screen mode
   -m, --monitor <index>: set the monitor index for full screen mode
   -d, --debug: enable the Vulkan validation layer
   -p, --project <path>: path to the project, default is cwd
   -s, --shader <name>: start with a particular shader
   -t, --script <path>: path to the script file, default is script.json
   -i, --interval <value>: set the interval between shaders in seconds
".

Definition novalue (arg : string) (o : CommandLineOptions)
    : bool * CommandLineOptions :=
  (false, set_opt_errorMessage ("expected value for " ++ arg) o).

(** [strcmp(arg, short) == 0 || strcmp(arg, long) == 0]. *)
Definition is_option (arg short long : string) : bool :=
  String.eqb arg short || String.eqb arg long.

Section Options.

(** [atoi] of the C library. *)
Variable atoi : string → Z.

(** [CommandLineOptions::parse] on [argv[1] ... argv[argc - 1]]: the loop
    index advances by one, and by one more after an option that takes a
    value. *)
Fixpoint parse (o : CommandLineOptions) (args : list string)
    : bool * CommandLineOptions :=
  match args with
  | [] => (true, o)
  | arg :: rest =>
      (* an option with a value: [value] is [argv[i+1]] or null *)
      let withValue (store : string → CommandLineOptions) :=
        match rest with
        | [] => novalue arg o
        | value :: rest' => parse (store value) rest'
        end in
      if is_option arg "-h" "--help" then
        (false, set_opt_errorMessage usageText o)
      else if is_option arg "-W" "--width" then
        withValue (λ value, set_opt_width (atoi value) o)
      else if is_option arg "-H" "--height" then
        withValue (λ value, set_opt_height (atoi value) o)
      else if is_option arg "-R" "--rate" then
        withValue (λ value, set_opt_refreshRate (atoi value) o)
      else if is_option arg "-f" "--fullscreen" then
        parse (set_opt_fullscreen true o) rest
      else if is_option arg "-m" "--monitor" then
        withValue (λ value, set_opt_monitor (atoi value) o)
      else if is_option arg "-d" "--debug" then
        parse (set_opt_debug true o) rest
      else if is_option arg "-p" "--project" then
        withValue (λ value, set_opt_projectPath value o)
      else if is_option arg "-s" "--shader" then
        withValue (λ value, set_opt_shader value o)
      else if is_option arg "-t" "--script" then
        withValue (λ value, set_opt_scriptFile value o)
      else if is_option arg "-i" "--interval" then
        withValue (λ value, set_opt_interval (atoi value) o)
      else
        (false, set_opt_errorMessage ("unrecognized option " ++ arg) o)
  end.

End Options.

(** Vocabulary for the properties of [parse]: the names of the options
    that take a value, and of all options. *)
Definition value_option_names : list string :=
  ["-W"; "--width"; "-H"; "--height"; "-R"; "--rate"; "-m"; "--monitor";
   "-p"; "--project"; "-s"; "--shader"; "-t"; "--script"; "-i";
   "--interval"].

Definition flag_option_names : list string :=
  ["-f"; "--fullscreen"; "-d"; "--debug"].

Definition help_option_names : list string := ["-h"; "--help"].

(** ** VulkanApp.cpp: submission and the ring of fences *)

(** The part of [VulkanApp] that [Present] works on.  Fences and command
    buffers are named by their index in [m_Fences] and
    [m_CommandBuffers]. *)
Record FenceRing : Set := mkFenceRing {
  m_Fences : list vk.Handle;
  m_CommandBuffers : list vk.Handle;
  m_FencesSignaled : list bool;
  m_LoopingFrameIndex : Z
}.

(** What [Present] asks of the queues and the device, in program order. *)
Inductive QueueOp : Set :=
| OpEnd (commandBuffer : Z)
| OpSubmit (commandBuffer fence : Z)
| OpPresent
| OpWaitForFence (fence : Z)
| OpResetFence (fence : Z).

Inductive PresentResult : Set :=
| PresentSuccess | PresentOutOfDate | PresentError.

(** The results of the four calls of one [Present]. *)
Record PresentAnswers : Set := mkPresentAnswers {
  pa_submit : vk.Result;
  pa_present : PresentResult;
  pa_waitForFences : vk.Result;
  pa_resetFences : vk.Result
}.

(** The fences and flags as [createDevice...] leaves them, and the
    command buffers allocated after: [maxFramesInFlight + 1] of each, in
    32-bit arithmetic. *)
Definition FenceRing_init (maxFramesInFlight : Z)
    (createFence allocateCommandBuffer : nat → vk.Handle) : FenceRing :=
  let count := Z.to_nat (to_uint32 (maxFramesInFlight + 1)) in
  {| m_Fences := createFence <$> seq 0 count;
     m_CommandBuffers := allocateCommandBuffer <$> seq 0 count;
     m_FencesSignaled := replicate count false;
     m_LoopingFrameIndex := 0 |}.

(** [VulkanApp::Present]; [None] is a failed assertion, an access outside
    a vector or the remainder by zero. *)
Definition Present (maxFramesInFlight : Z) (answers : PresentAnswers)
    (ring : FenceRing) : option (FenceRing * list QueueOp) :=
  let index := m_LoopingFrameIndex ring in
  _ ← at_int (m_CommandBuffers ring) index;
  _ ← at_int (m_Fences ring) index;
  match pa_submit answers with
  | vk.eError => None
  | vk.eSuccess =>
      signaled ← set_int (m_FencesSignaled ring) index true;
      match pa_present answers with
      | PresentError => None
      | _ =>
          let count := to_uint32 (maxFramesInFlight + 1) in
          if count =? 0 then None
          else
            let next := to_uint32 (index + 1) mod count in
            let ring :=
              mkFenceRing (m_Fences ring) (m_CommandBuffers ring) signaled
                          next in
            let ops := [OpEnd index; OpSubmit index index; OpPresent] in
            flag ← at_int signaled next;
            if flag : bool then
              _ ← at_int (m_Fences ring) next;
              match pa_waitForFences answers, pa_resetFences answers with
              | vk.eSuccess, vk.eSuccess =>
                  Some (ring,
                        ops ++ [OpWaitForFence next; OpResetFence next])
              | _, _ => None
              end
            else Some (ring, ops)
      end
  end.

(** One [Present] per element of [answers]. *)
Fixpoint Presents (maxFramesInFlight : Z) (ring : FenceRing)
    (answers : list PresentAnswers) : option (FenceRing * list QueueOp) :=
  match answers with
  | [] => Some (ring, [])
  | a :: rest =>
      r ← Present maxFramesInFlight a ring;
      r' ← Presents maxFramesInFlight r.1 rest;
      Some (r'.1, r.2 ++ r'.2)
  end.

(** The protocol of a fence: it is submitted only while not pending, and
    waited for and reset only while pending.  [pending] holds, by fence
    index, whether the fence has been submitted and not reset since. *)
Definition trackFence (pending : list bool) (op : QueueOp)
    : option (list bool) :=
  match op with
  | OpSubmit _ fence =>
      p ← at_int pending fence;
      if p : bool then None else set_int pending fence true
  | OpWaitForFence fence =>
      p ← at_int pending fence;
      if p : bool then Some pending else None
  | OpResetFence fence =>
      p ← at_int pending fence;
      if p : bool then set_int pending fence false else None
  | _ => Some pending
  end.

Definition trackFences (pending : list bool) (ops : list QueueOp)
    : option (list bool) :=
  foldM trackFence pending ops.

(** ** Further vocabulary for the properties of the playlist *)

(** The entry [LoadScript] makes of one element of the script array, if
    any. *)
Definition entry_of_node (node : ScriptNode) : option ScriptEntry :=
  match node with
  | SN_String name => Some (mkScriptEntry name (-1) 1)
  | SN_Object program (Some d) => Some (mkScriptEntry program (-1) d)
  | SN_Object program None => Some (mkScriptEntry program (-1) 1)
  | SN_Other => None
  end.

(** The element is a string or an object. *)
Definition is_script_entry (node : ScriptNode) : bool :=
  match node with
  | SN_Other => false
  | _ => true
  end.

(** A program with the given name has been loaded. *)
Definition loaded (programs : list ShProgram) (name : string) : Prop :=
  ∃ p, p ∈ programs ∧ GetName p = name.

(** A script entry refers to a program of its name. *)
Definition entry_valid (programs : list ShProgram) (e : ScriptEntry) : Prop :=
  ∃ p, at_int programs (programIndex e) = Some p ∧ GetName p = programName e.

(** The playlist of an application is consistent: the active program
    exists; and when there is a script, the script index is inside it and
    its entries refer to existing programs. *)
Definition playlist_ok (s : ShaderProj) : Prop :=
  is_Some (at_int (m_Programs s) (m_ActiveProgram s))
  ∧ (m_Script s ≠ [] →
     0 ≤ m_ScriptIndex s < Z.of_nat (length (m_Script s)))
  ∧ Forall (λ e, 0 ≤ programIndex e
                 < Z.of_nat (length (m_Programs s))) (m_Script s).

(** [k] times [NextProgram]. *)
Fixpoint NextProgram_times (k : nat) (s : ShaderProj) : option ShaderProj :=
  match k with
  | O => Some s
  | S k => s' ← NextProgram s; NextProgram_times k s'
  end.

(** The event is one of the playlist operations, not a frame. *)
Definition is_playlist_event (e : Event) : bool :=
  match e with
  | EvRender _ => false
  | _ => true
  end.

(** ** Further vocabulary for the resources *)

(** Memory type [index] can hold a resource with the given requirements:
    its bit is set in [memoryTypeBits] and its property flags contain all
    the wanted ones. *)
Definition memory_type_suitable (memoryTypeBits wanted : Z) (types : list Z)
    (index : nat) : Prop :=
  Z.testbit memoryTypeBits (Z.of_nat index) = true
  ∧ ∃ propertyFlags,
      types !! index = Some propertyFlags
      ∧ Z.land propertyFlags wanted = wanted.

(** [index] is the first suitable memory type. *)
Definition first_suitable_memory_type (memoryTypeBits wanted : Z)
    (types : list Z) (index : nat) : Prop :=
  memory_type_suitable memoryTypeBits wanted types index
  ∧ ∀ j, (j < index)%nat →
         ¬ memory_type_suitable memoryTypeBits wanted types j.

(** The function is one of the two image loaders, on some device. *)
Definition is_image_loader
    (load : ImageCache → path → option (Image * ImageCache * list Effect))
    : Prop :=
  (∃ physicalDevice device mapMemory submit stbi_load,
     load = LoadTexture physicalDevice device mapMemory submit stbi_load)
  ∨ (∃ physicalDevice device mapMemory submit readData,
       load = LoadVolume physicalDevice device mapMemory submit readData).

(** A volume file of 2x1x1 texels with one channel: the header and two
    bytes of texel data. *)
Definition demo_volume_data : blob :=
  foldr (λ byte rest, String (Ascii.ascii_of_nat byte) rest) EmptyString
        [66; 73; 78; 0;  2; 0; 0; 0;  1; 0; 0; 0;  1; 0; 0; 0;
         1; 0; 0; 0;  7; 9]%nat.

(** ** Further vocabulary for the frame loop *)

(** The pool images exist: [m_Images[0].image] is not null. *)
Definition buffers_created (s : ShaderProj) : Prop :=
  ∃ image0, m_Images s !! 0%nat = Some image0 ∧ img_image image0 ≠ vk.null.

(** Every pass of every program renders to the two pool slots of its own
    index: slot [2 * index + parity]. *)
Definition targets_bound (s : ShaderProj) : Prop :=
  ∀ program index pass frame,
    program ∈ m_Programs s →
    GetPasses program !! index = Some pass →
    (frame < c_HistoryLength)%nat →
    m_RenderTargetIndices pass !! frame
    = Some (index * c_HistoryLength + frame)%nat.

(** The image was cleared, from [Undefined], by the latest frame of
    [frames] that cleared the pool images, and the pool was not rebuilt
    after that frame. *)
Definition cleared_since_creation (frames : list Frame) (image : vk.Handle)
    : Prop :=
  ∃ older g newer,
    frames = older ++ g :: newer
    ∧ mkClear image 1 IS_Undefined ∈ fr_clears g
    ∧ Forall (λ h, fr_rebuilt h = None) newer.

(** The fence protocol state matches the ring between two [Present]s:
    the fence of the slot to be recorded next is not pending, and every
    other fence is pending exactly when its flag is set. *)
Definition ring_tracks (count : nat) (ring : FenceRing)
    (pending : list bool) : Prop :=
  length (m_Fences ring) = count
  ∧ length (m_CommandBuffers ring) = count
  ∧ length (m_FencesSignaled ring) = count
  ∧ length pending = count
  ∧ 0 ≤ m_LoopingFrameIndex ring < Z.of_nat count
  ∧ at_int pending (m_LoopingFrameIndex ring) = Some false
  ∧ ∀ fence, fence ≠ m_LoopingFrameIndex ring →
             at_int pending fence = at_int (m_FencesSignaled ring) fence.

(** ** Compiling the shaders of the passes
       (ShRenderpass.cpp, ShProgram.cpp, ShaderProj.cpp) *)

(** The members of [ShRenderpass] that compilation uses. *)
Record PassShader : Set := mkPassShader {
  m_ShaderFile : path;
  m_InputDeclarations : blob;
  m_ShaderData : blob
}.

(** The members of [ShProgram] that compilation uses: the path of the
    common source ([None] when empty) and its passes. *)
Record ProgramShaders : Set := mkProgramShaders {
  psh_CommonSourcePath : option path;
  psh_Passes : list PassShader
}.

(** What a compilation loop leaves: its return value, the objects it went
    through, the files and the log. *)
Record Compiled (A : Type) : Type := mkCompiled {
  co_return : bool;
  co_objects : A;
  co_files : FileSystem;
  co_log : list CompilerLog
}.
Arguments mkCompiled {A}.
Arguments co_return {A}.
Arguments co_objects {A}.
Arguments co_files {A}.
Arguments co_log {A}.

Section Shaders.

Variable glslang : path → blob → GlslangResult.
(** The clock when the artifact of a shader file is written, by the files
    at the start of the compilation and the shader file. *)
Variable now : FileSystem → path → Z.
(** Whether [OutputSpvBin] can open the artifact of a shader file for
    writing, by the same. *)
Variable opened : FileSystem → path → bool.
(** The bytes [ReadFile(m_CommonSourcePath, commonSource)] leaves in the
    fresh blob [commonSource]; its return value is not looked at. *)
Variable readCommon : FileSystem → path → blob.
(** [g_PreambleText]. *)
Variable g_PreambleText : blob.

Definition CompilePassShader (files : FileSystem)
    (preamble commonSource : blob) (pass : PassShader)
    : Compiled PassShader :=
  let preambles := [preamble; m_InputDeclarations pass; commonSource] in
  let r := CompileShader glslang (now files (m_ShaderFile pass))
                         (opened files (m_ShaderFile pass)) files
                         (m_ShaderFile pass) preambles (m_ShaderData pass) in
  mkCompiled (cs_return r)
             (mkPassShader (m_ShaderFile pass) (m_InputDeclarations pass)
                           (cs_output r))
             (cs_files r) (cs_log r).

(** The loop of [ShProgram::CompileShaders]: it returns at the first pass
    that fails. *)
Fixpoint CompileShaders_loop (files : FileSystem)
    (preamble commonSource : blob) (passes : list PassShader)
    : Compiled (list PassShader) :=
  match passes with
  | [] => mkCompiled true [] files []
  | pass :: rest =>
      let r := CompilePassShader files preamble commonSource pass in
      if negb (co_return r) then
        mkCompiled false (co_objects r :: rest) (co_files r) (co_log r)
      else
        let r' := CompileShaders_loop (co_files r) preamble commonSource
                                      rest in
        mkCompiled (co_return r') (co_objects r :: co_objects r')
                   (co_files r') (co_log r ++ co_log r')
  end.

Definition CompileShaders (files : FileSystem) (preamble : blob)
    (program : ProgramShaders) : Compiled ProgramShaders :=
  let commonSource :=
    match psh_CommonSourcePath program with
    | Some commonSourcePath => readCommon files commonSourcePath
    | None => ""%string
    end in
  let r := CompileShaders_loop files preamble commonSource
                               (psh_Passes program) in
  mkCompiled (co_return r)
             (mkProgramShaders (psh_CommonSourcePath program) (co_objects r))
             (co_files r) (co_log r).

(** The loop of [ShaderProj::LoadShaders]: every program is compiled,
    whether an earlier one failed or not. *)
Fixpoint LoadShaders_loop (files : FileSystem) (preamble : blob)
    (allShadersCompiled : bool) (programs : list ProgramShaders)
    : Compiled (list ProgramShaders) :=
  match programs with
  | [] => mkCompiled allShadersCompiled [] files []
  | program :: rest =>
      let r := CompileShaders files preamble program in
      let allShadersCompiled :=
        if negb (co_return r) then false else allShadersCompiled in
      let r' := LoadShaders_loop (co_files r) preamble allShadersCompiled
                                 rest in
      mkCompiled (co_return r') (co_objects r :: co_objects r')
                 (co_files r') (co_log r ++ co_log r')
  end.

Definition LoadShaders (files : FileSystem)
    (programs : list ProgramShaders) : Compiled (list ProgramShaders) :=
  LoadShaders_loop files g_PreambleText true programs.

End Shaders.

(** Vocabulary for the properties of the shader loops. *)

(** All shader files of the programs, in compilation order. *)
Definition shaderFilesOf (programs : list ProgramShaders) : list path :=
  m_ShaderFile <$> (programs ≫= psh_Passes).

(** The log line says that a cached artifact was used. *)
Definition is_cache_hit (line : CompilerLog) : Prop :=
  match line with
  | LogUsingCached _ => True
  | _ => False
  end.

(** The shader file has a usable artifact: both exist, the artifact is
    newer and can be read. *)
Definition has_fresh_artifact (files : FileSystem) (shaderFile : path)
    : Prop :=
  ∃ input artifact,
    files !! shaderFile = Some input
    ∧ files !! replace_extension shaderFile ".spv" = Some artifact
    ∧ last_write_time input < last_write_time artifact
    ∧ is_Some (read_result artifact).

(** The cache can work for the shader file: it is not itself an artifact,
    and it was last written before every time at which an artifact is
    written. *)
Definition cacheable (now : FileSystem → path → Z) (files : FileSystem)
    (shaderFile : path) : Prop :=
  shaderFile.2 ≠ ".spv"%string
  ∧ ∀ input, files !! shaderFile = Some input →
             ∀ fs f, last_write_time input < now fs f.

(** ** Vocabulary for the failure of committed resource creation *)



(** ** Vocabulary for inputs that share a channel *)

(** No input declared after [node] in the pass names the channel of
    [node]. *)
Definition last_input_of_channel (self : ShRenderpass) (node : InputNode)
    : Prop :=
  ∃ before after,
    pn_inputs (m_Declaration self) = before ++ node :: after
    ∧ Forall (λ other, in_channel other ≠ in_channel node) after.

(** The channel of the pass holds no static image (no texture was loaded
    for it). *)
Definition no_static_image (self : ShRenderpass) (channel : Z) : Prop :=
  ∀ static, at_int (m_StaticInputs self) channel = Some static →
            img_imageView static = vk.null.

(** A pass [A] that declares two inputs on channel 0, its own output and
    then the output of the pass [B]; and the two passes as a program. *)
Definition demo_input_B : InputNode := mkInputNode "buffer" "B" 0 "".

Definition clash_pass_A : ShRenderpass :=
  ShRenderpass_ctor 100 "foo"
    (mkPassNode "buffer" "A" [demo_input_self; demo_input_B] "a.glsl").

Definition clash_pass_B : ShRenderpass :=
  ShRenderpass_ctor 101 "foo" (mkPassNode "buffer" "B" [] "b.glsl").

Definition clash_passes : list ShRenderpass := [clash_pass_A; clash_pass_B].




(** ** Vocabulary for the programs along a run *)

(** The program [p'] has the passes of [p], object by object and in the
    same order, and the image pass index of [p]. *)
Definition same_passes (p p' : ShProgram) : Prop :=
  m_ImagePassIndex p' = m_ImagePassIndex p
  ∧ this <$> m_Passes p' = this <$> m_Passes p.

(** ** Vocabulary for the playlist *)

(** Some program of the list has the given name, as a test. *)
Definition is_loaded (programs : list ShProgram) (name : string) : bool :=
  existsb (λ p, String.eqb (GetName p) name) programs.

(** ** A volume file whose size wraps *)

(** A volume file of 65536x65536x1 texels with one channel and no texel
    data at all: the header only. *)
Definition wrapped_volume_data : blob :=
  foldr (λ byte rest, String (Ascii.ascii_of_nat byte) rest) EmptyString
        [66; 73; 78; 0;  0; 0; 1; 0;  0; 0; 1; 0;  1; 0; 0; 0;
         1; 0; 0; 0]%nat.

(** * Properties *)

(** ** Resource states *)

Lemma ImageBarrier_total image before after layerCount baseMipLevel mipLevels :
  is_Some (ImageBarrier image before after layerCount baseMipLevel mipLevels).
Proof. destruct before, after; eexists; reflexivity. Qed.

Lemma ImageBarrier_sides image before after lc bm ml b :
  ImageBarrier image before after lc bm ml = Some b →
  g_ImageStates !! ImageState_index before = Some (imb_src b)
  ∧ g_ImageStates !! ImageState_index after = Some (imb_dst b).
Proof.
  unfold ImageBarrier. intros H.
  destruct (g_ImageStates !! ImageState_index before) as [mb|] eqn:Hb;
    [|discriminate].
  destruct (g_ImageStates !! ImageState_index after) as [ma|] eqn:Ha;
    [|discriminate].
  simpl in H. injection H as <-. unfold imb_src, imb_dst; simpl.
  destruct mb, ma; auto.
Qed.

Lemma BufferBarrier_sides buffer before after b :
  BufferBarrier buffer before after = Some b →
  g_BufferStates !! BufferState_index before = Some (bmb_src b)
  ∧ g_BufferStates !! BufferState_index after = Some (bmb_dst b).
Proof.
  unfold BufferBarrier. intros H.
  destruct (g_BufferStates !! BufferState_index before) as [mb|] eqn:Hb;
    [|discriminate].
  destruct (g_BufferStates !! BufferState_index after) as [ma|] eqn:Ha;
    [|discriminate].
  simpl in H. injection H as <-. unfold bmb_src, bmb_dst; simpl.
  destruct mb, ma; auto.
Qed.

(** C2.  For every pair of image states (and of buffer states), the barrier
    [before -> after] and the barrier [after -> before] are both recorded,
    each side of each is the table entry of its state, and the second
    barrier ends in the (stage mask, access mask, layout) triple the first
    started from: reversing the pair swaps source and destination. *)
Theorem barrier_pair_restores_triple
    (image buffer : vk.Handle) (before after : ImageState)
    (bbefore bafter : BufferState) (layerCount baseMipLevel mipLevels : Z) :
  (∃ forth back original,
      ImageBarrier image before after layerCount baseMipLevel mipLevels
        = Some forth
      ∧ ImageBarrier image after before layerCount baseMipLevel mipLevels
        = Some back
      ∧ g_ImageStates !! ImageState_index before = Some original
      ∧ imb_src forth = original
      ∧ imb_dst back = original
      ∧ imb_src back = imb_dst forth)
  ∧ (∃ forth back original,
      BufferBarrier buffer bbefore bafter = Some forth
      ∧ BufferBarrier buffer bafter bbefore = Some back
      ∧ g_BufferStates !! BufferState_index bbefore = Some original
      ∧ bmb_src forth = original
      ∧ bmb_dst back = original
      ∧ bmb_src back = bmb_dst forth).
Proof.
  split.
  - destruct (ImageBarrier_total image before after layerCount baseMipLevel
                mipLevels) as [forth Hf].
    destruct (ImageBarrier_total image after before layerCount baseMipLevel
                mipLevels) as [back Hb].
    destruct (ImageBarrier_sides _ _ _ _ _ _ _ Hf) as [Hf1 Hf2].
    destruct (ImageBarrier_sides _ _ _ _ _ _ _ Hb) as [Hb1 Hb2].
    exists forth, back, (imb_src forth).
    repeat split; try assumption; congruence.
  - assert (is_Some (BufferBarrier buffer bbefore bafter)) as [forth Hf]
      by (destruct bbefore, bafter; eexists; reflexivity).
    assert (is_Some (BufferBarrier buffer bafter bbefore)) as [back Hb]
      by (destruct bbefore, bafter; eexists; reflexivity).
    destruct (BufferBarrier_sides _ _ _ _ Hf) as [Hf1 Hf2].
    destruct (BufferBarrier_sides _ _ _ _ Hb) as [Hb1 Hb2].
    exists forth, back, (bmb_src forth).
    repeat split; try assumption; congruence.
Qed.

(** ** The shader cache *)

Section CompilerFacts.

Variable glslang : path → blob → GlslangResult.
Variable now : Z.
Variable opened : bool.

Lemma ReadFile_lookup (files : FileSystem) name file :
  files !! name = Some file → ReadFile files name = read_result file.
Proof. intros H. unfold ReadFile. rewrite H. reflexivity. Qed.

Lemma CompileShader_hit_iff (files : FileSystem) shaderFile preambles output
    input artifact :
  files !! shaderFile = Some input →
  files !! replace_extension shaderFile ".spv" = Some artifact →
  compilation_bypassed (CompileShader glslang now opened files shaderFile preambles
                          output)
  ↔ last_write_time input < last_write_time artifact
    ∧ is_Some (read_result artifact).
Proof.
  intros Hin Hout. unfold compilation_bypassed, CompileShader.
  rewrite Hin, Hout. rewrite (ReadFile_lookup _ _ _ Hout).
  rewrite (ReadFile_lookup _ _ _ Hin).
  destruct (Z.ltb_spec (last_write_time input) (last_write_time artifact))
    as [Hlt|Hge].
  - destruct (read_result artifact) as [data|] eqn:Hread; simpl.
    + split; [intros _; split; [lia|eauto]|].
      intros _. split; [reflexivity|]. intros f Hf.
      apply list_elem_of_singleton in Hf. discriminate.
    + split; [|intros [_ [? ?]]; discriminate].
      intros [Hret Hlog]. exfalso.
      destruct (read_result input) as [contents|]; simpl in *;
        [|discriminate].
      destruct (glslang shaderFile (mergeSource preambles contents));
        simpl in *; try discriminate.
      apply (Hlog shaderFile). left.
  - split; [|intros [? _]; lia].
    intros [Hret Hlog]. exfalso.
    destruct (read_result input) as [contents|]; simpl in *; [|discriminate].
    destruct (glslang shaderFile (mergeSource preambles contents));
      simpl in *; try discriminate.
    apply (Hlog shaderFile). left.
Qed.

End CompilerFacts.

(** C4, as stated, fails: the artifact is strictly newer than the source,
    and yet the compiler runs, because the artifact cannot be read. *)
Lemma newer_unreadable_artifact_is_recompiled :
  let r := CompileShader (λ _ _, Spirv "spirv") 3 true files_unreadable_artifact
             ("pass", ".glsl") [] "" in
  (∃ input artifact,
      files_unreadable_artifact !! ("pass", ".glsl") = Some input
      ∧ files_unreadable_artifact !! ("pass", ".spv") = Some artifact
      ∧ last_write_time input < last_write_time artifact)
  ∧ ¬ compilation_bypassed r
  ∧ cs_log r = [LogCompiling ("pass", ".glsl"); LogCompileOK].
Proof.
  split; [|split].
  - exists (mkFile 1 (Some "void mainImage() {}"%string)), (mkFile 2 None).
    repeat split; vm_compute; reflexivity.
  - intros [_ Hlog]. apply (Hlog ("pass", ".glsl")). vm_compute. left.
  - vm_compute. reflexivity.
Qed.

(** C4 (amended).  When the source and the artifact exist, compilation is
    bypassed exactly when the artifact is strictly newer than the source
    and can be read; hence two calls that agree on the two modification
    times and on whether the artifact can be read decide alike, whatever
    the contents of the files, the preambles, the previous output and the
    compiler. *)
Theorem cache_hit_iff_newer_and_readable
    (glslang glslang' : path → blob → GlslangResult) (now now' : Z)
    (opened opened' : bool)
    (files files' : FileSystem) (shaderFile : path)
    (preambles preambles' : list blob) (output output' : blob)
    (input artifact input' artifact' : File) :
  files !! shaderFile = Some input →
  files !! replace_extension shaderFile ".spv" = Some artifact →
  files' !! shaderFile = Some input' →
  files' !! replace_extension shaderFile ".spv" = Some artifact' →
  last_write_time input' = last_write_time input →
  last_write_time artifact' = last_write_time artifact →
  (is_Some (read_result artifact') ↔ is_Some (read_result artifact)) →
  let r := CompileShader glslang now opened files shaderFile preambles output in
  let r' := CompileShader glslang' now' opened' files' shaderFile preambles' output' in
  (compilation_bypassed r
   ↔ last_write_time input < last_write_time artifact
     ∧ is_Some (read_result artifact))
  ∧ (compilation_bypassed r → read_result artifact = Some (cs_output r)
                              ∧ cs_files r = files)
  ∧ (compilation_bypassed r ↔ compilation_bypassed r').
Proof.
  intros Hin Hout Hin' Hout' Ht1 Ht2 Hread r r'.
  pose proof (CompileShader_hit_iff glslang now opened files shaderFile preambles
                output input artifact Hin Hout) as H.
  pose proof (CompileShader_hit_iff glslang' now' opened' files' shaderFile preambles'
                output' input' artifact' Hin' Hout') as H'.
  split; [exact H|]. split.
  - intros Hb. apply H in Hb. destruct Hb as [Hlt [data Hdata]].
    subst r. unfold CompileShader. rewrite Hin, Hout.
    rewrite (ReadFile_lookup _ _ _ Hout).
    apply Z.ltb_lt in Hlt. rewrite Hlt, Hdata. simpl. auto.
  - subst r r'. rewrite H, H', Ht1, Ht2, Hread. reflexivity.
Qed.

Lemma cache_hit_iff_newer_and_readable_witness :
  compilation_bypassed
    (CompileShader (λ _ _, Spirv "spirv") 3 true files_fresh_artifact
       ("pass", ".glsl") ["#version 450"%string] "")
  ↔ compilation_bypassed
      (CompileShader (λ _ _, ParseError "syntax") 9 false
         files_fresh_artifact_edited ("pass", ".glsl") [] "old").
Proof.
  refine (proj2 (proj2 (cache_hit_iff_newer_and_readable
    (λ _ _, Spirv "spirv") (λ _ _, ParseError "syntax") 3 9 true false
    files_fresh_artifact files_fresh_artifact_edited ("pass", ".glsl")
    ["#version 450"%string] [] "" "old"
    (mkFile 1 (Some "void mainImage() {}"%string))
    (mkFile 2 (Some "spirv"%string))
    (mkFile 1 (Some "// edited"%string))
    (mkFile 2 (Some "other"%string))
    _ _ _ _ _ _ _)));
    try (vm_compute; reflexivity).
  split; intros _; eexists; reflexivity.
Defined.

(** ** Loading a program *)

Lemma count_image_nodes_app l1 l2 :
  count_image_nodes (l1 ++ l2)
  = (count_image_nodes l1 + count_image_nodes l2)%nat.
Proof. unfold count_image_nodes. rewrite filter_app, length_app. done. Qed.

Lemma count_image_nodes_one node :
  count_image_nodes [node]
  = if String.eqb (pn_type node) "image" then 1%nat else 0%nat.
Proof.
  unfold count_image_nodes. rewrite filter_cons, filter_nil.
  destruct (String.eqb_spec (pn_type node) "image") as [E|E];
    case_decide; try contradiction; reflexivity.
Qed.

(** The loop of [Load]: the image pass it leaves is the one it started
    with when no node is an image node, and otherwise a pass built from
    the last image node. *)
Lemma Load_loop_imagePass name nodes st :
  let st' := foldl (Load_node name) st nodes in
  (count_image_nodes nodes = 0%nat → ls_imagePass st' = ls_imagePass st)
  ∧ ((1 ≤ count_image_nodes nodes)%nat →
     ∃ before node after addr,
       nodes = before ++ node :: after
       ∧ pn_type node = "image"%string
       ∧ count_image_nodes after = 0%nat
       ∧ ls_imagePass st' = Some (ShRenderpass_ctor addr name node)).
Proof.
  induction nodes as [|x l IH] using rev_ind; simpl.
  - split; [reflexivity|]. unfold count_image_nodes; simpl. lia.
  - rewrite foldl_app. simpl. rewrite count_image_nodes_app,
      count_image_nodes_one.
    destruct IH as [IH0 IH1]. unfold Load_node at 1 3.
    destruct (String.eqb_spec (pn_type x) "image") as [E|E].
    + rewrite orb_true_r. simpl. split; [lia|]. intros _.
      exists l, x, [], (ls_heap (foldl (Load_node name) st l)).
      repeat split; auto.
    + assert (∀ st0 : LoadState,
        ls_imagePass
          (if String.eqb (pn_type x) "buffer" || false
           then mkLoadState (ls_imagePass st0)
                  (ls_passes st0 ++ [ShRenderpass_ctor (ls_heap st0) name x])
                  (ls_commonSourcePath st0) (S (ls_heap st0))
           else if String.eqb (pn_type x) "common"
                then mkLoadState (ls_imagePass st0) (ls_passes st0)
                       (pn_code x) (ls_heap st0)
                else st0) = ls_imagePass st0) as Hsame.
      { intros st0. destruct (String.eqb (pn_type x) "buffer"); simpl;
          [reflexivity|].
        destruct (String.eqb (pn_type x) "common"); reflexivity. }
      rewrite Hsame. split.
      * intros H0. apply IH0. lia.
      * intros H1. destruct IH1 as (before & node & after & addr & -> & Hn
                                      & Ha & Hp); [lia|].
        exists before, node, (after ++ [x]), addr.
        rewrite <- app_assoc. simpl.
        rewrite count_image_nodes_app, count_image_nodes_one.
        destruct (String.eqb_spec (pn_type x) "image"); [contradiction|].
        repeat split; auto. lia.
Qed.

(** The image pass [Load] leaves was built from an image node. *)
Lemma Load_imagePass_is_image_node self nodes heap :
  ∀ imagePass,
    ls_imagePass
      (foldl (Load_node (m_Name self))
             (mkLoadState None (m_Passes self) (m_CommonSourcePath self) heap)
             nodes) = Some imagePass →
    pn_type (m_Declaration imagePass) = "image"%string.
Proof.
  intros imagePass H.
  destruct (Load_loop_imagePass (m_Name self) nodes
              (mkLoadState None (m_Passes self) (m_CommonSourcePath self) heap))
    as [H0 H1]. simpl in H0, H1.
  destruct (count_image_nodes nodes) as [|n].
  - rewrite H0 in H by reflexivity. discriminate.
  - destruct H1 as (before & node & after & addr & _ & Ht & _ & Hp); [lia|].
    rewrite Hp in H. injection H as <-. exact Ht.
Qed.



(** ** The crossfade factor *)

Lemma Qgtb_true a b : Qgtb a b = true ↔ (b < a)%Q.
Proof.
  unfold Qgtb. rewrite negb_true_iff. split.
  - intros H. apply Qnot_le_lt. intros Hle.
    apply Qle_bool_iff in Hle. congruence.
  - intros H. destruct (Qle_bool a b) eqn:E; [|reflexivity].
    apply Qle_bool_iff in E. exfalso. exact (Qlt_not_le _ _ H E).
Qed.

Lemma Qgtb_false a b : Qgtb a b = false ↔ (a <= b)%Q.
Proof.
  unfold Qgtb. rewrite negb_false_iff. apply Qle_bool_iff.
Qed.

(** The order of [min] and [max] in the clamp does not matter for
    [0 <= 1]. *)
Lemma clamp_unit x : (Qmax 0 (Qmin 1 x) == clamp x 0 1)%Q.
Proof.
  unfold clamp.
  destruct (Qlt_le_dec x 0) as [H0|H0].
  - rewrite (Q.min_r 1 x) by (apply Qlt_le_weak; eapply Qlt_trans; [exact H0|reflexivity]).
    rewrite (Q.max_l 0 x) by (apply Qlt_le_weak; exact H0).
    rewrite (Q.max_r x 0) by (apply Qlt_le_weak; exact H0).
    rewrite Q.min_l by discriminate. reflexivity.
  - rewrite (Q.max_l x 0) by exact H0.
    rewrite (Q.min_comm x 1).
    apply Q.max_r. apply Q.min_glb; [discriminate|exact H0].
Qed.

Lemma crossfadeFactor_range t D : (0 <= crossfadeFactor t D <= 1)%Q.
Proof.
  unfold crossfadeFactor. destruct (Qgtb D 0).
  - split; [apply Q.le_max_l|].
    apply Q.max_lub; [discriminate|apply Q.le_min_l].
  - split; discriminate.
Qed.

(** C5.  For a positive duration the factor of [Render] is
    [clamp(min(t, D - t) / transitionWindow, 0, 1)]; it lies in [0, 1] for
    every time and duration; and for [D > 2 * transitionWindow] it is 1 at
    every [t] strictly between [transitionWindow] and
    [D - transitionWindow]. *)
Theorem crossfade_factor_is_clamped_ramp (t D : Q) :
  (0 < D)%Q →
  (crossfadeFactor t D == spec_crossfade t D transitionWindow)%Q
  ∧ (0 <= crossfadeFactor t D <= 1)%Q
  ∧ ((2 * transitionWindow < D)%Q →
     (transitionWindow < t)%Q → (t < D - transitionWindow)%Q →
     (crossfadeFactor t D == 1)%Q).
Proof.
  intros HD. split; [|split].
  - unfold crossfadeFactor, spec_crossfade, transitionWindow.
    apply Qgtb_true in HD. rewrite HD. apply clamp_unit.
  - apply crossfadeFactor_range.
  - intros _ Ht1 Ht2. unfold crossfadeFactor, transitionWindow in *.
    apply Qgtb_true in HD. rewrite HD.
    assert (1 <= Qmin t (D - t) / (1 # 2))%Q as Hone.
    { apply Qle_shift_div_l; [reflexivity|].
      apply Q.min_glb.
      - lra.
      - lra. }
    rewrite (Q.min_l 1 _ Hone). apply Q.max_r. discriminate.
Qed.

Lemma crossfade_factor_is_clamped_ramp_witness :
  (crossfadeFactor 1 3 == 1)%Q.
Proof.
  refine (proj2 (proj2 (crossfade_factor_is_clamped_ramp 1 3 _)) _ _ _);
    reflexivity.
Defined.

(** ** One frame *)

Lemma ImageBarrier_image image before after lc bm ml b :
  ImageBarrier image before after lc bm ml = Some b → imb_image b = image.
Proof.
  unfold ImageBarrier. intros H.
  destruct (g_ImageStates !! ImageState_index before); [|discriminate].
  destruct (g_ImageStates !! ImageState_index after); [|discriminate].
  simpl in H. injection H as <-. reflexivity.
Qed.

Lemma Render_inv env s s' fr :
  Render env s = Some (s', fr) →
  let s0 := frame_state s fr in
  (match fr_rebuilt fr with
   | Some r => CreateBuffersAndBindings env s = Some r
   | None => True
   end)
  ∧ ∃ (program : ShProgram) (initd : bool),
      at_int (m_Programs s0) (m_ActiveProgram s0) = Some program
      ∧ fr_iFrame fr = (if m_ResetRequired s0 then 0 else m_FrameIndex s0)
      ∧ fr_iTime fr = (if m_ResetRequired s0 then 0%Q else m_CurrentTime s0)
      ∧ fr_historyIndex fr = historyIndexOf (fr_iFrame fr)
      ∧ mapM (executePass s0 (fr_historyIndex fr)) (GetPasses program)
        = Some (fr_passes fr)
      ∧ fr_factor fr = crossfadeFactor (fr_iTime fr) (m_CurrentDuration s0)
      ∧ fr_finalBufferIndex fr
        = (GetImagePassIndex program * c_HistoryLength
           + fr_historyIndex fr)%nat
      ∧ m_BlitDescriptorSets s0 !! fr_finalBufferIndex fr
        = Some (fr_blitDescriptorSet fr)
      ∧ fr_swapChainIndex fr = env_swapChainIndex env
      ∧ m_SwapChainLayoutInitd s0 !! env_swapChainIndex env = Some initd
      ∧ fr_swapStateBefore fr = (if initd then IS_Present else IS_Undefined)
      ∧ m_SwapChainLayoutInitd s'
        = <[env_swapChainIndex env := true]> (m_SwapChainLayoutInitd s0)
      ∧ m_FrameIndex s' = wrap_int32 (fr_iFrame fr + 1)
      ∧ m_CurrentTime s' = fr_iTime fr
      ∧ m_ResetRequired s' = false
      ∧ m_Programs s' = m_Programs s0
      ∧ m_ActiveProgram s' = m_ActiveProgram s0
      ∧ m_CurrentDuration s' = m_CurrentDuration s0
      ∧ m_Script s' = m_Script s0
      ∧ m_ScriptIndex s' = m_ScriptIndex s0
      ∧ m_Paused s' = m_Paused s0
      ∧ ImageBarrier (imb_image (fr_swapBarrierIn fr)) (fr_swapStateBefore fr)
                     IS_RenderTarget 1 0 1 = Some (fr_swapBarrierIn fr)
      ∧ ImageBarrier (imb_image (fr_swapBarrierIn fr)) IS_RenderTarget
                     IS_Present 1 0 1 = Some (fr_swapBarrierOut fr)
      ∧ env_swapChainImages env !! env_swapChainIndex env
        = Some (imb_image (fr_swapBarrierIn fr)).
Proof.
  unfold Render. intros H.
  destruct (m_Images s !! 0%nat) as [image0|]; [|discriminate]. simpl in H.
  destruct (if vk.is_null (img_image image0)
            then Some <$> CreateBuffersAndBindings env s
            else Some None) as [rebuilt|] eqn:Hreb; [|discriminate].
  simpl in H.
  remember (match rebuilt with Some r => rb_state r | None => s end) as s0
    eqn:Hs0.
  assert (match rebuilt with
          | Some r => CreateBuffersAndBindings env s = Some r
          | None => True
          end) as Hcreate.
  { destruct rebuilt as [r|]; [|exact I].
    destruct (vk.is_null (img_image image0)); [|discriminate].
    destruct (CreateBuffersAndBindings env s); simpl in Hreb; congruence. }
  clear Hreb.
  destruct (m_ResetRequired s0) eqn:Hreset; simpl in H;
    (destruct (at_int (m_Programs s0) (m_ActiveProgram s0)) as [program|]
       eqn:Hp; simpl in H; [|discriminate H]);
    repeat match type of H with
    | (?o ≫= _) = Some _ =>
        let E := fresh "E" in
        destruct o eqn:E; simpl in H; [|discriminate H]
    end;
    injection H as <- <-; unfold frame_state; simpl; rewrite <- Hs0;
    (split; [exact Hcreate|]);
    eexists _, _; rewrite ?Hreset; simpl;
    repeat split; eauto;
    match goal with
    | Hb : ImageBarrier ?h _ IS_RenderTarget 1 0 1 = Some ?i |- _ =>
        rewrite (ImageBarrier_image _ _ _ _ _ _ _ Hb);
        first [assumption|reflexivity]
    end.
Qed.

(** ** Binding the inputs of a pass *)

Lemma findSourceBuffer_first self bufferId frame passes i k q :
  passes !! k = Some q →
  m_OutputId q = bufferId →
  (∀ j q', (j < k)%nat → passes !! j = Some q' → m_OutputId q' ≠ bufferId) →
  findSourceBuffer self bufferId frame passes i
  = Some ((i + k) * 2
          + (if (this q =? self)%nat then opposite frame else frame))%nat.
Proof.
  revert i k. induction passes as [|p rest IH]; intros i k Hk Hid Hfirst.
  - discriminate.
  - destruct k as [|k]; simpl in *.
    + injection Hk as ->. rewrite <- Hid, String.eqb_refl.
      rewrite Nat.add_0_r. reflexivity.
    + destruct (String.eqb_spec (m_OutputId p) bufferId) as [E|E].
      * exfalso. apply (Hfirst 0%nat p); [lia|reflexivity|exact E].
      * rewrite (IH (S i) k Hk Hid).
        -- f_equal. lia.
        -- intros j q' Hj Hq'. apply (Hfirst (S j) q'); [lia|exact Hq'].
Qed.


Lemma findSourceBuffer_bound self bufferId frame passes i index :
  (frame < 2)%nat →
  findSourceBuffer self bufferId frame passes i = Some index →
  (index < 2 * (i + length passes))%nat.
Proof.
  intros Hf. revert i. induction passes as [|p rest IH]; intros i H;
    [discriminate|]. simpl in H.
  destruct (String.eqb (m_OutputId p) bufferId).
  - injection H as <-. simpl.
    destruct (this p =? self)%nat; [destruct (frame =? 0)%nat|]; lia.
  - apply IH in H. simpl. lia.
Qed.

(** *** Array accesses *)

Lemma at_int_Some {A} (l : list A) index x :
  at_int l index = Some x ↔ 0 ≤ index ∧ l !! Z.to_nat index = Some x.
Proof.
  unfold at_int. destruct (Z.ltb_spec index 0); split.
  - discriminate.
  - intros [? _]. lia.
  - auto.
  - intros [_ ?]. assumption.
Qed.

Lemma at_int_in_range {A} (l : list A) index :
  0 ≤ index < Z.of_nat (length l) → is_Some (at_int l index).
Proof.
  intros H. unfold at_int. destruct (Z.ltb_spec index 0); [lia|].
  apply lookup_lt_is_Some. lia.
Qed.

Lemma set_int_Some {A} (l : list A) index x l' :
  set_int l index x = Some l' ↔
  0 ≤ index < Z.of_nat (length l) ∧ l' = <[Z.to_nat index := x]> l.
Proof.
  unfold set_int.
  destruct (Z.ltb_spec index 0); destruct (Z.ltb_spec index (Z.of_nat (length l)));
    simpl; split; try discriminate; try (intros [? _]; lia).
  - intros [= <-]. split; [lia|reflexivity].
  - intros [_ ->]. reflexivity.
Qed.

Lemma at_int_set_int_same {A} (l l' : list A) index x :
  set_int l index x = Some l' → at_int l' index = Some x.
Proof.
  intros H. apply set_int_Some in H as [Hr ->].
  apply at_int_Some. split; [lia|].
  apply list_lookup_insert_eq. lia.
Qed.

Lemma at_int_set_int_other {A} (l l' : list A) index x other :
  set_int l index x = Some l' → other ≠ index →
  at_int l' other = at_int l other.
Proof.
  intros H Hne. apply set_int_Some in H as [Hr ->].
  unfold at_int. destruct (Z.ltb_spec other 0); [reflexivity|].
  apply list_lookup_insert_ne. lia.
Qed.

Lemma set_int_length {A} (l l' : list A) index x :
  set_int l index x = Some l' → length l' = length l.
Proof.
  intros H. apply set_int_Some in H as [_ ->]. apply length_insert.
Qed.

(** *** One input node *)

Lemma bindInput_inv common passes self frame st node st' :
  bindInput common passes self frame st node = Some st' →
  ∃ static imageView inputSize logged info,
    at_int (m_StaticInputs self) (in_channel node) = Some static
    ∧ chooseInput common passes self frame node static
      = Some (imageView, inputSize, logged)
    ∧ at_int (bs_imageInfos st) (in_channel node) = Some info
    ∧ at_int (bs_imageInfos st') (in_channel node)
      = Some (if vk.is_null imageView then info
              else mkDescriptorImageInfo imageView (dii_sampler info))
    ∧ at_int (bs_push st') (in_channel node) = Some inputSize
    ∧ bs_log st' = bs_log st ++ logged
    ∧ length (bs_imageInfos st') = length (bs_imageInfos st)
    ∧ length (bs_push st') = length (bs_push st)
    ∧ ∀ other, other ≠ in_channel node →
        at_int (bs_imageInfos st') other = at_int (bs_imageInfos st) other
        ∧ at_int (bs_push st') other = at_int (bs_push st) other.
Proof.
  unfold bindInput. intros H.
  destruct (at_int (m_StaticInputs self) (in_channel node)) as [static|]
    eqn:Hstatic; [|discriminate]. simpl in H.
  destruct (chooseInput common passes self frame node static)
    as [[[imageView inputSize] logged]|] eqn:Hchoose; [|discriminate].
  simpl in H.
  destruct (at_int (bs_imageInfos st) (in_channel node)) as [info|] eqn:Hinfo;
    [|discriminate]. simpl in H.
  exists static, imageView, inputSize, logged, info.
  destruct (vk.is_null imageView) eqn:Hnull; simpl in H.
  - destruct (set_int (bs_push st) (in_channel node) inputSize) as [push|]
      eqn:Hpush; [|discriminate]. simpl in H. injection H as <-. simpl.
    repeat split; auto.
    + eapply at_int_set_int_same; eauto.
    + eapply set_int_length; eauto.
    + eapply at_int_set_int_other; eauto.
  - destruct (set_int (bs_imageInfos st) (in_channel node) _) as [infos|]
      eqn:Hinfos; [|discriminate]. simpl in H.
    destruct (set_int (bs_push st) (in_channel node) inputSize) as [push|]
      eqn:Hpush; [|discriminate]. simpl in H. injection H as <-. simpl.
    repeat split; auto.
    + eapply at_int_set_int_same; eauto.
    + eapply at_int_set_int_same; eauto.
    + eapply set_int_length; eauto.
    + eapply set_int_length; eauto.
    + eapply at_int_set_int_other; eauto.
    + eapply at_int_set_int_other; eauto.
Qed.

Lemma chooseInput_total common passes self frame node static :
  (frame < 2)%nat →
  (2 * length passes ≤ length (cr_images common))%nat →
  is_Some (chooseInput common passes self frame node static).
Proof.
  intros Hf Hlen. unfold chooseInput.
  destruct (negb (vk.is_null (img_imageView static))); [eauto|].
  destruct (String.eqb (in_type node) "cubemap"); [eauto|].
  destruct (String.eqb (in_type node) "volume"); [eauto|].
  destruct (String.eqb (in_type node) "buffer"); [|eauto].
  destruct (findSourceBuffer (this self) (in_id node) frame passes 0)
    as [index|] eqn:Hfind; simpl; [|eauto].
  apply findSourceBuffer_bound in Hfind; [|exact Hf].
  destruct (lookup_lt_is_Some_2 (cr_images common) index) as [image Himage];
    [simpl in Hfind; lia|].
  rewrite Himage. simpl. eauto.
Qed.

Lemma bindInput_total common passes self frame st node :
  (frame < 2)%nat →
  (2 * length passes ≤ length (cr_images common))%nat →
  0 ≤ in_channel node < Z.of_nat (length (m_StaticInputs self)) →
  length (bs_imageInfos st) = length (m_StaticInputs self) →
  length (bs_push st) = length (m_StaticInputs self) →
  is_Some (bindInput common passes self frame st node).
Proof.
  intros Hf Hlen Hch Hinfos Hpush. unfold bindInput.
  destruct (at_int_in_range (m_StaticInputs self) (in_channel node) Hch)
    as [static ->]. simpl.
  destruct (chooseInput_total common passes self frame node static Hf Hlen)
    as [[[imageView inputSize] logged] ->]. simpl.
  destruct (at_int_in_range (bs_imageInfos st) (in_channel node)) as [info ->];
    [lia|]. simpl.
  assert (∀ A (l : list A) x, length l = length (m_StaticInputs self) →
            is_Some (set_int l (in_channel node) x)) as Hset.
  { intros A l x Hl. unfold set_int.
    destruct (Z.ltb_spec (in_channel node) 0); [lia|].
    destruct (Z.ltb_spec (in_channel node) (Z.of_nat (length l))); [|lia].
    simpl. eauto. }
  destruct (Hset _ (bs_push st) inputSize Hpush) as [push Hp].
  destruct (negb (vk.is_null imageView)).
  - destruct (Hset _ (bs_imageInfos st)
                (mkDescriptorImageInfo imageView (dii_sampler info)) Hinfos)
      as [infos ->]. simpl. rewrite Hp. simpl. eauto.
  - simpl. rewrite Hp. simpl. eauto.
Qed.

(** *** The loop over the input nodes *)

Lemma foldM_app {A B} (f : A → B → option A) a l1 l2 :
  foldM f a (l1 ++ l2) = foldM f a l1 ≫= λ a', foldM f a' l2.
Proof.
  revert a. induction l1 as [|x l1 IH]; intros a; simpl; [reflexivity|].
  destruct (f a x) as [a'|]; simpl; [apply IH|reflexivity].
Qed.

Lemma bindInputs_other_channel common passes self frame nodes st st' c :
  foldM (bindInput common passes self frame) st nodes = Some st' →
  Forall (λ other, in_channel other ≠ c) nodes →
  at_int (bs_imageInfos st') c = at_int (bs_imageInfos st) c
  ∧ at_int (bs_push st') c = at_int (bs_push st) c
  ∧ ∃ logged, bs_log st' = bs_log st ++ logged.
Proof.
  revert st. induction nodes as [|n nodes IH]; intros st H Hall; simpl in H.
  - injection H as <-. repeat split; auto. exists []. by rewrite app_nil_r.
  - inversion Hall as [|? ? Hn Hrest]; subst.
    destruct (bindInput common passes self frame st n) as [st1|] eqn:Hb;
      [|discriminate]. simpl in H.
    destruct (IH st1 H Hrest) as (Hi & Hp & logged & Hl).
    apply bindInput_inv in Hb
      as (? & ? & ? & logged1 & ? & _ & _ & _ & _ & _ & Hl1 & _ & _ & Hother).
    destruct (Hother c) as [Hi1 Hp1]; [congruence|].
    repeat split; [congruence|congruence|].
    exists (logged1 ++ logged). rewrite Hl, Hl1, app_assoc. reflexivity.
Qed.

Lemma bindInputs_total common passes self frame nodes st :
  (frame < 2)%nat →
  (2 * length passes ≤ length (cr_images common))%nat →
  Forall (λ node, 0 ≤ in_channel node
                  < Z.of_nat (length (m_StaticInputs self))) nodes →
  length (bs_imageInfos st) = length (m_StaticInputs self) →
  length (bs_push st) = length (m_StaticInputs self) →
  ∃ st', foldM (bindInput common passes self frame) st nodes = Some st'
         ∧ length (bs_imageInfos st') = length (m_StaticInputs self)
         ∧ length (bs_push st') = length (m_StaticInputs self).
Proof.
  intros Hf Hlen. revert st.
  induction nodes as [|n nodes IH]; intros st Hall Hi Hp; simpl.
  - eauto.
  - inversion Hall as [|? ? Hn Hrest]; subst.
    destruct (bindInput_total common passes self frame st n Hf Hlen Hn Hi Hp)
      as [st1 Hb]. rewrite Hb. simpl.
    apply bindInput_inv in Hb
      as (? & ? & ? & ? & ? & _ & _ & _ & _ & _ & _ & Hi1 & Hp1 & _).
    apply IH; [exact Hrest|congruence|congruence].
Qed.


(** *** Both parities *)

Lemma CreateBindingSets_inv common passes self outputIndex r :
  CreateBindingSets common passes self outputIndex = Some r →
  ∃ infos st0 st1 ds0 ds1 t0 t1,
    initialImageInfos common self = Some infos
    ∧ foldM (bindInput common passes self 0)
            (mkBindingState infos (m_Push_iChannelResolution self) [])
            (pn_inputs (m_Declaration self)) = Some st0
    ∧ foldM (bindInput common passes self 1)
            (mkBindingState infos (bs_push st0) [])
            (pn_inputs (m_Declaration self)) = Some st1
    ∧ m_DescriptorSets self !! 0%nat = Some ds0
    ∧ m_DescriptorSets self !! 1%nat = Some ds1
    ∧ cr_images common !! (outputIndex * 2 + 0)%nat = Some t0
    ∧ cr_images common !! (outputIndex * 2 + 1)%nat = Some t1
    ∧ bsr_writes r
      = [mkDescriptorWrite ds0 (bs_imageInfos st0) (cr_constantBuffer common);
         mkDescriptorWrite ds1 (bs_imageInfos st1) (cr_constantBuffer common)]
    ∧ bsr_log r = bs_log st0 ++ bs_log st1
    ∧ bsr_pass r
      = {| this := this self;
           m_ProgramName := m_ProgramName self;
           m_Declaration := m_Declaration self;
           m_OutputId := m_OutputId self;
           m_InputIds := m_InputIds self;
           m_StaticInputs := m_StaticInputs self;
           m_Samplers := m_Samplers self;
           m_DescriptorSets := m_DescriptorSets self;
           m_RenderTargetIndices :=
             <[1%nat := (outputIndex * 2 + 1)%nat]>
               (<[0%nat := (outputIndex * 2 + 0)%nat]>
                  (m_RenderTargetIndices self));
           m_RenderTargetViews :=
             <[1%nat := img_imageView t1]>
               (<[0%nat := img_imageView t0]> (m_RenderTargetViews self));
           m_Push_iChannelResolution := bs_push st1 |}.
Proof.
  unfold CreateBindingSets. simpl. intros H.
  destruct (CreateBindingSets_frame common passes outputIndex
              (mkBindingSetsResult self [] []) 0) as [acc|] eqn:H0;
    [|discriminate]. simpl in H.
  destruct (CreateBindingSets_frame common passes outputIndex acc 1)
    as [acc'|] eqn:H1; [|discriminate]. simpl in H. injection H as <-.
  unfold CreateBindingSets_frame in H0. simpl in H0.
  repeat match type of H0 with
  | (?o ≫= _) = Some _ =>
      let E := fresh "E" in
      destruct o eqn:E; simpl in H0; [|discriminate H0]
  end.
  injection H0 as <-.
  unfold CreateBindingSets_frame in H1. simpl in H1.
  change (initialImageInfos common _) with (initialImageInfos common self)
    in H1.
  rewrite E in H1. simpl in H1.
  match type of H1 with
  | context [foldM (bindInput common passes ?p 1)] =>
      change (bindInput common passes p 1)
        with (bindInput common passes self 1) in H1
  end.
  repeat match type of H1 with
  | (?o ≫= _) = Some _ =>
      let E := fresh "E" in
      destruct o eqn:E; simpl in H1; [|discriminate H1]
  end.
  injection H1 as <-. simpl.
  eexists _, _, _, _, _, _, _.
  repeat split; eauto.
Qed.

(** *** Binding never fails on a well-sized pass *)

Lemma initialImageInfos_spec common self :
  length (m_Samplers self) = c_MaxPassInputs →
  ∃ infos,
    initialImageInfos common self = Some infos
    ∧ length infos = c_MaxPassInputs
    ∧ Forall (λ info, dii_imageView info = cr_dummyTexture common) infos.
Proof.
  unfold initialImageInfos. intros H.
  destruct (m_Samplers self) as [|a [|b [|c [|d [|]]]]]; try discriminate.
  simpl. eexists. split; [reflexivity|]. split; [reflexivity|].
  repeat constructor.
Qed.

Lemma CreateBindingSets_frame_total common passes outputIndex acc frame :
  (frame < 2)%nat →
  well_sized common passes (bsr_pass acc) outputIndex →
  ∃ acc',
    CreateBindingSets_frame common passes outputIndex acc frame = Some acc'
    ∧ well_sized common passes (bsr_pass acc') outputIndex.
Proof.
  intros Hf (Hstatic & Hsamplers & Hpush & Hsets & Hrti & Hrtv & Himages
             & Hpasses & Hout & Hch).
  unfold c_MaxPassInputs, c_HistoryLength, c_RenderImageCount, c_MaxPasses
    in *. simpl in Himages, Hpasses, Hout.
  unfold CreateBindingSets_frame.
  destruct (initialImageInfos_spec common (bsr_pass acc) Hsamplers)
    as (infos & -> & Hinfos & _). simpl.
  destruct (bindInputs_total common passes (bsr_pass acc) frame
              (pn_inputs (m_Declaration (bsr_pass acc)))
              (mkBindingState infos
                 (m_Push_iChannelResolution (bsr_pass acc)) []))
    as (st & -> & Hsti & Hstp); simpl; try lia.
  { rewrite Hstatic. exact Hch. }
  { rewrite Hinfos. unfold c_MaxPassInputs. lia. }
  destruct (lookup_lt_is_Some_2 (m_DescriptorSets (bsr_pass acc)) frame)
    as [ds ->]; [lia|]. simpl.
  destruct (lookup_lt_is_Some_2 (m_RenderTargetIndices (bsr_pass acc)) frame)
    as [rti ->]; [lia|]. simpl.
  destruct (lookup_lt_is_Some_2 (m_RenderTargetViews (bsr_pass acc)) frame)
    as [rtv ->]; [lia|]. simpl.
  destruct (lookup_lt_is_Some_2 (cr_images common)
              (outputIndex * 2 + frame)%nat) as [target ->]; [lia|]. simpl.
  eexists. split; [reflexivity|].
  unfold well_sized, c_MaxPassInputs, c_HistoryLength, c_RenderImageCount,
    c_MaxPasses. simpl.
  rewrite !length_insert.
  repeat split; try assumption; try lia.
Qed.

Lemma CreateBindingSets_total common passes self outputIndex :
  well_sized common passes self outputIndex →
  is_Some (CreateBindingSets common passes self outputIndex).
Proof.
  intros Hw. unfold CreateBindingSets. simpl.
  destruct (CreateBindingSets_frame_total common passes outputIndex
              (mkBindingSetsResult self [] []) 0) as (acc & -> & Hw0);
    [lia|exact Hw|]. simpl.
  destruct (CreateBindingSets_frame_total common passes outputIndex acc 1)
    as (acc' & -> & Hw1); [lia|exact Hw0|]. simpl. eauto.
Qed.


Lemma chooseInput_resolved common passes self frame node static k q :
  img_imageView static = vk.null →
  in_type node = "buffer"%string →
  resolves_to passes (in_id node) k q →
  chooseInput common passes self frame node static
  = image ← cr_images common
             !! (k * 2 + (if (this q =? this self)%nat
                          then opposite frame else frame))%nat;
    Some (img_imageView image, (cr_width common, cr_height common, 1),
          if vk.is_null (img_imageView image)
          then [LogCannotFindInputBuffer (m_ProgramName self) (in_id node)]
          else []).
Proof.
  intros Hs Ht (Hk & Hid & Hfirst). unfold chooseInput. rewrite Hs, Ht. simpl.
  rewrite (findSourceBuffer_first _ _ _ _ 0 k q Hk Hid Hfirst). simpl.
  destruct (cr_images common !! _); reflexivity.
Qed.



(** ** Parity *)

Lemma historyIndexOf_mod2 z : historyIndexOf z = Z.to_nat (z mod 2).
Proof.
  unfold historyIndexOf, c_HistoryLength. f_equal.
  change (Z.of_nat 2) with 2%Z.
  apply Z.mod_mod_divide. exists (2 ^ 31). reflexivity.
Qed.

Lemma historyIndexOf_lt z : (historyIndexOf z < 2)%nat.
Proof.
  rewrite historyIndexOf_mod2.
  pose proof (Z.mod_pos_bound z 2 ltac:(lia)). lia.
Qed.

Lemma historyIndexOf_next z :
  historyIndexOf (wrap_int32 (z + 1)) = opposite (historyIndexOf z).
Proof.
  rewrite !historyIndexOf_mod2. unfold wrap_int32, opposite.
  change (2 ^ 31) with 2147483648. change (2 ^ 32) with 4294967296.
  assert (((z + 1 + 2147483648) mod 4294967296 - 2147483648) mod 2
          = 1 - z mod 2) as -> by (Z.div_mod_to_equations; lia).
  pose proof (Z.mod_pos_bound z 2 ltac:(lia)).
  destruct (Z.eq_dec (z mod 2) 0) as [E|E].
  - rewrite E. reflexivity.
  - assert (z mod 2 = 1) as -> by lia. reflexivity.
Qed.

Lemma executePass_inv s historyIndex pass pe :
  executePass s historyIndex pass = Some pe →
  pe_pass pe = this pass
  ∧ m_RenderTargetIndices pass !! historyIndex
    = Some (pe_renderTargetIndex pe)
  ∧ m_DescriptorSets pass !! historyIndex = Some (pe_descriptorSet pe)
  ∧ (∃ image, m_Images s !! pe_renderTargetIndex pe = Some image
              ∧ pe_dstImage pe = img_image image)
  ∧ ImageBarrier (pe_dstImage pe) IS_ShaderResource IS_RenderTarget 1 0 1
    = Some (pe_barrierIn pe)
  ∧ ImageBarrier (pe_dstImage pe) IS_RenderTarget IS_ShaderResource 1 0 1
    = Some (pe_barrierOut pe).
Proof.
  unfold executePass. intros H.
  repeat match type of H with
  | (?o ≫= _) = Some _ =>
      let E := fresh "E" in
      destruct o eqn:E; simpl in H; [|discriminate H]
  end.
  injection H as <-. simpl. repeat split; eauto.
Qed.

Lemma Render_passes env s s' fr :
  Render env s = Some (s', fr) →
  ∃ program,
    at_int (m_Programs s') (m_ActiveProgram s') = Some program
    ∧ Forall2 (λ pass pe,
                 pe_pass pe = this pass
                 ∧ m_RenderTargetIndices pass !! fr_historyIndex fr
                   = Some (pe_renderTargetIndex pe)
                 ∧ m_DescriptorSets pass !! fr_historyIndex fr
                   = Some (pe_descriptorSet pe))
              (GetPasses program) (fr_passes fr)
    ∧ fr_finalBufferIndex fr
      = (GetImagePassIndex program * c_HistoryLength
         + fr_historyIndex fr)%nat
    ∧ m_BlitDescriptorSets (frame_state s fr) !! fr_finalBufferIndex fr
      = Some (fr_blitDescriptorSet fr).
Proof.
  intros H. apply Render_inv in H. simpl in H.
  destruct H as (_ & program & initd & Hp & _ & _ & _ & Hm & _ & Hfinal
                 & Hblit & _ & _ & _ & _ & _ & _ & _ & Hprogs & Hactive & _).
  exists program. rewrite Hprogs, Hactive. repeat split; auto.
  apply mapM_Some in Hm.
  eapply Forall2_impl; [exact Hm|].
  intros pass pe Hpe. simpl in Hpe.
  apply executePass_inv in Hpe as (? & ? & ? & _). auto.
Qed.


(** ** The swap-chain images *)

Lemma CreateBuffersAndBindings_inv env s r :
  CreateBuffersAndBindings env s = Some r →
  m_SwapChainLayoutInitd (rb_state r)
  = replicate (GetSwapChainImageCount env) false
  ∧ (∃ bound, mapM (bindProgram
                      {| cr_height := env_height env;
                         cr_width := env_width env;
                         cr_constantBuffer := buf_buffer (m_ConstantBuffer s);
                         cr_dummyCubemap := img_imageView (m_DummyCubemap s);
                         cr_dummyTexture := img_imageView (m_DummyTexture s);
                         cr_dummyVolume := img_imageView (m_DummyVolume s);
                         cr_defaultSampler := m_Sampler s;
                         cr_images := m_Images (rb_state r) |})
                   (m_Programs s) = Some bound
              ∧ m_Programs (rb_state r) = (λ b, b.1.1) <$> bound)
  ∧ createPoolImages env (length (m_Images s)) = Some (m_Images (rb_state r))
  ∧ m_BufferLayoutInitd (rb_state r) = false
  ∧ m_ActiveProgram (rb_state r) = m_ActiveProgram s
  ∧ m_ResetRequired (rb_state r) = m_ResetRequired s
  ∧ m_FrameIndex (rb_state r) = m_FrameIndex s
  ∧ m_CurrentTime (rb_state r) = m_CurrentTime s
  ∧ m_CurrentDuration (rb_state r) = m_CurrentDuration s
  ∧ m_Script (rb_state r) = m_Script s
  ∧ m_ScriptIndex (rb_state r) = m_ScriptIndex s
  ∧ m_Paused (rb_state r) = m_Paused s
  ∧ m_BlitDescriptorSets (rb_state r) = m_BlitDescriptorSets s.
Proof.
  unfold CreateBuffersAndBindings. intros H.
  destruct (createPoolImages env (length (m_Images s))) as [images|] eqn:Hi;
    [|discriminate]. simpl in H.
  destruct (mapM _ (seq 0 (length (m_Images s)))) as [blits|];
    [|discriminate]. simpl in H.
  destruct (mapM _ (m_Programs s)) as [bound|] eqn:Hb; [|discriminate].
  simpl in H.
  destruct (m_SwapChainFramebuffers s); [|discriminate].
  injection H as <-. simpl. repeat split; eauto.
Qed.

Lemma composited_since_creation_nil slot :
  ¬ composited_since_creation [] slot.
Proof. intros (older & g & newer & H & _). by destruct older. Qed.

Lemma composited_since_creation_snoc earlier fr slot :
  composited_since_creation (earlier ++ [fr]) slot
  ↔ fr_swapChainIndex fr = slot
    ∨ (fr_rebuilt fr = None ∧ composited_since_creation earlier slot).
Proof.
  split.
  - intros (older & g & newer & Heq & Hslot & Hnone).
    destruct newer as [|h newer _] using rev_ind.
    + apply app_inj_tail in Heq as [_ <-]. left. exact Hslot.
    + rewrite app_comm_cons, app_assoc in Heq.
      apply app_inj_tail in Heq as [-> ->].
      apply Forall_app in Hnone as [Hnewer Hh].
      inversion Hh; subst. right. split; [assumption|].
      exists older, g, newer. auto.
  - intros [Hslot|[Hnone (older & g & newer & -> & Hslot & Hnewer)]].
    + exists earlier, fr, []. auto.
    + exists older, g, (newer ++ [fr]).
      split; [rewrite <- app_assoc; reflexivity|].
      split; [exact Hslot|]. apply Forall_app. auto.
Qed.

Lemma Render_flags env s s' fr past :
  flags_track s past →
  Render env s = Some (s', fr) →
  flags_track s' (past ++ [fr])
  ∧ (fr_swapStateBefore fr = IS_Present
     ↔ fr_rebuilt fr = None
       ∧ composited_since_creation past (fr_swapChainIndex fr))
  ∧ (fr_swapStateBefore fr = IS_Undefined
     ↔ ¬ (fr_rebuilt fr = None
          ∧ composited_since_creation past (fr_swapChainIndex fr))).
Proof.
  intros Hinv H. apply Render_inv in H. simpl in H.
  destruct H as (Hcreate & program & initd & _ & _ & _ & _ & _ & _ & _ & _
                 & Hidx & Hinitd & Hbefore & Hflags & _).
  unfold frame_state in *.
  assert (initd = true
          ↔ fr_rebuilt fr = None
            ∧ composited_since_creation past (fr_swapChainIndex fr))
    as Hinitd_iff.
  { destruct (fr_rebuilt fr) as [r|].
    - apply CreateBuffersAndBindings_inv in Hcreate as (Hrep & _).
      rewrite Hrep in Hinitd. apply lookup_replicate in Hinitd as [-> _].
      split; [discriminate|intros [? _]; discriminate].
    - rewrite Hidx. specialize (Hinv _ _ Hinitd).
      rewrite Hinv. tauto. }
  split; [|split].
  - intros slot b Hb. rewrite Hflags in Hb.
    rewrite composited_since_creation_snoc, Hidx.
    destruct (decide (env_swapChainIndex env = slot)) as [<-|Hne].
    + rewrite list_lookup_insert_eq in Hb
        by (eapply lookup_lt_Some; exact Hinitd).
      injection Hb as <-. tauto.
    + rewrite list_lookup_insert_ne in Hb by exact Hne.
      destruct (fr_rebuilt fr) as [r|].
      * apply CreateBuffersAndBindings_inv in Hcreate as (Hrep & _).
        rewrite Hrep in Hb. apply lookup_replicate in Hb as [-> _].
        split; [discriminate|]. intros [?|[? _]]; [contradiction|discriminate].
      * specialize (Hinv _ _ Hb). rewrite Hinv. tauto.
  - rewrite <- Hinitd_iff, Hbefore. destruct initd; split; congruence.
  - rewrite <- Hinitd_iff, Hbefore. destruct initd; split; congruence.
Qed.

Lemma selectEntry_flags s s' :
  selectEntry s = Some s' →
  m_SwapChainLayoutInitd s' = m_SwapChainLayoutInitd s.
Proof.
  unfold selectEntry. intros H.
  destruct (at_int (m_Script s) (m_ScriptIndex s)); [|discriminate].
  simpl in H. injection H as <-. reflexivity.
Qed.

Lemma NextProgram_flags s s' :
  NextProgram s = Some s' →
  m_SwapChainLayoutInitd s' = m_SwapChainLayoutInitd s.
Proof.
  unfold NextProgram. intros H. destruct (m_Script s) eqn:E.
  - injection H as <-. reflexivity.
  - apply selectEntry_flags in H. exact H.
Qed.

Lemma PreviousProgram_flags s s' :
  PreviousProgram s = Some s' →
  m_SwapChainLayoutInitd s' = m_SwapChainLayoutInitd s.
Proof.
  unfold PreviousProgram. intros H. destruct (m_Script s) eqn:E.
  - injection H as <-. reflexivity.
  - apply selectEntry_flags in H. rewrite H.
    destruct (_ <? 0); reflexivity.
Qed.

Lemma Animate_flags dt s s' :
  Animate dt s = Some s' →
  m_SwapChainLayoutInitd s' = m_SwapChainLayoutInitd s.
Proof.
  unfold Animate. intros H. destruct (m_Paused s).
  - injection H as <-. reflexivity.
  - destruct (_ && _).
    + apply NextProgram_flags in H. exact H.
    + injection H as <-. reflexivity.
Qed.

(** Along any sequence of events the flags keep tracking the composited
    slots, and every frame's barrier starts from [Present] exactly when its
    slot has been composited since the last rebuild. *)
Lemma run_flags events :
  ∀ s past s' frames,
    flags_track s past →
    run s events = Some (s', frames) →
    flags_track s' (past ++ frames)
    ∧ ∀ earlier fr later,
        frames = earlier ++ fr :: later →
        (fr_swapStateBefore fr = IS_Present
         ↔ fr_rebuilt fr = None
           ∧ composited_since_creation (past ++ earlier)
               (fr_swapChainIndex fr))
        ∧ (fr_swapStateBefore fr = IS_Undefined
           ↔ ¬ (fr_rebuilt fr = None
                ∧ composited_since_creation (past ++ earlier)
                    (fr_swapChainIndex fr)))
        ∧ ImageBarrier (imb_image (fr_swapBarrierIn fr))
            (fr_swapStateBefore fr) IS_RenderTarget 1 0 1
          = Some (fr_swapBarrierIn fr).
Proof.
  induction events as [|e rest IH]; intros s past s' frames Hinv H;
    simpl in H.
  - injection H as <- <-. rewrite app_nil_r. split; [exact Hinv|].
    intros earlier fr later Heq. by destruct earlier.
  - destruct (step s e) as [[s1 fs1]|] eqn:Hstep; [|discriminate].
    simpl in H.
    destruct (run s1 rest) as [[s2 fs2]|] eqn:Hrun; [|discriminate].
    simpl in H. injection H as <- <-.
    assert ((fs1 = [] ∧ m_SwapChainLayoutInitd s1 = m_SwapChainLayoutInitd s)
            ∨ ∃ env, e = EvRender env ∧ ∃ fr0, fs1 = [fr0]
                     ∧ Render env s = Some (s1, fr0)) as [[-> Hsame]|Hr].
    { destruct e as [dt| | | |env]; simpl in Hstep.
      - destruct (Animate dt s) as [x|] eqn:E; [|discriminate].
        injection Hstep as <- <-. left. split; [reflexivity|].
        eapply Animate_flags; eauto.
      - destruct (PreviousProgram s) as [x|] eqn:E; [|discriminate].
        injection Hstep as <- <-. left. split; [reflexivity|].
        eapply PreviousProgram_flags; eauto.
      - destruct (NextProgram s) as [x|] eqn:E; [|discriminate].
        injection Hstep as <- <-. left. split; [reflexivity|].
        eapply NextProgram_flags; eauto.
      - injection Hstep as <- <-. left. split; reflexivity.
      - destruct (Render env s) as [[x fr0]|] eqn:E; [|discriminate].
        injection Hstep as <- <-. right. eauto. }
    + simpl. apply (IH s1 past s2 fs2); [|exact Hrun].
      intros slot b Hb. rewrite Hsame in Hb. exact (Hinv slot b Hb).
    + destruct Hr as (env & -> & fr0 & -> & Hrender).
      destruct (Render_flags env s s1 fr0 past Hinv Hrender)
        as (Hinv1 & Hpresent & Hundef).
      destruct (IH s1 (past ++ [fr0]) s2 fs2 Hinv1 Hrun) as [Hinv2 Hframes].
      rewrite <- app_assoc in Hinv2. split; [exact Hinv2|].
      intros earlier fr later Heq. destruct earlier as [|x earlier].
      * simpl in Heq. injection Heq as <- <-. rewrite app_nil_r.
        split; [exact Hpresent|]. split; [exact Hundef|].
        apply Render_inv in Hrender. simpl in Hrender.
        destruct Hrender as (_ & ? & ? & _ & _ & _ & _ & _ & _ & _ & _ & _ & _ & _ & _ & _ & _ & _ & _ & _ & _ & _ & _ & _ & Hbar & _).
        exact Hbar.
      * simpl in Heq. injection Heq as <- ->.
        specialize (Hframes earlier fr later eq_refl).
        rewrite <- app_assoc in Hframes. exact Hframes.
Qed.

(** C9.  Along any sequence of events that starts with no swap-chain flag
    set, the barrier before compositing into a slot starts from [Present]
    exactly when an earlier frame composited into that slot and the buffers
    have not been rebuilt since (neither by a later frame nor by this one),
    and from [Undefined] otherwise; the recorded barrier is the table's
    barrier from that state to [RenderTarget]. *)
Theorem swap_chain_barrier_before_state
    (s0 s : ShaderProj) (events : list Event) (frames earlier later : list Frame)
    (fr : Frame) :
  Forall (λ b : bool, b = false) (m_SwapChainLayoutInitd s0) →
  run s0 events = Some (s, frames) →
  frames = earlier ++ fr :: later →
  (fr_swapStateBefore fr = IS_Present
   ↔ fr_rebuilt fr = None
     ∧ composited_since_creation earlier (fr_swapChainIndex fr))
  ∧ (fr_swapStateBefore fr = IS_Undefined
     ↔ ¬ (fr_rebuilt fr = None
          ∧ composited_since_creation earlier (fr_swapChainIndex fr)))
  ∧ ImageBarrier (imb_image (fr_swapBarrierIn fr)) (fr_swapStateBefore fr)
                 IS_RenderTarget 1 0 1 = Some (fr_swapBarrierIn fr).
Proof.
  intros Hinit Hrun Heq.
  assert (flags_track s0 []) as Hinv.
  { intros slot b Hb. rewrite Forall_forall in Hinit.
    rewrite (Hinit b) by (apply list_elem_of_lookup; eauto).
    split; [discriminate|]. intros H.
    exfalso. exact (composited_since_creation_nil slot H). }
  destruct (run_flags events s0 [] s frames Hinv Hrun) as [_ H].
  exact (H earlier fr later Heq).
Qed.

Lemma swap_chain_barrier_before_state_witness :
  ∃ s f1 f2 f3 f4,
    run demo_app demo_events = Some (s, [f1; f2; f3; f4])
    ∧ (fr_swapStateBefore f3 = IS_Present
       ↔ fr_rebuilt f3 = None
         ∧ composited_since_creation [f1; f2] (fr_swapChainIndex f3)).
Proof.
  assert (∃ s f1 f2 f3 f4,
            run demo_app demo_events = Some (s, [f1; f2; f3; f4]))
    as (s & f1 & f2 & f3 & f4 & Hrun) by (vm_compute; eauto 10).
  exists s, f1, f2, f3, f4. split; [exact Hrun|].
  refine (proj1 (swap_chain_barrier_before_state demo_app s demo_events
                   [f1; f2; f3; f4] [f1; f2] [f4] f3 _ Hrun eq_refl)).
  vm_compute. constructor.
Defined.

(** The demo run: the first frame of slot 0 starts from [Undefined], its
    second frame from [Present], and its first frame after the resize from
    [Undefined] again. *)
Example demo_run_before_states :
  match run demo_app demo_events with
  | Some (_, frames) => map fr_swapStateBefore frames
  | None => []
  end = [IS_Undefined; IS_Undefined; IS_Present; IS_Undefined].
Proof. vm_compute. reflexivity. Qed.

(** ** The terminal pass *)

Lemma foldM_invariant {A B} (f : A → B → option A) (P : A → Prop) l :
  (∀ a x a', P a → f a x = Some a' → P a') →
  ∀ a a', P a → foldM f a l = Some a' → P a'.
Proof.
  intros Hstep. induction l as [|x l IH]; intros a a' Ha H; simpl in H.
  - injection H as <-. exact Ha.
  - destruct (f a x) as [a1|] eqn:E; [|discriminate]. simpl in H.
    eapply IH; [|exact H]. eapply Hstep; eauto.
Qed.

Lemma bindProgram_inv common p p' writes log :
  bindProgram common p = Some (p', writes, log) →
  m_ImagePassIndex p' = m_ImagePassIndex p
  ∧ this <$> m_Passes p' = this <$> m_Passes p
  ∧ m_OutputId <$> m_Passes p' = m_OutputId <$> m_Passes p
  ∧ m_Name p' = m_Name p.
Proof.
  unfold bindProgram. intros H.
  destruct (foldM _ _ _) as [r|] eqn:Hfold; [|discriminate].
  simpl in H. injection H as <- _ _. simpl.
  split; [reflexivity|].
  assert (this <$> pb_passes r = this <$> GetPasses p
          ∧ m_OutputId <$> pb_passes r = m_OutputId <$> GetPasses p) as [? ?];
    [|auto].
  revert Hfold.
  apply (foldM_invariant _
           (λ acc, this <$> pb_passes acc = this <$> GetPasses p
                   ∧ m_OutputId <$> pb_passes acc
                     = m_OutputId <$> GetPasses p));
    [|split; reflexivity].
  intros acc index acc' [Hthis Hid] Hstep.
  destruct (pb_passes acc !! index) as [pass|] eqn:Hpass; [|discriminate].
  simpl in Hstep.
  destruct (CreateBindingSets common (pb_passes acc) pass index) as [b|]
    eqn:Hb; [|discriminate].
  simpl in Hstep. injection Hstep as <-. simpl.
  apply CreateBindingSets_inv in Hb
    as (? & ? & ? & ? & ? & ? & ? & _ & _ & _ & _ & _ & _ & _ & _ & _ & Hp).
  rewrite !list_fmap_insert, Hp. simpl.
  rewrite <- Hthis, <- Hid.
  split; apply list_insert_id; rewrite list_lookup_fmap, Hpass; reflexivity.
Qed.

Lemma Render_active_program env s s' fr program :
  Render env s = Some (s', fr) →
  at_int (m_Programs s) (m_ActiveProgram s) = Some program →
  ∃ program',
    at_int (m_Programs s') (m_ActiveProgram s') = Some program'
    ∧ m_ImagePassIndex program' = m_ImagePassIndex program
    ∧ this <$> m_Passes program' = this <$> m_Passes program.
Proof.
  intros H Hp. apply Render_inv in H. simpl in H.
  destruct H as (Hcreate & _ & _ & _ & _ & _ & _ & _ & _ & _ & _ & _ & _ & _
                 & _ & _ & _ & _ & Hprogs & Hactive & _).
  rewrite Hprogs, Hactive. unfold frame_state in *.
  destruct (fr_rebuilt fr) as [r|]; [|exists program; auto].
  apply CreateBuffersAndBindings_inv in Hcreate
    as (_ & (bound & Hbound & Hnew) & _ & _ & Hact & _).
  rewrite Hnew, Hact. apply at_int_Some in Hp as [Hnn Hp].
  apply mapM_Some in Hbound.
  destruct (Forall2_lookup_l _ _ _ _ _ Hbound Hp) as ([[p' w] l] & Hb & Hbind).
  exists p'. split.
  - apply at_int_Some. split; [exact Hnn|].
    rewrite list_lookup_fmap, Hb. reflexivity.
  - apply bindProgram_inv in Hbind as (? & ? & _). auto.
Qed.

Lemma Load_terminal self nodes heap :
  lr_return (Load self (Some nodes) heap) = true →
  ∃ imagePass,
    last (GetPasses (lr_program (Load self (Some nodes) heap)))
    = Some imagePass
    ∧ pn_type (m_Declaration imagePass) = "image"%string
    ∧ terminal_last (lr_program (Load self (Some nodes) heap))
    ∧ GetPasses (lr_program (Load self (Some nodes) heap))
        !! GetImagePassIndex (lr_program (Load self (Some nodes) heap))
      = Some imagePass.
Proof.
  intros Hret.
  pose proof (Load_imagePass_is_image_node self nodes heap) as Haux.
  unfold Load in *.
  destruct (ls_imagePass _) as [imagePass|] eqn:Hip; [|discriminate].
  simpl in *. exists imagePass.
  split; [apply last_snoc|].
  split; [exact (Haux imagePass eq_refl)|].
  split.
  - unfold terminal_last, GetImagePassIndex, GetPasses. simpl.
    rewrite length_app. simpl. reflexivity.
  - unfold GetImagePassIndex, GetPasses. simpl.
    rewrite lookup_app_r by lia. rewrite Nat.sub_diag. reflexivity.
Qed.

(** ** The script *)

Lemma findProgram_found programs name index :
  (∃ p, p ∈ programs ∧ GetName p = name) →
  0 ≤ index → 0 ≤ findProgram programs name index.
Proof.
  revert index. induction programs as [|p rest IH]; intros index (q & Hq & Hn)
    Hi.
  - inversion Hq.
  - simpl. destruct (String.eqb_spec (GetName p) name) as [E|E]; [lia|].
    apply IH; [|lia]. exists q. split; [|exact Hn].
    inversion Hq; subst; [contradiction|assumption].
Qed.

Lemma Render_resets_time env s s' fr :
  m_ResetRequired s = true →
  Render env s = Some (s', fr) →
  m_CurrentTime s' = 0%Q ∧ fr_iTime fr = 0%Q ∧ fr_iFrame fr = 0
  ∧ m_ScriptIndex s' = m_ScriptIndex s
  ∧ m_CurrentDuration s' = m_CurrentDuration s.
Proof.
  intros Hreset H. apply Render_inv in H. simpl in H.
  destruct H as (Hcreate & _ & _ & _ & Hframe & Htime & _ & _ & _ & _ & _ & _
                 & _ & _ & _ & _ & Htime' & _ & _ & _ & Hdur & _ & Hidx & _).
  unfold frame_state in *.
  assert (m_ResetRequired
            match fr_rebuilt fr with Some r => rb_state r | None => s end
          = true
          ∧ m_ScriptIndex
              match fr_rebuilt fr with Some r => rb_state r | None => s end
            = m_ScriptIndex s
          ∧ m_CurrentDuration
              match fr_rebuilt fr with Some r => rb_state r | None => s end
            = m_CurrentDuration s) as (Hr & Hi & Hd).
  { destruct (fr_rebuilt fr) as [r|]; [|auto].
    apply CreateBuffersAndBindings_inv in Hcreate.
    destruct Hcreate as (_ & _ & _ & _ & _ & Hres & _ & _ & Hdu & _ & Hsi & _).
    rewrite Hres, Hsi, Hdu. auto. }
  rewrite Hr in Hframe, Htime.
  repeat split; congruence.
Qed.

(** C6, as stated, fails on its last part: after [Animate(2.1)] on entry 0
    the selection is entry 1, but the elapsed time is 2.1, and the next
    [Render] sets it to 0; at neither point is it within a tolerance
    smaller than 0.1 of 0.1. *)
Lemma advance_does_not_keep_the_overshoot :
  ∃ s1 f1 s2 f2,
    run demo_app [EvRender (demo_env 0); EvAnimate (21 # 10)]
      = Some (s1, [f1])
    ∧ m_ScriptIndex s1 = 1
    ∧ Render (demo_env 1) s1 = Some (s2, f2)
    ∧ m_CurrentTime s1 = (21 # 10)%Q
    ∧ m_CurrentTime s2 = 0%Q
    ∧ fr_iTime f2 = 0%Q
    ∧ ∀ eps : Q,
        (eps < 1 # 10)%Q →
        ¬ (Qabs (m_CurrentTime s1 - (1 # 10)) <= eps)%Q
        ∧ ¬ (Qabs (m_CurrentTime s2 - (1 # 10)) <= eps)%Q.
Proof.
  eexists _, _, _, _.
  split; [vm_compute; reflexivity|].
  split; [vm_compute; reflexivity|].
  split; [vm_compute; reflexivity|].
  split; [vm_compute; reflexivity|].
  split; [vm_compute; reflexivity|].
  split; [vm_compute; reflexivity|].
  intros eps Heps. split.
  - match goal with
    | |- ¬ (Qabs (?t - _) <= _)%Q =>
        let v := eval vm_compute in t in change t with v
    end.
    assert (Qabs ((21 # 10) - (1 # 10)) == 2)%Q as E by reflexivity.
    rewrite E. lra.
  - match goal with
    | |- ¬ (Qabs (?t - _) <= _)%Q =>
        let v := eval vm_compute in t in change t with v
    end.
    assert (Qabs (0 - (1 # 10)) == 1 # 10)%Q as E by reflexivity.
    rewrite E. lra.
Qed.

Lemma SetScript_nonempty script baseInterval s first rest :
  foldl (SetScript_entry (m_Programs s) baseInterval) (m_Script s) script
  = first :: rest →
  SetScript script baseInterval s
  = (true,
     set_m_CurrentDuration (duration first)
       (set_m_ActiveProgram (programIndex first)
          (set_m_Script (first :: rest) s))).
Proof. intros H. unfold SetScript. rewrite H. reflexivity. Qed.

(** C6 (amended).  The script ["foo", {"program": "bar", "duration": 5}]
    loads as two entries with durations 1 and 5; with both programs loaded
    and interval 2, [SetScript] makes the playlist durations 2 and 10 and
    selects entry 0; [Animate(2.1)] then selects entry 1 with duration 10
    and requests a reset, the elapsed time being 2.1; and the next [Render]
    sets the elapsed time and the frame index to 0. *)
Theorem script_scenario_advances_and_resets (programs : list ShProgram) :
  (∃ p, p ∈ programs ∧ GetName p = "foo"%string) →
  (∃ p, p ∈ programs ∧ GetName p = "bar"%string) →
  LoadScript (Some demo_script_file) []
  = (true, [mkScriptEntry "foo" (-1) 1; mkScriptEntry "bar" (-1) 5])
  ∧ ∃ s,
      SetScript (LoadScript (Some demo_script_file) []).2 2
                (ShaderProj_ctor programs) = (true, s)
      ∧ duration <$> m_Script s = [2%Q; 10%Q]
      ∧ programName <$> m_Script s = ["foo"; "bar"]%string
      ∧ m_ScriptIndex s = 0
      ∧ m_CurrentDuration s = 2%Q
      ∧ ∃ s1,
          Animate (21 # 10) s = Some s1
          ∧ m_ScriptIndex s1 = 1
          ∧ m_CurrentDuration s1 = 10%Q
          ∧ m_ActiveProgram s1 = findProgram programs "bar" 0
          ∧ m_ResetRequired s1 = true
          ∧ m_CurrentTime s1 = (21 # 10)%Q
          ∧ ∀ env s2 fr,
              Render env s1 = Some (s2, fr) →
              m_CurrentTime s2 = 0%Q ∧ fr_iTime fr = 0%Q ∧ fr_iFrame fr = 0
              ∧ m_ScriptIndex s2 = 1 ∧ m_CurrentDuration s2 = 10%Q.
Proof.
  intros Hfoo Hbar.
  pose proof (findProgram_found programs "foo" 0 Hfoo ltac:(lia)) as Hf.
  pose proof (findProgram_found programs "bar" 0 Hbar ltac:(lia)) as Hb.
  assert ((findProgram programs "foo" 0 <? 0) = false) as Hf'
    by (apply Z.ltb_ge; lia).
  assert ((findProgram programs "bar" 0 <? 0) = false) as Hb'
    by (apply Z.ltb_ge; lia).
  split; [reflexivity|].
  assert (foldl (SetScript_entry programs 2) []
                (LoadScript (Some demo_script_file) []).2
          = [mkScriptEntry "foo" (findProgram programs "foo" 0) 2;
             mkScriptEntry "bar" (findProgram programs "bar" 0) 10])
    as Hscript.
  { simpl. unfold SetScript_entry at 2. simpl. rewrite Hf'. simpl.
    unfold SetScript_entry. simpl. rewrite Hb'. reflexivity. }
  eexists. split; [apply SetScript_nonempty; exact Hscript|]. simpl.
  repeat (split; [reflexivity|]).
  unfold Animate. simpl. unfold NextProgram. simpl.
  eexists. split; [reflexivity|]. simpl.
  repeat (split; [reflexivity|]).
  intros env s2 fr Hrender.
  apply Render_resets_time in Hrender; [|reflexivity].
  exact Hrender.
Qed.

Lemma script_scenario_advances_and_resets_witness :
  ∃ s,
    SetScript (LoadScript (Some demo_script_file) []).2 2
              (ShaderProj_ctor demo_programs) = (true, s)
    ∧ duration <$> m_Script s = [2%Q; 10%Q].
Proof.
  destruct (script_scenario_advances_and_resets demo_programs)
    as (_ & s & Hs & Hd & _).
  - exists (demo_program "foo" 100). split; [left|reflexivity].
  - exists (demo_program "bar" 200). split; [right; left|reflexivity].
  - exists s. auto.
Defined.

(** * Further properties of the code *)

(** ** The script and the playlist *)

Lemma LoadScript_loop script root :
  foldl LoadScript_node script root = script ++ omap entry_of_node root.
Proof.
  revert script. induction root as [|node root IH]; intros script; simpl.
  - by rewrite app_nil_r.
  - rewrite IH. destruct node as [name|program [d|]|]; simpl;
      rewrite <- ?app_assoc; reflexivity.
Qed.

(** X1.  [LoadScript] appends one entry per string or object element of
    the file, in file order, and skips every other element; a string, and
    an object without a numeric duration, get duration 1 and every entry
    the program index -1.  It returns false exactly when the file cannot
    be opened or parsed, or the script is empty afterwards. *)
Theorem LoadScript_appends_string_and_object_entries
    (scriptFile : option (list ScriptNode)) (script : list ScriptEntry) :
  (LoadScript scriptFile script).2
  = script ++ omap entry_of_node (default [] scriptFile)
  ∧ ((LoadScript scriptFile script).1 = false
     ↔ scriptFile = None ∨ (LoadScript scriptFile script).2 = [])
  ∧ length (LoadScript scriptFile script).2
    = (length script
       + length (filter (λ node, is_script_entry node = true)
                        (default [] scriptFile)))%nat.
Proof.
  assert (∀ root : list ScriptNode,
            length (omap entry_of_node root)
            = length (filter (λ node, is_script_entry node = true) root))
    as Hlen.
  { induction root as [|node root IH]; [reflexivity|].
    destruct node as [name|program [d|]|].
    - rewrite filter_cons_True by reflexivity. simpl. f_equal. exact IH.
    - rewrite filter_cons_True by reflexivity. simpl. f_equal. exact IH.
    - rewrite filter_cons_True by reflexivity. simpl. f_equal. exact IH.
    - rewrite filter_cons_False by discriminate. exact IH. }
  destruct scriptFile as [root|]; simpl.
  - rewrite LoadScript_loop.
    destruct (script ++ omap entry_of_node root) eqn:E; simpl.
    + split; [reflexivity|]. split; [tauto|].
      rewrite <- Hlen, <- length_app, E. reflexivity.
    + split; [reflexivity|].
      split; [split; [discriminate|intros [?|?]; discriminate]|].
      rewrite <- Hlen, <- length_app, E. reflexivity.
  - rewrite app_nil_r. split; [reflexivity|]. split; [tauto|lia].
Qed.

Lemma findProgram_spec programs name index r :
  findProgram programs name index = r →
  (r = -1 ∧ Forall (λ p, GetName p ≠ name) programs)
  ∨ (∃ k p, r = index + Z.of_nat k
            ∧ programs !! k = Some p ∧ GetName p = name
            ∧ ∀ j q, (j < k)%nat → programs !! j = Some q → GetName q ≠ name).
Proof.
  revert index r. induction programs as [|p rest IH]; intros index r H;
    simpl in H.
  - left. split; [congruence|constructor].
  - destruct (String.eqb_spec (GetName p) name) as [E|E].
    + right. exists 0%nat, p. repeat split; [lia|exact E|].
      intros j q Hj. lia.
    + destruct (IH (index + 1) r H) as [[Hr Hall]|(k & q & Hr & Hk & Hn & Hf)].
      * left. split; [exact Hr|]. constructor; assumption.
      * right. exists (S k), q. repeat split; [lia|exact Hk|exact Hn|].
        intros j q' Hj Hq'. destruct j as [|j]; simpl in Hq'.
        -- injection Hq' as <-. exact E.
        -- apply (Hf j q'); [lia|exact Hq'].
Qed.

Lemma SetScript_entry_adds programs baseInterval m_Script entry :
  (¬ loaded programs (programName entry)
   ∧ SetScript_entry programs baseInterval m_Script entry = m_Script)
  ∨ (∃ e, SetScript_entry programs baseInterval m_Script entry
          = m_Script ++ [e]
          ∧ loaded programs (programName entry)
          ∧ programName e = programName entry
          ∧ duration e = (duration entry * baseInterval)%Q
          ∧ entry_valid programs e
          ∧ 0 ≤ programIndex e < Z.of_nat (length programs)).
Proof.
  unfold SetScript_entry. simpl.
  destruct (findProgram_spec programs (programName entry) 0 _ eq_refl)
    as [[Hr Hall]|(k & p & Hr & Hk & Hn & _)].
  - rewrite Hr. simpl. left. split; [|reflexivity].
    intros (p & Hp & Hname). rewrite Forall_forall in Hall.
    exact (Hall p Hp Hname).
  - rewrite Hr. destruct (Z.ltb_spec (0 + Z.of_nat k) 0); [lia|].
    right. eexists. split; [reflexivity|]. simpl.
    split; [exists p; split; [eapply list_elem_of_lookup_2; eauto|exact Hn]|].
    split; [reflexivity|]. split; [reflexivity|].
    split.
    + exists p. split; [|exact Hn]. apply at_int_Some.
      cbn [programIndex]. split; [lia|].
      replace (Z.to_nat (0 + Z.of_nat k)) with k by lia. exact Hk.
    + cbn [programIndex]. apply lookup_lt_Some in Hk. lia.
Qed.

Lemma is_loaded_spec programs name :
  is_loaded programs name = true ↔ loaded programs name.
Proof.
  unfold is_loaded, loaded. rewrite existsb_exists. split.
  - intros (p & Hin & Heq). exists p. split.
    + apply list_elem_of_In. exact Hin.
    + apply String.eqb_eq. exact Heq.
  - intros (p & Hin & Heq). exists p. split.
    + apply list_elem_of_In. exact Hin.
    + apply String.eqb_eq. exact Heq.
Qed.

Lemma SetScript_loop programs baseInterval script m_Script :
  ∃ added,
    foldl (SetScript_entry programs baseInterval) m_Script script
    = m_Script ++ added
    ∧ Forall2 (λ e entry,
                 programName e = programName entry
                 ∧ duration e = (duration entry * baseInterval)%Q)
              added
              (filter (λ entry, is_loaded programs (programName entry) = true)
                      script)
    ∧ Forall (entry_valid programs) added
    ∧ Forall (λ e, 0 ≤ programIndex e < Z.of_nat (length programs)) added
    ∧ Forall (λ e, loaded programs (programName e)) added
    ∧ (length added ≤ length script)%nat
    ∧ (Forall (λ entry, loaded programs (programName entry)) script →
       programName <$> added = programName <$> script
       ∧ Forall2 (λ e entry, duration e = (duration entry * baseInterval)%Q)
                 added script)
    ∧ (Forall (λ entry, ¬ loaded programs (programName entry)) script →
       added = []).
Proof.
  revert m_Script. induction script as [|entry script IH]; intros m_Script.
  - exists []. simpl. rewrite app_nil_r.
    split; [reflexivity|]. split; [constructor|].
    split; [constructor|]. split; [constructor|].
    split; [constructor|]. split; [lia|].
    split; [intros _; split; [reflexivity|constructor]|reflexivity].
  - simpl.
    destruct (SetScript_entry_adds programs baseInterval m_Script entry)
      as [[Hno ->]|(e & -> & Hl & Hn & Hd & Hv & Hr)].
    + destruct (IH m_Script)
        as (added & -> & Hkept & Hv & Hr & Hl & Hlen & Hall & Hnone).
      exists added.
      split; [reflexivity|].
      split.
      { rewrite filter_cons_False; [exact Hkept|].
        rewrite is_loaded_spec. exact Hno. }
      split; [exact Hv|]. split; [exact Hr|].
      split; [exact Hl|]. split; [lia|]. split.
      * intros H. inversion H; subst. contradiction.
      * intros H. inversion H; subst. auto.
    + destruct (IH (m_Script ++ [e]))
        as (added & -> & Hkept & Hv' & Hr' & Hl' & Hlen & Hall & Hnone).
      exists (e :: added). rewrite <- app_assoc. simpl.
      split; [reflexivity|].
      split.
      { rewrite filter_cons_True by (apply is_loaded_spec; exact Hl).
        constructor; [split; assumption|exact Hkept]. }
      split; [constructor; assumption|].
      split; [constructor; assumption|].
      split; [constructor; [rewrite Hn; exact Hl|exact Hl']|].
      split; [lia|]. split.
      * intros H. inversion H as [|? ? _ Hrest]; subst.
        destruct (Hall Hrest) as [Hnames Hdur].
        split; [f_equal; [exact Hn|exact Hnames]|].
        constructor; assumption.
      * intros H. inversion H; subst. contradiction.
Qed.

(** X2.  [SetScript] appends to the playlist one entry for each script
    entry whose program is loaded, in script order, with the name of the
    script entry and its duration multiplied by the interval; the script
    entries whose program is not loaded are dropped, wherever they stand.
    Every entry added refers to a loaded program: its index is inside the
    program list and the program there has the entry's name.  The call
    returns false exactly when the playlist is empty afterwards, and then
    changes nothing else; otherwise it selects the program and duration of
    the first playlist entry. *)
Theorem SetScript_keeps_loaded_entries
    (script : list ScriptEntry) (baseInterval : Q) (s : ShaderProj) :
  let r := SetScript script baseInterval s in
  let kept :=
    filter (λ entry, is_loaded (m_Programs s) (programName entry) = true)
           script in
  ∃ added,
    m_Script r.2 = m_Script s ++ added
    ∧ Forall2 (λ e entry,
                 programName e = programName entry
                 ∧ duration e = (duration entry * baseInterval)%Q)
              added kept
    ∧ (∀ name, is_loaded (m_Programs s) name = true
               ↔ loaded (m_Programs s) name)
    ∧ Forall (entry_valid (m_Programs s)) added
    ∧ Forall (λ e, loaded (m_Programs s) (programName e)) added
    ∧ (Forall (λ entry, loaded (m_Programs s) (programName entry)) script →
       programName <$> added = programName <$> script
       ∧ Forall2 (λ e entry, duration e = (duration entry * baseInterval)%Q)
                 added script)
    ∧ (Forall (λ entry, ¬ loaded (m_Programs s) (programName entry)) script →
       added = [])
    ∧ (r.1 = false ↔ m_Script r.2 = [])
    ∧ (r.1 = false → r.2 = set_m_Script [] s)
    ∧ (r.1 = true →
       ∃ first, head (m_Script r.2) = Some first
                ∧ m_ActiveProgram r.2 = programIndex first
                ∧ m_CurrentDuration r.2 = duration first)
    ∧ m_Programs r.2 = m_Programs s.
Proof.
  intros r kept. subst r kept.
  destruct (SetScript_loop (m_Programs s) baseInterval script (m_Script s))
    as (added & Hfold & Hkept & Hv & _ & Hl & _ & Hall & Hnone).
  exists added. unfold SetScript. rewrite Hfold. simpl.
  destruct (m_Script s ++ added) as [|first rest] eqn:E; simpl.
  - split; [reflexivity|]. split; [exact Hkept|].
    split; [apply is_loaded_spec|].
    split; [exact Hv|]. split; [exact Hl|].
    split; [exact Hall|]. split; [exact Hnone|].
    split; [tauto|]. split; [reflexivity|].
    split; [discriminate|reflexivity].
  - split; [reflexivity|]. split; [exact Hkept|].
    split; [apply is_loaded_spec|].
    split; [exact Hv|]. split; [exact Hl|].
    split; [exact Hall|]. split; [exact Hnone|].
    split; [split; discriminate|]. split; [discriminate|].
    split; [|reflexivity]. intros _. exists first. auto.
Qed.

Lemma SetScript_loop_durations programs baseInterval script m_Script :
  ∃ added,
    foldl (SetScript_entry programs baseInterval) m_Script script
    = m_Script ++ added
    ∧ Forall (λ e, ∃ entry, entry ∈ script
                            ∧ duration e = (duration entry * baseInterval)%Q)
             added.
Proof.
  revert m_Script. induction script as [|entry script IH]; intros m_Script.
  - exists []. simpl. rewrite app_nil_r. split; [reflexivity|constructor].
  - simpl.
    destruct (SetScript_entry_adds programs baseInterval m_Script entry)
      as [[Hno ->]|(e & -> & Hl & Hn & Hd & Hv & Hr)].
    + destruct (IH m_Script) as (added & -> & Hd).
      exists added. split; [reflexivity|].
      eapply Forall_impl; [exact Hd|].
      intros e (entry' & Hin & He). exists entry'. split; [right|]; assumption.
    + destruct (IH (m_Script ++ [e])) as (added & -> & Hd').
      exists (e :: added). rewrite <- app_assoc. split; [reflexivity|].
      constructor.
      * exists entry. split; [left|exact Hd].
      * eapply Forall_impl; [exact Hd'|].
        intros e' (entry' & Hin & He). exists entry'.
        split; [right|]; assumption.
Qed.

Lemma Animate_without_duration dt s :
  ¬ (0 < m_CurrentDuration s)%Q →
  ∃ s', Animate dt s = Some s'
        ∧ m_ScriptIndex s' = m_ScriptIndex s
        ∧ m_ActiveProgram s' = m_ActiveProgram s
        ∧ m_CurrentDuration s' = m_CurrentDuration s
        ∧ m_ResetRequired s' = m_ResetRequired s
        ∧ m_Script s' = m_Script s.
Proof.
  intros Hd. unfold Animate. destruct (m_Paused s); [eauto 10|]. simpl.
  assert (Qgtb (m_CurrentDuration s) 0 = false) as ->.
  { apply Qgtb_false. apply Qnot_lt_le. exact Hd. }
  simpl. eauto 10.
Qed.

(** X3.  With interval 0 (the default of [CommandLineOptions::interval],
    which [main] passes to [SetScript]) every playlist entry gets a
    duration equal to 0; and while the current duration is not positive, no
    sequence of [Animate] calls, however long the elapsed times, changes
    the script index, the active program or the reset request, and the
    crossfade factor is 1. *)
Theorem interval_zero_never_advances
    (programs : list ShProgram) (script : list ScriptEntry)
    (elapsed : list Q) :
  let s := (SetScript script 0 (ShaderProj_ctor programs)).2 in
  Forall (λ e, (duration e == 0)%Q) (m_Script s)
  ∧ (m_CurrentDuration s == 0)%Q
  ∧ ∃ s', foldM (λ s dt, Animate dt s) s elapsed = Some s'
          ∧ m_ScriptIndex s' = m_ScriptIndex s
          ∧ m_ActiveProgram s' = m_ActiveProgram s
          ∧ m_ResetRequired s' = m_ResetRequired s
          ∧ ∀ t, crossfadeFactor t (m_CurrentDuration s') = 1%Q.
Proof.
  intros s.
  destruct (SetScript_loop_durations programs 0 script [])
    as (added & Hfold & Hd).
  assert (Forall (λ e, (duration e == 0)%Q) added) as Hzero.
  { eapply Forall_impl; [exact Hd|]. intros e (entry & _ & ->). ring. }
  assert (m_Script s = added ∧ (m_CurrentDuration s == 0)%Q) as [Hs Hcur].
  { subst s. unfold SetScript.
    change (m_Script (ShaderProj_ctor programs)) with (@nil ScriptEntry).
    change (m_Programs (ShaderProj_ctor programs)) with programs.
    rewrite Hfold. simpl. destruct added as [|first rest]; simpl.
    - split; reflexivity.
    - split; [reflexivity|]. inversion Hzero; assumption. }
  split; [rewrite Hs; exact Hzero|]. split; [exact Hcur|].
  assert (¬ (0 < m_CurrentDuration s)%Q) as Hnot by (rewrite Hcur; lra).
  clearbody s. clear Hs Hcur Hzero Hd Hfold.
  revert s Hnot. induction elapsed as [|dt rest IH]; intros s Hnot; simpl.
  - exists s. repeat split. intros t. unfold crossfadeFactor.
    assert (Qgtb (m_CurrentDuration s) 0 = false) as ->; [|reflexivity].
    apply Qgtb_false. apply Qnot_lt_le. exact Hnot.
  - destruct (Animate_without_duration dt s Hnot)
      as (s1 & -> & Hi & Ha & Hdur & Hr & _). simpl.
    destruct (IH s1) as (s' & Hf & Hi' & Ha' & Hr' & Hfac);
      [rewrite Hdur; exact Hnot|].
    exists s'. repeat split; congruence.
Qed.

(** *** Next and previous *)

Lemma selectEntry_inv s s' :
  selectEntry s = Some s' →
  ∃ entry,
    at_int (m_Script s) (m_ScriptIndex s) = Some entry
    ∧ s' = set_m_ResetRequired true
             (set_m_CurrentDuration (duration entry)
                (set_m_ActiveProgram (programIndex entry) s)).
Proof.
  unfold selectEntry. intros H.
  destruct (at_int (m_Script s) (m_ScriptIndex s)) as [entry|]; [|discriminate].
  simpl in H. injection H as <-. eauto.
Qed.

Lemma NextProgram_in_range s :
  m_Script s ≠ [] →
  0 ≤ m_ScriptIndex s < Z.of_nat (length (m_Script s)) →
  ∃ entry,
    at_int (m_Script s)
           ((m_ScriptIndex s + 1) mod Z.of_nat (length (m_Script s)))
    = Some entry
    ∧ NextProgram s
      = Some (set_m_ResetRequired true
                (set_m_CurrentDuration (duration entry)
                   (set_m_ActiveProgram (programIndex entry)
                      (set_m_ScriptIndex
                         ((m_ScriptIndex s + 1)
                          mod Z.of_nat (length (m_Script s))) s)))).
Proof.
  intros Hne Hr. unfold NextProgram.
  destruct (m_Script s) as [|e0 rest] eqn:E; [contradiction|].
  rewrite <- E in *. rewrite Z.rem_mod_nonneg by lia.
  unfold selectEntry. simpl.
  destruct (at_int_in_range (m_Script s)
              ((m_ScriptIndex s + 1) mod Z.of_nat (length (m_Script s))))
    as [entry Hentry].
  { apply Z.mod_pos_bound. lia. }
  exists entry. rewrite Hentry. simpl. split; reflexivity.
Qed.

Lemma PreviousProgram_in_range s :
  m_Script s ≠ [] →
  0 ≤ m_ScriptIndex s < Z.of_nat (length (m_Script s)) →
  ∃ entry,
    at_int (m_Script s)
           ((m_ScriptIndex s - 1) mod Z.of_nat (length (m_Script s)))
    = Some entry
    ∧ PreviousProgram s
      = Some (set_m_ResetRequired true
                (set_m_CurrentDuration (duration entry)
                   (set_m_ActiveProgram (programIndex entry)
                      (set_m_ScriptIndex
                         ((m_ScriptIndex s - 1)
                          mod Z.of_nat (length (m_Script s))) s)))).
Proof.
  intros Hne Hr. unfold PreviousProgram.
  destruct (m_Script s) as [|e0 rest] eqn:E; [contradiction|].
  rewrite <- E in *. simpl.
  assert ((m_ScriptIndex s - 1) mod Z.of_nat (length (m_Script s))
          = if m_ScriptIndex s - 1 <? 0
            then Z.of_nat (length (m_Script s)) - 1
            else m_ScriptIndex s - 1) as Hmod.
  { destruct (Z.ltb_spec (m_ScriptIndex s - 1) 0).
    - symmetry. apply (Z.mod_unique _ _ (-1)); lia.
    - apply Z.mod_small. lia. }
  rewrite Hmod.
  destruct (at_int_in_range (m_Script s)
              (if m_ScriptIndex s - 1 <? 0
               then Z.of_nat (length (m_Script s)) - 1
               else m_ScriptIndex s - 1)) as [entry Hentry].
  { destruct (Z.ltb_spec (m_ScriptIndex s - 1) 0); lia. }
  exists entry. split; [exact Hentry|].
  unfold selectEntry.
  destruct (Z.ltb_spec (m_ScriptIndex s - 1) 0); simpl;
    destruct (Z.ltb_spec (m_ScriptIndex s - 1) 0); try lia;
    rewrite Hentry; reflexivity.
Qed.

(** X4.  With a non-empty script and the script index inside it,
    [NextProgram] followed by [PreviousProgram], and [PreviousProgram]
    followed by [NextProgram], both succeed and come back to the same
    script index, with the active program and duration of that entry and a
    reset requested: the two are inverse to each other on the selection,
    including across the wrap-around at either end. *)
Theorem next_and_previous_are_inverse (s : ShaderProj) :
  m_Script s ≠ [] →
  0 ≤ m_ScriptIndex s < Z.of_nat (length (m_Script s)) →
  ∃ entry,
    at_int (m_Script s) (m_ScriptIndex s) = Some entry
    ∧ (∃ s1 s2,
         NextProgram s = Some s1 ∧ PreviousProgram s1 = Some s2
         ∧ m_ScriptIndex s2 = m_ScriptIndex s
         ∧ m_ActiveProgram s2 = programIndex entry
         ∧ m_CurrentDuration s2 = duration entry
         ∧ m_ResetRequired s2 = true)
    ∧ (∃ s1 s2,
         PreviousProgram s = Some s1 ∧ NextProgram s1 = Some s2
         ∧ m_ScriptIndex s2 = m_ScriptIndex s
         ∧ m_ActiveProgram s2 = programIndex entry
         ∧ m_CurrentDuration s2 = duration entry
         ∧ m_ResetRequired s2 = true).
Proof.
  intros Hne Hr.
  destruct (at_int_in_range (m_Script s) (m_ScriptIndex s) Hr)
    as [entry Hentry].
  exists entry. split; [exact Hentry|].
  set (n := Z.of_nat (length (m_Script s))) in *.
  assert (0 < n) as Hn by lia.
  split.
  - destruct (NextProgram_in_range s Hne Hr) as (e1 & He1 & Hnext).
    fold n in He1, Hnext.
    match type of Hnext with _ = Some ?x => set (s1 := x) in * end.
    exists s1.
    destruct (PreviousProgram_in_range s1) as (e2 & He2 & Hprev).
    { exact Hne. }
    { simpl. apply Z.mod_pos_bound. exact Hn. }
    simpl in He2, Hprev. fold n in He2, Hprev.
    assert (((m_ScriptIndex s + 1) mod n - 1) mod n = m_ScriptIndex s)
      as Hback.
    { rewrite Zminus_mod_idemp_l.
      replace (m_ScriptIndex s + 1 - 1) with (m_ScriptIndex s) by lia.
      apply Z.mod_small. exact Hr. }
    rewrite Hback in He2, Hprev.
    assert (e2 = entry) as -> by congruence.
    eexists. split; [exact Hnext|]. split; [exact Hprev|].
    repeat split; reflexivity.
  - destruct (PreviousProgram_in_range s Hne Hr) as (e1 & He1 & Hprev).
    fold n in He1, Hprev.
    match type of Hprev with _ = Some ?x => set (s1 := x) in * end.
    exists s1.
    destruct (NextProgram_in_range s1) as (e2 & He2 & Hnext).
    { exact Hne. }
    { simpl. apply Z.mod_pos_bound. exact Hn. }
    simpl in He2, Hnext. fold n in He2, Hnext.
    assert (((m_ScriptIndex s - 1) mod n + 1) mod n = m_ScriptIndex s)
      as Hback.
    { rewrite Zplus_mod_idemp_l.
      replace (m_ScriptIndex s - 1 + 1) with (m_ScriptIndex s) by lia.
      apply Z.mod_small. exact Hr. }
    rewrite Hback in He2, Hnext.
    assert (e2 = entry) as -> by congruence.
    eexists. split; [exact Hprev|]. split; [exact Hnext|].
    repeat split; reflexivity.
Qed.

Lemma next_and_previous_are_inverse_witness :
  ∃ entry, at_int (m_Script demo_app) (m_ScriptIndex demo_app) = Some entry.
Proof.
  destruct (next_and_previous_are_inverse demo_app) as (entry & H & _).
  - vm_compute. discriminate.
  - vm_compute. split; [discriminate|reflexivity].
  - exists entry. exact H.
Defined.

Lemma NextProgram_times_index k :
  ∀ s,
    m_Script s ≠ [] →
    0 ≤ m_ScriptIndex s < Z.of_nat (length (m_Script s)) →
    ∃ s', NextProgram_times k s = Some s'
          ∧ m_Script s' = m_Script s
          ∧ m_ScriptIndex s'
            = (m_ScriptIndex s + Z.of_nat k)
              mod Z.of_nat (length (m_Script s)).
Proof.
  induction k as [|k IH]; intros s Hne Hr.
  - exists s. simpl. repeat split. rewrite Z.add_0_r.
    symmetry. apply Z.mod_small. exact Hr.
  - destruct (NextProgram_in_range s Hne Hr) as (e1 & He1 & Hnext).
    simpl. rewrite Hnext. simpl.
    match goal with
    | |- ∃ s', NextProgram_times k ?x = _ ∧ _ => set (s1 := x)
    end.
    destruct (IH s1) as (s' & Ht & Hs & Hi).
    { exact Hne. }
    { simpl. apply Z.mod_pos_bound. lia. }
    exists s'. split; [exact Ht|]. split; [exact Hs|].
    rewrite Hi. simpl. rewrite Zplus_mod_idemp_l. f_equal. lia.
Qed.

(** X5.  With a non-empty script and the script index inside it, [k]
    calls of [NextProgram] all succeed and leave the script index at
    [(index + k) mod size]; in particular as many calls as the script has
    entries come back to the entry they started from, and a single
    [Animate] never advances by more than one entry, however long the
    elapsed time. *)
Theorem next_program_wraps_around (s : ShaderProj) (k : nat) (dt : Q) :
  m_Script s ≠ [] →
  0 ≤ m_ScriptIndex s < Z.of_nat (length (m_Script s)) →
  (∃ s', NextProgram_times k s = Some s'
         ∧ m_ScriptIndex s'
           = (m_ScriptIndex s + Z.of_nat k) mod Z.of_nat (length (m_Script s)))
  ∧ (∃ s', NextProgram_times (length (m_Script s)) s = Some s'
           ∧ m_ScriptIndex s' = m_ScriptIndex s)
  ∧ (∃ s', Animate dt s = Some s'
           ∧ (m_ScriptIndex s' = m_ScriptIndex s
              ∨ m_ScriptIndex s'
                = (m_ScriptIndex s + 1) mod Z.of_nat (length (m_Script s)))).
Proof.
  intros Hne Hr. split; [|split].
  - destruct (NextProgram_times_index k s Hne Hr) as (s' & H & _ & Hi).
    eauto.
  - destruct (NextProgram_times_index (length (m_Script s)) s Hne Hr)
      as (s' & H & _ & Hi).
    exists s'. split; [exact H|]. rewrite Hi.
    rewrite <- (Z.mul_1_l (Z.of_nat (length (m_Script s)))) at 1.
    rewrite Z.mod_add by lia. apply Z.mod_small. exact Hr.
  - unfold Animate. destruct (m_Paused s); [eauto|].
    destruct (_ && _).
    + match goal with
      | |- ∃ s', NextProgram ?x = _ ∧ _ => set (s1 := x)
      end.
      destruct (NextProgram_in_range s1 Hne Hr) as (e1 & _ & Hnext).
      rewrite Hnext. eexists. split; [reflexivity|]. right. reflexivity.
    + eexists. split; [reflexivity|]. left. reflexivity.
Qed.

Lemma next_program_wraps_around_witness :
  ∃ s', NextProgram_times 2 demo_app = Some s'
        ∧ m_ScriptIndex s' = m_ScriptIndex demo_app.
Proof.
  destruct (next_program_wraps_around demo_app 2 1) as (_ & H & _).
  - vm_compute. discriminate.
  - vm_compute. split; [discriminate|reflexivity].
  - exact H.
Defined.

Lemma at_int_elem_of {A} (l : list A) index x :
  at_int l index = Some x → x ∈ l.
Proof.
  intros H. apply at_int_Some in H as [_ H].
  eapply list_elem_of_lookup_2. exact H.
Qed.

Lemma playlist_ok_select s entry index :
  playlist_ok s →
  0 ≤ index < Z.of_nat (length (m_Script s)) →
  at_int (m_Script s) index = Some entry →
  playlist_ok
    (set_m_ResetRequired true
       (set_m_CurrentDuration (duration entry)
          (set_m_ActiveProgram (programIndex entry)
             (set_m_ScriptIndex index s)))).
Proof.
  intros (Ha & Hi & Hf) Hr He. split; [|split]; simpl.
  - apply at_int_in_range. rewrite Forall_forall in Hf. apply Hf.
    eapply at_int_elem_of. exact He.
  - intros _. exact Hr.
  - exact Hf.
Qed.

Lemma NextProgram_playlist s :
  playlist_ok s → ∃ s', NextProgram s = Some s' ∧ playlist_ok s'.
Proof.
  intros Hok. destruct (m_Script s) as [|e0 rest] eqn:Hs.
  - exists s. split; [|exact Hok]. unfold NextProgram. rewrite Hs. reflexivity.
  - assert (m_Script s ≠ []) as Hne by (rewrite Hs; discriminate).
    pose proof Hok as (_ & Hi & _). specialize (Hi Hne).
    destruct (NextProgram_in_range s Hne Hi) as (entry & He & ->).
    eexists. split; [reflexivity|].
    apply playlist_ok_select; [exact Hok| |exact He].
    apply Z.mod_pos_bound. lia.
Qed.

Lemma PreviousProgram_playlist s :
  playlist_ok s → ∃ s', PreviousProgram s = Some s' ∧ playlist_ok s'.
Proof.
  intros Hok. destruct (m_Script s) as [|e0 rest] eqn:Hs.
  - exists s. split; [|exact Hok]. unfold PreviousProgram. rewrite Hs.
    reflexivity.
  - assert (m_Script s ≠ []) as Hne by (rewrite Hs; discriminate).
    pose proof Hok as (_ & Hi & _). specialize (Hi Hne).
    destruct (PreviousProgram_in_range s Hne Hi) as (entry & He & ->).
    eexists. split; [reflexivity|].
    apply playlist_ok_select; [exact Hok| |exact He].
    apply Z.mod_pos_bound. lia.
Qed.

Lemma Animate_playlist dt s :
  playlist_ok s → ∃ s', Animate dt s = Some s' ∧ playlist_ok s'.
Proof.
  intros Hok. unfold Animate. destruct (m_Paused s); [eauto|].
  destruct (_ && _).
  - apply NextProgram_playlist. exact Hok.
  - eexists. split; [reflexivity|]. exact Hok.
Qed.

Lemma Render_playlist env s s' fr :
  Render env s = Some (s', fr) →
  m_Script s' = m_Script s
  ∧ m_ScriptIndex s' = m_ScriptIndex s
  ∧ m_ActiveProgram s' = m_ActiveProgram s
  ∧ length (m_Programs s') = length (m_Programs s).
Proof.
  intros H. apply Render_inv in H. simpl in H.
  destruct H as (Hcreate & program & initd & _ & _ & _ & _ & _ & _ & _ & _ & _
                 & _ & _ & _ & _ & _ & _ & Hprogs & Hactive & _ & Hscript
                 & Hindex & _).
  rewrite Hprogs, Hactive, Hscript, Hindex. unfold frame_state in *.
  destruct (fr_rebuilt fr) as [r|]; [|auto].
  apply CreateBuffersAndBindings_inv in Hcreate.
  destruct Hcreate as (_ & (bound & Hb & Hp) & _ & _ & Ha & _ & _ & _ & _
                       & Hs & Hi & _).
  rewrite Hs, Hi, Ha, Hp. repeat split.
  rewrite length_fmap. apply mapM_Some in Hb. apply Forall2_length in Hb.
  symmetry. exact Hb.
Qed.

Lemma step_playlist s e s' frames :
  playlist_ok s → step s e = Some (s', frames) → playlist_ok s'.
Proof.
  intros Hok H. destruct e as [dt| | | |env]; simpl in H.
  - destruct (Animate_playlist dt s Hok) as (s1 & E & Hok1).
    rewrite E in H. simpl in H. congruence.
  - destruct (PreviousProgram_playlist s Hok) as (s1 & E & Hok1).
    rewrite E in H. simpl in H. congruence.
  - destruct (NextProgram_playlist s Hok) as (s1 & E & Hok1).
    rewrite E in H. simpl in H. congruence.
  - injection H as <- _. exact Hok.
  - destruct (Render env s) as [[s1 fr]|] eqn:E; [|discriminate].
    simpl in H. injection H as <- _.
    apply Render_playlist in E as (Hs & Hi & Ha & Hl).
    destruct Hok as (Hact & Hidx & Hf).
    unfold playlist_ok. rewrite Hs, Hi, Ha, Hl. split; [|split].
    + destruct Hact as [p Hp]. apply at_int_Some in Hp as [H0 Hp].
      apply lookup_lt_Some in Hp. apply at_int_in_range. lia.
    + exact Hidx.
    + exact Hf.
Qed.

Lemma run_playlist events :
  ∀ s s' frames,
    playlist_ok s → run s events = Some (s', frames) → playlist_ok s'.
Proof.
  induction events as [|e rest IH]; intros s s' frames Hok H; simpl in H.
  - injection H as <- _. exact Hok.
  - destruct (step s e) as [[s1 f1]|] eqn:E; [|discriminate]. simpl in H.
    destruct (run s1 rest) as [[s2 f2]|] eqn:E2; [|discriminate].
    simpl in H. injection H as <- _.
    eapply IH; [|exact E2]. eapply step_playlist; eauto.
Qed.

Lemma SetScript_playlist programs script baseInterval :
  programs ≠ [] →
  playlist_ok (SetScript script baseInterval (ShaderProj_ctor programs)).2.
Proof.
  intros Hne.
  destruct (SetScript_loop programs baseInterval script [])
    as (added & Hadd & _ & _ & Hr & _).
  simpl in Hadd.
  destruct added as [|first rest].
  - unfold SetScript. simpl. rewrite Hadd. simpl.
    split; [|split]; simpl.
    + apply at_int_in_range. destruct programs; [done|]. simpl. lia.
    + done.
    + constructor.
  - erewrite SetScript_nonempty by (simpl; exact Hadd). simpl.
    split; [|split]; simpl.
    + apply at_int_in_range. inversion Hr; subst. assumption.
    + intros _. lia.
    + exact Hr.
Qed.

(** X6.  An application constructed with at least one program keeps a
    consistent playlist: after [SetScript] of any script, and then after
    any sequence of events that completes, the active program index is
    inside the program list, the script index is inside the script (when
    there is one) and every script entry refers to an existing program; and
    in such a state [Animate], [PreviousProgram] and [NextProgram] never
    read outside the script. *)
Theorem playlist_stays_in_bounds (programs : list ShProgram)
    (script : list ScriptEntry) (baseInterval : Q) (events : list Event)
    (s : ShaderProj) (frames : list Frame) :
  programs ≠ [] →
  run (SetScript script baseInterval (ShaderProj_ctor programs)).2 events
  = Some (s, frames) →
  playlist_ok s
  ∧ ∀ e, is_playlist_event e = true → is_Some (step s e).
Proof.
  intros Hne Hrun.
  assert (playlist_ok s) as Hok.
  { eapply run_playlist; [|exact Hrun]. apply SetScript_playlist. exact Hne. }
  split; [exact Hok|].
  intros e He. destruct e as [dt| | | |env]; simpl.
  - destruct (Animate_playlist dt s Hok) as (s1 & -> & _). simpl. eauto.
  - destruct (PreviousProgram_playlist s Hok) as (s1 & -> & _). simpl. eauto.
  - destruct (NextProgram_playlist s Hok) as (s1 & -> & _). simpl. eauto.
  - eauto.
  - discriminate.
Qed.

Lemma playlist_stays_in_bounds_witness :
  ∃ s frames,
    run demo_app demo_events = Some (s, frames)
    ∧ playlist_ok s
    ∧ is_Some (step s EvNextProgram).
Proof.
  assert (∃ s frames, run demo_app demo_events = Some (s, frames))
    as (s & frames & Hrun) by (vm_compute; eauto).
  exists s, frames. split; [exact Hrun|].
  assert (demo_programs ≠ []) as Hne by discriminate.
  destruct (playlist_stays_in_bounds demo_programs demo_script 2 demo_events
              s frames Hne Hrun) as [Hok Hstep].
  split; [exact Hok|]. apply Hstep. reflexivity.
Defined.
(** ** The shader cache *)

Lemma CompileShader_true_inv (glslang : path → blob → GlslangResult)
    (now : Z) (opened : bool) (files : FileSystem) shaderFile preambles
    output :
  let r :=
    CompileShader glslang now opened files shaderFile preambles output in
  cs_return r = true →
  ∃ input,
    files !! shaderFile = Some input
    ∧ ((∃ artifact data,
          files !! replace_extension shaderFile ".spv" = Some artifact
          ∧ last_write_time input < last_write_time artifact
          ∧ read_result artifact = Some data
          ∧ r = mkCompileShaderResult true data files
                  [LogUsingCached (replace_extension shaderFile ".spv")])
       ∨ (¬ (∃ artifact,
               files !! replace_extension shaderFile ".spv" = Some artifact
               ∧ last_write_time input < last_write_time artifact
               ∧ is_Some (read_result artifact))
          ∧ ∃ spirv,
              r = mkCompileShaderResult true spirv
                    (if opened
                     then <[replace_extension shaderFile ".spv"
                            := mkFile now (Some spirv)]> files
                     else files)
                    [LogCompiling shaderFile; LogCompileOK])).
Proof.
  intros r. subst r. unfold CompileShader, OutputSpvBin.
  destruct (files !! shaderFile) as [input|] eqn:Hin; [|discriminate].
  intros H. exists input. split; [reflexivity|]. revert H.
  rewrite (ReadFile_lookup _ _ _ Hin).
  destruct (files !! replace_extension shaderFile ".spv") as [artifact|]
    eqn:Hout.
  - rewrite (ReadFile_lookup _ _ _ Hout).
    destruct (Z.ltb_spec (last_write_time input) (last_write_time artifact))
      as [Hlt|Hge].
    + destruct (read_result artifact) as [data|] eqn:Hread; simpl.
      * intros _. left. eauto 10.
      * destruct (read_result input) as [contents|]; simpl; [|discriminate].
        destruct (glslang shaderFile (mergeSource preambles contents));
          simpl; try discriminate.
        intros _. right. split.
        -- intros (a & Ha & _ & [d Hd]). injection Ha as <-. congruence.
        -- destruct opened; eauto.
    + destruct (read_result input) as [contents|]; simpl; [|discriminate].
      destruct (glslang shaderFile (mergeSource preambles contents));
        simpl; try discriminate.
      intros _. right. split.
      * intros (a & Ha & Hlt & _). injection Ha as <-. lia.
      * destruct opened; eauto.
  - destruct (read_result input) as [contents|]; simpl; [|discriminate].
    destruct (glslang shaderFile (mergeSource preambles contents));
      simpl; try discriminate.
    intros _. right. split.
    + intros (a & Ha & _). discriminate.
    + destruct opened; eauto.
Qed.

(** A call on files without a usable artifact is no cache hit. *)
Lemma CompileShader_miss (glslang : path → blob → GlslangResult)
    (now : Z) (opened : bool) (files : FileSystem) shaderFile preambles
    output input :
  files !! shaderFile = Some input →
  ¬ (∃ artifact,
       files !! replace_extension shaderFile ".spv" = Some artifact
       ∧ last_write_time input < last_write_time artifact
       ∧ is_Some (read_result artifact)) →
  ¬ compilation_bypassed
      (CompileShader glslang now opened files shaderFile preambles output).
Proof.
  intros Hin Hno Hhit.
  destruct (files !! replace_extension shaderFile ".spv") as [artifact|]
    eqn:Hout.
  - apply (CompileShader_hit_iff glslang now opened files shaderFile
             preambles output input artifact Hin Hout) in Hhit.
    apply Hno. exists artifact. destruct Hhit. auto.
  - destruct Hhit as [Hret Hlog]. revert Hret Hlog.
    unfold CompileShader. rewrite Hin, Hout.
    destruct (ReadFile files shaderFile); [|discriminate].
    destruct (glslang shaderFile _); try discriminate.
    simpl. intros _ Hlog. apply (Hlog shaderFile). left.
Qed.

(** X7.  A call of [CompileShader] that returns true makes the next call
    for the same shader file a cache hit, when the artifact could be
    opened for writing, is not the source file itself and is written later
    than the source was: the second call returns the same bytes, runs no
    compiler, leaves the files alone, and does so whatever preambles it is
    given.  When the artifact could not be opened, a call that compiled
    still returns true, leaves the files as they were, and the next call
    is no cache hit. *)
Theorem successful_compile_is_cached
    (glslang glslang' : path → blob → GlslangResult) (now now' : Z)
    (opened opened' : bool) (files : FileSystem) (shaderFile : path)
    (preambles preambles' : list blob) (output output' : blob)
    (input : File) :
  files !! shaderFile = Some input →
  last_write_time input < now →
  replace_extension shaderFile ".spv" ≠ shaderFile →
  let r :=
    CompileShader glslang now opened files shaderFile preambles output in
  let r' :=
    CompileShader glslang' now' opened' (cs_files r) shaderFile preambles'
                  output' in
  cs_return r = true →
  (opened = true →
   r' = mkCompileShaderResult true (cs_output r) (cs_files r)
          [LogUsingCached (replace_extension shaderFile ".spv")])
  ∧ (opened = false → ¬ compilation_bypassed r →
     cs_files r = files ∧ ¬ compilation_bypassed r').
Proof.
  intros Hin Hnow Hext r r' Hret.
  destruct (CompileShader_true_inv glslang now opened files shaderFile
              preambles output Hret) as (input' & Hin' & Hcase).
  fold r in Hcase.
  assert (input' = input) as -> by congruence.
  destruct Hcase as [(artifact & data & Hout & Hlt & Hread & Hr)
                    |(Hno & spirv & Hr)].
  - split.
    + intros _. subst r'. rewrite Hr. simpl.
      unfold CompileShader. rewrite Hin, Hout.
      rewrite (ReadFile_lookup _ _ _ Hout), Hread.
      apply Z.ltb_lt in Hlt. rewrite Hlt. reflexivity.
    + intros _ Hmiss. exfalso. apply Hmiss. rewrite Hr.
      split; [reflexivity|]. simpl. intros f Hf.
      apply list_elem_of_singleton in Hf. discriminate.
  - split.
    + intros ->. subst r'. rewrite Hr. simpl.
      unfold CompileShader.
      rewrite lookup_insert_ne by exact Hext. rewrite Hin.
      rewrite lookup_insert_eq. unfold ReadFile.
      rewrite lookup_insert_eq. simpl.
      apply Z.ltb_lt in Hnow. rewrite Hnow. reflexivity.
    + intros -> _. subst r'. rewrite Hr. simpl. split; [reflexivity|].
      apply (CompileShader_miss _ _ _ _ _ _ _ input Hin Hno).
Qed.

Lemma successful_compile_is_cached_witness :
  let files : FileSystem :=
    {[ ("pass", ".glsl")%string
       := mkFile 1 (Some "void mainImage() {}"%string) ]} in
  let r := CompileShader (λ _ _, Spirv "spirv") 3 true files
             ("pass", ".glsl") ["#version 450"%string] "" in
  CompileShader (λ _ _, ParseError "syntax") 9 false (cs_files r)
    ("pass", ".glsl") [] "old"
  = mkCompileShaderResult true (cs_output r) (cs_files r)
      [LogUsingCached ("pass", ".spv")].
Proof.
  intros files r.
  refine (proj1 (successful_compile_is_cached (λ _ _, Spirv "spirv")
            (λ _ _, ParseError "syntax") 3 9 true false files
            ("pass", ".glsl") ["#version 450"%string] [] "" "old"
            (mkFile 1 (Some "void mainImage() {}"%string)) _ _ _ _)
            eq_refl).
  - vm_compute. reflexivity.
  - simpl. lia.
  - discriminate.
  - vm_compute. reflexivity.
Defined.

(** X8.  A call of [CompileShader] that returns false leaves every file
    as it was and writes no artifact.  The caller's blob comes back empty
    when a newer artifact existed and could not be read, and as it was in
    every other case; and the log ends with the error. *)
Theorem failed_compile_changes_no_file
    (glslang : path → blob → GlslangResult) (now : Z) (opened : bool)
    (files : FileSystem) (shaderFile : path) (preambles : list blob)
    (output : blob) :
  let r :=
    CompileShader glslang now opened files shaderFile preambles output in
  let newer_unreadable :=
    ∃ input artifact,
      files !! shaderFile = Some input
      ∧ files !! replace_extension shaderFile ".spv" = Some artifact
      ∧ last_write_time input < last_write_time artifact
      ∧ read_result artifact = None in
  cs_return r = false →
  cs_files r = files
  ∧ (newer_unreadable → cs_output r = ""%string)
  ∧ (¬ newer_unreadable → cs_output r = output)
  ∧ (∃ earlier,
       cs_log r = earlier ++ [LogShaderMissing shaderFile]
       ∨ cs_log r = earlier ++ [LogCannotRead shaderFile]
       ∨ ∃ infoLog, cs_log r = earlier ++ [LogCompileError infoLog]).
Proof.
  intros r newer_unreadable. subst r newer_unreadable.
  unfold CompileShader.
  destruct (files !! shaderFile) as [input|] eqn:Hin.
  - destruct (files !! replace_extension shaderFile ".spv") as [artifact|]
      eqn:Hout.
    + rewrite (ReadFile_lookup _ _ _ Hout), (ReadFile_lookup _ _ _ Hin).
      destruct (Z.ltb_spec (last_write_time input) (last_write_time artifact))
        as [Hlt|Hge].
      * destruct (read_result artifact) as [data|] eqn:Hread; simpl;
          [discriminate|].
        assert (∃ input0 artifact0,
                  Some input = Some input0 ∧ Some artifact = Some artifact0
                  ∧ last_write_time input0 < last_write_time artifact0
                  ∧ read_result artifact0 = None) as Hnewer by eauto 10.
        destruct (read_result input) as [contents|]; simpl.
        -- destruct (glslang shaderFile (mergeSource preambles contents));
             simpl; try discriminate; intros _;
             (split; [reflexivity|]); (split; [reflexivity|]);
             (split; [intros Hno; contradiction|]);
             exists [LogCompiling shaderFile]; eauto.
        -- intros _. split; [reflexivity|]. split; [reflexivity|].
           split; [intros Hno; contradiction|]. exists []. eauto.
      * assert (¬ ∃ input0 artifact0,
                    Some input = Some input0 ∧ Some artifact = Some artifact0
                    ∧ last_write_time input0 < last_write_time artifact0
                    ∧ read_result artifact0 = None) as Hnot.
        { intros (i & a & Hi & Ha & Hlt & _).
          injection Hi as <-. injection Ha as <-. lia. }
        destruct (read_result input) as [contents|]; simpl.
        -- destruct (glslang shaderFile (mergeSource preambles contents));
             simpl; try discriminate; intros _;
             (split; [reflexivity|]);
             (split; [intros Hyes; contradiction|]);
             (split; [reflexivity|]);
             exists [LogCompiling shaderFile]; eauto.
        -- intros _. split; [reflexivity|].
           split; [intros Hyes; contradiction|].
           split; [reflexivity|]. exists []. eauto.
    + assert (¬ ∃ input0 artifact0 : File,
                  Some input = Some input0 ∧ None = Some artifact0
                  ∧ last_write_time input0 < last_write_time artifact0
                  ∧ read_result artifact0 = None) as Hnot.
      { intros (i & a & _ & Ha & _). discriminate. }
      rewrite (ReadFile_lookup _ _ _ Hin).
      destruct (read_result input) as [contents|]; simpl.
      * destruct (glslang shaderFile (mergeSource preambles contents));
          simpl; try discriminate; intros _;
          (split; [reflexivity|]);
          (split; [intros Hyes; contradiction|]);
          (split; [reflexivity|]);
          exists [LogCompiling shaderFile]; eauto.
      * intros _. split; [reflexivity|].
        split; [intros Hyes; contradiction|].
        split; [reflexivity|]. exists []. eauto.
  - simpl. intros _. split; [reflexivity|].
    split; [intros (i & a & Hi & _); discriminate|].
    split; [reflexivity|]. exists []. eauto.
Qed.

Lemma failed_compile_changes_no_file_witness :
  cs_output (CompileShader (λ _ _, ParseError "syntax") 9 true
               files_unreadable_artifact ("pass", ".glsl") [] "old")
  = ""%string.
Proof.
  refine (proj1 (proj2 (failed_compile_changes_no_file
                          (λ _ _, ParseError "syntax") 9 true
                          files_unreadable_artifact ("pass", ".glsl") []
                          "old" _)) _).
  - vm_compute. reflexivity.
  - exists (mkFile 1 (Some "void mainImage() {}"%string)), (mkFile 2 None).
    split; [vm_compute; reflexivity|].
    split; [vm_compute; reflexivity|].
    split; [simpl; lia|reflexivity].
Defined.

(** X9.  A call of [CompileShader] that returns true changes no file
    other than the artifact (the shader path with the extension [.spv]).
    When the artifact could be opened for writing, reading it afterwards
    gives exactly the bytes the call returned; when it could not, the call
    still returns true and every file is as it was. *)
Theorem successful_compile_writes_only_artifact
    (glslang : path → blob → GlslangResult) (now : Z) (opened : bool)
    (files : FileSystem) (shaderFile : path) (preambles : list blob)
    (output : blob) :
  let r :=
    CompileShader glslang now opened files shaderFile preambles output in
  cs_return r = true →
  (∀ p, p ≠ replace_extension shaderFile ".spv" →
        cs_files r !! p = files !! p)
  ∧ (opened = true →
     ReadFile (cs_files r) (replace_extension shaderFile ".spv")
     = Some (cs_output r))
  ∧ (opened = false → cs_files r = files).
Proof.
  intros r Hret.
  destruct (CompileShader_true_inv glslang now opened files shaderFile
              preambles output Hret) as (input & Hin & Hcase).
  fold r in Hcase.
  destruct Hcase as [(artifact & data & Hout & Hlt & Hread & ->)
                    |(_ & spirv & ->)]; simpl.
  - split; [reflexivity|]. split; [|reflexivity].
    intros _. rewrite (ReadFile_lookup _ _ _ Hout). exact Hread.
  - split; [|split].
    + intros p Hp. destruct opened; [|reflexivity].
      apply lookup_insert_ne. congruence.
    + intros ->. unfold ReadFile. rewrite lookup_insert_eq. reflexivity.
    + intros ->. reflexivity.
Qed.

Lemma successful_compile_writes_only_artifact_witness :
  ReadFile (cs_files (CompileShader (λ _ _, Spirv "spirv") 3 true
                        files_unreadable_artifact ("pass", ".glsl") [] "old"))
           ("pass", ".spv")
  = Some "spirv"%string.
Proof.
  refine (proj1 (proj2 (successful_compile_writes_only_artifact
                   (λ _ _, Spirv "spirv") 3 true files_unreadable_artifact
                   ("pass", ".glsl") [] "old" _)) eq_refl).
  vm_compute. reflexivity.
Defined.

(** ** Committed resources *)

Lemma land_bit_zero (a : Z) (i : nat) :
  (Z.land a (Z.shiftl 1 (Z.of_nat i)) =? 0) = negb (Z.testbit a (Z.of_nat i)).
Proof.
  destruct (Z.testbit a (Z.of_nat i)) eqn:Hbit; simpl.
  - apply Z.eqb_neq. intros H.
    assert (Z.testbit (Z.land a (Z.shiftl 1 (Z.of_nat i))) (Z.of_nat i) = true)
      as Ht.
    { rewrite Z.land_spec, Hbit, Z.shiftl_spec by lia.
      rewrite Z.sub_diag. reflexivity. }
    rewrite H in Ht. rewrite Z.bits_0 in Ht. discriminate.
  - apply Z.eqb_eq. apply Z.bits_inj'. intros n Hn.
    rewrite Z.land_spec, Z.bits_0, Z.shiftl_spec by lia.
    destruct (Z.eq_dec n (Z.of_nat i)) as [->|Hne].
    + rewrite Hbit. reflexivity.
    + destruct (Z.ltb_spec n (Z.of_nat i)).
      * rewrite (Z.testbit_neg_r 1) by lia. apply andb_false_r.
      * replace (Z.testbit 1 (n - Z.of_nat i)) with false;
          [apply andb_false_r|].
        symmetry. apply (Z.bits_above_log2 1); simpl; lia.
Qed.

Lemma findMemoryType_spec memoryTypeBits wanted types :
  ∀ i,
    (findMemoryType memoryTypeBits wanted types i = (i + length types)%nat
     ∧ ∀ k propertyFlags,
         types !! k = Some propertyFlags →
         ¬ (Z.testbit memoryTypeBits (Z.of_nat (i + k)) = true
            ∧ Z.land propertyFlags wanted = wanted))
    ∨ (∃ k propertyFlags,
         findMemoryType memoryTypeBits wanted types i = (i + k)%nat
         ∧ types !! k = Some propertyFlags
         ∧ Z.testbit memoryTypeBits (Z.of_nat (i + k)) = true
         ∧ Z.land propertyFlags wanted = wanted
         ∧ ∀ j flags,
             (j < k)%nat → types !! j = Some flags →
             ¬ (Z.testbit memoryTypeBits (Z.of_nat (i + j)) = true
                ∧ Z.land flags wanted = wanted)).
Proof.
  induction types as [|flags rest IH]; intros i; simpl.
  - left. split; [lia|]. intros k f Hk. discriminate.
  - rewrite land_bit_zero, negb_involutive.
    destruct (Z.testbit memoryTypeBits (Z.of_nat i)) eqn:Hbit; simpl.
    + destruct (Z.eqb_spec (Z.land flags wanted) wanted) as [Hf|Hf].
      * right. exists 0%nat, flags. rewrite Nat.add_0_r.
        repeat split; auto. intros j f Hj. lia.
      * destruct (IH (S i)) as [[Hr Hno]|(k & f & Hr & Hk & Hb & Hw & Hmin)].
        -- left. split; [rewrite Hr; lia|]. intros [|k] f Hk.
           ++ injection Hk as <-. intros [_ ?]. contradiction.
           ++ replace (i + S k)%nat with (S i + k)%nat by lia.
              apply (Hno k f Hk).
        -- right. exists (S k), f.
           replace (i + S k)%nat with (S i + k)%nat by lia.
           repeat split; auto. intros [|j] f' Hj Hl.
           ++ injection Hl as <-. intros [_ ?]. contradiction.
           ++ replace (i + S j)%nat with (S i + j)%nat by lia.
              apply (Hmin j f'); [lia|exact Hl].
    + destruct (IH (S i)) as [[Hr Hno]|(k & f & Hr & Hk & Hb & Hw & Hmin)].
      * left. split; [rewrite Hr; lia|]. intros [|k] f Hk.
        -- rewrite Nat.add_0_r, Hbit. intros [? _]. discriminate.
        -- replace (i + S k)%nat with (S i + k)%nat by lia.
           apply (Hno k f Hk).
      * right. exists (S k), f.
        replace (i + S k)%nat with (S i + k)%nat by lia.
        repeat split; auto. intros [|j] f' Hj Hl.
        -- rewrite Nat.add_0_r, Hbit. intros [? _]. discriminate.
        -- replace (i + S j)%nat with (S i + j)%nat by lia.
           apply (Hmin j f'); [lia|exact Hl].
Qed.

Lemma findMemoryType_first memoryTypeBits wanted types :
  let index := findMemoryType memoryTypeBits wanted types 0 in
  ((index <? length types)%nat = true
   ∧ first_suitable_memory_type memoryTypeBits wanted types index)
  ∨ ((index <? length types)%nat = false
     ∧ ∀ j, ¬ memory_type_suitable memoryTypeBits wanted types j).
Proof.
  intros index. subst index.
  destruct (findMemoryType_spec memoryTypeBits wanted types 0)
    as [[Hr Hno]|(k & f & Hr & Hk & Hb & Hw & Hmin)]; simpl in *.
  - right. rewrite Hr. split; [apply Nat.ltb_ge; lia|].
    intros j (Hbit & f & Hf & Hw). apply (Hno j f Hf). auto.
  - left. rewrite Hr. split.
    + apply Nat.ltb_lt. eapply lookup_lt_Some. exact Hk.
    + split; [split; eauto|].
      intros j Hj (Hbit & f' & Hf' & Hw'). apply (Hmin j f' Hj Hf'). auto.
Qed.

Lemma returned_Some {A} (outcome : Outcome A) value :
  returned outcome = Some value ↔ outcome = Returns value.
Proof.
  destruct outcome; simpl; split; intros H; try discriminate;
    injection H as <-; reflexivity.
Qed.

Lemma is_null_true h : vk.is_null h = true ↔ h = vk.null.
Proof. unfold vk.is_null, vk.null. apply N.eqb_eq. Qed.

Lemma is_null_false h : vk.is_null h = false ↔ h ≠ vk.null.
Proof. unfold vk.is_null, vk.null. apply N.eqb_neq. Qed.

(** The two creation functions, path by path. *)
Lemma CreateCommittedBuffer_eq physicalDevice device info memoryType :
  CreateCommittedBuffer physicalDevice device info memoryType
  = match createBuffer device info with
    | (vk.eError, _) => Throws
    | (vk.eSuccess, created) =>
        if vk.is_null created then Returns (mkBuffer vk.null created)
        else
          let requirements := getBufferMemoryRequirements device created in
          let index :=
            findMemoryType (mr_memoryTypeBits requirements) memoryType
                           (memoryTypes physicalDevice) 0 in
          if (index <? length (memoryTypes physicalDevice))%nat then
            match allocateMemory device (mr_size requirements) index with
            | (vk.eError, _) => Throws
            | (vk.eSuccess, memory) =>
                if vk.is_null memory then Returns (mkBuffer memory created)
                else
                  match bindBufferMemory device created memory 0 with
                  | vk.eSuccess => Returns (mkBuffer memory created)
                  | vk.eError => Throws
                  end
            end
          else AssertFails
    end.
Proof.
  unfold CreateCommittedBuffer, vkhpp.resultCheck, vkhpp.createResultValue.
  destruct (createBuffer device info) as [[] created]; simpl; [|reflexivity].
  destruct (vk.is_null created); [reflexivity|].
  destruct (_ <? _)%nat; simpl; [|reflexivity].
  destruct (allocateMemory device _ _) as [[] memory]; simpl; [|reflexivity].
  destruct (vk.is_null memory); [reflexivity|].
  destruct (bindBufferMemory device created memory 0); reflexivity.
Qed.

Lemma CreateCommittedImage_eq physicalDevice device info :
  CreateCommittedImage physicalDevice device info
  = match createImage device info with
    | (vk.eError, _) => Throws
    | (vk.eSuccess, created) =>
        if vk.is_null created
        then Returns (mkImage vk.null created vk.null 0 0 0)
        else
          let requirements := getImageMemoryRequirements device created in
          let index :=
            findMemoryType (mr_memoryTypeBits requirements) vk.eDeviceLocal
                           (memoryTypes physicalDevice) 0 in
          if (index <? length (memoryTypes physicalDevice))%nat then
            match allocateMemory device (mr_size requirements) index with
            | (vk.eError, _) => Throws
            | (vk.eSuccess, memory) =>
                if vk.is_null memory
                then Returns (mkImage memory created vk.null 0 0 0)
                else
                  match bindImageMemory device created memory 0 with
                  | vk.eError => Throws
                  | vk.eSuccess =>
                      match createImageView device created info with
                      | (vk.eError, _) => Throws
                      | (vk.eSuccess, view) =>
                          Returns (mkImage memory created view
                                     (ici_width info) (ici_height info)
                                     (ici_depth info))
                      end
                  end
            end
          else AssertFails
    end.
Proof.
  unfold CreateCommittedImage, vkhpp.resultCheck, vkhpp.createResultValue.
  destruct (createImage device info) as [[] created]; simpl; [|reflexivity].
  destruct (vk.is_null created); [reflexivity|].
  destruct (_ <? _)%nat; simpl; [|reflexivity].
  destruct (allocateMemory device _ _) as [[] memory]; simpl; [|reflexivity].
  destruct (vk.is_null memory); [reflexivity|].
  destruct (bindImageMemory device created memory 0); simpl; [|reflexivity].
  destruct (createImageView device created info) as [[] view]; reflexivity.
Qed.

(** X10.  [CreateCommittedBuffer] and [CreateCommittedImage] allocate
    from the first memory type, in index order, that the resource's
    requirements allow and that has all the wanted property flags (the
    flags asked for, for a buffer; device-local, for an image).  The
    assertion after the search fails exactly when the object was created
    and no memory type is suitable. *)
Theorem committed_memory_is_first_suitable_type
    (physicalDevice : PhysicalDevice) (device : Device)
    (bufferInfo : BufferCreateInfo) (memoryType : Z)
    (imageInfo : ImageCreateInfo) :
  let bufferBits :=
    mr_memoryTypeBits
      (getBufferMemoryRequirements device
         (createBuffer device bufferInfo).2) in
  let imageBits :=
    mr_memoryTypeBits
      (getImageMemoryRequirements device (createImage device imageInfo).2) in
  (CreateCommittedBuffer physicalDevice device bufferInfo memoryType
   = AssertFails
   ↔ (createBuffer device bufferInfo).1 = vk.eSuccess
     ∧ (createBuffer device bufferInfo).2 ≠ vk.null
     ∧ ∀ j, ¬ memory_type_suitable bufferBits memoryType
                (memoryTypes physicalDevice) j)
  ∧ (∀ buffer,
       CreateCommittedBuffer physicalDevice device bufferInfo memoryType
       = Returns buffer →
       buf_buffer buffer ≠ vk.null →
       ∃ index,
         first_suitable_memory_type bufferBits memoryType
           (memoryTypes physicalDevice) index
         ∧ allocateMemory device
             (mr_size (getBufferMemoryRequirements device
                         (createBuffer device bufferInfo).2))
             index
           = (vk.eSuccess, buf_deviceMemory buffer))
  ∧ (CreateCommittedImage physicalDevice device imageInfo = AssertFails
     ↔ (createImage device imageInfo).1 = vk.eSuccess
       ∧ (createImage device imageInfo).2 ≠ vk.null
       ∧ ∀ j, ¬ memory_type_suitable imageBits vk.eDeviceLocal
                  (memoryTypes physicalDevice) j)
  ∧ (∀ image,
       CreateCommittedImage physicalDevice device imageInfo
       = Returns image →
       img_image image ≠ vk.null →
       ∃ index,
         first_suitable_memory_type imageBits vk.eDeviceLocal
           (memoryTypes physicalDevice) index
         ∧ allocateMemory device
             (mr_size (getImageMemoryRequirements device
                         (createImage device imageInfo).2))
             index
           = (vk.eSuccess, img_deviceMemory image)).
Proof.
  intros bufferBits imageBits.
  pose proof (findMemoryType_first bufferBits memoryType
                (memoryTypes physicalDevice)) as Hb.
  pose proof (findMemoryType_first imageBits vk.eDeviceLocal
                (memoryTypes physicalDevice)) as Hi.
  simpl in Hb, Hi.
  rewrite CreateCommittedBuffer_eq, CreateCommittedImage_eq.
  subst bufferBits imageBits.
  split; [|split; [|split]].
  - clear Hi.
    destruct (createBuffer device bufferInfo) as [[] created]; simpl in *;
      [|split; [discriminate|intros [? _]; discriminate]].
    destruct (vk.is_null created) eqn:Hnull.
    + apply is_null_true in Hnull.
      split; [discriminate|]. intros (_ & Hne & _). contradiction.
    + apply is_null_false in Hnull.
      destruct Hb as [[Hlt Hfirst]|[Hge Hno]].
      * rewrite Hlt. split.
        -- intros H. exfalso. revert H. clear.
           destruct (allocateMemory device _ _) as [[] memory];
             [|discriminate].
           destruct (vk.is_null memory); [discriminate|].
           destruct (bindBufferMemory _ _ _ _); discriminate.
        -- intros (_ & _ & Hno). exfalso. destruct Hfirst as [Hs _].
           exact (Hno _ Hs).
      * rewrite Hge. split; [|reflexivity]. intros _. auto.
  - clear Hi. intros buffer H Hne.
    destruct (createBuffer device bufferInfo) as [[] created]; simpl in *;
      [|discriminate].
    destruct (vk.is_null created) eqn:Hnull.
    + apply is_null_true in Hnull. injection H as <-. contradiction.
    + destruct Hb as [[Hlt Hfirst]|[Hge Hno]].
      * rewrite Hlt in H. eexists. split; [exact Hfirst|].
        destruct (allocateMemory device _ _) as [[] memory];
          [|discriminate].
        destruct (vk.is_null memory).
        -- injection H as <-. reflexivity.
        -- destruct (bindBufferMemory _ _ _ _); [|discriminate].
           injection H as <-. reflexivity.
      * rewrite Hge in H. discriminate.
  - clear Hb.
    destruct (createImage device imageInfo) as [[] created]; simpl in *;
      [|split; [discriminate|intros [? _]; discriminate]].
    destruct (vk.is_null created) eqn:Hnull.
    + apply is_null_true in Hnull.
      split; [discriminate|]. intros (_ & Hne & _). contradiction.
    + apply is_null_false in Hnull.
      destruct Hi as [[Hlt Hfirst]|[Hge Hno]].
      * rewrite Hlt. split.
        -- intros H. exfalso. revert H. clear.
           destruct (allocateMemory device _ _) as [[] memory];
             [|discriminate].
           destruct (vk.is_null memory); [discriminate|].
           destruct (bindImageMemory _ _ _ _); [|discriminate].
           destruct (createImageView _ _ _) as [[] view]; discriminate.
        -- intros (_ & _ & Hno). exfalso. destruct Hfirst as [Hs _].
           exact (Hno _ Hs).
      * rewrite Hge. split; [|reflexivity]. intros _. auto.
  - clear Hb. intros image H Hne.
    destruct (createImage device imageInfo) as [[] created]; simpl in *;
      [|discriminate].
    destruct (vk.is_null created) eqn:Hnull.
    + apply is_null_true in Hnull. injection H as <-. contradiction.
    + destruct Hi as [[Hlt Hfirst]|[Hge Hno]].
      * rewrite Hlt in H. eexists. split; [exact Hfirst|].
        destruct (allocateMemory device _ _) as [[] memory];
          [|discriminate].
        destruct (vk.is_null memory).
        -- injection H as <-. reflexivity.
        -- destruct (bindImageMemory _ _ _ _); [|discriminate].
           destruct (createImageView _ _ _) as [[] view]; [|discriminate].
           injection H as <-. reflexivity.
      * rewrite Hge in H. discriminate.
Qed.

Lemma committed_memory_is_first_suitable_type_witness :
  let device :=
    {| createBuffer := λ _, (vk.eSuccess, 7%N);
       getBufferMemoryRequirements := λ _, mkMemoryRequirements 64 6;
       createImage := λ _, (vk.eSuccess, 9%N);
       getImageMemoryRequirements := λ _, mkMemoryRequirements 64 6;
       allocateMemory := λ _ index, (vk.eSuccess, N.of_nat (20 + index));
       bindBufferMemory := λ _ _ _, vk.eSuccess;
       bindImageMemory := λ _ _ _, vk.eSuccess;
       createImageView := λ _ _, (vk.eSuccess, 12%N) |} in
  ∃ index,
    first_suitable_memory_type 6 vk.eHostVisible [7; vk.eDeviceLocal; 3] index
    ∧ allocateMemory device 64 index
      = (vk.eSuccess, buf_deviceMemory (mkBuffer 22%N 7%N)).
Proof.
  intros device.
  refine (proj1 (proj2 (committed_memory_is_first_suitable_type
            (mkPhysicalDevice [7; vk.eDeviceLocal; 3]) device
            (mkBufferCreateInfo 64) vk.eHostVisible
            (mkImageCreateInfo 4 4 1 1 1)))
            (mkBuffer 22%N 7%N) _ _).
  - vm_compute. reflexivity.
  - discriminate.
Defined.

(** ** Loading textures and volumes *)

Lemma shiftr1_min (w h : Z) :
  Z.min (Z.shiftr w 1) (Z.shiftr h 1) = Z.shiftr (Z.min w h) 1.
Proof.
  rewrite !Z.shiftr_div_pow2 by lia. change (2 ^ 1) with 2.
  destruct (Z.le_ge_cases w h) as [Hle|Hle].
  - rewrite (Z.min_l w h) by exact Hle. apply Z.min_l.
    apply Z.div_le_mono; lia.
  - rewrite (Z.min_r w h) by exact Hle. apply Z.min_r.
    apply Z.div_le_mono; lia.
Qed.

Lemma mipLevelLoop_log2 fuel :
  ∀ mipWidth mipHeight mipLevels,
    1 ≤ mipWidth → 1 ≤ mipHeight →
    Z.log2 (Z.min mipWidth mipHeight) ≤ Z.of_nat fuel →
    mipLevelLoop fuel mipWidth mipHeight mipLevels
    = Some (mipLevels + Z.log2 (Z.min mipWidth mipHeight)).
Proof.
  induction fuel as [|fuel IH]; intros w h n Hw Hh Hfuel.
  - simpl.
    destruct (Z.ltb_spec 1 w) as [Hw1|Hw1];
      destruct (Z.ltb_spec 1 h) as [Hh1|Hh1]; simpl.
    + exfalso.
      assert (1 ≤ Z.log2 (Z.min w h)); [|lia].
      change 1 with (Z.log2 2) at 1. apply Z.log2_le_mono. lia.
    + replace (Z.min w h) with 1 by lia. f_equal. simpl. lia.
    + replace (Z.min w h) with 1 by lia. f_equal. simpl. lia.
    + replace (Z.min w h) with 1 by lia. f_equal. simpl. lia.
  - simpl.
    destruct (Z.ltb_spec 1 w) as [Hw1|Hw1];
      destruct (Z.ltb_spec 1 h) as [Hh1|Hh1]; simpl;
      try (replace (Z.min w h) with 1 by lia; f_equal; simpl; lia).
    assert (1 ≤ Z.shiftr w 1) as Hw2.
    { rewrite Z.shiftr_div_pow2 by lia. change (2 ^ 1) with 2.
      apply Z.div_le_lower_bound; lia. }
    assert (1 ≤ Z.shiftr h 1) as Hh2.
    { rewrite Z.shiftr_div_pow2 by lia. change (2 ^ 1) with 2.
      apply Z.div_le_lower_bound; lia. }
    rewrite !Z.max_l by lia.
    assert (Z.log2 (Z.min (Z.shiftr w 1) (Z.shiftr h 1))
            = Z.log2 (Z.min w h) - 1) as Hlog.
    { rewrite shiftr1_min. rewrite Z.log2_shiftr by lia.
      assert (1 ≤ Z.log2 (Z.min w h)); [|lia].
      change 1 with (Z.log2 2) at 1. apply Z.log2_le_mono. lia. }
    rewrite IH by lia. f_equal. lia.
Qed.

Lemma mipLevelLoop_total width height :
  1 ≤ width → 1 ≤ height →
  mipLevelLoop (Z.to_nat width) width height 1
  = Some (1 + Z.log2 (Z.min width height)).
Proof.
  intros Hw Hh. apply mipLevelLoop_log2; [exact Hw|exact Hh|].
  transitivity (Z.log2 width).
  - apply Z.log2_le_mono. lia.
  - pose proof (Z.log2_le_lin width). lia.
Qed.

(** X11.  For a decoded image of at least one texel in each direction
    the mip counting loop of [LoadTexture] ends, and the number of levels
    [n] it gives is the one with [2^(n-1) <= min(width, height) < 2^n]: the
    chain stops as soon as the shorter side reaches one texel, so an image
    with a side of one texel gets a single level. *)
Theorem mip_levels_follow_the_shorter_side (width height : Z) :
  1 ≤ width → 1 ≤ height →
  ∃ mipLevels,
    mipLevelLoop (Z.to_nat width) width height 1 = Some mipLevels
    ∧ 1 ≤ mipLevels
    ∧ 2 ^ (mipLevels - 1) ≤ Z.min width height < 2 ^ mipLevels
    ∧ (Z.min width height = 1 → mipLevels = 1).
Proof.
  intros Hw Hh. exists (1 + Z.log2 (Z.min width height)).
  split; [apply mipLevelLoop_total; assumption|].
  pose proof (Z.log2_nonneg (Z.min width height)) as Hnn.
  split; [lia|]. split.
  - replace (1 + Z.log2 (Z.min width height) - 1)
      with (Z.log2 (Z.min width height)) by lia.
    replace (1 + Z.log2 (Z.min width height))
      with (Z.succ (Z.log2 (Z.min width height))) by lia.
    apply Z.log2_spec. lia.
  - intros ->. reflexivity.
Qed.

Lemma mip_levels_follow_the_shorter_side_witness :
  ∃ mipLevels,
    mipLevelLoop (Z.to_nat 640) 640 480 1 = Some mipLevels
    ∧ 2 ^ (mipLevels - 1) ≤ Z.min 640 480 < 2 ^ mipLevels.
Proof.
  destruct (mip_levels_follow_the_shorter_side 640 480)
    as (mipLevels & Hloop & _ & Hpow & _); [lia|lia|].
  exists mipLevels. split; [exact Hloop|exact Hpow].
Defined.

Lemma levelsHave_one layouts level layout :
  0 ≤ level → layouts !! Z.to_nat level = Some layout →
  levelsHave layouts level 1 layout = true.
Proof.
  intros H0 Hl. unfold levelsHave.
  pose proof (lookup_lt_Some _ _ _ Hl) as Hlt.
  rewrite (drop_S _ _ _ Hl). simpl.
  rewrite bool_decide_eq_true_2 by reflexivity. simpl.
  rewrite andb_true_r. apply andb_true_intro. split.
  - apply andb_true_intro. split; [apply Z.leb_le; lia|reflexivity].
  - apply Z.leb_le. lia.
Qed.

Lemma setLevels_one layouts level layout new :
  0 ≤ level → layouts !! Z.to_nat level = Some layout →
  setLevels layouts level 1 new = <[Z.to_nat level := new]> layouts.
Proof.
  intros H0 Hl. unfold setLevels.
  pose proof (lookup_lt_Some _ _ _ Hl) as Hlt.
  rewrite insert_take_drop by exact Hlt. simpl.
  replace (Z.to_nat (level + 1)) with (S (Z.to_nat level)) by lia.
  reflexivity.
Qed.

Lemma levelsHave_all n layout :
  (0 < n)%nat →
  levelsHave (replicate n layout) 0 (Z.of_nat n) layout = true.
Proof.
  intros Hn. unfold levelsHave. rewrite length_replicate.
  change (Z.to_nat 0) with 0%nat. rewrite drop_0.
  rewrite Nat2Z.id, take_replicate, Nat.min_id.
  apply andb_true_intro. split.
  - apply andb_true_intro. split; [apply Z.ltb_lt; lia|apply Z.leb_le; lia].
  - clear Hn. induction n as [|n IH]; simpl; [reflexivity|].
    rewrite bool_decide_eq_true_2 by reflexivity. exact IH.
Qed.

Lemma setLevels_all n layout new :
  setLevels (replicate n layout) 0 (Z.of_nat n) new = replicate n new.
Proof.
  unfold setLevels. change (Z.to_nat 0) with 0%nat.
  rewrite take_0, Z.add_0_l, Nat2Z.id.
  rewrite drop_replicate, Nat.sub_diag. simpl. apply app_nil_r.
Qed.

Lemma mipExtent_succ size level :
  0 ≤ size →
  Z.max (Z.shiftr (mipExtent size level) 1) 1 = mipExtent size (S level).
Proof.
  intros Hs. unfold mipExtent.
  pose proof (proj2 (Z.shiftr_nonneg size (Z.of_nat level)) Hs) as Hnn.
  replace (Z.of_nat (S level)) with (Z.of_nat level + 1) by lia.
  rewrite <- Z.shiftr_shiftr by lia.
  destruct (Z.le_gt_cases 1 (Z.shiftr size (Z.of_nat level))) as [H1|H1].
  - rewrite (Z.max_l (Z.shiftr size (Z.of_nat level)) 1) by exact H1.
    reflexivity.
  - assert (Z.shiftr size (Z.of_nat level) = 0) as -> by lia.
    reflexivity.
Qed.

Lemma commandsOf_app e1 e2 :
  commandsOf (e1 ++ e2) = commandsOf e1 ++ commandsOf e2.
Proof. unfold commandsOf. apply omap_app. Qed.

Lemma ImageBarrier_Some image before after layerCount baseMipLevel mipLevels
    b :
  ImageBarrier image before after layerCount baseMipLevel mipLevels = Some b →
  ∃ mappingBefore mappingAfter,
    g_ImageStates !! ImageState_index before = Some mappingBefore
    ∧ g_ImageStates !! ImageState_index after = Some mappingAfter
    ∧ imb_oldLayout b = ism_layout mappingBefore
    ∧ imb_newLayout b = ism_layout mappingAfter
    ∧ imb_baseMipLevel b = baseMipLevel
    ∧ imb_levelCount b = mipLevels
    ∧ imb_layerCount b = layerCount
    ∧ imb_image b = image.
Proof.
  unfold ImageBarrier. intros H.
  destruct (g_ImageStates !! ImageState_index before) as [mb|];
    [|discriminate].
  destruct (g_ImageStates !! ImageState_index after) as [ma|];
    [|discriminate].
  simpl in H. injection H as <-. exists mb, ma. simpl. auto 10.
Qed.

Lemma trackCommand_barrier_one layouts image before after layerCount level b
    mappingBefore mappingAfter :
  ImageBarrier image before after layerCount level 1 = Some b →
  g_ImageStates !! ImageState_index before = Some mappingBefore →
  g_ImageStates !! ImageState_index after = Some mappingAfter →
  0 ≤ level →
  layouts !! Z.to_nat level = Some (ism_layout mappingBefore) →
  trackCommand layouts (CmdPipelineBarrier b)
  = Some (<[Z.to_nat level := ism_layout mappingAfter]> layouts).
Proof.
  intros Hb Hmb Hma H0 Hl.
  apply ImageBarrier_Some in Hb
    as (mb & ma & Hmb' & Hma' & Hold & Hnew & Hbase & Hcount & _).
  assert (mb = mappingBefore) as -> by congruence.
  assert (ma = mappingAfter) as -> by congruence.
  unfold trackCommand. rewrite Hold, Hnew, Hbase, Hcount.
  rewrite (levelsHave_one _ _ _ H0 Hl).
  rewrite (setLevels_one _ _ _ _ H0 Hl). reflexivity.
Qed.

Lemma trackCommand_blit layouts srcImage srcLayout dstImage dstLayout
    srcLevel dstLevel srcW srcH dstW dstH :
  0 ≤ srcLevel → 0 ≤ dstLevel →
  layouts !! Z.to_nat srcLevel = Some srcLayout →
  layouts !! Z.to_nat dstLevel = Some dstLayout →
  trackCommand layouts
    (CmdBlitImage srcImage srcLayout dstImage dstLayout srcLevel dstLevel
       srcW srcH dstW dstH)
  = Some layouts.
Proof.
  intros Hs Hd Hsl Hdl. unfold trackCommand.
  rewrite (levelsHave_one _ _ _ Hs Hsl), (levelsHave_one _ _ _ Hd Hdl).
  reflexivity.
Qed.

Lemma blitMip_eq image mipWidth mipHeight effects mipLevel toSrc toResource :
  ImageBarrier image IS_TransferDst IS_TransferSrc 1 (mipLevel - 1) 1
  = Some toSrc →
  ImageBarrier image IS_TransferSrc IS_ShaderResource 1 (mipLevel - 1) 1
  = Some toResource →
  blitMip image (mipWidth, mipHeight, effects) mipLevel
  = Some (Z.max (Z.shiftr mipWidth 1) 1, Z.max (Z.shiftr mipHeight 1) 1,
          effects
          ++ [EfCommand (CmdPipelineBarrier toSrc);
              EfCommand
                (CmdBlitImage image vk.eTransferSrcOptimal
                   image vk.eTransferDstOptimal (mipLevel - 1) mipLevel
                   mipWidth mipHeight
                   (Z.max (Z.shiftr mipWidth 1) 1)
                   (Z.max (Z.shiftr mipHeight 1) 1));
              EfCommand (CmdPipelineBarrier toResource)]).
Proof. intros H1 H2. unfold blitMip. rewrite H1, H2. reflexivity. Qed.

Lemma blit_loop_tracks image width height init (levels : nat) :
  0 ≤ width → 0 ≤ height →
  ∀ n k effects w' h' effects' layouts,
    (k + n < levels)%nat →
    foldM (blitMip image) (mipExtent width k, mipExtent height k, effects)
          (Z.of_nat <$> seq (S k) n)
    = Some (w', h', effects') →
    trackCommands init (commandsOf effects) = Some layouts →
    length layouts = levels →
    (∀ i, (i < k)%nat → layouts !! i = Some vk.eShaderReadOnlyOptimal) →
    (∀ i, (k ≤ i < levels)%nat →
          layouts !! i = Some vk.eTransferDstOptimal) →
    Forall (blitExtentsOk width height) (commandsOf effects) →
    ∃ layouts',
      trackCommands init (commandsOf effects') = Some layouts'
      ∧ length layouts' = levels
      ∧ (∀ i, (i < k + n)%nat →
              layouts' !! i = Some vk.eShaderReadOnlyOptimal)
      ∧ (∀ i, (k + n ≤ i < levels)%nat →
              layouts' !! i = Some vk.eTransferDstOptimal)
      ∧ Forall (blitExtentsOk width height) (commandsOf effects').
Proof.
  intros Hw Hh. induction n as [|n IH];
    intros k effects w' h' effects' layouts Hk Hfold Htrack Hlen Hdone Htodo
      Hext.
  - simpl in Hfold. injection Hfold as <- <- <-.
    exists layouts. rewrite Nat.add_0_r. auto.
  - assert (Z.of_nat (S k) - 1 = Z.of_nat k) as Hpred by lia.
    destruct (ImageBarrier_total image IS_TransferDst IS_TransferSrc 1
                (Z.of_nat (S k) - 1) 1) as [toSrc HtoSrc].
    destruct (ImageBarrier_total image IS_TransferSrc IS_ShaderResource 1
                (Z.of_nat (S k) - 1) 1) as [toResource HtoResource].
    cbn [seq fmap list_fmap foldM] in Hfold.
    rewrite (blitMip_eq _ _ _ _ _ _ _ HtoSrc HtoResource) in Hfold.
    cbn [mbind option_bind] in Hfold.
    rewrite !mipExtent_succ in Hfold by assumption.
    rewrite Hpred in HtoSrc, HtoResource, Hfold.
    assert (layouts !! Z.to_nat (Z.of_nat k) = Some vk.eTransferDstOptimal)
      as Hk0 by (rewrite Nat2Z.id; apply Htodo; lia).
    pose proof (trackCommand_barrier_one layouts _ _ _ _ _ _ _ _ HtoSrc
                  eq_refl eq_refl (Nat2Z.is_nonneg k) Hk0) as Hstep1.
    cbn [ism_layout] in Hstep1. rewrite Nat2Z.id in Hstep1.
    assert ((<[k := vk.eTransferSrcOptimal]> layouts)
              !! Z.to_nat (Z.of_nat k)
            = Some vk.eTransferSrcOptimal) as Hs0.
    { rewrite Nat2Z.id. apply list_lookup_insert_eq. lia. }
    assert ((<[k := vk.eTransferSrcOptimal]> layouts)
              !! Z.to_nat (Z.of_nat (S k))
            = Some vk.eTransferDstOptimal) as Hs1.
    { rewrite Nat2Z.id.
      rewrite list_lookup_insert_ne by lia. apply Htodo. lia. }
    pose proof (trackCommand_barrier_one _ _ _ _ _ _ _ _ _ HtoResource
                  eq_refl eq_refl (Nat2Z.is_nonneg k) Hs0) as Hstep3.
    cbn [ism_layout] in Hstep3. rewrite Nat2Z.id in Hstep3.
    apply IH with (layouts :=
                     <[k := vk.eShaderReadOnlyOptimal]>
                       (<[k := vk.eTransferSrcOptimal]> layouts))
      in Hfold.
    + destruct Hfold as (layouts' & Ht & Hl & Hd & Ht' & He).
      exists layouts'. split; [exact Ht|]. split; [exact Hl|].
      split; [|split; [|exact He]].
      * intros i Hi. apply Hd. lia.
      * intros i Hi. apply Ht'. lia.
    + lia.
    + rewrite commandsOf_app. unfold trackCommands in *.
      rewrite foldM_app, Htrack.
      cbn [commandsOf omap list_omap foldM mbind option_bind].
      rewrite Hstep1. cbn [mbind option_bind].
      rewrite (trackCommand_blit _ _ _ _ _ _ _ _ _ _ _
                 (Nat2Z.is_nonneg k) (Nat2Z.is_nonneg (S k)) Hs0 Hs1).
      cbn [mbind option_bind].
      rewrite Hstep3. reflexivity.
    + rewrite !length_insert. exact Hlen.
    + intros i Hi. destruct (decide (i = k)) as [->|Hne].
      * apply list_lookup_insert_eq. rewrite length_insert. lia.
      * rewrite !list_lookup_insert_ne by lia. apply Hdone. lia.
    + intros i Hi. rewrite !list_lookup_insert_ne by lia. apply Htodo. lia.
    + rewrite commandsOf_app. apply Forall_app. split; [exact Hext|].
      cbn [commandsOf omap list_omap].
      repeat constructor; cbn [blitExtentsOk]; try lia;
        rewrite ?Nat2Z.id; reflexivity.
Qed.

Lemma UploadImage_success physicalDevice device mapMemory image width height
    depth channels buffer effects :
  UploadImage physicalDevice device mapMemory image width height depth
              channels
  = Some (buffer, effects) →
  buf_buffer buffer ≠ vk.null →
  ∃ wh whd bytes,
    mul_int width height = Some wh
    ∧ mul_int wh depth = Some whd
    ∧ mul_int whd channels = Some bytes
    ∧ CreateCommittedBuffer physicalDevice device
        (mkBufferCreateInfo
           (mr_size (getImageMemoryRequirements device image)))
        vk.eHostVisible
      = Returns buffer
    ∧ effects
      = [EfMemcpy (to_size_t bytes);
         EfCommand
           (CmdCopyBufferToImage (buf_buffer buffer) image
              vk.eTransferDstOptimal (to_uint32 width) (to_uint32 height) 0
              (to_uint32 width) (to_uint32 height) (to_uint32 depth))].
Proof.
  unfold UploadImage. intros H Hne.
  destruct (returned (CreateCommittedBuffer _ _ _ _)) as [created|] eqn:Hcreate;
    [|discriminate].
  apply returned_Some in Hcreate.
  simpl in H.
  destruct (vk.is_null (buf_buffer created)).
  { injection H as <- _. contradiction. }
  destruct (mapMemory _ _); simpl in H.
  - destruct (mul_int width height) as [wh|] eqn:H1; [|discriminate].
    simpl in H.
    destruct (mul_int wh depth) as [whd|] eqn:H2; [|discriminate].
    simpl in H.
    destruct (mul_int whd channels) as [bytes|] eqn:H3; [|discriminate].
    simpl in H. injection H as <- <-.
    exists wh, whd, bytes. repeat split; assumption || reflexivity.
  - injection H as <- _. contradiction.
Qed.

Lemma UploadImage_failure physicalDevice device mapMemory image width height
    depth channels buffer effects :
  UploadImage physicalDevice device mapMemory image width height depth
              channels
  = Some (buffer, effects) →
  buf_buffer buffer = vk.null →
  buffer = Buffer_default ∧ commandsOf effects = []
  ∧ ∀ bytes, EfMemcpy bytes ∉ effects.
Proof.
  unfold UploadImage. intros H Hnull.
  destruct (returned (CreateCommittedBuffer _ _ _ _)) as [created|]; [|discriminate].
  simpl in H.
  destruct (vk.is_null (buf_buffer created)) eqn:Hc.
  { injection H as <- <-. repeat split.
    intros bytes Hin. apply list_elem_of_singleton in Hin. discriminate. }
  destruct (mapMemory _ _); simpl in H.
  - destruct (mul_int width height) as [wh|]; [|discriminate]. simpl in H.
    destruct (mul_int wh depth) as [whd|]; [|discriminate]. simpl in H.
    destruct (mul_int whd channels) as [bytes|]; [|discriminate].
    simpl in H. injection H as <- <-. exfalso.
    unfold vk.is_null in Hc. apply N.eqb_neq in Hc. contradiction.
  - injection H as <- <-. repeat split.
    intros bytes Hin. repeat (apply elem_of_cons in Hin as [Hin|Hin];
                              [discriminate|]).
    inversion Hin.
Qed.

Lemma LoadTexture_success physicalDevice device mapMemory submit stbi_load
    cache fileName image cache' effects width height :
  cache !! generic_string fileName = None →
  stbi_load (generic_string fileName) = Some (width, height) →
  LoadTexture physicalDevice device mapMemory submit stbi_load cache fileName
  = Some (image, cache', effects) →
  img_image image ≠ vk.null →
  ∃ mipLevels toDst buffer uploadEffects w' h' recorded lastToResource,
    mipLevelLoop (Z.to_nat width) width height 1 = Some mipLevels
    ∧ CreateCommittedImage physicalDevice device
        (mkImageCreateInfo (to_uint32 width) (to_uint32 height) 1
                           mipLevels 1)
      = Returns image
    ∧ ImageBarrier (img_image image) IS_Undefined IS_TransferDst 1 0
                   mipLevels
      = Some toDst
    ∧ UploadImage physicalDevice device mapMemory (img_image image)
                  width height 1 4
      = Some (buffer, uploadEffects)
    ∧ buf_buffer buffer ≠ vk.null
    ∧ foldM (blitMip (img_image image))
            (width, height,
             [EfBegin; EfCommand (CmdPipelineBarrier toDst)]
             ++ uploadEffects)
            (Z.of_nat <$> seq 1 (Z.to_nat (mipLevels - 1)))
      = Some (w', h', recorded)
    ∧ ImageBarrier (img_image image) IS_TransferDst IS_ShaderResource 1
                   (mipLevels - 1) 1
      = Some lastToResource
    ∧ submit (commandsOf
                (recorded
                 ++ [EfCommand (CmdPipelineBarrier lastToResource); EfEnd]))
      = vk.eSuccess
    ∧ effects
      = (recorded
         ++ [EfCommand (CmdPipelineBarrier lastToResource); EfEnd])
        ++ [EfSubmit; EfWaitIdle; EfDestroyBuffer buffer;
            EfLog (LogLoaded (generic_string fileName))]
    ∧ cache' = <[generic_string fileName := image]> cache.
Proof.
  intros Hmiss Hstbi H Hne. unfold LoadTexture in H.
  rewrite Hmiss, Hstbi in H.
  destruct (mipLevelLoop _ _ _ _) as [mipLevels|] eqn:Hloop; [|discriminate].
  cbn [mbind option_bind] in H.
  destruct (returned (CreateCommittedImage _ _ _)) as [created|] eqn:Hcreate;
    [|discriminate].
  apply returned_Some in Hcreate.
  cbn [mbind option_bind] in H.
  destruct (vk.is_null (img_image created)) eqn:Hc.
  { injection H as <- _ _. contradiction. }
  destruct (ImageBarrier (img_image created) IS_Undefined IS_TransferDst 1 0
                         mipLevels) as [toDst|] eqn:HtoDst; [|discriminate].
  cbn [mbind option_bind] in H.
  destruct (UploadImage _ _ _ _ _ _ _ _) as [[buffer uploadEffects]|]
    eqn:Hup; [|discriminate].
  cbn [mbind option_bind] in H.
  destruct (vk.is_null (buf_buffer buffer)) eqn:Hb.
  { injection H as <- _ _. contradiction. }
  destruct (foldM _ _ _) as [[[w' h'] recorded]|] eqn:Hfold; [|discriminate].
  cbn [mbind option_bind] in H.
  destruct (ImageBarrier (img_image created) IS_TransferDst
                         IS_ShaderResource 1 (mipLevels - 1) 1)
    as [lastToResource|] eqn:Hlast; [|discriminate].
  cbn [mbind option_bind] in H.
  destruct (submit _) eqn:Hsubmit; [|discriminate].
  injection H as <- <- <-.
  apply is_null_false in Hb.
  exists mipLevels, toDst, buffer, uploadEffects, w', h', recorded,
    lastToResource.
  repeat split; assumption || reflexivity.
Qed.

(** X12.  When [LoadTexture] loads a new image successfully, the
    commands it submits keep the layout of every mip level consistent:
    starting with all levels undefined, every barrier names the layout its
    levels are in, the copy finds level 0 and every blit finds its source
    and destination level in the layout it names, and at the end every
    level is in the shader-read layout.  Every blit reads level [k] at its
    extent [max(size >> k, 1)] and writes level [k + 1] at its extent. *)
Theorem texture_upload_leaves_every_level_readable
    (physicalDevice : PhysicalDevice) (device : Device)
    (mapMemory : vk.Handle → Z → bool) (submit : list Command → vk.Result)
    (stbi_load : string → option (Z * Z)) (cache cache' : ImageCache)
    (fileName : path) (image : Image) (effects : list Effect)
    (width height : Z) :
  cache !! generic_string fileName = None →
  stbi_load (generic_string fileName) = Some (width, height) →
  1 ≤ width → 1 ≤ height →
  LoadTexture physicalDevice device mapMemory submit stbi_load cache fileName
  = Some (image, cache', effects) →
  img_image image ≠ vk.null →
  ∃ mipLevels,
    mipLevelLoop (Z.to_nat width) width height 1 = Some (Z.of_nat mipLevels)
    ∧ trackCommands (replicate mipLevels vk.eUndefined) (commandsOf effects)
      = Some (replicate mipLevels vk.eShaderReadOnlyOptimal)
    ∧ Forall (blitExtentsOk width height) (commandsOf effects).
Proof.
  intros Hmiss Hstbi Hw Hh Hload Hne.
  destruct (LoadTexture_success _ _ _ _ _ _ _ _ _ _ _ _ Hmiss Hstbi Hload Hne)
    as (mipLevels & toDst & buffer & uploadEffects & w' & h' & recorded
        & lastToResource & Hloop & Hcreate & HtoDst & Hup & Hbuf & Hfold
        & Hlast & Hsubmit & -> & ->).
  pose proof (mipLevelLoop_total width height Hw Hh) as Htotal.
  rewrite Htotal in Hloop. injection Hloop as Hlevels.
  pose proof (Z.log2_nonneg (Z.min width height)) as Hnn.
  set (n := Z.to_nat mipLevels).
  assert (mipLevels = Z.of_nat n) as Hn by (subst n; lia).
  assert (0 < n)%nat as Hpos by (subst n; lia).
  exists n. split; [rewrite Htotal; f_equal; lia|].
  apply UploadImage_success in Hup
    as (wh & whd & bytes & _ & _ & _ & _ & ->); [|exact Hbuf].
  set (init := replicate n vk.eUndefined).
  (* the first barrier and the copy *)
  assert (trackCommands init
            (commandsOf
               ([EfBegin; EfCommand (CmdPipelineBarrier toDst)]
                ++ [EfMemcpy (to_size_t bytes);
                    EfCommand
                      (CmdCopyBufferToImage (buf_buffer buffer)
                         (img_image image) vk.eTransferDstOptimal
                         (to_uint32 width) (to_uint32 height) 0
                         (to_uint32 width) (to_uint32 height)
                         (to_uint32 1))]))
          = Some (replicate n vk.eTransferDstOptimal)) as Hstart.
  { apply ImageBarrier_Some in HtoDst
      as (mb & ma & Hmb & Hma & Hold & Hnew & Hbase & Hcount & _).
    injection Hmb as <-. injection Hma as <-.
    cbn [app commandsOf omap list_omap]. unfold trackCommands.
    cbn [foldM trackCommand]. rewrite Hold, Hnew, Hbase, Hcount, Hn.
    cbn [ism_layout]. subst init.
    rewrite (levelsHave_all n _ Hpos), setLevels_all.
    cbn [mbind option_bind].
    rewrite levelsHave_one; [reflexivity|lia|].
    change (Z.to_nat 0) with 0%nat. apply lookup_replicate_2. exact Hpos. }
  match type of Hstart with
  | trackCommands _ (commandsOf ?e) = _ => set (prefix := e) in *
  end.
  destruct (blit_loop_tracks (img_image image) width height init n
              ltac:(lia) ltac:(lia) (Z.to_nat (mipLevels - 1)) 0%nat
              prefix w' h' recorded (replicate n vk.eTransferDstOptimal))
    as (layouts & Htrack & Hlen & Hdone & Htodo & Hext).
  - subst n. lia.
  - unfold mipExtent. change (Z.of_nat 0) with 0. rewrite !Z.shiftr_0_r.
    rewrite !Z.max_l by lia. exact Hfold.
  - exact Hstart.
  - apply length_replicate.
  - intros i Hi. lia.
  - intros i Hi. apply lookup_replicate_2. lia.
  - subst prefix. cbn [app commandsOf omap list_omap]. repeat constructor.
  - (* the last barrier *)
    assert (layouts !! Z.to_nat (mipLevels - 1)
            = Some vk.eTransferDstOptimal) as Hl.
    { apply Htodo. subst n. lia. }
    pose proof (trackCommand_barrier_one layouts _ _ _ _ _ _ _ _ Hlast
                  eq_refl eq_refl ltac:(lia) Hl) as Hstep.
    cbn [ism_layout] in Hstep.
    split.
    + rewrite !commandsOf_app. unfold trackCommands in *.
      rewrite !foldM_app, Htrack.
      cbn [commandsOf omap list_omap foldM mbind option_bind].
      rewrite Hstep. cbn [mbind option_bind]. f_equal.
      apply list_eq. intros i.
      destruct (decide (i = Z.to_nat (mipLevels - 1))) as [->|Hi].
      * rewrite list_lookup_insert_eq by (subst n; lia).
        symmetry. apply lookup_replicate_2. subst n. lia.
      * rewrite list_lookup_insert_ne by congruence.
        destruct (decide (i < n)%nat) as [Hlt|Hge].
        -- rewrite lookup_replicate_2 by exact Hlt.
           apply Hdone. subst n. lia.
        -- rewrite (lookup_ge_None_2 layouts) by lia.
           symmetry. apply lookup_ge_None_2. rewrite length_replicate. lia.
    + rewrite !commandsOf_app. repeat (apply Forall_app; split);
        [exact Hext| |];
        cbn [commandsOf omap list_omap]; repeat constructor.
Qed.

Lemma texture_upload_leaves_every_level_readable_witness :
  ∃ cache' effects mipLevels,
    LoadTexture (mkPhysicalDevice [3]) (demo_device 0) (λ _ _, true)
                (λ _, vk.eSuccess) (λ _, Some (4, 2)) ∅ ("tex", ".png")
    = Some (mkImage 11%N 10%N 12%N 4 2 1, cache', effects)
    ∧ trackCommands (replicate mipLevels vk.eUndefined) (commandsOf effects)
      = Some (replicate mipLevels vk.eShaderReadOnlyOptimal).
Proof.
  assert (∃ cache' effects,
            LoadTexture (mkPhysicalDevice [3]) (demo_device 0) (λ _ _, true)
                        (λ _, vk.eSuccess) (λ _, Some (4, 2)) ∅
                        ("tex", ".png")
            = Some (mkImage 11%N 10%N 12%N 4 2 1, cache', effects))
    as (cache' & effects & Hload) by (vm_compute; eexists _, _; reflexivity).
  destruct (texture_upload_leaves_every_level_readable
              (mkPhysicalDevice [3]) (demo_device 0) (λ _ _, true)
              (λ _, vk.eSuccess) (λ _, Some (4, 2)) ∅ cache' ("tex", ".png")
              (mkImage 11%N 10%N 12%N 4 2 1) effects 4 2)
    as (mipLevels & _ & Htrack & _).
  - reflexivity.
  - reflexivity.
  - lia.
  - lia.
  - exact Hload.
  - discriminate.
  - exists cache', effects, mipLevels. split; [exact Hload|exact Htrack].
Defined.

(** Membership of an effect in a list built from conses and appends. *)
Ltac effect_not_in :=
  let Hin := fresh "Hin" in
  intros Hin;
  repeat match goal with
         | H : _ ∈ _ ++ _ |- _ => apply elem_of_app in H as [H|H]
         | H : _ ∈ _ :: _ |- _ =>
             apply elem_of_cons in H as [H|H]; [discriminate H|]
         | H : _ ∈ [] |- _ => inversion H
         | H : ?x ∈ ?l, Hno : ?x ∉ ?l |- _ => exact (Hno H)
         end.

Lemma UploadImage_effects physicalDevice device mapMemory image width height
    depth channels buffer effects :
  UploadImage physicalDevice device mapMemory image width height depth
              channels
  = Some (buffer, effects) →
  (EfSubmit ∉ effects) ∧ (∀ destroyed, EfDestroyImage destroyed ∉ effects).
Proof.
  unfold UploadImage. intros H.
  destruct (returned (CreateCommittedBuffer _ _ _ _)) as [b|]; [|discriminate].
  cbn [mbind option_bind] in H.
  destruct (vk.is_null (buf_buffer b)).
  { injection H as _ <-. split; [|intros destroyed]; effect_not_in. }
  destruct (negb _).
  { injection H as _ <-. split; [|intros destroyed]; effect_not_in. }
  destruct (mul_int width height); [|discriminate].
  cbn [mbind option_bind] in H.
  destruct (mul_int _ depth); [|discriminate].
  cbn [mbind option_bind] in H.
  destruct (mul_int _ channels); [|discriminate].
  cbn [mbind option_bind] in H.
  injection H as _ <-. split; [|intros destroyed]; effect_not_in.
Qed.

Lemma LoadTexture_cases physicalDevice device mapMemory submit stbi_load
    cache fileName image cache' effects :
  LoadTexture physicalDevice device mapMemory submit stbi_load cache fileName
  = Some (image, cache', effects) →
  (cache !! generic_string fileName = Some image
   ∧ cache' = cache ∧ effects = [])
  ∨ (cache !! generic_string fileName = None
     ∧ image = Image_default ∧ cache' = cache ∧ EfSubmit ∉ effects)
  ∨ (cache !! generic_string fileName = None
     ∧ img_image image ≠ vk.null
     ∧ cache' = <[generic_string fileName := image]> cache
     ∧ EfSubmit ∈ effects).
Proof.
  intros H.
  destruct (cache !! generic_string fileName) as [found|] eqn:Hc.
  { left. unfold LoadTexture in H. rewrite Hc in H.
    injection H as <- <- <-. auto. }
  right.
  destruct (decide (img_image image = vk.null)) as [Hnull|Hne].
  - left. unfold LoadTexture in H. rewrite Hc in H.
    destruct (stbi_load _) as [[width height]|].
    2:{ injection H as <- <- <-. repeat split.
        intros Hin. apply list_elem_of_singleton in Hin. discriminate. }
    destruct (mipLevelLoop _ _ _ _) as [mipLevels|]; [|discriminate].
    cbn [mbind option_bind] in H.
    destruct (returned (CreateCommittedImage _ _ _)) as [created|]; [|discriminate].
    cbn [mbind option_bind] in H.
    destruct (vk.is_null (img_image created)) eqn:Hcr.
    { injection H as <- <- <-. repeat split.
      intros Hin. apply list_elem_of_singleton in Hin. discriminate. }
    destruct (ImageBarrier (img_image created) IS_Undefined IS_TransferDst
                1 0 mipLevels) as [toDst|]; [|discriminate].
    cbn [mbind option_bind] in H.
    destruct (UploadImage _ _ _ _ _ _ _ _) as [[buffer uploadEffects]|]
      eqn:Hup; [|discriminate].
    cbn [mbind option_bind] in H.
    destruct (vk.is_null (buf_buffer buffer)) eqn:Hb.
    + injection H as <- <- <-. repeat split.
      destruct (UploadImage_effects _ _ _ _ _ _ _ _ _ _ Hup) as [Hno _].
      effect_not_in.
    + exfalso.
      destruct (foldM _ _ _) as [[[w' h'] recorded]|]; [|discriminate].
      cbn [mbind option_bind] in H.
      destruct (ImageBarrier (img_image created) IS_TransferDst
                  IS_ShaderResource 1 (mipLevels - 1) 1); [|discriminate].
      cbn [mbind option_bind] in H.
      destruct (submit _); [|discriminate].
      injection H as <- _ _. apply is_null_false in Hcr. contradiction.
  - right.
    destruct (stbi_load (generic_string fileName)) as [[width height]|]
      eqn:Hstbi.
    + destruct (LoadTexture_success _ _ _ _ _ _ _ _ _ _ _ _ Hc Hstbi H Hne)
        as (? & ? & ? & ? & ? & ? & ? & ? & _ & _ & _ & _ & _ & _ & _ & _
            & -> & ->).
      repeat split; [exact Hne|].
      rewrite elem_of_app. right. left.
    + unfold LoadTexture in H. rewrite Hc, Hstbi in H.
      injection H as <- _ _. exfalso. apply Hne. reflexivity.
Qed.

Lemma LoadVolume_success physicalDevice device mapMemory submit readData
    cache fileName image cache' effects :
  cache !! generic_string fileName = None →
  LoadVolume physicalDevice device mapMemory submit readData cache fileName
  = Some (image, cache', effects) →
  img_image image ≠ vk.null →
  let header := headerOf (readData fileName) in
  ∃ toDst buffer uploadEffects toResource,
    volumeAccepted (readData fileName) = true
    ∧ CreateCommittedImage physicalDevice device
        (mkImageCreateInfo (vh_width header) (vh_height header)
                           (vh_depth header) 1 1)
      = Returns image
    ∧ ImageBarrier (img_image image) IS_Undefined IS_TransferDst 1 0 1
      = Some toDst
    ∧ UploadImage physicalDevice device mapMemory (img_image image)
        (wrap_int32 (vh_width header)) (wrap_int32 (vh_height header))
        (wrap_int32 (vh_depth header)) (wrap_int32 (vh_channels header))
      = Some (buffer, uploadEffects)
    ∧ buf_buffer buffer ≠ vk.null
    ∧ ImageBarrier (img_image image) IS_TransferDst IS_ShaderResource 1 0 1
      = Some toResource
    ∧ effects
      = ([EfBegin; EfCommand (CmdPipelineBarrier toDst)]
         ++ uploadEffects
         ++ [EfCommand (CmdPipelineBarrier toResource); EfEnd])
        ++ [EfSubmit; EfWaitIdle; EfDestroyBuffer buffer;
            EfLog (LogLoaded (generic_string fileName))]
    ∧ cache' = <[generic_string fileName := image]> cache.
Proof.
  intros Hmiss H Hne header. unfold LoadVolume in H. rewrite Hmiss in H.
  destruct (volumeAccepted (readData fileName)) eqn:Hacc;
    cbn [negb] in H.
  2:{ injection H as <- _ _. exfalso. apply Hne. reflexivity. }
  destruct (returned (CreateCommittedImage _ _ _)) as [created|] eqn:Hcreate;
    [|discriminate].
  apply returned_Some in Hcreate.
  cbn [mbind option_bind] in H.
  destruct (vk.is_null (img_image created)) eqn:Hc.
  { injection H as <- _ _. exfalso. apply Hne. reflexivity. }
  destruct (ImageBarrier (img_image created) IS_Undefined IS_TransferDst
              1 0 1) as [toDst|] eqn:HtoDst; [|discriminate].
  cbn [mbind option_bind] in H.
  destruct (UploadImage _ _ _ _ _ _ _ _) as [[buffer uploadEffects]|]
    eqn:Hup; [|discriminate].
  cbn [mbind option_bind] in H.
  destruct (ImageBarrier (img_image created) IS_TransferDst
              IS_ShaderResource 1 0 1) as [toResource|] eqn:HtoRes;
    [|discriminate].
  cbn [mbind option_bind] in H.
  destruct (vk.is_null (buf_buffer buffer)) eqn:Hb.
  { injection H as <- _ _. exfalso. apply Hne. reflexivity. }
  destruct (submit _); [|discriminate].
  injection H as <- <- <-. apply is_null_false in Hb.
  exists toDst, buffer, uploadEffects, toResource.
  repeat split; assumption || reflexivity.
Qed.

Lemma LoadVolume_cases physicalDevice device mapMemory submit readData
    cache fileName image cache' effects :
  LoadVolume physicalDevice device mapMemory submit readData cache fileName
  = Some (image, cache', effects) →
  (cache !! generic_string fileName = Some image
   ∧ cache' = cache ∧ effects = [])
  ∨ (cache !! generic_string fileName = None
     ∧ image = Image_default ∧ cache' = cache ∧ EfSubmit ∉ effects)
  ∨ (cache !! generic_string fileName = None
     ∧ img_image image ≠ vk.null
     ∧ cache' = <[generic_string fileName := image]> cache
     ∧ EfSubmit ∈ effects).
Proof.
  intros H.
  destruct (cache !! generic_string fileName) as [found|] eqn:Hc.
  { left. unfold LoadVolume in H. rewrite Hc in H.
    injection H as <- <- <-. auto. }
  right.
  destruct (decide (img_image image = vk.null)) as [Hnull|Hne].
  - left. unfold LoadVolume in H. rewrite Hc in H.
    destruct (volumeAccepted (readData fileName)); cbn [negb] in H.
    2:{ injection H as <- <- <-. repeat split. effect_not_in. }
    destruct (returned (CreateCommittedImage _ _ _)) as [created|]; [|discriminate].
    cbn [mbind option_bind] in H.
    destruct (vk.is_null (img_image created)) eqn:Hcr.
    { injection H as <- <- <-. repeat split. effect_not_in. }
    destruct (ImageBarrier (img_image created) IS_Undefined IS_TransferDst
                1 0 1) as [toDst|]; [|discriminate].
    cbn [mbind option_bind] in H.
    destruct (UploadImage _ _ _ _ _ _ _ _) as [[buffer uploadEffects]|]
      eqn:Hup; [|discriminate].
    cbn [mbind option_bind] in H.
    destruct (ImageBarrier (img_image created) IS_TransferDst
                IS_ShaderResource 1 0 1) as [toResource|]; [|discriminate].
    cbn [mbind option_bind] in H.
    destruct (vk.is_null (buf_buffer buffer)) eqn:Hb.
    + injection H as <- <- <-. repeat split.
      destruct (UploadImage_effects _ _ _ _ _ _ _ _ _ _ Hup) as [Hno _].
      effect_not_in.
    + exfalso. destruct (submit _); [|discriminate].
      injection H as <- _ _. apply is_null_false in Hcr. contradiction.
  - right.
    destruct (LoadVolume_success _ _ _ _ _ _ _ _ _ _ Hc H Hne)
      as (? & ? & ? & ? & _ & _ & _ & _ & _ & _ & -> & ->).
    repeat split; [exact Hne|].
    rewrite elem_of_app. right. left.
Qed.

Lemma loader_cases load cache fileName image cache' effects :
  is_image_loader load →
  load cache fileName = Some (image, cache', effects) →
  (cache !! generic_string fileName = Some image
   ∧ cache' = cache ∧ effects = [])
  ∨ (cache !! generic_string fileName = None
     ∧ image = Image_default ∧ cache' = cache ∧ EfSubmit ∉ effects)
  ∨ (cache !! generic_string fileName = None
     ∧ img_image image ≠ vk.null
     ∧ cache' = <[generic_string fileName := image]> cache
     ∧ EfSubmit ∈ effects).
Proof.
  intros [(pd & dev & map & submit & stbi & ->)
         |(pd & dev & map & submit & readData & ->)] H.
  - eapply LoadTexture_cases. exact H.
  - eapply LoadVolume_cases. exact H.
Qed.

Lemma loader_hit load cache fileName found :
  is_image_loader load →
  cache !! generic_string fileName = Some found →
  load cache fileName = Some (found, cache, []).
Proof.
  intros [(pd & dev & map & submit & stbi & ->)
         |(pd & dev & map & submit & readData & ->)] H.
  - unfold LoadTexture. rewrite H. reflexivity.
  - unfold LoadVolume. rewrite H. reflexivity.
Qed.

(** X13.  The image cache round trip: once [LoadTexture] or [LoadVolume]
    has returned an image with a non-null handle for a file name, every
    later call of either loader for that name, on whatever device, returns
    that same image, leaves the cache as it is and does nothing else (no
    decoding, no commands, no submission); in particular a file first
    loaded as a volume is returned as it is by [LoadTexture].  Entries of
    other file names are not touched. *)
Theorem loaded_image_is_served_from_cache
    (first later : ImageCache → path
                   → option (Image * ImageCache * list Effect))
    (cache cache' : ImageCache) (fileName : path) (image : Image)
    (effects : list Effect) :
  is_image_loader first → is_image_loader later →
  first cache fileName = Some (image, cache', effects) →
  img_image image ≠ vk.null →
  later cache' fileName = Some (image, cache', [])
  ∧ ∀ other, other ≠ generic_string fileName →
             cache' !! other = cache !! other.
Proof.
  intros Hfirst Hlater H Hne.
  destruct (loader_cases _ _ _ _ _ _ Hfirst H)
    as [(Hhit & -> & _)|[(_ & -> & _)|(Hmiss & _ & -> & _)]].
  - split; [|reflexivity]. apply loader_hit; assumption.
  - exfalso. apply Hne. reflexivity.
  - split.
    + apply loader_hit; [exact Hlater|]. apply lookup_insert_eq.
    + intros other Hother. apply lookup_insert_ne. congruence.
Qed.

(** X14.  A load that fails is not remembered: when [LoadTexture] or
    [LoadVolume] finds no cache entry and returns an image with a null
    handle, the image is the default [Image()], the cache is left as it
    was and nothing was submitted to the queue, so the next call for the
    same file tries again. *)
Theorem failed_load_is_not_cached
    (load : ImageCache → path → option (Image * ImageCache * list Effect))
    (cache cache' : ImageCache) (fileName : path) (image : Image)
    (effects : list Effect) :
  is_image_loader load →
  cache !! generic_string fileName = None →
  load cache fileName = Some (image, cache', effects) →
  img_image image = vk.null →
  image = Image_default ∧ cache' = cache ∧ EfSubmit ∉ effects.
Proof.
  intros Hload Hmiss H Hnull.
  destruct (loader_cases _ _ _ _ _ _ Hload H)
    as [(Hhit & _)|[(_ & -> & -> & Hno)|(_ & Hne & _)]].
  - congruence.
  - auto.
  - contradiction.
Qed.

Lemma loaded_image_is_served_from_cache_witness :
  ∃ cache' effects,
    LoadTexture (mkPhysicalDevice [3]) (demo_device 0) (λ _ _, true)
                (λ _, vk.eSuccess) (λ _, Some (4, 2)) ∅ ("tex", ".png")
    = Some (mkImage 11%N 10%N 12%N 4 2 1, cache', effects)
    ∧ LoadVolume one_local_memory_type device_out_of_memory (λ _ _, false)
                 (λ _, vk.eError) (λ _, ""%string) cache' ("tex", ".png")
      = Some (mkImage 11%N 10%N 12%N 4 2 1, cache', []).
Proof.
  assert (∃ cache' effects,
            LoadTexture (mkPhysicalDevice [3]) (demo_device 0) (λ _ _, true)
                        (λ _, vk.eSuccess) (λ _, Some (4, 2)) ∅
                        ("tex", ".png")
            = Some (mkImage 11%N 10%N 12%N 4 2 1, cache', effects))
    as (cache' & effects & Hload) by (vm_compute; eexists _, _; reflexivity).
  exists cache', effects. split; [exact Hload|].
  refine (proj1 (loaded_image_is_served_from_cache
                   (LoadTexture (mkPhysicalDevice [3]) (demo_device 0)
                      (λ _ _, true) (λ _, vk.eSuccess) (λ _, Some (4, 2)))
                   (LoadVolume one_local_memory_type device_out_of_memory
                      (λ _ _, false) (λ _, vk.eError) (λ _, ""%string))
                   ∅ cache' ("tex", ".png") (mkImage 11%N 10%N 12%N 4 2 1)
                   effects _ _ Hload _)).
  - left. eexists _, _, _, _, _. reflexivity.
  - right. eexists _, _, _, _, _. reflexivity.
  - discriminate.
Defined.

Lemma failed_load_is_not_cached_witness :
  ∃ image cache' effects,
    LoadTexture (mkPhysicalDevice [3]) (demo_device 0) (λ _ _, true)
                (λ _, vk.eSuccess) (λ _, None) ∅ ("tex", ".png")
    = Some (image, cache', effects)
    ∧ cache' = ∅.
Proof.
  exists Image_default, ∅,
    [EfLog (LogLoadImageFailed (generic_string ("tex", ".png")))].
  split; [reflexivity|].
  refine (proj1 (proj2 (failed_load_is_not_cached
                   (LoadTexture (mkPhysicalDevice [3]) (demo_device 0)
                      (λ _ _, true) (λ _, vk.eSuccess) (λ _, None))
                   ∅ ∅ ("tex", ".png") Image_default
                   [EfLog (LogLoadImageFailed
                             (generic_string ("tex", ".png")))]
                   _ _ _ _))).
  - left. eexists _, _, _, _, _. reflexivity.
  - reflexivity.
  - reflexivity.
  - reflexivity.
Defined.

Lemma byte_at_range data offset : 0 ≤ byte_at data offset < 2 ^ 8.
Proof.
  unfold byte_at. destruct (String.get offset data) as [c|]; [|lia].
  pose proof (Ascii.N_ascii_bounded c). lia.
Qed.

Lemma uint32_at_range data offset : 0 ≤ uint32_at data offset < 2 ^ 32.
Proof.
  unfold uint32_at.
  pose proof (byte_at_range data offset).
  pose proof (byte_at_range data (offset + 1)).
  pose proof (byte_at_range data (offset + 2)).
  pose proof (byte_at_range data (offset + 3)).
  lia.
Qed.

Lemma mul_int_Some a b r :
  mul_int a b = Some r ↔ r = a * b ∧ - 2 ^ 31 ≤ a * b ≤ 2 ^ 31 - 1.
Proof.
  unfold mul_int.
  destruct (Z.ltb_spec (a * b) (- 2 ^ 31));
    destruct (Z.ltb_spec (2 ^ 31 - 1) (a * b)); simpl; split;
    try discriminate; try (intros [_ ?]; lia).
  - intros H'. injection H' as <-. split; [reflexivity|lia].
  - intros [-> _]. reflexivity.
Qed.

Lemma wrap_int32_small z : - 2 ^ 31 ≤ z < 2 ^ 31 → wrap_int32 z = z.
Proof.
  intros H. unfold wrap_int32. rewrite Z.mod_small by lia. lia.
Qed.

Lemma volumeAccepted_spec data :
  volumeAccepted data = true →
  let header := headerOf data in
  vh_magic header = [66; 73; 78; 0]
  ∧ blob_size data
    = sizeof_VolumeHeader
      + (vh_width header * vh_height header * vh_depth header
         * vh_channels header) mod 2 ^ 32
  ∧ 1 ≤ vh_width header < 2 ^ 32
  ∧ 1 ≤ vh_height header < 2 ^ 32
  ∧ 1 ≤ vh_depth header < 2 ^ 32
  ∧ 1 ≤ vh_channels header ≤ 4.
Proof.
  intros H header. unfold volumeAccepted in H.
  destruct (Z.ltb_spec (blob_size data) sizeof_VolumeHeader);
    [discriminate|].
  fold header in H.
  destruct (decide (vh_magic header = [66; 73; 78; 0])) as [Hmagic|Hmagic].
  2:{ rewrite bool_decide_eq_false_2 in H by exact Hmagic. discriminate. }
  rewrite bool_decide_eq_true_2 in H by exact Hmagic. cbn [negb] in H.
  destruct (Z.eqb_spec (blob_size data)
              (sizeof_VolumeHeader
               + mul_uint32
                   (mul_uint32
                      (mul_uint32 (vh_width header) (vh_height header))
                      (vh_depth header))
                   (vh_channels header))) as [Hsize|Hsize];
    cbn [negb] in H; [|discriminate].
  destruct (Z.eqb_spec (vh_width header) 0); [discriminate|].
  destruct (Z.eqb_spec (vh_height header) 0); [discriminate|].
  destruct (Z.eqb_spec (vh_depth header) 0); [discriminate|].
  destruct (Z.eqb_spec (vh_channels header) 0); [discriminate|].
  destruct (Z.ltb_spec 4 (vh_channels header)); [discriminate|].
  pose proof (uint32_at_range data 4).
  pose proof (uint32_at_range data 8).
  pose proof (uint32_at_range data 12).
  pose proof (uint32_at_range data 16).
  subst header. unfold headerOf in *. cbn [vh_width vh_height vh_depth
                                          vh_channels vh_magic] in *.
  split; [exact Hmagic|]. split; [|lia].
  rewrite Hsize. f_equal. unfold mul_uint32.
  rewrite Z.mul_mod_idemp_l by lia. rewrite <- Z.mul_assoc.
  rewrite Z.mul_mod_idemp_l by lia. f_equal. lia.
Qed.

Lemma LoadVolume_memcpy physicalDevice device mapMemory submit readData
    cache fileName image cache' effects bytes :
  LoadVolume physicalDevice device mapMemory submit readData cache fileName
  = Some (image, cache', effects) →
  EfMemcpy bytes ∈ effects →
  cache !! generic_string fileName = None ∧ img_image image ≠ vk.null.
Proof.
  intros H Hin. unfold LoadVolume in H.
  destruct (cache !! generic_string fileName) as [found|] eqn:Hc.
  { injection H as _ _ <-. inversion Hin. }
  split; [reflexivity|].
  destruct (volumeAccepted (readData fileName)); cbn [negb] in H.
  2:{ injection H as _ _ <-. inversion Hin. }
  destruct (returned (CreateCommittedImage _ _ _)) as [created|]; [|discriminate].
  cbn [mbind option_bind] in H.
  destruct (vk.is_null (img_image created)) eqn:Hcr.
  { injection H as _ _ <-. exfalso. revert Hin. effect_not_in. }
  destruct (ImageBarrier (img_image created) IS_Undefined IS_TransferDst
              1 0 1) as [toDst|]; [|discriminate].
  cbn [mbind option_bind] in H.
  destruct (UploadImage _ _ _ _ _ _ _ _) as [[buffer uploadEffects]|]
    eqn:Hup; [|discriminate].
  cbn [mbind option_bind] in H.
  destruct (ImageBarrier (img_image created) IS_TransferDst
              IS_ShaderResource 1 0 1) as [toResource|]; [|discriminate].
  cbn [mbind option_bind] in H.
  destruct (vk.is_null (buf_buffer buffer)) eqn:Hb.
  - injection H as _ _ <-. exfalso. apply is_null_true in Hb.
    destruct (UploadImage_failure _ _ _ _ _ _ _ _ _ _ Hup Hb)
      as (_ & _ & Hno).
    specialize (Hno bytes). revert Hin. effect_not_in.
  - destruct (submit _); [|discriminate].
    injection H as <- _ _. apply is_null_false in Hcr. exact Hcr.
Qed.

Lemma mul_int_None a b : 2 ^ 31 ≤ a * b → mul_int a b = None.
Proof.
  intros H. destruct (mul_int a b) as [r|] eqn:E; [|reflexivity].
  apply mul_int_Some in E. lia.
Qed.

(** X15.  For a volume file that passes the header check the channel
    count is between 1 and 4 (so the format table is read inside its four
    entries).  When width * height * depth * channels is below [2^31],
    that product is exactly the size of the file minus the 20 header
    bytes, and it is the number of bytes of every copy [LoadVolume] makes
    to the staging buffer: the upload stays inside the file.  The header
    check does not guarantee that bound, since it multiplies in [uint32_t]:
    for an accepted file with sides below [2^31] and a product of [2^31]
    or more, the [int] product of [UploadImage] overflows once the image
    and the mapped staging buffer exist, and [LoadVolume] has no defined
    result. *)
Theorem volume_upload_copies_exactly_the_payload
    (physicalDevice : PhysicalDevice) (device : Device)
    (mapMemory : vk.Handle → Z → bool) (submit : list Command → vk.Result)
    (readData : path → blob) (cache : ImageCache) (fileName : path) :
  let data := readData fileName in
  let header := headerOf data in
  let texels :=
    vh_width header * vh_height header * vh_depth header
    * vh_channels header in
  volumeAccepted data = true →
  1 ≤ vh_channels header ≤ 4
  ∧ (texels < 2 ^ 31 →
     texels = blob_size data - sizeof_VolumeHeader
     ∧ ∀ image cache' effects bytes,
         LoadVolume physicalDevice device mapMemory submit readData cache
                    fileName
         = Some (image, cache', effects) →
         EfMemcpy bytes ∈ effects →
         bytes = texels)
  ∧ (2 ^ 31 ≤ texels →
     vh_width header < 2 ^ 31 → vh_height header < 2 ^ 31 →
     vh_depth header < 2 ^ 31 →
     ∀ created staging,
       cache !! generic_string fileName = None →
       CreateCommittedImage physicalDevice device
         (mkImageCreateInfo (vh_width header) (vh_height header)
                            (vh_depth header) 1 1)
       = Returns created →
       img_image created ≠ vk.null →
       CreateCommittedBuffer physicalDevice device
         (mkBufferCreateInfo
            (mr_size (getImageMemoryRequirements device
                        (img_image created))))
         vk.eHostVisible
       = Returns staging →
       buf_buffer staging ≠ vk.null →
       mapMemory (buf_deviceMemory staging)
                 (mr_size (getImageMemoryRequirements device
                             (img_image created)))
       = true →
       LoadVolume physicalDevice device mapMemory submit readData cache
                  fileName
       = None).
Proof.
  intros data header texels Hacc.
  pose proof (volumeAccepted_spec _ Hacc) as Hspec. cbv zeta in Hspec.
  fold data in Hspec. fold header in Hspec.
  destruct Hspec as (_ & Hsize & Hwr & Hhr & Hdr & Hcr).
  assert (0 < vh_width header * vh_height header) as Hwh by nia.
  assert (0 < vh_width header * vh_height header * vh_depth header)
    as Hwhd by nia.
  assert (0 < texels) as Hpos by (subst texels; nia).
  split; [exact Hcr|]. split.
  - intros Hfit.
    assert (vh_width header * vh_height header * vh_depth header < 2 ^ 31)
      as Hfit3 by (subst texels; nia).
    assert (vh_width header * vh_height header < 2 ^ 31) as Hfit2 by nia.
    assert (vh_width header < 2 ^ 31) as Hw by nia.
    assert (vh_height header < 2 ^ 31) as Hh by nia.
    assert (vh_depth header < 2 ^ 31) as Hd by nia.
    split.
    { rewrite Hsize. fold texels. rewrite Z.mod_small by lia. lia. }
    intros image cache' effects bytes H Hin.
    destruct (LoadVolume_memcpy _ _ _ _ _ _ _ _ _ _ _ H Hin) as [Hmiss Hne].
    destruct (LoadVolume_success _ _ _ _ _ _ _ _ _ _ Hmiss H Hne)
      as (toDst & buffer & uploadEffects & toResource & _ & _ & _ & Hup
          & Hbuf & _ & -> & _).
    cbv zeta in Hup. fold data in Hup. fold header in Hup.
    apply UploadImage_success in Hup
      as (wh & whd & copied & H1 & H2 & H3 & _ & ->); [|exact Hbuf].
    rewrite (wrap_int32_small (vh_width _)) in H1 by lia.
    rewrite (wrap_int32_small (vh_height _)) in H1 by lia.
    rewrite (wrap_int32_small (vh_depth _)) in H2 by lia.
    rewrite (wrap_int32_small (vh_channels _)) in H3 by lia.
    apply mul_int_Some in H1 as [-> Hr1].
    apply mul_int_Some in H2 as [-> Hr2].
    apply mul_int_Some in H3 as [-> Hr3].
    fold texels in Hin.
    assert (bytes = to_size_t texels) as ->.
    { revert Hin. generalize texels. clear. intros texels Hin.
      repeat match type of Hin with
             | _ ∈ _ ++ _ => apply elem_of_app in Hin as [Hin|Hin]
             | _ ∈ _ :: _ =>
                 apply elem_of_cons in Hin as [Hin|Hin];
                 [first [discriminate Hin|injection Hin as ->; reflexivity]|]
             | _ ∈ [] => inversion Hin
             end. }
    unfold to_size_t. apply Z.mod_small. lia.
  - intros Hbig Hw Hh Hd created staging Hmiss Hcreate Hcr' Hstaging Hst Hmap.
    unfold LoadVolume. rewrite Hmiss. fold data. rewrite Hacc.
    cbn [negb]. fold header. rewrite Hcreate.
    cbn [returned mbind option_bind].
    apply is_null_false in Hcr'. rewrite Hcr'.
    destruct (ImageBarrier_total (img_image created) IS_Undefined
                IS_TransferDst 1 0 1) as [toDst ->].
    cbn [mbind option_bind].
    assert (UploadImage physicalDevice device mapMemory (img_image created)
              (wrap_int32 (vh_width header)) (wrap_int32 (vh_height header))
              (wrap_int32 (vh_depth header))
              (wrap_int32 (vh_channels header))
            = None) as ->; [|reflexivity].
    unfold UploadImage. cbv zeta. cbn [bci_size]. rewrite Hstaging.
    cbn [returned mbind option_bind].
    apply is_null_false in Hst. rewrite Hst, Hmap. cbn [negb].
    rewrite !wrap_int32_small by lia.
    destruct (mul_int (vh_width header) (vh_height header)) as [wh|] eqn:H1;
      [|reflexivity].
    apply mul_int_Some in H1 as [-> _]. cbn [mbind option_bind].
    destruct (mul_int (vh_width header * vh_height header)
                      (vh_depth header)) as [whd|] eqn:H2; [|reflexivity].
    apply mul_int_Some in H2 as [-> _]. cbn [mbind option_bind].
    rewrite mul_int_None by exact Hbig. reflexivity.
Qed.

Lemma volume_upload_copies_exactly_the_payload_witness :
  ∃ cache' effects,
    LoadVolume (mkPhysicalDevice [3]) (demo_device 0) (λ _ _, true)
               (λ _, vk.eSuccess) (λ _, demo_volume_data) ∅ ("vol", ".bin")
    = Some (mkImage 11%N 10%N 12%N 2 1 1, cache', effects)
    ∧ EfMemcpy 2 ∈ effects
    ∧ 2 = blob_size demo_volume_data - sizeof_VolumeHeader.
Proof.
  assert (∃ cache' effects,
            LoadVolume (mkPhysicalDevice [3]) (demo_device 0) (λ _ _, true)
                       (λ _, vk.eSuccess) (λ _, demo_volume_data) ∅
                       ("vol", ".bin")
            = Some (mkImage 11%N 10%N 12%N 2 1 1, cache', effects)
            ∧ EfMemcpy 2 ∈ effects)
    as (cache' & effects & Hload & Hin).
  { vm_compute. eexists _, _. split; [reflexivity|].
    repeat first [apply list_elem_of_here|apply list_elem_of_further]. }
  exists cache', effects. split; [exact Hload|]. split; [exact Hin|].
  refine (proj1 (proj1 (proj2 (volume_upload_copies_exactly_the_payload
                   (mkPhysicalDevice [3]) (demo_device 0) (λ _ _, true)
                   (λ _, vk.eSuccess) (λ _, demo_volume_data) ∅
                   ("vol", ".bin") _)) _)).
  - vm_compute. reflexivity.
  - vm_compute. reflexivity.
Defined.

(** Such a file exists: a header of 65536x65536x1 texels with one channel
    and no data is accepted, and loading it on a device that creates and
    maps every object has no defined result. *)
Example wrapped_volume_is_accepted :
  volumeAccepted wrapped_volume_data = true
  ∧ blob_size wrapped_volume_data = sizeof_VolumeHeader
  ∧ vh_width (headerOf wrapped_volume_data)
    * vh_height (headerOf wrapped_volume_data)
    * vh_depth (headerOf wrapped_volume_data)
    * vh_channels (headerOf wrapped_volume_data)
    = 2 ^ 32
  ∧ LoadVolume (mkPhysicalDevice [3]) (demo_device 0) (λ _ _, true)
               (λ _, vk.eSuccess) (λ _, wrapped_volume_data) ∅
               ("vol", ".bin")
    = None.
Proof. repeat split; vm_compute; reflexivity. Qed.

(** Membership of an effect on the right of a list built from conses and
    appends. *)
Ltac effect_in :=
  solve [repeat first [apply list_elem_of_here
                      |apply list_elem_of_further
                      |apply elem_of_app; right]].

(** X16.  When [LoadTexture] has created the image and the upload then
    fails (no staging buffer, or the buffer cannot be mapped), it gives
    the image back: the created image is destroyed, the command buffer,
    holding only the first barrier, is ended and never submitted, and the
    default [Image()] is returned without a cache entry. *)
Theorem texture_upload_failure_releases_image
    (physicalDevice : PhysicalDevice) (device : Device)
    (mapMemory : vk.Handle → Z → bool) (submit : list Command → vk.Result)
    (stbi_load : string → option (Z * Z)) (cache cache' : ImageCache)
    (fileName : path) (image created : Image) (effects : list Effect)
    (width height mipLevels : Z) :
  cache !! generic_string fileName = None →
  stbi_load (generic_string fileName) = Some (width, height) →
  mipLevelLoop (Z.to_nat width) width height 1 = Some mipLevels →
  CreateCommittedImage physicalDevice device
    (mkImageCreateInfo (to_uint32 width) (to_uint32 height) 1 mipLevels 1)
  = Returns created →
  img_image created ≠ vk.null →
  LoadTexture physicalDevice device mapMemory submit stbi_load cache fileName
  = Some (image, cache', effects) →
  img_image image = vk.null →
  image = Image_default
  ∧ cache' = cache
  ∧ EfDestroyImage created ∈ effects
  ∧ (EfSubmit ∉ effects)
  ∧ ∃ toDst,
      ImageBarrier (img_image created) IS_Undefined IS_TransferDst 1 0
                   mipLevels = Some toDst
      ∧ commandsOf effects = [CmdPipelineBarrier toDst].
Proof.
  intros Hmiss Hstbi Hloop Hcreate Hcr H Hnull.
  unfold LoadTexture in H. rewrite Hmiss, Hstbi, Hloop in H.
  cbn [mbind option_bind] in H. rewrite Hcreate in H.
  cbn [mbind option_bind returned] in H.
  apply is_null_false in Hcr. rewrite Hcr in H.
  destruct (ImageBarrier (img_image created) IS_Undefined IS_TransferDst
              1 0 mipLevels) as [toDst|] eqn:HtoDst; [|discriminate].
  cbn [mbind option_bind] in H.
  destruct (UploadImage _ _ _ _ _ _ _ _) as [[buffer uploadEffects]|]
    eqn:Hup; [|discriminate].
  cbn [mbind option_bind] in H.
  destruct (vk.is_null (buf_buffer buffer)) eqn:Hb.
  - injection H as <- <- <-. apply is_null_true in Hb.
    destruct (UploadImage_failure _ _ _ _ _ _ _ _ _ _ Hup Hb)
      as (_ & Hcmds & _).
    destruct (UploadImage_effects _ _ _ _ _ _ _ _ _ _ Hup) as [Hno _].
    split; [reflexivity|]. split; [reflexivity|]. split; [|split].
    + effect_in.
    + effect_not_in.
    + exists toDst. split; [reflexivity|].
      unfold commandsOf in *. cbn [omap list_omap app].
      rewrite ?omap_app, Hcmds. reflexivity.
  - exfalso.
    destruct (foldM _ _ _) as [[[w' h'] recorded]|]; [|discriminate].
    cbn [mbind option_bind] in H.
    destruct (ImageBarrier (img_image created) IS_TransferDst
                IS_ShaderResource 1 (mipLevels - 1) 1); [|discriminate].
    cbn [mbind option_bind] in H.
    destruct (submit _); [|discriminate].
    injection H as <- _ _. apply is_null_false in Hcr. contradiction.
Qed.

Lemma texture_upload_failure_releases_image_witness :
  ∃ effects,
    LoadTexture (mkPhysicalDevice [3]) (demo_device 0) (λ _ _, false)
                (λ _, vk.eSuccess) (λ _, Some (4, 2)) ∅ ("tex", ".png")
    = Some (Image_default, ∅, effects)
    ∧ EfDestroyImage (mkImage 11%N 10%N 12%N 4 2 1) ∈ effects.
Proof.
  assert (∃ effects,
            LoadTexture (mkPhysicalDevice [3]) (demo_device 0) (λ _ _, false)
                        (λ _, vk.eSuccess) (λ _, Some (4, 2)) ∅
                        ("tex", ".png")
            = Some (Image_default, ∅, effects))
    as (effects & Hload) by (vm_compute; eexists; reflexivity).
  exists effects. split; [exact Hload|].
  refine (proj1 (proj2 (proj2 (texture_upload_failure_releases_image
            (mkPhysicalDevice [3]) (demo_device 0) (λ _ _, false)
            (λ _, vk.eSuccess) (λ _, Some (4, 2)) ∅ ∅ ("tex", ".png")
            Image_default (mkImage 11%N 10%N 12%N 4 2 1) effects 4 2 2
            _ _ _ _ _ Hload _)))).
  - reflexivity.
  - reflexivity.
  - vm_compute. reflexivity.
  - vm_compute. reflexivity.
  - discriminate.
  - reflexivity.
Defined.

(** X17.  [LoadVolume] never destroys an image.  When it has created
    the image and the upload then fails, it still records both barriers,
    submits nothing, and returns the default [Image()] without a cache
    entry: the created image is neither returned, remembered nor
    released. *)
Theorem volume_upload_failure_keeps_image
    (physicalDevice : PhysicalDevice) (device : Device)
    (mapMemory : vk.Handle → Z → bool) (submit : list Command → vk.Result)
    (readData : path → blob) (cache cache' : ImageCache) (fileName : path)
    (image created : Image) (effects : list Effect) :
  let header := headerOf (readData fileName) in
  cache !! generic_string fileName = None →
  volumeAccepted (readData fileName) = true →
  CreateCommittedImage physicalDevice device
    (mkImageCreateInfo (vh_width header) (vh_height header)
                       (vh_depth header) 1 1)
  = Returns created →
  img_image created ≠ vk.null →
  LoadVolume physicalDevice device mapMemory submit readData cache fileName
  = Some (image, cache', effects) →
  img_image image = vk.null →
  image = Image_default
  ∧ cache' = cache
  ∧ (∀ destroyed, EfDestroyImage destroyed ∉ effects)
  ∧ (EfSubmit ∉ effects)
  ∧ ∃ toDst toResource,
      ImageBarrier (img_image created) IS_Undefined IS_TransferDst 1 0 1
      = Some toDst
      ∧ ImageBarrier (img_image created) IS_TransferDst IS_ShaderResource
                     1 0 1
        = Some toResource
      ∧ commandsOf effects
        = [CmdPipelineBarrier toDst; CmdPipelineBarrier toResource].
Proof.
  intros header Hmiss Hacc Hcreate Hcr H Hnull. subst header.
  unfold LoadVolume in H. rewrite Hmiss, Hacc in H. cbn [negb] in H.
  rewrite Hcreate in H. cbn [mbind option_bind returned] in H.
  apply is_null_false in Hcr. rewrite Hcr in H.
  destruct (ImageBarrier (img_image created) IS_Undefined IS_TransferDst
              1 0 1) as [toDst|] eqn:HtoDst; [|discriminate].
  cbn [mbind option_bind] in H.
  destruct (UploadImage _ _ _ _ _ _ _ _) as [[buffer uploadEffects]|]
    eqn:Hup; [|discriminate].
  cbn [mbind option_bind] in H.
  destruct (ImageBarrier (img_image created) IS_TransferDst
              IS_ShaderResource 1 0 1) as [toResource|] eqn:HtoRes;
    [|discriminate].
  cbn [mbind option_bind] in H.
  destruct (vk.is_null (buf_buffer buffer)) eqn:Hb.
  - injection H as <- <- <-. apply is_null_true in Hb.
    destruct (UploadImage_failure _ _ _ _ _ _ _ _ _ _ Hup Hb)
      as (_ & Hcmds & _).
    destruct (UploadImage_effects _ _ _ _ _ _ _ _ _ _ Hup) as [Hno Hnod].
    split; [reflexivity|]. split; [reflexivity|]. split; [|split].
    + intros destroyed. specialize (Hnod destroyed). effect_not_in.
    + effect_not_in.
    + exists toDst, toResource. split; [reflexivity|].
      split; [reflexivity|].
      unfold commandsOf in *. cbn [omap list_omap app].
      rewrite ?omap_app, Hcmds. reflexivity.
  - exfalso. destruct (submit _); [|discriminate].
    injection H as <- _ _. apply is_null_false in Hcr. contradiction.
Qed.

Lemma volume_upload_failure_keeps_image_witness :
  ∃ effects,
    LoadVolume (mkPhysicalDevice [3]) (demo_device 0) (λ _ _, false)
               (λ _, vk.eSuccess) (λ _, demo_volume_data) ∅ ("vol", ".bin")
    = Some (Image_default, ∅, effects)
    ∧ ∀ destroyed, EfDestroyImage destroyed ∉ effects.
Proof.
  assert (∃ effects,
            LoadVolume (mkPhysicalDevice [3]) (demo_device 0) (λ _ _, false)
                       (λ _, vk.eSuccess) (λ _, demo_volume_data) ∅
                       ("vol", ".bin")
            = Some (Image_default, ∅, effects))
    as (effects & Hload) by (vm_compute; eexists; reflexivity).
  exists effects. split; [exact Hload|].
  refine (proj1 (proj2 (proj2 (volume_upload_failure_keeps_image
            (mkPhysicalDevice [3]) (demo_device 0) (λ _ _, false)
            (λ _, vk.eSuccess) (λ _, demo_volume_data) ∅ ∅ ("vol", ".bin")
            Image_default (mkImage 11%N 10%N 12%N 2 1 1) effects
            _ _ _ _ Hload _)))).
  - reflexivity.
  - vm_compute. reflexivity.
  - vm_compute. reflexivity.
  - discriminate.
  - reflexivity.
Defined.

(** ** The frame loop: pool slots, clears and the frame counter *)

Lemma Render_inv_images env s s' fr :
  Render env s = Some (s', fr) →
  let s0 := frame_state s fr in
  (fr_rebuilt fr = None → buffers_created s)
  ∧ m_Images s' = m_Images s0
  ∧ m_BufferLayoutInitd s' = true
  ∧ m_StaticResourcesInitd s' = true
  ∧ fr_clears fr
    = (if negb (m_StaticResourcesInitd s0) then
         [mkClear (img_image (m_DummyTexture s0)) 1 IS_Undefined;
          mkClear (img_image (m_DummyCubemap s0)) 6 IS_Undefined;
          mkClear (img_image (m_DummyVolume s0)) 1 IS_Undefined]
       else [])
      ++ (if negb (m_BufferLayoutInitd s0) then
            (λ buffer, mkClear (img_image buffer) 1 IS_Undefined)
              <$> m_Images s0
          else []).
Proof.
  unfold Render. intros H.
  destruct (m_Images s !! 0%nat) as [image0|] eqn:Himage0; [|discriminate].
  simpl in H.
  destruct (if vk.is_null (img_image image0)
            then Some <$> CreateBuffersAndBindings env s
            else Some None) as [rebuilt|] eqn:Hreb; [|discriminate].
  simpl in H.
  remember (match rebuilt with Some r => rb_state r | None => s end) as s0
    eqn:Hs0.
  assert (rebuilt = None → buffers_created s) as Hcreated.
  { intros ->. exists image0. split; [exact Himage0|].
    destruct (vk.is_null (img_image image0)) eqn:Hnull.
    - destruct (CreateBuffersAndBindings env s); discriminate.
    - apply N.eqb_neq. exact Hnull. }
  clear Hreb.
  destruct (m_ResetRequired s0) eqn:Hreset; simpl in H;
    (destruct (at_int (m_Programs s0) (m_ActiveProgram s0)) as [program|]
       eqn:Hp; simpl in H; [|discriminate H]);
    repeat match type of H with
    | (?o ≫= _) = Some _ =>
        let E := fresh "E" in
        destruct o eqn:E; simpl in H; [|discriminate H]
    end;
    injection H as <- <-; unfold frame_state; simpl; rewrite <- Hs0;
    (split; [exact Hcreated|]);
    repeat split;
    destruct (m_StaticResourcesInitd s0), (m_BufferLayoutInitd s0);
    reflexivity.
Qed.

Lemma NextProgram_keeps s s' :
  NextProgram s = Some s' →
  m_Images s' = m_Images s ∧ m_Programs s' = m_Programs s
  ∧ m_BufferLayoutInitd s' = m_BufferLayoutInitd s
  ∧ m_FrameIndex s' = m_FrameIndex s
  ∧ (m_ResetRequired s = true → m_ResetRequired s' = true).
Proof.
  unfold NextProgram. intros H.
  destruct (m_Script s); [injection H as <-; auto|].
  apply selectEntry_inv in H as (entry & _ & ->). simpl. auto.
Qed.

Lemma PreviousProgram_keeps s s' :
  PreviousProgram s = Some s' →
  m_Images s' = m_Images s ∧ m_Programs s' = m_Programs s
  ∧ m_BufferLayoutInitd s' = m_BufferLayoutInitd s
  ∧ m_FrameIndex s' = m_FrameIndex s
  ∧ (m_ResetRequired s = true → m_ResetRequired s' = true).
Proof.
  unfold PreviousProgram. intros H.
  destruct (m_Script s); [injection H as <-; auto|].
  apply selectEntry_inv in H as (entry & _ & ->). simpl.
  destruct (_ <? 0); simpl; auto.
Qed.

Lemma Animate_keeps dt s s' :
  Animate dt s = Some s' →
  m_Images s' = m_Images s ∧ m_Programs s' = m_Programs s
  ∧ m_BufferLayoutInitd s' = m_BufferLayoutInitd s
  ∧ m_FrameIndex s' = m_FrameIndex s
  ∧ (m_ResetRequired s = true → m_ResetRequired s' = true).
Proof.
  unfold Animate. intros H. destruct (m_Paused s).
  - injection H as <-. auto.
  - destruct (_ && _).
    + apply NextProgram_keeps in H. simpl in H. exact H.
    + injection H as <-. simpl. auto.
Qed.

(** An invariant of the state and the frames rendered so far, kept by
    every event, holds along every run; and what every [Render] gives for
    its frame holds of every frame of the run. *)
Lemma run_history_invariant (I : ShaderProj → list Frame → Prop)
    (P : list Frame → Frame → Prop) :
  (∀ s past e s' fs,
     is_playlist_event e = true → I s past →
     step s e = Some (s', fs) → fs = [] ∧ I s' past) →
  (∀ s past env s' fr,
     I s past → Render env s = Some (s', fr) →
     I s' (past ++ [fr]) ∧ P past fr) →
  ∀ events s past s' frames,
    I s past → run s events = Some (s', frames) →
    I s' (past ++ frames)
    ∧ ∀ earlier fr later,
        frames = earlier ++ fr :: later → P (past ++ earlier) fr.
Proof.
  intros Hother Hrender.
  induction events as [|e rest IH]; intros s past s' frames Hinv H;
    simpl in H.
  - injection H as <- <-. rewrite app_nil_r. split; [exact Hinv|].
    intros earlier fr later Heq. by destruct earlier.
  - destruct (step s e) as [[s1 fs1]|] eqn:Hstep; [|discriminate].
    simpl in H.
    destruct (run s1 rest) as [[s2 fs2]|] eqn:Hrun; [|discriminate].
    simpl in H. injection H as <- <-.
    destruct (is_playlist_event e) eqn:He.
    + destruct (Hother s past e s1 fs1 He Hinv Hstep) as [-> Hinv1].
      simpl. apply (IH s1 past s2 fs2 Hinv1 Hrun).
    + destruct e as [dt| | | |env]; try discriminate. simpl in Hstep.
      destruct (Render env s) as [[x fr0]|] eqn:E; [|discriminate].
      injection Hstep as <- <-.
      destruct (Hrender s past env x fr0 Hinv E) as [Hinv1 HP].
      destruct (IH x (past ++ [fr0]) s2 fs2 Hinv1 Hrun) as [Hinv2 Hframes].
      rewrite <- app_assoc in Hinv2. split; [exact Hinv2|].
      intros earlier fr later Heq. destruct earlier as [|y earlier].
      * simpl in Heq. injection Heq as <- <-. rewrite app_nil_r. exact HP.
      * simpl in Heq. injection Heq as <- ->.
        specialize (Hframes earlier fr later eq_refl).
        rewrite <- app_assoc in Hframes. exact Hframes.
Qed.

Lemma playlist_step_keeps s e s' fs :
  is_playlist_event e = true →
  step s e = Some (s', fs) →
  fs = []
  ∧ m_Programs s' = m_Programs s
  ∧ m_BufferLayoutInitd s' = m_BufferLayoutInitd s
  ∧ m_FrameIndex s' = m_FrameIndex s
  ∧ (m_ResetRequired s = true → m_ResetRequired s' = true)
  ∧ (m_Images s' = m_Images s
     ∨ e = EvBackBufferResizing
       ∧ m_Images s' = DestroyCommittedImage <$> m_Images s).
Proof.
  intros He H. destruct e as [dt| | | |env]; simpl in H; try discriminate.
  - destruct (Animate dt s) as [x|] eqn:E; [|discriminate].
    injection H as <- <-. apply Animate_keeps in E as (Hi & Hp & Hb & Hf & Hr).
    repeat (split; [assumption || reflexivity|]). left. exact Hi.
  - destruct (PreviousProgram s) as [x|] eqn:E; [|discriminate].
    injection H as <- <-. apply PreviousProgram_keeps in E as (Hi & Hp & Hb & Hf & Hr).
    repeat (split; [assumption || reflexivity|]). left. exact Hi.
  - destruct (NextProgram s) as [x|] eqn:E; [|discriminate].
    injection H as <- <-. apply NextProgram_keeps in E as (Hi & Hp & Hb & Hf & Hr).
    repeat (split; [assumption || reflexivity|]). left. exact Hi.
  - injection H as <- <-. simpl. auto 10.
Qed.

Lemma destroyed_not_created s :
  ¬ buffers_created
      (set_m_SwapChainFramebuffers []
         (set_m_Images (DestroyCommittedImage <$> m_Images s) s)).
Proof.
  intros (image0 & Hl & Hne). simpl in Hl.
  rewrite list_lookup_fmap in Hl.
  destruct (m_Images s !! 0%nat); [|discriminate].
  injection Hl as <-. apply Hne. reflexivity.
Qed.

Lemma CreateBindingSets_frame_targets common passes outputIndex acc frame
    acc' :
  CreateBindingSets_frame common passes outputIndex acc frame = Some acc' →
  is_Some (m_RenderTargetIndices (bsr_pass acc) !! frame)
  ∧ m_RenderTargetIndices (bsr_pass acc')
    = <[frame := (outputIndex * 2 + frame)%nat]>
        (m_RenderTargetIndices (bsr_pass acc)).
Proof.
  unfold CreateBindingSets_frame. intros H.
  repeat match type of H with
  | (?o ≫= _) = Some _ =>
      let E := fresh "E" in
      destruct o eqn:E; cbn [mbind option_bind] in H; [|discriminate H]
  end.
  injection H as <-. simpl. split; [eauto|reflexivity].
Qed.

Lemma CreateBindingSets_targets common passes self outputIndex r frame :
  CreateBindingSets common passes self outputIndex = Some r →
  (frame < c_HistoryLength)%nat →
  m_RenderTargetIndices (bsr_pass r) !! frame
  = Some (outputIndex * c_HistoryLength + frame)%nat.
Proof.
  unfold CreateBindingSets. cbn [c_HistoryLength seq foldM]. intros H Hf.
  destruct (CreateBindingSets_frame common passes outputIndex
              (mkBindingSetsResult self [] []) 0) as [acc|] eqn:H0;
    [|discriminate].
  cbn [mbind option_bind] in H.
  destruct (CreateBindingSets_frame common passes outputIndex acc 1)
    as [acc'|] eqn:H1; [|discriminate].
  cbn [mbind option_bind] in H. injection H as <-.
  apply CreateBindingSets_frame_targets in H0 as [[t0 Ht0] Hacc].
  apply CreateBindingSets_frame_targets in H1 as [[t1 Ht1] Hacc'].
  rewrite Hacc'. rewrite Hacc in Ht1 |- *. cbn [bsr_pass] in *.
  pose proof (lookup_lt_Some _ _ _ Ht0) as Hl0.
  pose proof (lookup_lt_Some _ _ _ Ht1) as Hl1.
  rewrite length_insert in Hl1. unfold c_HistoryLength in *.
  destruct frame as [|[|frame]]; [| |lia].
  - rewrite list_lookup_insert_ne by lia.
    apply list_lookup_insert_eq. exact Hl0.
  - apply list_lookup_insert_eq. rewrite length_insert. exact Hl1.
Qed.

Lemma bindProgram_loop_targets common passes n :
  (n ≤ length passes)%nat →
  ∀ acc,
    foldM (λ acc index,
             pass ← pb_passes acc !! index;
             b ← CreateBindingSets common (pb_passes acc) pass index;
             Some (mkProgramBinding
                     (<[index := bsr_pass b]> (pb_passes acc))
                     (pb_writes acc ++ bsr_writes b)
                     (pb_log acc ++ bsr_log b)))
          (mkProgramBinding passes [] []) (seq 0 n)
    = Some acc →
    length (pb_passes acc) = length passes
    ∧ ∀ index pass frame,
        (index < n)%nat → pb_passes acc !! index = Some pass →
        (frame < c_HistoryLength)%nat →
        m_RenderTargetIndices pass !! frame
        = Some (index * c_HistoryLength + frame)%nat.
Proof.
  induction n as [|n IH]; intros Hn acc H.
  - simpl in H. injection H as <-. simpl. split; [reflexivity|].
    intros index pass frame Hi. lia.
  - rewrite seq_S, foldM_app in H. simpl in H.
    destruct (foldM _ _ (seq 0 n)) as [acc0|] eqn:Hfold; [|discriminate].
    cbn [mbind option_bind] in H.
    destruct (IH ltac:(lia) acc0 eq_refl) as [Hlen Hdone].
    destruct (pb_passes acc0 !! n) as [pass|] eqn:Hpass; [|discriminate].
    cbn [mbind option_bind] in H.
    destruct (CreateBindingSets common (pb_passes acc0) pass n) as [b|]
      eqn:Hb; [|discriminate].
    cbn [mbind option_bind] in H. injection H as <-. simpl.
    split; [rewrite length_insert; exact Hlen|].
    intros index pass' frame Hi Hl Hf.
    destruct (decide (index = n)) as [->|Hne].
    + rewrite list_lookup_insert_eq in Hl by lia. injection Hl as <-.
      eapply CreateBindingSets_targets; eauto.
    + rewrite list_lookup_insert_ne in Hl by congruence.
      apply (Hdone index pass' frame); [lia|exact Hl|exact Hf].
Qed.

Lemma bindProgram_targets common p p' writes log index pass frame :
  bindProgram common p = Some (p', writes, log) →
  GetPasses p' !! index = Some pass →
  (frame < c_HistoryLength)%nat →
  m_RenderTargetIndices pass !! frame
  = Some (index * c_HistoryLength + frame)%nat.
Proof.
  unfold bindProgram. intros H Hl Hf.
  destruct (foldM _ _ _) as [r|] eqn:Hfold; [|discriminate].
  cbn [mbind option_bind] in H. injection H as <- _ _.
  unfold GetPasses in Hl. cbn [m_Passes] in Hl.
  destruct (bindProgram_loop_targets common (GetPasses p)
              (length (GetPasses p)) ltac:(lia) r Hfold) as [Hlen Hall].
  apply (Hall index pass frame); [|exact Hl|exact Hf].
  rewrite <- Hlen. eapply lookup_lt_Some. exact Hl.
Qed.

Lemma rebuild_targets env s r :
  CreateBuffersAndBindings env s = Some r →
  targets_bound (rb_state r)
  ∧ (Forall terminal_last (m_Programs s) →
     Forall terminal_last (m_Programs (rb_state r))).
Proof.
  intros H. apply CreateBuffersAndBindings_inv in H.
  destruct H as (_ & (bound & Hb & Hp) & _).
  apply mapM_Some in Hb. split.
  - intros program index pass frame Hin Hl Hf. rewrite Hp in Hin.
    apply list_elem_of_fmap in Hin as ([[p' writes] log] & -> & Hin).
    apply list_elem_of_lookup in Hin as [k Hk].
    destruct (Forall2_lookup_r _ _ _ _ _ Hb Hk) as (p & _ & Hbind).
    eapply bindProgram_targets; eauto.
  - intros Hterm. rewrite Hp. apply Forall_fmap.
    clear Hp. induction Hb as [|p [[p' writes] log] ps bs Hbind Hrest IH].
    + constructor.
    + inversion Hterm; subst. constructor; [|apply IH; assumption].
      simpl. apply bindProgram_inv in Hbind as (Hidx & Hthis & _).
      unfold terminal_last, GetImagePassIndex, GetPasses in *.
      rewrite Hidx.
      rewrite <- (length_fmap this (m_Passes p')), Hthis, length_fmap.
      assumption.
Qed.

Lemma Render_targets env s s' fr :
  (buffers_created s → targets_bound s) →
  Forall terminal_last (m_Programs s) →
  Render env s = Some (s', fr) →
  ((buffers_created s' → targets_bound s')
   ∧ Forall terminal_last (m_Programs s'))
  ∧ (fr_historyIndex fr < c_HistoryLength)%nat
  ∧ (∀ index pe,
       fr_passes fr !! index = Some pe →
       pe_renderTargetIndex pe
       = (index * c_HistoryLength + fr_historyIndex fr)%nat)
  ∧ (∀ pe, last (fr_passes fr) = Some pe →
           pe_renderTargetIndex pe = fr_finalBufferIndex fr).
Proof.
  intros Hbound Hterm H.
  pose proof (Render_inv_images _ _ _ _ H) as Himg. simpl in Himg.
  destruct Himg as (Hcreated & Himages & _).
  apply Render_inv in H. simpl in H.
  destruct H as (Hcreate & program & initd & Hp & _ & _ & Hhist & Hm & _
                 & Hfinal & _ & _ & _ & _ & _ & _ & _ & _ & Hprogs & _).
  assert (targets_bound (frame_state s fr)
          ∧ Forall terminal_last (m_Programs (frame_state s fr)))
    as [Hb0 Ht0].
  { unfold frame_state in *. destruct (fr_rebuilt fr) as [r|].
    - destruct (rebuild_targets _ _ _ Hcreate) as [? Ht]. auto.
    - split; [apply Hbound; apply Hcreated; reflexivity|exact Hterm]. }
  assert (fr_historyIndex fr < c_HistoryLength)%nat as Hlt.
  { rewrite Hhist. apply historyIndexOf_lt. }
  assert (program ∈ m_Programs (frame_state s fr)) as Hin.
  { eapply at_int_elem_of. exact Hp. }
  apply mapM_Some in Hm.
  assert (∀ index pe,
            fr_passes fr !! index = Some pe →
            pe_renderTargetIndex pe
            = (index * c_HistoryLength + fr_historyIndex fr)%nat) as Hall.
  { intros index pe Hpe.
    destruct (Forall2_lookup_r _ _ _ _ _ Hm Hpe) as (pass & Hpass & Hexec).
    apply executePass_inv in Hexec as (_ & Hidx & _).
    rewrite (Hb0 program index pass (fr_historyIndex fr) Hin Hpass Hlt)
      in Hidx.
    congruence. }
  split; [|split; [exact Hlt|split; [exact Hall|]]].
  - split.
    + intros _. intros p index pass frame Hp'. rewrite Hprogs in Hp'.
      apply Hb0. exact Hp'.
    + rewrite Hprogs. exact Ht0.
  - intros pe Hlast. rewrite last_lookup in Hlast.
    rewrite (Hall _ _ Hlast), Hfinal.
    rewrite Forall_forall in Ht0. specialize (Ht0 program Hin).
    unfold terminal_last in Ht0.
    rewrite <- (Forall2_length _ _ _ Hm). f_equal.
    replace (Init.Nat.pred (length (GetPasses program)))
      with (GetImagePassIndex program) by lia.
    reflexivity.
Qed.

(** X18.  Starting from an application whose pool images do not exist
    yet (as the constructor leaves it) and whose programs have their
    terminal pass last (as [Load] leaves them), in every frame of every
    run the pass at position [index] of the active program renders to pool
    slot [2 * index + parity]: no two passes of a frame share a render
    target, and the slot the last pass renders to is the slot the final
    blit composites to the screen. *)
Theorem every_pass_renders_to_its_own_slot (s0 s : ShaderProj)
    (events : list Event) (frames earlier later : list Frame) (fr : Frame) :
  (buffers_created s0 → targets_bound s0) →
  Forall terminal_last (m_Programs s0) →
  run s0 events = Some (s, frames) →
  frames = earlier ++ fr :: later →
  (fr_historyIndex fr < c_HistoryLength)%nat
  ∧ (∀ index pe,
       fr_passes fr !! index = Some pe →
       pe_renderTargetIndex pe
       = (index * c_HistoryLength + fr_historyIndex fr)%nat)
  ∧ (∀ pe, last (fr_passes fr) = Some pe →
           pe_renderTargetIndex pe = fr_finalBufferIndex fr).
Proof.
  intros Hbound Hterm Hrun Heq.
  destruct (run_history_invariant
              (λ s _, (buffers_created s → targets_bound s)
                      ∧ Forall terminal_last (m_Programs s))
              (λ _ fr,
                 (fr_historyIndex fr < c_HistoryLength)%nat
                 ∧ (∀ index pe,
                      fr_passes fr !! index = Some pe →
                      pe_renderTargetIndex pe
                      = (index * c_HistoryLength + fr_historyIndex fr)%nat)
                 ∧ (∀ pe, last (fr_passes fr) = Some pe →
                          pe_renderTargetIndex pe = fr_finalBufferIndex fr)))
    with (events := events) (s := s0) (past := @nil Frame) (s' := s)
         (frames := frames) as [_ Hframes].
  - intros s1 past e s1' fs He [Hb Ht] Hstep.
    destruct (playlist_step_keeps _ _ _ _ He Hstep)
      as (-> & Hprogs & _ & _ & _ & Himages).
    split; [reflexivity|]. split.
    + intros Hc. intros p index pass frame Hp. rewrite Hprogs in Hp.
      revert p index pass frame Hp. apply Hb.
      destruct Himages as [Hsame|[-> Hdestroyed]].
      * destruct Hc as (image0 & Hl & Hne). exists image0.
        rewrite <- Hsame. auto.
      * exfalso. simpl in Hstep. injection Hstep as <-.
        exact (destroyed_not_created _ Hc).
    + rewrite Hprogs. exact Ht.
  - intros s1 past env s1' fr1 [Hb Ht] Hrender.
    exact (Render_targets _ _ _ _ Hb Ht Hrender).
  - split; assumption.
  - exact Hrun.
  - exact (Hframes earlier fr later Heq).
Qed.

Lemma every_pass_renders_to_its_own_slot_witness :
  ∃ s f1 f2 f3 f4,
    run demo_app demo_events = Some (s, [f1; f2; f3; f4])
    ∧ ∀ pe, last (fr_passes f3) = Some pe →
            pe_renderTargetIndex pe = fr_finalBufferIndex f3.
Proof.
  assert (∃ s f1 f2 f3 f4,
            run demo_app demo_events = Some (s, [f1; f2; f3; f4]))
    as (s & f1 & f2 & f3 & f4 & Hrun) by (vm_compute; eauto 10).
  exists s, f1, f2, f3, f4. split; [exact Hrun|].
  refine (proj2 (proj2 (every_pass_renders_to_its_own_slot demo_app s
                   demo_events [f1; f2; f3; f4] [f1; f2] [f4] f3 _ _ Hrun
                   eq_refl))).
  - intros (image0 & Hl & Hne). vm_compute in Hl. injection Hl as <-.
    exfalso. apply Hne. reflexivity.
  - vm_compute. repeat constructor.
Defined.

Lemma cleared_since_creation_now past fr image :
  mkClear image 1 IS_Undefined ∈ fr_clears fr →
  cleared_since_creation (past ++ [fr]) image.
Proof. intros H. exists past, fr, []. auto. Qed.

Lemma cleared_since_creation_later past fr image :
  fr_rebuilt fr = None →
  cleared_since_creation past image →
  cleared_since_creation (past ++ [fr]) image.
Proof.
  intros Hno (older & g & newer & -> & Hin & Hall).
  exists older, g, (newer ++ [fr]). split; [|split].
  - rewrite <- app_assoc. reflexivity.
  - exact Hin.
  - apply Forall_app. split; [exact Hall|]. constructor; [exact Hno|].
    constructor.
Qed.

Lemma Render_clears env s s' fr past :
  (m_BufferLayoutInitd s = true →
   ¬ buffers_created s
   ∨ Forall (λ image, cleared_since_creation past (img_image image))
            (m_Images s)) →
  Render env s = Some (s', fr) →
  (m_BufferLayoutInitd s' = true →
   ¬ buffers_created s'
   ∨ Forall (λ image,
               cleared_since_creation (past ++ [fr]) (img_image image))
            (m_Images s'))
  ∧ ∀ pe,
      pe ∈ fr_passes fr →
      cleared_since_creation (past ++ [fr]) (pe_dstImage pe)
      ∧ ImageBarrier (pe_dstImage pe) IS_ShaderResource IS_RenderTarget 1 0 1
        = Some (pe_barrierIn pe)
      ∧ ImageBarrier (pe_dstImage pe) IS_RenderTarget IS_ShaderResource 1 0 1
        = Some (pe_barrierOut pe).
Proof.
  intros Hinv H.
  pose proof (Render_inv_images _ _ _ _ H) as Himg. simpl in Himg.
  destruct Himg as (Hcreated & Himages & _ & _ & Hclears).
  apply Render_inv in H. simpl in H.
  destruct H as (Hcreate & program & initd & Hp & _ & _ & _ & Hm & _).
  assert (Forall (λ image,
                    cleared_since_creation (past ++ [fr]) (img_image image))
                 (m_Images (frame_state s fr))) as Hall.
  { destruct (m_BufferLayoutInitd (frame_state s fr)) eqn:Hflag.
    - unfold frame_state in *. destruct (fr_rebuilt fr) as [r|] eqn:Hr.
      + apply CreateBuffersAndBindings_inv in Hcreate.
        destruct Hcreate as (_ & _ & _ & Hfalse & _). congruence.
      + destruct (Hinv Hflag) as [Hno|Hold].
        * exfalso. apply Hno. apply Hcreated. reflexivity.
        * eapply Forall_impl; [exact Hold|]. intros image Hc.
          apply cleared_since_creation_later; assumption.
    - apply Forall_forall. intros image Hin.
      apply cleared_since_creation_now. rewrite Hclears.
      apply elem_of_app. right. cbn [negb].
      apply list_elem_of_fmap. exists image. auto. }
  split.
  - intros _. right. rewrite Himages. exact Hall.
  - intros pe Hpe. apply mapM_Some in Hm.
    apply list_elem_of_lookup in Hpe as [index Hpe].
    destruct (Forall2_lookup_r _ _ _ _ _ Hm Hpe) as (pass & _ & Hexec).
    apply executePass_inv in Hexec
      as (_ & _ & _ & (image & Himage & ->) & Hin & Hout).
    split; [|split; assumption].
    rewrite Forall_forall in Hall. apply Hall.
    eapply list_elem_of_lookup_2. exact Himage.
Qed.

(** X19.  Starting from an application whose pool images do not exist
    yet, in every frame of every run every pass renders to a pool image
    that was cleared from [Undefined] (which leaves it in the
    shader-resource state) in this frame or in an earlier one with no
    rebuild of the pool since; the pass itself moves the image from the
    shader-resource state to the render-target state and back.  No pass
    ever draws to an image whose layout was never initialised. *)
Theorem passes_render_to_cleared_images (s0 s : ShaderProj)
    (events : list Event) (frames earlier later : list Frame) (fr : Frame)
    (pe : PassExecution) :
  ¬ buffers_created s0 →
  run s0 events = Some (s, frames) →
  frames = earlier ++ fr :: later →
  pe ∈ fr_passes fr →
  cleared_since_creation (earlier ++ [fr]) (pe_dstImage pe)
  ∧ ImageBarrier (pe_dstImage pe) IS_ShaderResource IS_RenderTarget 1 0 1
    = Some (pe_barrierIn pe)
  ∧ ImageBarrier (pe_dstImage pe) IS_RenderTarget IS_ShaderResource 1 0 1
    = Some (pe_barrierOut pe).
Proof.
  intros Hnone Hrun Heq Hpe.
  destruct (run_history_invariant
              (λ s past,
                 m_BufferLayoutInitd s = true →
                 ¬ buffers_created s
                 ∨ Forall (λ image,
                             cleared_since_creation past (img_image image))
                          (m_Images s))
              (λ past fr,
                 ∀ pe,
                   pe ∈ fr_passes fr →
                   cleared_since_creation (past ++ [fr]) (pe_dstImage pe)
                   ∧ ImageBarrier (pe_dstImage pe) IS_ShaderResource
                                  IS_RenderTarget 1 0 1
                     = Some (pe_barrierIn pe)
                   ∧ ImageBarrier (pe_dstImage pe) IS_RenderTarget
                                  IS_ShaderResource 1 0 1
                     = Some (pe_barrierOut pe)))
    with (events := events) (s := s0) (past := @nil Frame) (s' := s)
         (frames := frames) as [_ Hframes].
  - intros s1 past e s1' fs He Hinv Hstep.
    destruct (playlist_step_keeps _ _ _ _ He Hstep)
      as (-> & _ & Hflag & _ & _ & Himages).
    split; [reflexivity|]. rewrite Hflag. intros Htrue.
    destruct Himages as [Hsame|[-> Hdestroyed]].
    + destruct (Hinv Htrue) as [Hno|Hall].
      * left. intros (image0 & Hl & Hne). apply Hno. exists image0.
        rewrite <- Hsame. auto.
      * right. rewrite Hsame. exact Hall.
    + left. simpl in Hstep. injection Hstep as <-.
      apply destroyed_not_created.
  - intros s1 past env s1' fr1 Hinv Hrender.
    exact (Render_clears _ _ _ _ _ Hinv Hrender).
  - intros _. left. exact Hnone.
  - exact Hrun.
  - exact (Hframes earlier fr later Heq pe Hpe).
Qed.

Lemma passes_render_to_cleared_images_witness :
  ∃ s f1 f2 f3 f4 pe,
    run demo_app demo_events = Some (s, [f1; f2; f3; f4])
    ∧ last (fr_passes f3) = Some pe
    ∧ cleared_since_creation [f1; f2; f3] (pe_dstImage pe).
Proof.
  assert (∃ s f1 f2 f3 f4 pe,
            run demo_app demo_events = Some (s, [f1; f2; f3; f4])
            ∧ last (fr_passes f3) = Some pe)
    as (s & f1 & f2 & f3 & f4 & pe & Hrun & Hlast)
    by (vm_compute; eexists _, _, _, _, _, _; split; reflexivity).
  exists s, f1, f2, f3, f4, pe. split; [exact Hrun|].
  split; [exact Hlast|].
  refine (proj1 (passes_render_to_cleared_images demo_app s demo_events
                   [f1; f2; f3; f4] [f1; f2] [f4] f3 pe _ Hrun eq_refl _)).
  - intros (image0 & Hl & Hne). vm_compute in Hl. injection Hl as <-.
    apply Hne. reflexivity.
  - rewrite last_lookup in Hlast. eapply list_elem_of_lookup_2. exact Hlast.
Defined.

Lemma Render_counter env s s' fr :
  Render env s = Some (s', fr) →
  m_FrameIndex s' = wrap_int32 (fr_iFrame fr + 1)
  ∧ fr_historyIndex fr = historyIndexOf (fr_iFrame fr)
  ∧ ((fr_iFrame fr = 0 ∧ fr_iTime fr = 0%Q ∧ m_ResetRequired s = true)
     ∨ (fr_iFrame fr = m_FrameIndex s ∧ fr_iTime fr = m_CurrentTime s
        ∧ m_ResetRequired s = false)).
Proof.
  intros H. apply Render_inv in H. simpl in H.
  destruct H as (Hcreate & program & initd & _ & HiFrame & HiTime & Hhist
                 & _ & _ & _ & _ & _ & _ & _ & _ & Hidx & _).
  split; [exact Hidx|]. split; [exact Hhist|].
  assert (m_ResetRequired (frame_state s fr) = m_ResetRequired s
          ∧ m_FrameIndex (frame_state s fr) = m_FrameIndex s
          ∧ m_CurrentTime (frame_state s fr) = m_CurrentTime s)
    as (Hr & Hf & Ht).
  { unfold frame_state in *. destruct (fr_rebuilt fr) as [r|]; [|auto].
    apply CreateBuffersAndBindings_inv in Hcreate.
    destruct Hcreate as (_ & _ & _ & _ & _ & ? & ? & ? & _). auto. }
  rewrite Hr, Hf in HiFrame. rewrite Hr, Ht in HiTime.
  destruct (m_ResetRequired s); [left|right]; auto.
Qed.

(** X20.  Of two frames rendered one after the other, whatever events
    come between them, the second either restarts the program (frame
    counter 0 and time 0, after a program change or the first frame) or
    has the frame counter of the first plus one (in 32-bit arithmetic) and
    the opposite history parity: the two history slots alternate from
    frame to frame for as long as the program is not restarted. *)
Theorem frame_counter_steps_or_restarts (s0 s : ShaderProj)
    (events : list Event) (frames earlier later : list Frame) (f g : Frame) :
  run s0 events = Some (s, frames) →
  frames = earlier ++ f :: g :: later →
  (fr_iFrame g = 0 ∧ fr_iTime g = 0%Q ∧ fr_historyIndex g = 0%nat)
  ∨ (fr_iFrame g = wrap_int32 (fr_iFrame f + 1)
     ∧ fr_historyIndex g = opposite (fr_historyIndex f)).
Proof.
  intros Hrun Heq.
  destruct (run_history_invariant
              (λ s past,
                 ∀ f, last past = Some f →
                      m_FrameIndex s = wrap_int32 (fr_iFrame f + 1)
                      ∧ fr_historyIndex f = historyIndexOf (fr_iFrame f))
              (λ past g,
                 ∀ f, last past = Some f →
                      (fr_iFrame g = 0 ∧ fr_iTime g = 0%Q
                       ∧ fr_historyIndex g = 0%nat)
                      ∨ (fr_iFrame g = wrap_int32 (fr_iFrame f + 1)
                         ∧ fr_historyIndex g
                           = opposite (fr_historyIndex f))))
    with (events := events) (s := s0) (past := @nil Frame) (s' := s)
         (frames := frames) as [_ Hframes].
  - intros s1 past e s1' fs He Hinv Hstep.
    destruct (playlist_step_keeps _ _ _ _ He Hstep)
      as (-> & _ & _ & Hidx & _).
    split; [reflexivity|]. rewrite Hidx. exact Hinv.
  - intros s1 past env s1' fr1 Hinv Hrender.
    destruct (Render_counter _ _ _ _ Hrender) as (Hnext & Hhist & Hcase).
    split.
    + intros f' Hlast. rewrite last_snoc in Hlast. injection Hlast as <-.
      auto.
    + intros f' Hlast. destruct (Hinv f' Hlast) as [Hidx Hhist'].
      destruct Hcase as [(H0 & Ht & _)|(Hsame & _ & _)].
      * left. rewrite Hhist, H0. auto.
      * right. rewrite Hhist, Hhist', Hsame, Hidx.
        split; [reflexivity|]. apply historyIndexOf_next.
  - intros f' Hlast. discriminate.
  - exact Hrun.
  - apply (Hframes (earlier ++ [f]) g later).
    + rewrite <- app_assoc. exact Heq.
    + simpl. apply last_snoc.
Qed.

Lemma frame_counter_steps_or_restarts_witness :
  ∃ s f1 f2 f3 f4,
    run demo_app demo_events = Some (s, [f1; f2; f3; f4])
    ∧ ((fr_iFrame f3 = 0 ∧ fr_iTime f3 = 0%Q ∧ fr_historyIndex f3 = 0%nat)
       ∨ (fr_iFrame f3 = wrap_int32 (fr_iFrame f2 + 1)
          ∧ fr_historyIndex f3 = opposite (fr_historyIndex f2))).
Proof.
  assert (∃ s f1 f2 f3 f4,
            run demo_app demo_events = Some (s, [f1; f2; f3; f4]))
    as (s & f1 & f2 & f3 & f4 & Hrun) by (vm_compute; eauto 10).
  exists s, f1, f2, f3, f4. split; [exact Hrun|].
  exact (frame_counter_steps_or_restarts demo_app s demo_events
           [f1; f2; f3; f4] [f1] [f4] f2 f3 Hrun eq_refl).
Defined.

(** ** The command line *)

(** One step through the option chain of [parse]: case analysis on the
    next comparison, in the hypothesis [H] and in the goal at once. *)
Ltac next_option H :=
  match type of H with
  | context [is_option ?arg ?short ?long] =>
      let E := fresh "Hopt" in
      destruct (is_option arg short long) eqn:E
  end.

Lemma parse_app_len atoi n :
  ∀ args1 o o1 args2,
    (length args1 ≤ n)%nat →
    parse atoi o args1 = (true, o1) →
    parse atoi o (args1 ++ args2) = parse atoi o1 args2.
Proof.
  induction n as [|n IH]; intros args1 o o1 args2 Hlen H.
  - destruct args1; [|simpl in Hlen; lia].
    simpl in H. injection H as <-. reflexivity.
  - destruct args1 as [|arg rest].
    { simpl in H. injection H as <-. reflexivity. }
    simpl in Hlen.
    assert (∀ o', parse atoi o' rest = (true, o1) →
                  parse atoi o' (rest ++ args2) = parse atoi o1 args2)
      as Hflag by (intros o' H'; apply IH; [lia|exact H']).
    assert (∀ store : string → CommandLineOptions,
              match rest with
              | [] => novalue arg o
              | value :: rest' => parse atoi (store value) rest'
              end = (true, o1) →
              match rest ++ args2 with
              | [] => novalue arg o
              | value :: rest' => parse atoi (store value) rest'
              end = parse atoi o1 args2) as Hvalue.
    { intros store H'. destruct rest as [|value rest']; [discriminate|].
      simpl. apply IH; [simpl in Hlen; lia|exact H']. }
    cbn [parse app] in H |- *.
    repeat (next_option H; [first [discriminate H | apply Hvalue; exact H
                                  | apply Hflag; exact H]|]).
    discriminate H.
Qed.

(** X21.  Command lines compose: when a list of arguments parses
    successfully, parsing it followed by further arguments is parsing the
    further arguments from the options the first list gave.  In particular
    an option given twice takes its last value, and an error in the later
    arguments is reported after the earlier ones were applied. *)
Theorem parse_composes (atoi : string → Z) (o o1 : CommandLineOptions)
    (args1 args2 : list string) :
  parse atoi o args1 = (true, o1) →
  parse atoi o (args1 ++ args2) = parse atoi o1 args2.
Proof. apply (parse_app_len atoi (length args1)). lia. Qed.

Lemma parse_composes_witness :
  parse (λ _, 7) CommandLineOptions_default
        (["-W"; "640"; "-f"] ++ ["--width"; "800"])
  = parse (λ _, 7)
          (set_opt_fullscreen true
             (set_opt_width 7 CommandLineOptions_default))
          ["--width"; "800"].
Proof.
  apply (parse_composes (λ _, 7) CommandLineOptions_default
           (set_opt_fullscreen true
              (set_opt_width 7 CommandLineOptions_default))).
  reflexivity.
Defined.

Lemma is_option_false arg short long :
  arg ≠ short → arg ≠ long → is_option arg short long = false.
Proof.
  intros Hs Hl. unfold is_option.
  apply orb_false_intro; apply String.eqb_neq; assumption.
Qed.

(** What [parse] does with one argument, by the kind of option it is. *)
Lemma parse_cons_cases atoi o arg :
  (arg ∈ help_option_names
   ∧ ∀ rest, parse atoi o (arg :: rest)
             = (false, set_opt_errorMessage usageText o))
  ∨ (arg ∈ value_option_names
     ∧ ∃ store : string → CommandLineOptions,
         (∀ value, opt_help (store value) = opt_help o
                   ∧ opt_errorMessage (store value) = opt_errorMessage o)
         ∧ ∀ rest, parse atoi o (arg :: rest)
                   = match rest with
                     | [] => novalue arg o
                     | value :: rest' => parse atoi (store value) rest'
                     end)
  ∨ (arg ∈ flag_option_names
     ∧ ∃ o1,
         opt_help o1 = opt_help o
         ∧ opt_errorMessage o1 = opt_errorMessage o
         ∧ ∀ rest, parse atoi o (arg :: rest) = parse atoi o1 rest)
  ∨ ((arg ∉ help_option_names ++ value_option_names ++ flag_option_names)
     ∧ ∀ rest, parse atoi o (arg :: rest)
               = (false,
                  set_opt_errorMessage ("unrecognized option " ++ arg) o)).
Proof.
  destruct (decide (arg ∈ help_option_names)) as [Hhelp|Hhelp].
  { left. split; [exact Hhelp|].
    unfold help_option_names in Hhelp.
    repeat (apply elem_of_cons in Hhelp as [->|Hhelp]);
      [intros rest; reflexivity..|inversion Hhelp]. }
  destruct (decide (arg ∈ value_option_names)) as [Hvalue|Hvalue].
  { right. left. split; [exact Hvalue|].
    unfold value_option_names in Hvalue.
    repeat (apply elem_of_cons in Hvalue as [->|Hvalue]);
      [eexists; split; [|intros rest; reflexivity];
       intros value; split; reflexivity..
      |inversion Hvalue]. }
  destruct (decide (arg ∈ flag_option_names)) as [Hflag|Hflag].
  { right. right. left. split; [exact Hflag|].
    unfold flag_option_names in Hflag.
    repeat (apply elem_of_cons in Hflag as [->|Hflag]);
      [eexists; split; [|split; [|intros rest; reflexivity]];
       reflexivity..
      |inversion Hflag]. }
  right. right. right. split.
  { rewrite !elem_of_app. tauto. }
  unfold help_option_names in Hhelp.
  unfold value_option_names in Hvalue.
  unfold flag_option_names in Hflag.
  repeat match goal with
         | H : _ ∉ _ :: _ |- _ => apply not_elem_of_cons in H as [? H]
         end.
  intros rest. cbn [parse].
  rewrite !is_option_false by assumption. reflexivity.
Qed.

Lemma parse_failure_len atoi n :
  ∀ args o o',
    (length args ≤ n)%nat →
    parse atoi o args = (false, o') →
    ∃ before arg after o1,
      args = before ++ arg :: after
      ∧ parse atoi o before = (true, o1)
      ∧ ((arg ∈ help_option_names
          ∧ o' = set_opt_errorMessage usageText o1)
         ∨ (arg ∈ value_option_names ∧ after = []
            ∧ o' = set_opt_errorMessage ("expected value for " ++ arg) o1)
         ∨ ((arg ∉ help_option_names ++ value_option_names
                   ++ flag_option_names)
            ∧ o' = set_opt_errorMessage ("unrecognized option " ++ arg)
                     o1)).
Proof.
  induction n as [|n IH]; intros args o o' Hlen H.
  - destruct args; [discriminate|simpl in Hlen; lia].
  - destruct args as [|arg rest]; [discriminate|]. simpl in Hlen.
    destruct (parse_cons_cases atoi o arg)
      as [[Hin Heq]|[[Hin (store & _ & Heq)]
         |[[Hin (o1 & _ & _ & Heq)]|[Hin Heq]]]].
    + rewrite Heq in H. injection H as <-.
      exists [], arg, rest, o. auto.
    + rewrite Heq in H. destruct rest as [|value rest'].
      * injection H as <-. exists [], arg, [], o. auto 10.
      * destruct (IH rest' (store value) o' ltac:(simpl in Hlen; lia) H)
          as (before & arg' & after & o2 & -> & Hbefore & Hcase).
        exists (arg :: value :: before), arg', after, o2.
        split; [reflexivity|]. split; [|exact Hcase].
        rewrite Heq. exact Hbefore.
    + rewrite Heq in H.
      destruct (IH rest o1 o' ltac:(lia) H)
        as (before & arg' & after & o2 & -> & Hbefore & Hcase).
      exists (arg :: before), arg', after, o2.
      split; [reflexivity|]. split; [|exact Hcase].
      rewrite Heq. exact Hbefore.
    + rewrite Heq in H. injection H as <-.
      exists [], arg, rest, o. auto 10.
Qed.

(** X22.  When [parse] fails it has applied every option before the
    offending argument and reports exactly one of three things in
    [errorMessage]: the usage text, for [-h] or [--help]; "expected value
    for" and the option, when an option that takes a value is the last
    argument; or "unrecognized option" and the argument, when it is none
    of the known option names.  An argument that follows an option taking
    a value is never reported: it is the value. *)
Theorem parse_failure_names_the_argument (atoi : string → Z)
    (o o' : CommandLineOptions) (args : list string) :
  parse atoi o args = (false, o') →
  ∃ before arg after o1,
    args = before ++ arg :: after
    ∧ parse atoi o before = (true, o1)
    ∧ ((arg ∈ help_option_names
        ∧ o' = set_opt_errorMessage usageText o1)
       ∨ (arg ∈ value_option_names ∧ after = []
          ∧ o' = set_opt_errorMessage ("expected value for " ++ arg) o1)
       ∨ ((arg ∉ help_option_names ++ value_option_names
                 ++ flag_option_names)
          ∧ o' = set_opt_errorMessage ("unrecognized option " ++ arg) o1)).
Proof. apply (parse_failure_len atoi (length args)). lia. Qed.

Lemma parse_failure_names_the_argument_witness :
  ∃ before arg after o1,
    ["-f"; "-p"; "--help"; "-i"] = before ++ arg :: after
    ∧ parse (λ _, 7) CommandLineOptions_default before = (true, o1)
    ∧ set_opt_errorMessage "expected value for -i"
        (set_opt_projectPath "--help"
           (set_opt_fullscreen true CommandLineOptions_default))
      = set_opt_errorMessage ("expected value for " ++ arg) o1.
Proof.
  destruct (parse_failure_names_the_argument (λ _, 7)
              CommandLineOptions_default
              (set_opt_errorMessage "expected value for -i"
                 (set_opt_projectPath "--help"
                    (set_opt_fullscreen true CommandLineOptions_default)))
              ["-f"; "-p"; "--help"; "-i"] eq_refl)
    as (before & arg & after & o1 & Heq & Hbefore & Hcase).
  exists before, arg, after, o1. split; [exact Heq|].
  split; [exact Hbefore|].
  destruct Hcase as [[_ H]|[(_ & _ & H)|[_ H]]].
  - discriminate H.
  - exact H.
  - exfalso. apply (f_equal opt_errorMessage) in H. simpl in H.
    apply (f_equal (λ m : string, String.get 0 m)) in H. simpl in H.
    discriminate H.
Defined.

Lemma parse_keeps_len atoi n :
  ∀ args o ok o',
    (length args ≤ n)%nat →
    parse atoi o args = (ok, o') →
    opt_help o' = opt_help o
    ∧ (ok = true → opt_errorMessage o' = opt_errorMessage o).
Proof.
  induction n as [|n IH]; intros args o ok o' Hlen H.
  - destruct args; [|simpl in Hlen; lia].
    injection H as <- <-. auto.
  - destruct args as [|arg rest]; [injection H as <- <-; auto|].
    simpl in Hlen.
    destruct (parse_cons_cases atoi o arg)
      as [[Hin Heq]|[[Hin (store & Hstore & Heq)]
         |[[Hin (o1 & Hh & He & Heq)]|[Hin Heq]]]].
    + rewrite Heq in H. injection H as <- <-. split; [reflexivity|].
      discriminate.
    + rewrite Heq in H. destruct rest as [|value rest'].
      * injection H as <- <-. split; [reflexivity|discriminate].
      * destruct (IH rest' (store value) ok o'
                    ltac:(simpl in Hlen; lia) H) as [Hh He].
        destruct (Hstore value) as [Hh' He'].
        rewrite Hh, Hh'. split; [reflexivity|].
        intros Hok. rewrite (He Hok). exact He'.
    + rewrite Heq in H.
      destruct (IH rest o1 ok o' ltac:(lia) H) as [Hh' He'].
      rewrite Hh', Hh. split; [reflexivity|].
      intros Hok. rewrite (He' Hok). exact He.
    + rewrite Heq in H. injection H as <- <-. split; [reflexivity|].
      discriminate.
Qed.

(** X23.  [parse] never sets the [help] field, whatever the arguments,
    and a successful parse leaves [errorMessage] as it was.  For [-h] or
    [--help], read after arguments that parse, it fails instead, with the
    options so far and the usage text as the error message, and ignores
    what follows (so [main] prints the usage text and returns the
    command-line error code). *)
Theorem parse_never_sets_help (atoi : string → Z) (o : CommandLineOptions)
    (args : list string) :
  opt_help (parse atoi o args).2 = opt_help o
  ∧ ((parse atoi o args).1 = true →
     opt_errorMessage (parse atoi o args).2 = opt_errorMessage o)
  ∧ (∀ before arg after o1,
       args = before ++ arg :: after →
       parse atoi o before = (true, o1) →
       arg ∈ help_option_names →
       parse atoi o args = (false, set_opt_errorMessage usageText o1)).
Proof.
  destruct (parse atoi o args) as [ok o'] eqn:H.
  destruct (parse_keeps_len atoi (length args) args o ok o' ltac:(lia) H)
    as [Hh He].
  split; [exact Hh|]. split; [exact He|].
  intros before arg after o1 -> Hbefore Hin.
  rewrite (parse_app_len atoi (length before) before o o1 (arg :: after)
             ltac:(lia) Hbefore) in H.
  destruct (parse_cons_cases atoi o1 arg)
    as [[_ Heq]|[[Hv _]|[[Hf _]|[Hn _]]]].
  - rewrite Heq in H. symmetry. exact H.
  - exfalso. unfold help_option_names, value_option_names in *.
    repeat (apply elem_of_cons in Hin as [->|Hin]);
      [..|inversion Hin];
      repeat (apply elem_of_cons in Hv as [Hv|Hv]; [discriminate Hv|]);
      inversion Hv.
  - exfalso. unfold help_option_names, flag_option_names in *.
    repeat (apply elem_of_cons in Hin as [->|Hin]);
      [..|inversion Hin];
      repeat (apply elem_of_cons in Hf as [Hf|Hf]; [discriminate Hf|]);
      inversion Hf.
  - exfalso. apply Hn. apply elem_of_app. left. exact Hin.
Qed.

Lemma parse_never_sets_help_witness :
  parse (λ _, 7) CommandLineOptions_default ["-d"; "--help"; "-x"]
  = (false,
     set_opt_errorMessage usageText
       (set_opt_debug true CommandLineOptions_default)).
Proof.
  refine (proj2 (proj2 (parse_never_sets_help (λ _, 7)
                          CommandLineOptions_default
                          ["-d"; "--help"; "-x"]))
            ["-d"] "--help" ["-x"]
            (set_opt_debug true CommandLineOptions_default) eq_refl eq_refl
            _).
  apply list_elem_of_further. apply list_elem_of_here.
Defined.

(** ** The ring of fences *)

Lemma Present_inv maxFramesInFlight answers ring ring' ops :
  Present maxFramesInFlight answers ring = Some (ring', ops) →
  let index := m_LoopingFrameIndex ring in
  let count := to_uint32 (maxFramesInFlight + 1) in
  let next := to_uint32 (index + 1) mod count in
  count ≠ 0
  ∧ ∃ signaled flag,
      set_int (m_FencesSignaled ring) index true = Some signaled
      ∧ at_int signaled next = Some flag
      ∧ ring' = mkFenceRing (m_Fences ring) (m_CommandBuffers ring) signaled
                            next
      ∧ ops = [OpEnd index; OpSubmit index index; OpPresent]
              ++ (if flag : bool
                  then [OpWaitForFence next; OpResetFence next] else []).
Proof.
  intros H index count next. unfold Present in H.
  fold index count in H. fold next in H.
  destruct (at_int (m_CommandBuffers ring) index); [|discriminate].
  cbn [mbind option_bind] in H.
  destruct (at_int (m_Fences ring) index); [|discriminate].
  cbn [mbind option_bind] in H.
  destruct (pa_submit answers); [|discriminate].
  destruct (set_int (m_FencesSignaled ring) index true) as [signaled|]
    eqn:Hset; [|discriminate].
  cbn [mbind option_bind] in H.
  assert ((if count =? 0 then None
           else
             flag ← at_int signaled next;
             (if flag : bool then
                _ ← at_int (m_Fences ring) next;
                match pa_waitForFences answers, pa_resetFences answers with
                | vk.eSuccess, vk.eSuccess =>
                    Some (mkFenceRing (m_Fences ring)
                            (m_CommandBuffers ring) signaled next,
                          [OpEnd index; OpSubmit index index; OpPresent]
                          ++ [OpWaitForFence next; OpResetFence next])
                | _, _ => None
                end
              else
                Some (mkFenceRing (m_Fences ring) (m_CommandBuffers ring)
                        signaled next,
                      [OpEnd index; OpSubmit index index; OpPresent])))
          = Some (ring', ops)) as H'.
  { destruct (pa_present answers); [exact H|exact H|discriminate]. }
  clear H. destruct (Z.eqb_spec count 0) as [Hz|Hz]; [discriminate|].
  split; [exact Hz|].
  destruct (at_int signaled next) as [flag|] eqn:Hflag; [|discriminate].
  cbn [mbind option_bind] in H'. exists signaled, flag.
  split; [reflexivity|]. split; [exact Hflag|].
  destruct flag.
  - destruct (at_int (m_Fences ring) next); [|discriminate].
    cbn [mbind option_bind] in H'.
    destruct (pa_waitForFences answers); [|discriminate].
    destruct (pa_resetFences answers); [|discriminate].
    injection H' as <- <-. split; reflexivity.
  - injection H' as <- <-. split; reflexivity.
Qed.

Lemma set_int_in_range {A} (l : list A) index x :
  0 ≤ index < Z.of_nat (length l) → is_Some (set_int l index x).
Proof.
  intros H. unfold set_int.
  destruct (Z.ltb_spec index 0); [lia|].
  destruct (Z.ltb_spec index (Z.of_nat (length l))); [|lia].
  simpl. eauto.
Qed.

Lemma Present_tracks maxFramesInFlight answers ring ring' ops pending :
  let count := Z.to_nat (to_uint32 (maxFramesInFlight + 1)) in
  ring_tracks count ring pending →
  Present maxFramesInFlight answers ring = Some (ring', ops) →
  ∃ pending',
    trackFences pending ops = Some pending'
    ∧ ring_tracks count ring' pending'.
Proof.
  intros count (Hlf & Hlc & Hls & Hlp & Hrange & Hfree & Hsame) H.
  apply Present_inv in H. cbv zeta in H.
  destruct H as (Hz & signaled & flag & Hset & Hflag & -> & ->).
  set (index := m_LoopingFrameIndex ring) in *.
  set (n := to_uint32 (maxFramesInFlight + 1)) in *.
  set (next := to_uint32 (index + 1) mod n) in *.
  assert (0 ≤ n) as Hn0.
  { subst n. unfold to_uint32. apply Z.mod_pos_bound. lia. }
  assert (Z.of_nat count = n) as Hcount by (subst count; lia).
  assert (0 ≤ next < n) as Hnext.
  { subst next. apply Z.mod_pos_bound. lia. }
  destruct (set_int_in_range pending index true ltac:(lia)) as [p1 Hp1].
  pose proof (at_int_set_int_same _ _ _ _ Hset) as Hs_same.
  pose proof (at_int_set_int_same _ _ _ _ Hp1) as Hp_same.
  pose proof (set_int_length _ _ _ _ Hset) as Hs_len.
  pose proof (set_int_length _ _ _ _ Hp1) as Hp_len.
  assert (∀ fence, at_int p1 fence = at_int signaled fence) as Hall.
  { intros fence. destruct (Z.eq_dec fence index) as [->|Hne].
    - congruence.
    - rewrite (at_int_set_int_other _ _ _ _ _ Hp1 Hne),
              (at_int_set_int_other _ _ _ _ _ Hset Hne).
      apply Hsame. exact Hne. }
  assert (trackFences pending [OpEnd index; OpSubmit index index; OpPresent]
          = Some p1) as Hprefix.
  { unfold trackFences. cbn [foldM trackFence mbind option_bind].
    rewrite Hfree. cbn [mbind option_bind]. rewrite Hp1. reflexivity. }
  unfold trackFences in *. rewrite foldM_app, Hprefix.
  cbn [mbind option_bind].
  destruct flag.
  - destruct (set_int_in_range p1 next false ltac:(lia)) as [p2 Hp2].
    cbn [foldM trackFence mbind option_bind].
    rewrite (Hall next), Hflag. cbn [mbind option_bind].
    rewrite (Hall next), Hflag. cbn [mbind option_bind].
    rewrite Hp2. cbn [mbind option_bind].
    exists p2. split; [reflexivity|].
    pose proof (set_int_length _ _ _ _ Hp2) as Hp2_len.
    unfold ring_tracks.
    cbn [m_Fences m_CommandBuffers m_FencesSignaled m_LoopingFrameIndex].
    repeat (split; [first [assumption|lia]|]).
    split; [exact (at_int_set_int_same _ _ _ _ Hp2)|].
    intros fence Hne.
    rewrite (at_int_set_int_other _ _ _ _ _ Hp2 Hne). apply Hall.
  - cbn [foldM]. exists p1. split; [reflexivity|].
    unfold ring_tracks.
    cbn [m_Fences m_CommandBuffers m_FencesSignaled m_LoopingFrameIndex].
    repeat (split; [first [assumption|lia]|]).
    split; [rewrite (Hall next); exact Hflag|].
    intros fence Hne. apply Hall.
Qed.

Lemma Presents_tracks maxFramesInFlight answers :
  ∀ ring ring' ops pending,
    ring_tracks (Z.to_nat (to_uint32 (maxFramesInFlight + 1))) ring pending →
    Presents maxFramesInFlight ring answers = Some (ring', ops) →
    ∃ pending',
      trackFences pending ops = Some pending'
      ∧ ring_tracks (Z.to_nat (to_uint32 (maxFramesInFlight + 1))) ring'
                    pending'.
Proof.
  induction answers as [|a rest IH]; intros ring ring' ops pending Hinv H;
    simpl in H.
  - injection H as <- <-. exists pending. split; [reflexivity|exact Hinv].
  - destruct (Present maxFramesInFlight a ring) as [[ring1 ops1]|] eqn:Hp;
      [|discriminate].
    cbn [mbind option_bind fst snd] in H.
    destruct (Presents maxFramesInFlight ring1 rest) as [[ring2 ops2]|]
      eqn:Hrest; [|discriminate].
    cbn [mbind option_bind fst snd] in H. injection H as <- <-.
    destruct (Present_tracks _ _ _ _ _ _ Hinv Hp) as (p1 & Ht1 & Hinv1).
    destruct (IH _ _ _ _ Hinv1 Hrest) as (p2 & Ht2 & Hinv2).
    exists p2. split; [|exact Hinv2].
    unfold trackFences in *. rewrite foldM_app, Ht1. exact Ht2.
Qed.

(** X24.  The fences of [Present] follow their protocol for any number
    of frames: starting from the freshly created ring, a fence is never
    submitted while it is still pending (submitted and not reset), and
    [Present] never waits for or resets a fence that is not pending, so it
    never blocks on a fence nothing will signal.  When [Present] returns,
    the fence of the command buffer to be recorded next is not pending,
    hence at most [maxFramesInFlight] submissions are still in flight. *)
Theorem fences_follow_their_protocol (maxFramesInFlight : Z)
    (createFence allocateCommandBuffer : nat → vk.Handle)
    (answers : list PresentAnswers) (ring : FenceRing) (ops : list QueueOp) :
  let count := Z.to_nat (to_uint32 (maxFramesInFlight + 1)) in
  (0 < count)%nat →
  Presents maxFramesInFlight
    (FenceRing_init maxFramesInFlight createFence allocateCommandBuffer)
    answers
  = Some (ring, ops) →
  ∃ pending,
    trackFences (replicate count false) ops = Some pending
    ∧ length pending = count
    ∧ at_int pending (m_LoopingFrameIndex ring) = Some false
    ∧ (length (filter (λ p, p = true) pending) < count)%nat.
Proof.
  intros count Hpos H.
  destruct (Presents_tracks maxFramesInFlight answers
              (FenceRing_init maxFramesInFlight createFence
                 allocateCommandBuffer)
              ring ops (replicate count false)) as (pending & Ht & Hinv).
  - unfold ring_tracks, FenceRing_init.
    cbn [m_Fences m_CommandBuffers m_FencesSignaled m_LoopingFrameIndex].
    try fold count. rewrite !length_fmap, !length_seq, !length_replicate.
    repeat (split; [first [reflexivity|lia]|]).
    split.
    + unfold at_int. simpl. apply lookup_replicate_2. exact Hpos.
    + intros fence _. reflexivity.
  - exact H.
  - exists pending. split; [exact Ht|].
    destruct Hinv as (_ & _ & _ & Hlen & Hrange & Hfree & _).
    split; [exact Hlen|]. split; [exact Hfree|].
    apply at_int_Some in Hfree as [_ Hfree].
    replace count with (length pending) by exact Hlen.
    apply list_elem_of_lookup_2 in Hfree.
    clear -Hfree. induction pending as [|p rest IH]; [inversion Hfree|].
    destruct p.
    + rewrite filter_cons_True by reflexivity. simpl.
      apply elem_of_cons in Hfree as [Hfree|Hfree]; [discriminate|].
      specialize (IH Hfree). lia.
    + rewrite filter_cons_False by discriminate. simpl.
      pose proof (length_filter (λ p : bool, p = true) rest). lia.
Qed.

Lemma fences_follow_their_protocol_witness :
  ∃ ring ops pending,
    Presents 2 (FenceRing_init 2 (λ i, N.of_nat (40 + i))
                  (λ i, N.of_nat (50 + i)))
             (replicate 4 (mkPresentAnswers vk.eSuccess PresentSuccess
                             vk.eSuccess vk.eSuccess))
    = Some (ring, ops)
    ∧ trackFences (replicate 3 false) ops = Some pending
    ∧ at_int pending (m_LoopingFrameIndex ring) = Some false.
Proof.
  assert (∃ ring ops,
            Presents 2 (FenceRing_init 2 (λ i, N.of_nat (40 + i))
                          (λ i, N.of_nat (50 + i)))
                     (replicate 4 (mkPresentAnswers vk.eSuccess
                                     PresentSuccess vk.eSuccess vk.eSuccess))
            = Some (ring, ops))
    as (ring & ops & H) by (vm_compute; eexists _, _; reflexivity).
  destruct (fences_follow_their_protocol 2 (λ i, N.of_nat (40 + i))
              (λ i, N.of_nat (50 + i)) _ ring ops ltac:(vm_compute; lia) H)
    as (pending & Ht & _ & Hfree & _).
  exists ring, ops, pending. auto.
Defined.

(** ** More on the bindings of a pass *)

Lemma at_int_of_nat {A} (l : list A) (i : nat) :
  at_int l (Z.of_nat i) = l !! i.
Proof.
  unfold at_int. destruct (Z.ltb_spec (Z.of_nat i) 0); [lia|].
  rewrite Nat2Z.id. reflexivity.
Qed.

Lemma bindInput_keeps_handles common passes self frame st node st' :
  Forall (λ info, dii_imageView info ≠ vk.null ∧ dii_sampler info ≠ vk.null)
         (bs_imageInfos st) →
  bindInput common passes self frame st node = Some st' →
  Forall (λ info, dii_imageView info ≠ vk.null ∧ dii_sampler info ≠ vk.null)
         (bs_imageInfos st')
  ∧ length (bs_imageInfos st') = length (bs_imageInfos st).
Proof.
  intros Hall H. apply bindInput_inv in H
    as (static & imageView & inputSize & logged & info & _ & _ & Hinfo
        & Hnew & _ & _ & Hlen & _ & Hother).
  split; [|exact Hlen].
  rewrite Forall_lookup in Hall |- *. intros i x Hx.
  rewrite <- at_int_of_nat in Hx.
  destruct (Z.eq_dec (Z.of_nat i) (in_channel node)) as [Heq|Hne].
  - rewrite Heq in Hx. rewrite Hnew in Hx. injection Hx as <-.
    apply at_int_Some in Hinfo as [_ Hinfo].
    specialize (Hall _ _ Hinfo).
    destruct (vk.is_null imageView) eqn:Hnull; [exact Hall|].
    simpl. split; [|apply Hall]. apply is_null_false. exact Hnull.
  - destruct (Hother _ Hne) as [Hsame _]. rewrite Hsame in Hx.
    rewrite at_int_of_nat in Hx. exact (Hall _ _ Hx).
Qed.

(** X25.  [CreateBindingSets] never writes a null handle into a
    descriptor set: provided the dummy texture and the default sampler
    exist, each of the two descriptor writes it makes carries four image
    infos, each with a non-null image view and a non-null sampler,
    whatever the inputs of the pass declare (unknown types, unresolved
    buffers, inputs sharing a channel). *)
Theorem descriptor_writes_have_no_null_handle (common : CommonResources)
    (passes : list ShRenderpass) (self : ShRenderpass) (outputIndex : nat)
    (r : BindingSetsResult) :
  cr_dummyTexture common ≠ vk.null →
  cr_defaultSampler common ≠ vk.null →
  CreateBindingSets common passes self outputIndex = Some r →
  length (bsr_writes r) = c_HistoryLength
  ∧ Forall (λ write,
              length (dw_imageInfos write) = c_MaxPassInputs
              ∧ Forall (λ info, dii_imageView info ≠ vk.null
                                ∧ dii_sampler info ≠ vk.null)
                       (dw_imageInfos write))
           (bsr_writes r).
Proof.
  intros Hdummy Hsampler H.
  apply CreateBindingSets_inv in H
    as (infos & st0 & st1 & ds0 & ds1 & t0 & t1 & Hinit & H0 & H1 & _ & _ & _
        & _ & -> & _).
  assert (length infos = c_MaxPassInputs
          ∧ Forall (λ info, dii_imageView info ≠ vk.null
                            ∧ dii_sampler info ≠ vk.null) infos)
    as [Hlen Hall].
  { unfold initialImageInfos in Hinit. apply mapM_Some in Hinit.
    split.
    - rewrite <- (Forall2_length _ _ _ Hinit). apply length_seq.
    - apply Forall_lookup. intros i info Hi.
      destruct (Forall2_lookup_r _ _ _ _ _ Hinit Hi) as (ch & _ & Hch).
      destruct (m_Samplers self !! ch) as [own|]; [|discriminate].
      simpl in Hch. injection Hch as <-. simpl. split; [exact Hdummy|].
      destruct (vk.is_null own) eqn:Hown; simpl; [exact Hsampler|].
      apply is_null_false. exact Hown. }
  assert (∀ frame push st,
            foldM (bindInput common passes self frame)
                  (mkBindingState infos push [])
                  (pn_inputs (m_Declaration self)) = Some st →
            length (bs_imageInfos st) = c_MaxPassInputs
            ∧ Forall (λ info, dii_imageView info ≠ vk.null
                              ∧ dii_sampler info ≠ vk.null)
                     (bs_imageInfos st)) as Hloop.
  { intros frame push st Hfold. revert Hfold.
    apply (foldM_invariant _
             (λ st, length (bs_imageInfos st) = c_MaxPassInputs
                    ∧ Forall (λ info, dii_imageView info ≠ vk.null
                                      ∧ dii_sampler info ≠ vk.null)
                             (bs_imageInfos st))).
    - intros a node a' [Hl Ha] Hstep.
      destruct (bindInput_keeps_handles _ _ _ _ _ _ _ Ha Hstep) as [? Hl'].
      split; [congruence|assumption].
    - simpl. auto. }
  split; [reflexivity|].
  constructor; [exact (Hloop _ _ _ H0)|].
  constructor; [exact (Hloop _ _ _ H1)|]. constructor.
Qed.

Lemma descriptor_writes_have_no_null_handle_witness :
  ∃ r,
    CreateBindingSets demo_common demo_passes demo_pass_A 0 = Some r
    ∧ length (bsr_writes r) = c_HistoryLength.
Proof.
  assert (∃ r, CreateBindingSets demo_common demo_passes demo_pass_A 0
               = Some r) as [r Hr] by (vm_compute; eauto).
  exists r. split; [exact Hr|].
  refine (proj1 (descriptor_writes_have_no_null_handle demo_common
                   demo_passes demo_pass_A 0 r _ _ Hr)); discriminate.
Defined.

(** X26.  When several inputs of a pass name the same channel, the last
    of them decides the channel size pushed to the shader, while the image
    bound to the channel is that of the last input that found an image:
    after the input loop of [CreateBindingSets], the size of the channel is
    the one chosen for the last input on it, and its image view is the one
    chosen for that input if that is not null, and otherwise the view the
    inputs before it had left. *)
Theorem last_input_of_a_channel_decides (common : CommonResources)
    (passes : list ShRenderpass) (self : ShRenderpass) (frame : nat)
    (before after : list InputNode) (node : InputNode)
    (st st' : BindingState) :
  foldM (bindInput common passes self frame) st (before ++ node :: after)
  = Some st' →
  Forall (λ other, in_channel other ≠ in_channel node) after →
  ∃ st1 static imageView inputSize logged info,
    foldM (bindInput common passes self frame) st before = Some st1
    ∧ at_int (m_StaticInputs self) (in_channel node) = Some static
    ∧ chooseInput common passes self frame node static
      = Some (imageView, inputSize, logged)
    ∧ at_int (bs_imageInfos st1) (in_channel node) = Some info
    ∧ at_int (bs_push st') (in_channel node) = Some inputSize
    ∧ at_int (bs_imageInfos st') (in_channel node)
      = Some (if vk.is_null imageView then info
              else mkDescriptorImageInfo imageView (dii_sampler info)).
Proof.
  intros H Hafter. rewrite foldM_app in H.
  destruct (foldM (bindInput common passes self frame) st before) as [st1|]
    eqn:H1; [|discriminate].
  cbn [mbind option_bind foldM] in H.
  destruct (bindInput common passes self frame st1 node) as [st2|] eqn:H2;
    [|discriminate].
  cbn [mbind option_bind] in H.
  destruct (bindInputs_other_channel _ _ _ _ _ _ _ _ H Hafter)
    as (Hinfos & Hpush & _).
  apply bindInput_inv in H2
    as (static & imageView & inputSize & logged & info & Hstatic & Hchoose
        & Hinfo & Hnew & Hsize & _).
  exists st1, static, imageView, inputSize, logged, info.
  rewrite Hinfos, Hpush. auto 10.
Qed.

Lemma last_input_of_a_channel_decides_witness :
  ∃ st1 st',
    foldM (bindInput demo_common demo_passes demo_pass_A 0)
          (mkBindingState
             (replicate 4 (mkDescriptorImageInfo 1%N 4%N))
             (replicate 4 (0, 0, 0)) [])
          ([demo_input_self] ++ mkInputNode "buffer" "missing" 0 "" :: [])
    = Some st'
    ∧ foldM (bindInput demo_common demo_passes demo_pass_A 0)
            (mkBindingState
               (replicate 4 (mkDescriptorImageInfo 1%N 4%N))
               (replicate 4 (0, 0, 0)) [])
            [demo_input_self]
      = Some st1
    ∧ at_int (bs_push st') 0 = Some (0, 0, 0)
    ∧ at_int (bs_imageInfos st') 0 = at_int (bs_imageInfos st1) 0.
Proof.
  assert (∃ st',
            foldM (bindInput demo_common demo_passes demo_pass_A 0)
                  (mkBindingState
                     (replicate 4 (mkDescriptorImageInfo 1%N 4%N))
                     (replicate 4 (0, 0, 0)) [])
                  ([demo_input_self]
                   ++ mkInputNode "buffer" "missing" 0 "" :: [])
            = Some st') as [st' Hst'] by (vm_compute; eauto).
  destruct (last_input_of_a_channel_decides demo_common demo_passes
              demo_pass_A 0 [demo_input_self] []
              (mkInputNode "buffer" "missing" 0 "") _ st' Hst'
              ltac:(constructor))
    as (st1 & static & imageView & inputSize & logged & info & H1 & Hstatic
        & Hchoose & Hinfo & Hpush & Hnew).
  exists st1, st'. split; [exact Hst'|]. split; [exact H1|].
  vm_compute in Hstatic. injection Hstatic as <-.
  vm_compute in Hchoose. injection Hchoose as <- <- <-.
  split; [exact Hpush|]. cbn [in_channel] in *.
  rewrite Hnew, Hinfo. reflexivity.
Defined.

(** [ClearImage] is defined for every state before, and its three commands
    are consistent for an image with one mip level: the first barrier
    names the layout of the state before, the clear finds the image in the
    transfer-destination layout, and the image ends in the shader-read
    layout. *)
Lemma ClearImage_tracks (vkImage : vk.Handle) (layerCount : Z)
    (stateBefore : ImageState) :
  ∃ commands mapping,
    ClearImage vkImage layerCount stateBefore = Some commands
    ∧ g_ImageStates !! ImageState_index stateBefore = Some mapping
    ∧ trackCommands [ism_layout mapping] commands
      = Some [vk.eShaderReadOnlyOptimal]
    ∧ (∀ other, other ≠ ism_layout mapping →
                trackCommands [other] commands = None).
Proof.
  destruct stateBefore; eexists _, _;
    (split; [reflexivity|]); (split; [reflexivity|]);
    (split; [reflexivity|]);
    intros other Hother; destruct other; try contradiction; reflexivity.
Qed.

(** ** Compiling the shaders of all passes *)

Lemma CompileShader_files_cases (glslang : path → blob → GlslangResult)
    (now : Z) (opened : bool) (files : FileSystem) shaderFile preambles
    output :
  let r :=
    CompileShader glslang now opened files shaderFile preambles output in
  cs_files r = files
  ∨ ∃ spirv,
      cs_return r = true ∧ opened = true
      ∧ cs_files r
        = <[replace_extension shaderFile ".spv" := mkFile now (Some spirv)]>
            files.
Proof.
  intros r. destruct (cs_return r) eqn:Hret.
  - destruct (CompileShader_true_inv glslang now opened files shaderFile
                preambles output Hret) as (input & _ & Hcase).
    fold r in Hcase.
    destruct Hcase as [(artifact & data & _ & _ & _ & ->)|(_ & spirv & ->)].
    + left. reflexivity.
    + destruct opened; [|left; reflexivity].
      right. exists spirv. repeat split; reflexivity.
  - left. subst r. revert Hret. unfold CompileShader, OutputSpvBin.
    destruct (files !! shaderFile) as [input|]; [|reflexivity].
    destruct (files !! replace_extension shaderFile ".spv") as [artifact|].
    + destruct (last_write_time input <? last_write_time artifact).
      * destruct (ReadFile files (replace_extension shaderFile ".spv"));
          [discriminate|].
        destruct (ReadFile files shaderFile); [|reflexivity].
        destruct (glslang shaderFile _); try reflexivity. discriminate.
      * destruct (ReadFile files shaderFile); [|reflexivity].
        destruct (glslang shaderFile _); try reflexivity. discriminate.
    + destruct (ReadFile files shaderFile); [|reflexivity].
      destruct (glslang shaderFile _); try reflexivity. discriminate.
Qed.

Lemma CompileShader_fresh_hit (glslang : path → blob → GlslangResult)
    (now : Z) (opened : bool) (files : FileSystem) shaderFile preambles
    output :
  has_fresh_artifact files shaderFile →
  ∃ data,
    CompileShader glslang now opened files shaderFile preambles output
    = mkCompileShaderResult true data files
        [LogUsingCached (replace_extension shaderFile ".spv")].
Proof.
  intros (input & artifact & Hin & Hout & Hlt & [data Hread]).
  exists data. unfold CompileShader. rewrite Hin, Hout.
  rewrite (ReadFile_lookup _ _ _ Hout), Hread.
  apply Z.ltb_lt in Hlt. rewrite Hlt. reflexivity.
Qed.

(** A shader file the cache works for: it is not itself an artifact, and
    it was last written before the time at which artifacts are written. *)
Lemma CompileShader_keeps_fresh (glslang : path → blob → GlslangResult)
    (now : Z) (opened : bool) (files : FileSystem) shaderFile preambles
    output :
  let r :=
    CompileShader glslang now opened files shaderFile preambles output in
  (∀ f, f.2 ≠ ".spv"%string → cs_files r !! f = files !! f)
  ∧ (∀ f, f.2 ≠ ".spv"%string →
          (∀ input, files !! f = Some input → last_write_time input < now) →
          has_fresh_artifact files f → has_fresh_artifact (cs_files r) f)
  ∧ (cs_return r = true → opened = true →
     shaderFile.2 ≠ ".spv"%string →
     (∀ input, files !! shaderFile = Some input →
               last_write_time input < now) →
     has_fresh_artifact (cs_files r) shaderFile).
Proof.
  intros r.
  assert (∀ f : path, f.2 ≠ ".spv"%string →
                      f ≠ replace_extension shaderFile ".spv") as Hneq.
  { intros f Hf Heq. apply Hf. rewrite Heq. reflexivity. }
  assert (∀ f, f.2 ≠ ".spv"%string → cs_files r !! f = files !! f) as Hsrc.
  { intros f Hf.
    destruct (CompileShader_files_cases glslang now opened files shaderFile
                preambles output) as [Hsame|(spirv & _ & _ & Hw)];
      fold r in Hsame || fold r in Hw.
    - rewrite Hsame. reflexivity.
    - rewrite Hw. apply lookup_insert_ne. intros Heq.
      exact (Hneq f Hf (eq_sym Heq)). }
  assert (∀ f, f.2 ≠ ".spv"%string →
               (∀ input, files !! f = Some input →
                         last_write_time input < now) →
               has_fresh_artifact files f →
               has_fresh_artifact (cs_files r) f) as Hkeep.
  { intros f Hf Hold (input & artifact & Hin & Hout & Hlt & Hread).
    destruct (CompileShader_files_cases glslang now opened files shaderFile
                preambles output) as [Hsame|(spirv & _ & _ & Hw)];
      fold r in Hsame || fold r in Hw.
    - rewrite Hsame. exists input, artifact. auto.
    - rewrite Hw.
      destruct (decide (replace_extension f ".spv"
                        = replace_extension shaderFile ".spv")) as [He|He].
      + exists input, (mkFile now (Some spirv)).
        split; [rewrite lookup_insert_ne; [exact Hin|]|].
        { intros Heq. exact (Hneq f Hf (eq_sym Heq)). }
        split; [rewrite He; apply lookup_insert_eq|].
        split; [simpl; apply Hold; exact Hin|simpl; eauto].
      + exists input, artifact.
        split; [rewrite lookup_insert_ne; [exact Hin|]|].
        { intros Heq. exact (Hneq f Hf (eq_sym Heq)). }
        split; [rewrite lookup_insert_ne; [exact Hout|congruence]|].
        auto. }
  split; [exact Hsrc|]. split; [exact Hkeep|].
  intros Hret Hopened Hext Hold.
  destruct (CompileShader_true_inv glslang now opened files shaderFile
              preambles output Hret) as (input & Hin & Hcase).
  fold r in Hcase.
  destruct Hcase as [(artifact & data & Hout & Hlt & Hread & ->)
                    |(_ & spirv & ->)]; simpl.
  - exists input, artifact. eauto 10.
  - rewrite Hopened. exists input, (mkFile now (Some spirv)).
    split; [rewrite lookup_insert_ne; [exact Hin|]|].
    { intros Heq. exact (Hneq shaderFile Hext (eq_sym Heq)). }
    split; [apply lookup_insert_eq|].
    split; [simpl; apply Hold; exact Hin|simpl; eauto].
Qed.

Lemma cacheable_ext (now : FileSystem → path → Z)
    (files files' : FileSystem) (f : path) :
  (∀ g : path, g.2 ≠ ".spv"%string → files' !! g = files !! g) →
  cacheable now files f → cacheable now files' f.
Proof.
  intros Hsame [Hext Hold]. split; [exact Hext|].
  intros input Hin. rewrite (Hsame f Hext) in Hin. exact (Hold _ Hin).
Qed.

Lemma shaderFilesOf_cons program programs :
  shaderFilesOf (program :: programs)
  = (m_ShaderFile <$> psh_Passes program) ++ shaderFilesOf programs.
Proof. unfold shaderFilesOf. simpl. apply fmap_app. Qed.

Section ShaderLoops.

Variable glslang : path → blob → GlslangResult.
Variable now : FileSystem → path → Z.
Variable opened : FileSystem → path → bool.
Variable readCommon : FileSystem → path → blob.

Lemma CompileShaders_loop_fresh preamble commonSource passes :
  ∀ files,
    Forall (cacheable now files) (m_ShaderFile <$> passes) →
    let r := CompileShaders_loop glslang now opened files preamble commonSource
                                 passes in
    (∀ f : path, f.2 ≠ ".spv"%string → co_files r !! f = files !! f)
    ∧ (∀ f, cacheable now files f → has_fresh_artifact files f →
            has_fresh_artifact (co_files r) f)
    ∧ m_ShaderFile <$> co_objects r = m_ShaderFile <$> passes
    ∧ (co_return r = true → (∀ fs f, opened fs f = true) →
       Forall (has_fresh_artifact (co_files r)) (m_ShaderFile <$> passes)).
Proof.
  induction passes as [|pass rest IH]; intros files Hall.
  - simpl. repeat split; auto.
  - cbn [CompileShaders_loop]. unfold CompilePassShader.
    cbn [co_return co_objects co_files co_log].
    rewrite fmap_cons in Hall. inversion Hall as [|? ? Hpass Hrest]; subst.
    destruct (CompileShader_keeps_fresh glslang
                (now files (m_ShaderFile pass))
                (opened files (m_ShaderFile pass)) files (m_ShaderFile pass)
                [preamble; m_InputDeclarations pass; commonSource]
                (m_ShaderData pass)) as (Hsrc & Hkeep & Hnew).
    set (r1 := CompileShader glslang (now files (m_ShaderFile pass))
                 (opened files (m_ShaderFile pass)) files
                 (m_ShaderFile pass)
                 [preamble; m_InputDeclarations pass; commonSource]
                 (m_ShaderData pass)) in *.
    destruct (cs_return r1) eqn:Hret; cbn [negb].
    + assert (Forall (cacheable now (cs_files r1)) (m_ShaderFile <$> rest))
        as Hrest1.
      { eapply Forall_impl; [exact Hrest|]. intros f.
        apply cacheable_ext. exact Hsrc. }
      destruct (IH (cs_files r1) Hrest1) as (Hsrc' & Hkeep' & Hfiles & Hok).
      cbn [co_return co_objects co_files co_log].
      split; [|split; [|split]].
      * intros f Hf. rewrite (Hsrc' f Hf). apply Hsrc. exact Hf.
      * intros f Hc Hfresh. apply Hkeep'.
        -- eapply cacheable_ext; [exact Hsrc|exact Hc].
        -- destruct Hc as [Hext Hold]. apply Hkeep; [exact Hext| |exact Hfresh].
           intros input Hin. apply (Hold input Hin).
      * rewrite !fmap_cons. cbn [m_ShaderFile]. f_equal. exact Hfiles.
      * intros Hret' Hopened. rewrite fmap_cons.
        constructor; [|apply Hok; [exact Hret'|exact Hopened]].
        apply Hkeep'.
        -- eapply cacheable_ext; [exact Hsrc|exact Hpass].
        -- destruct Hpass as [Hext Hold].
           apply Hnew; [auto|apply Hopened|exact Hext|].
           intros input Hin. apply (Hold input Hin).
    + cbn [co_return co_objects co_files co_log].
      split; [exact Hsrc|]. split.
      * intros f [Hext Hold] Hfresh. apply Hkeep; [exact Hext| |exact Hfresh].
        intros input Hin. apply (Hold input Hin).
      * split; [reflexivity|discriminate].
Qed.

Lemma CompileShaders_loop_hits preamble commonSource passes files :
  Forall (has_fresh_artifact files) (m_ShaderFile <$> passes) →
  let r := CompileShaders_loop glslang now opened files preamble commonSource
                               passes in
  co_return r = true ∧ co_files r = files
  ∧ Forall is_cache_hit (co_log r)
  ∧ length (co_log r) = length passes.
Proof.
  induction passes as [|pass rest IH]; intros Hall.
  - simpl. repeat split; constructor.
  - rewrite fmap_cons in Hall. inversion Hall as [|? ? Hpass Hrest]; subst.
    cbn [CompileShaders_loop]. unfold CompilePassShader.
    destruct (CompileShader_fresh_hit glslang
                (now files (m_ShaderFile pass))
                (opened files (m_ShaderFile pass)) files (m_ShaderFile pass)
                [preamble; m_InputDeclarations pass; commonSource]
                (m_ShaderData pass) Hpass) as [data ->].
    cbn [cs_return cs_files cs_log cs_output co_return co_objects co_files
         co_log negb].
    destruct (IH Hrest) as (Hret & Hfiles & Hlog & Hlen).
    cbn [co_return co_objects co_files co_log].
    split; [exact Hret|]. split; [exact Hfiles|]. split.
    + constructor; [exact I|exact Hlog].
    + simpl. rewrite Hlen. reflexivity.
Qed.

Lemma LoadShaders_loop_fresh preamble programs :
  ∀ files all,
    Forall (cacheable now files) (shaderFilesOf programs) →
    let r := LoadShaders_loop glslang now opened readCommon files preamble all
                              programs in
    (∀ f : path, f.2 ≠ ".spv"%string → co_files r !! f = files !! f)
    ∧ (∀ f, cacheable now files f → has_fresh_artifact files f →
            has_fresh_artifact (co_files r) f)
    ∧ shaderFilesOf (co_objects r) = shaderFilesOf programs
    ∧ (co_return r = true → (∀ fs f, opened fs f = true) →
       all = true
       ∧ Forall (has_fresh_artifact (co_files r)) (shaderFilesOf programs)).
Proof.
  induction programs as [|program rest IH]; intros files all Hall.
  - simpl. repeat split; auto.
  - rewrite shaderFilesOf_cons in Hall.
    apply Forall_app in Hall as [Hprogram Hrest].
    cbn [LoadShaders_loop]. unfold CompileShaders.
    cbn [co_return co_objects co_files co_log].
    match goal with
    | |- context [CompileShaders_loop glslang now opened files preamble ?c
                    (psh_Passes program)] => set (common := c)
    end.
    destruct (CompileShaders_loop_fresh preamble common (psh_Passes program)
                files Hprogram) as (Hsrc & Hkeep & Hfiles & Hok).
    set (r1 := CompileShaders_loop glslang now opened files preamble common
                 (psh_Passes program)) in *.
    assert (Forall (cacheable now (co_files r1)) (shaderFilesOf rest))
      as Hrest1.
    { eapply Forall_impl; [exact Hrest|]. intros f.
      apply cacheable_ext. exact Hsrc. }
    destruct (IH (co_files r1)
                (if negb (co_return r1) then false else all) Hrest1)
      as (Hsrc' & Hkeep' & Hfiles' & Hok').
    split; [|split; [|split]].
    + intros f Hf. rewrite (Hsrc' f Hf). apply Hsrc. exact Hf.
    + intros f Hc Hfresh. apply Hkeep'.
      * eapply cacheable_ext; [exact Hsrc|exact Hc].
      * apply Hkeep; assumption.
    + rewrite !shaderFilesOf_cons. cbn [psh_Passes].
      rewrite Hfiles, Hfiles'. reflexivity.
    + intros Hret Hopened. destruct (Hok' Hret Hopened) as [Hall' Hfresh'].
      destruct (co_return r1) eqn:Hr1; cbn [negb] in Hall';
        [|discriminate].
      split; [exact Hall'|]. rewrite shaderFilesOf_cons.
      apply Forall_app. split; [|exact Hfresh'].
      specialize (Hok eq_refl Hopened).
      rewrite Forall_forall in Hok, Hprogram |- *. intros f Hf.
      apply Hkeep'.
      * eapply cacheable_ext; [exact Hsrc|apply Hprogram; exact Hf].
      * apply Hok. exact Hf.
Qed.

Lemma LoadShaders_loop_hits preamble programs :
  ∀ files all,
    Forall (has_fresh_artifact files) (shaderFilesOf programs) →
    let r := LoadShaders_loop glslang now opened readCommon files preamble all
                              programs in
    co_return r = all ∧ co_files r = files
    ∧ Forall is_cache_hit (co_log r)
    ∧ length (co_log r) = length (shaderFilesOf programs).
Proof.
  induction programs as [|program rest IH]; intros files all Hall.
  - simpl. repeat split; constructor.
  - rewrite shaderFilesOf_cons in Hall.
    apply Forall_app in Hall as [Hprogram Hrest].
    cbn [LoadShaders_loop]. unfold CompileShaders.
    cbn [co_return co_objects co_files co_log].
    match goal with
    | |- context [CompileShaders_loop glslang now opened files preamble ?c
                    (psh_Passes program)] => set (common := c)
    end.
    destruct (CompileShaders_loop_hits preamble common (psh_Passes program)
                files Hprogram) as (Hret & Hfiles & Hlog & Hlen).
    rewrite Hret, Hfiles. cbn [negb].
    destruct (IH files all Hrest) as (Hret' & Hfiles' & Hlog' & Hlen').
    split; [exact Hret'|]. split; [exact Hfiles'|]. split.
    + apply Forall_app. split; assumption.
    + rewrite shaderFilesOf_cons, !length_app, length_fmap, Hlen, Hlen'.
      reflexivity.
Qed.

End ShaderLoops.

(** X27.  Reloading is free when the artifacts can be written.  When
    [LoadShaders] has succeeded with every artifact it wrote opened for
    writing, on shader files that are not themselves artifacts and were
    written before every artifact, a second [LoadShaders] on the files it
    left (the R key, with nothing edited in between) succeeds again, runs
    the compiler for no pass and writes no file: its log consists of one
    "using cached" line per pass.  This holds whatever the preamble and
    the common sources are by then, and whether or not artifacts can still
    be written. *)
Theorem reloading_shaders_compiles_nothing
    (glslang glslang' : path → blob → GlslangResult)
    (now now' : FileSystem → path → Z)
    (opened opened' : FileSystem → path → bool)
    (readCommon readCommon' : FileSystem → path → blob)
    (g_PreambleText g_PreambleText' : blob) (files : FileSystem)
    (programs : list ProgramShaders) :
  Forall (cacheable now files) (shaderFilesOf programs) →
  (∀ fs f, opened fs f = true) →
  let first :=
    LoadShaders glslang now opened readCommon g_PreambleText files
                programs in
  co_return first = true →
  let second :=
    LoadShaders glslang' now' opened' readCommon' g_PreambleText'
                (co_files first) (co_objects first) in
  co_return second = true
  ∧ co_files second = co_files first
  ∧ Forall is_cache_hit (co_log second)
  ∧ length (co_log second) = length (shaderFilesOf programs).
Proof.
  intros Hall Hopened first Hret second. subst first second.
  unfold LoadShaders in *.
  destruct (LoadShaders_loop_fresh glslang now opened readCommon
              g_PreambleText programs files true Hall)
    as (_ & _ & Hfiles & Hok).
  destruct (Hok Hret Hopened) as [_ Hfresh].
  rewrite <- Hfiles in Hfresh.
  destruct (LoadShaders_loop_hits glslang' now' opened' readCommon'
              g_PreambleText'
              _ _ true Hfresh) as (Hret' & Hsame & Hlog & Hlen).
  rewrite Hfiles in Hlen. auto.
Qed.

Lemma reloading_shaders_compiles_nothing_witness :
  let programs :=
    [mkProgramShaders None
       [mkPassShader ("a", ".glsl") "" ""; mkPassShader ("image", ".glsl")
                                             "" ""]] in
  let files : FileSystem :=
    {[ ("a", ".glsl") := mkFile 1 (Some "void a() {}"%string);
       ("image", ".glsl") := mkFile 2 (Some "void image() {}"%string) ]} in
  let first :=
    LoadShaders (λ _ _, Spirv "spirv") (λ _ _, 3) (λ _ _, true)
                (λ _ _, ""%string) "#version 450" files programs in
  co_files (LoadShaders (λ _ _, ParseError "syntax") (λ _ _, 9)
              (λ _ _, false) (λ _ _, ""%string) "" (co_files first)
              (co_objects first))
  = co_files first.
Proof.
  intros programs files first.
  refine (proj1 (proj2 (reloading_shaders_compiles_nothing
            (λ _ _, Spirv "spirv") (λ _ _, ParseError "syntax")
            (λ _ _, 3) (λ _ _, 9) (λ _ _, true) (λ _ _, false)
            (λ _ _, ""%string) (λ _ _, ""%string) "#version 450" ""
            files programs _ _ _))).
  - repeat constructor; try discriminate;
      intros input Hin fs f; vm_compute in Hin; injection Hin as <-;
      simpl; lia.
  - reflexivity.
  - vm_compute. reflexivity.
Defined.

(** X28.  Shader files that differ only in their extension share one
    artifact: the artifact name is the shader file name with the extension
    replaced by [.spv].  So after a compilation of one of them has
    succeeded, with the artifact opened for writing, a compilation of the
    other, if that one was written before the artifact, runs no compiler
    and returns the first file's binary. *)
Theorem same_stem_shares_the_artifact
    (glslang glslang' : path → blob → GlslangResult) (now now' : Z)
    (opened' : bool) (files : FileSystem) (first second : path)
    (preambles preambles' : list blob) (output output' : blob)
    (input' : File) :
  first.1 = second.1 →
  first.2 ≠ ".spv"%string →
  second.2 ≠ ".spv"%string →
  files !! second = Some input' →
  last_write_time input' < now →
  (∀ artifact,
     files !! replace_extension first ".spv" = Some artifact →
     last_write_time input' < last_write_time artifact) →
  let r := CompileShader glslang now true files first preambles output in
  cs_return r = true →
  CompileShader glslang' now' opened' (cs_files r) second preambles' output'
  = mkCompileShaderResult true (cs_output r) (cs_files r)
      [LogUsingCached (replace_extension first ".spv")].
Proof.
  intros Hstem Hext1 Hext2 Hin' Hnow Hnewer r Hret.
  assert (replace_extension second ".spv" = replace_extension first ".spv")
    as Hart.
  { unfold replace_extension. rewrite Hstem. reflexivity. }
  assert (second ≠ replace_extension first ".spv") as Hne.
  { intros Heq. apply Hext2. rewrite Heq. reflexivity. }
  destruct (CompileShader_true_inv glslang now true files first preambles
              output Hret) as (input & Hin & Hcase).
  fold r in Hcase.
  destruct Hcase as [(artifact & data & Hout & Hlt & Hread & ->)
                    |(_ & spirv & ->)]; simpl.
  - unfold CompileShader. rewrite Hin', Hart, Hout.
    rewrite (ReadFile_lookup _ _ _ Hout), Hread.
    pose proof (Hnewer artifact Hout) as Hlt'.
    apply Z.ltb_lt in Hlt'. rewrite Hlt'. reflexivity.
  - unfold CompileShader.
    rewrite lookup_insert_ne by congruence. rewrite Hin', Hart.
    rewrite lookup_insert_eq. unfold ReadFile.
    rewrite lookup_insert_eq. simpl.
    apply Z.ltb_lt in Hnow. rewrite Hnow. reflexivity.
Qed.

Lemma same_stem_shares_the_artifact_witness :
  let files : FileSystem :=
    {[ ("pass", ".glsl") := mkFile 1 (Some "void a() {}"%string);
       ("pass", ".frag") := mkFile 2 (Some "void b() {}"%string) ]} in
  let r := CompileShader (λ _ source, Spirv source) 3 true files
             ("pass", ".glsl") [] "" in
  CompileShader (λ _ source, Spirv source) 4 true (cs_files r)
                ("pass", ".frag") [] ""
  = mkCompileShaderResult true (cs_output r) (cs_files r)
      [LogUsingCached ("pass", ".spv")].
Proof.
  intros files r.
  refine (same_stem_shares_the_artifact (λ _ source, Spirv source)
            (λ _ source, Spirv source) 3 4 true files ("pass", ".glsl")
            ("pass", ".frag") [] [] "" ""
            (mkFile 2 (Some "void b() {}"%string)) _ _ _ _ _ _ _).
  - reflexivity.
  - discriminate.
  - discriminate.
  - vm_compute. reflexivity.
  - simpl. lia.
  - intros artifact Hout. vm_compute in Hout. discriminate.
  - vm_compute. reflexivity.
Defined.

(** ** Committed resources: failure of a step *)

Lemma first_suitable_unique memoryTypeBits wanted types i j :
  first_suitable_memory_type memoryTypeBits wanted types i →
  first_suitable_memory_type memoryTypeBits wanted types j →
  i = j.
Proof.
  intros [Hi Hmin_i] [Hj Hmin_j].
  destruct (Nat.lt_trichotomy i j) as [Hlt|[Heq|Hgt]]; [|exact Heq|].
  - exfalso. exact (Hmin_j i Hlt Hi).
  - exfalso. exact (Hmin_i j Hgt Hj).
Qed.

Lemma findMemoryType_is_first memoryTypeBits wanted types index :
  first_suitable_memory_type memoryTypeBits wanted types index →
  findMemoryType memoryTypeBits wanted types 0 = index
  ∧ (index <? length types)%nat = true.
Proof.
  intros Hfirst.
  destruct (findMemoryType_first memoryTypeBits wanted types)
    as [[Hlt Hfound]|[_ Hno]].
  - split; [|rewrite <- (first_suitable_unique _ _ _ _ _ Hfound Hfirst);
             exact Hlt].
    exact (first_suitable_unique _ _ _ _ _ Hfound Hfirst).
  - exfalso. destruct Hfirst as [Hs _]. exact (Hno _ Hs).
Qed.



(** ** Inputs that share a channel *)

(** The channel of a node that no later input declares ends the loop as
    that node's own iteration left it. *)
Lemma bindInputs_last_channel common passes self frame before node after
    st st' :
  foldM (bindInput common passes self frame) st (before ++ node :: after)
    = Some st' →
  Forall (λ other, in_channel other ≠ in_channel node) after →
  ∃ st1 static imageView inputSize logged info,
    foldM (bindInput common passes self frame) st before = Some st1
    ∧ at_int (m_StaticInputs self) (in_channel node) = Some static
    ∧ chooseInput common passes self frame node static
      = Some (imageView, inputSize, logged)
    ∧ at_int (bs_imageInfos st1) (in_channel node) = Some info
    ∧ at_int (bs_imageInfos st') (in_channel node)
      = Some (if vk.is_null imageView then info
              else mkDescriptorImageInfo imageView (dii_sampler info))
    ∧ at_int (bs_push st') (in_channel node) = Some inputSize
    ∧ ∃ l1 l2, bs_log st' = l1 ++ logged ++ l2.
Proof.
  intros H Hafter. rewrite foldM_app in H.
  destruct (foldM (bindInput common passes self frame) st before) as [st1|]
    eqn:H1; [|discriminate]. simpl in H.
  destruct (bindInput common passes self frame st1 node) as [st2|] eqn:H2;
    [|discriminate]. simpl in H.
  destruct (bindInputs_other_channel _ _ _ _ _ _ _ _ H Hafter)
    as (Hi3 & Hp3 & log3 & Hl3).
  apply bindInput_inv in H2
    as (static & imageView & inputSize & logged & info & Hs & Hc & Hinfo
        & Hi2 & Hp2 & Hl2 & _).
  exists st1, static, imageView, inputSize, logged, info.
  repeat split; try congruence.
  exists (bs_log st1), log3. rewrite Hl3, Hl2, <- app_assoc. reflexivity.
Qed.


(** ** Parity *)

(** C1, as stated, fails on its binding part.  The pass [A] declares its
    own output on channel 0 and, after it, the output of [B] on the same
    channel.  The first input resolves to [A]'s own output; yet for parity
    0 the channel is bound to the slot of [B] of the same parity (slot 2),
    not to the slot of [A] of the opposite parity (slot 1). *)
Lemma later_input_overrides_the_feedback_slot :
  demo_input_self ∈ pn_inputs (m_Declaration clash_pass_A)
  ∧ in_type demo_input_self = "buffer"%string
  ∧ resolves_to clash_passes (in_id demo_input_self) 0 clash_pass_A
  ∧ ∃ r write info own other,
      CreateBindingSets demo_common clash_passes clash_pass_A 0 = Some r
      ∧ bsr_writes r !! 0%nat = Some write
      ∧ at_int (dw_imageInfos write) (in_channel demo_input_self) = Some info
      ∧ cr_images demo_common !! (0 * 2 + (1 - 0))%nat = Some own
      ∧ cr_images demo_common !! (1 * 2 + 0)%nat = Some other
      ∧ dii_imageView info = img_imageView other
      ∧ dii_imageView info ≠ img_imageView own.
Proof.
  split; [left|]. split; [reflexivity|]. split.
  { split; [reflexivity|]. split; [reflexivity|]. intros j q Hj. lia. }
  assert (is_Some (CreateBindingSets demo_common clash_passes clash_pass_A 0))
    as [r Hr] by (vm_compute; eauto).
  exists r. revert Hr. vm_compute. intros Hr. injection Hr as <-.
  eexists _, _, _, _.
  split; [reflexivity|]. split; [reflexivity|]. split; [reflexivity|].
  split; [reflexivity|]. split; [reflexivity|]. split; [reflexivity|].
  discriminate.
Qed.

(** C1 (amended).  In every rendered frame the history index with which
    the passes are executed is the frame index modulo 2 (and the next
    frame has the other parity); every pass is executed with its render
    target and descriptor set of that index.  When binding sets are
    created, a buffer input that resolves to the pass [q] at index [k], on
    a channel without static image that no later input of the pass
    declares, is bound, for parity [frame], to pool slot
    [2k + (1 - frame)] when [q] is the binding pass itself and to pool slot
    [2k + frame] when it is another pass. *)
Theorem parity_selects_history_and_last_input_slot :
  (∀ env s s' fr,
     Render env s = Some (s', fr) →
     fr_historyIndex fr = Z.to_nat (fr_iFrame fr mod 2)
     ∧ historyIndexOf (m_FrameIndex s') = opposite (fr_historyIndex fr)
     ∧ ∃ program,
         at_int (m_Programs s') (m_ActiveProgram s') = Some program
         ∧ Forall2 (λ pass pe,
                      pe_pass pe = this pass
                      ∧ m_RenderTargetIndices pass !! fr_historyIndex fr
                        = Some (pe_renderTargetIndex pe)
                      ∧ m_DescriptorSets pass !! fr_historyIndex fr
                        = Some (pe_descriptorSet pe))
                   (GetPasses program) (fr_passes fr))
  ∧ (∀ common passes self outputIndex node k q frame,
       well_sized common passes self outputIndex →
       last_input_of_channel self node →
       no_static_image self (in_channel node) →
       in_type node = "buffer"%string →
       resolves_to passes (in_id node) k q →
       (frame < c_HistoryLength)%nat →
       ∃ r slot image,
         CreateBindingSets common passes self outputIndex = Some r
         ∧ (this q = this self → slot = (k * 2 + (1 - frame))%nat)
         ∧ (this q ≠ this self → slot = (k * 2 + frame)%nat)
         ∧ cr_images common !! slot = Some image
         ∧ (img_imageView image ≠ vk.null →
            ∃ write info,
              bsr_writes r !! frame = Some write
              ∧ m_DescriptorSets self !! frame = Some (dw_dstSet write)
              ∧ at_int (dw_imageInfos write) (in_channel node) = Some info
              ∧ dii_imageView info = img_imageView image)).
Proof.
  split.
  - intros env s s' fr H.
    pose proof (Render_passes _ _ _ _ H) as (program & Hp & Hall & _).
    apply Render_inv in H. simpl in H.
    destruct H as (_ & _ & _ & _ & _ & _ & Hh & _ & _ & _ & _ & _ & _ & _ & _
                   & Hnext & _).
    split; [rewrite Hh; apply historyIndexOf_mod2|].
    split; [rewrite Hnext, Hh; apply historyIndexOf_next|].
    exists program. split; assumption.
  - intros common passes self outputIndex node k q frame Hw Hlast Hnostatic
      Htype Hres Hframe.
    destruct (CreateBindingSets_total common passes self outputIndex Hw)
      as [r Hr].
    destruct Hlast as (before & after & Heq & Hall).
    pose proof Hr as Hinv. apply CreateBindingSets_inv in Hinv
      as (infos & st0 & st1 & ds0 & ds1 & t0 & t1 & Hinfos & H0 & H1 & Hd0
          & Hd1 & Ht0 & Ht1 & Hwrites & Hlog & Hpass).
    rewrite Heq in H0, H1.
    set (slot := (k * 2 + (if (this q =? this self)%nat
                           then opposite frame else frame))%nat).
    assert (∀ f st st',
              foldM (bindInput common passes self f) st
                    (before ++ node :: after) = Some st' →
              ∃ image,
                cr_images common
                  !! (k * 2 + (if (this q =? this self)%nat
                               then opposite f else f))%nat = Some image
                ∧ (img_imageView image ≠ vk.null →
                   ∃ info, at_int (bs_imageInfos st') (in_channel node)
                           = Some info
                           ∧ dii_imageView info = img_imageView image))
      as Hframe_binding.
    { intros f st st' Hf.
      destruct (bindInputs_last_channel _ _ _ _ _ _ _ _ _ Hf Hall)
        as (st2 & static & view & size & logged & info & _ & Hs & Hc & Hi
            & Hfin & _).
      rewrite (chooseInput_resolved _ _ _ _ _ _ k q (Hnostatic _ Hs) Htype
                 Hres) in Hc.
      destruct (cr_images common
                  !! (k * 2 + (if (this q =? this self)%nat
                               then opposite f else f))%nat) as [image|];
        [|discriminate].
      simpl in Hc. injection Hc as <- _ _.
      exists image. split; [reflexivity|]. intros Hnn.
      assert (vk.is_null (img_imageView image) = false) as Hnull.
      { unfold vk.is_null. apply N.eqb_neq. exact Hnn. }
      rewrite Hnull in Hfin. eexists. split; [exact Hfin|reflexivity]. }
    assert (∃ image st ds,
              cr_images common !! slot = Some image
              ∧ bsr_writes r !! frame
                = Some (mkDescriptorWrite ds (bs_imageInfos st)
                          (cr_constantBuffer common))
              ∧ m_DescriptorSets self !! frame = Some ds
              ∧ (img_imageView image ≠ vk.null →
                 ∃ info, at_int (bs_imageInfos st) (in_channel node)
                         = Some info
                         ∧ dii_imageView info = img_imageView image))
      as (image & st & ds & Himage & Hwrite & Hds & Hbound).
    { destruct frame as [|[|frame]];
        [| |unfold c_HistoryLength in Hframe; lia].
      - destruct (Hframe_binding _ _ _ H0) as (image & Hi & Hb).
        exists image, st0, ds0. rewrite Hwrites. auto.
      - destruct (Hframe_binding _ _ _ H1) as (image & Hi & Hb).
        exists image, st1, ds1. rewrite Hwrites. auto. }
    exists r, slot, image. split; [exact Hr|].
    assert (opposite frame = (1 - frame)%nat) as Hopp.
    { unfold opposite, c_HistoryLength in *.
      destruct frame as [|[|]]; simpl; lia. }
    repeat split.
    + intros E. subst slot. rewrite E, Nat.eqb_refl, Hopp. reflexivity.
    + intros E. subst slot. apply Nat.eqb_neq in E. rewrite E. reflexivity.
    + exact Himage.
    + intros Hnn. destruct (Hbound Hnn) as (info & Hinfo & Hview).
      eexists _, info. split; [exact Hwrite|]. simpl. auto.
Qed.

Lemma parity_selects_history_and_last_input_slot_witness :
  (∃ s' fr,
     Render (demo_env 0) demo_app = Some (s', fr)
     ∧ fr_historyIndex fr = Z.to_nat (fr_iFrame fr mod 2))
  ∧ (∃ r image,
       CreateBindingSets demo_common clash_passes clash_pass_A 0 = Some r
       ∧ cr_images demo_common !! (1 * 2 + 0)%nat = Some image).
Proof.
  split.
  - assert (is_Some (Render (demo_env 0) demo_app)) as [[s' fr] H]
      by (vm_compute; eauto).
    exists s', fr. split; [exact H|].
    exact (proj1 (proj1 parity_selects_history_and_last_input_slot _ _ _ _
                    H)).
  - destruct (proj2 parity_selects_history_and_last_input_slot demo_common
                clash_passes clash_pass_A 0%nat demo_input_B 1%nat
                clash_pass_B 0%nat)
      as (r & slot & image & Hr & _ & Hother & Himage & _).
    + unfold well_sized. repeat split; try reflexivity;
        try (vm_compute; lia).
      repeat constructor; vm_compute; congruence.
    + exists [demo_input_self], []. split; [reflexivity|constructor].
    + intros static H. vm_compute in H. injection H as <-. reflexivity.
    + reflexivity.
    + split; [reflexivity|]. split; [reflexivity|].
      intros j q' Hj Hq'. destruct j as [|j]; [|lia].
      injection Hq' as <-. discriminate.
    + vm_compute. lia.
    + exists r, image. split; [exact Hr|].
      rewrite <- Hother; [exact Himage|]. discriminate.
Defined.

(** ** Unresolved buffer inputs *)




(** ** The terminal pass along a run *)

Lemma same_passes_refl programs : Forall2 same_passes programs programs.
Proof. apply Forall_Forall2_diag, Forall_forall. intros p _. by split. Qed.

Lemma same_passes_trans ps1 ps2 ps3 :
  Forall2 same_passes ps1 ps2 → Forall2 same_passes ps2 ps3 →
  Forall2 same_passes ps1 ps3.
Proof.
  intros H12; revert ps3.
  induction H12 as [|p1 p2 l1 l2 [Hi Hp] _ IH]; intros ps3 H23;
    inversion H23 as [|? p3 ? l3 [Hi' Hp'] Hrest]; subst; constructor.
  - split; congruence.
  - apply IH. exact Hrest.
Qed.

(** A frame leaves every program with its passes and image pass index,
    whether it rebuilds the bindings or not. *)
Lemma Render_same_passes env s s' fr :
  Render env s = Some (s', fr) →
  Forall2 same_passes (m_Programs s) (m_Programs s').
Proof.
  intros H. apply Render_inv in H. simpl in H.
  destruct H as (Hcreate & _ & _ & _ & _ & _ & _ & _ & _ & _ & _ & _ & _ & _
                 & _ & _ & _ & _ & Hprogs & _).
  rewrite Hprogs. unfold frame_state in *.
  destruct (fr_rebuilt fr) as [r|]; [|apply same_passes_refl].
  apply CreateBuffersAndBindings_inv in Hcreate
    as (_ & (bound & Hbound & Hnew) & _).
  rewrite Hnew. apply mapM_Some in Hbound.
  apply Forall2_fmap_r.
  eapply Forall2_impl; [exact Hbound|].
  intros p [[p' w] l] Hbind. simpl.
  apply bindProgram_inv in Hbind as (? & ? & _). by split.
Qed.

Lemma run_same_passes events :
  ∀ s s' frames,
    run s events = Some (s', frames) →
    Forall2 same_passes (m_Programs s) (m_Programs s').
Proof.
  induction events as [|e rest IH]; intros s s' frames H; simpl in H.
  - injection H as <- _. apply same_passes_refl.
  - destruct (step s e) as [[s1 fs1]|] eqn:Hstep; [|discriminate].
    simpl in H.
    destruct (run s1 rest) as [[s2 fs2]|] eqn:Hrun; [|discriminate].
    simpl in H. injection H as <- _.
    apply (same_passes_trans _ (m_Programs s1)); [|exact (IH _ _ _ Hrun)].
    destruct (is_playlist_event e) eqn:He.
    + apply playlist_step_keeps in Hstep as (_ & -> & _); [|exact He].
      apply same_passes_refl.
    + destruct e as [dt| | | |env]; try discriminate. simpl in Hstep.
      destruct (Render env s) as [[x fr0]|] eqn:E; [|discriminate].
      injection Hstep as <- _. exact (Render_same_passes _ _ _ _ E).
Qed.

(** C10.  After a successful [Load] the pass built from the image node is
    the last element of the pass list and [GetImagePassIndex] is the size
    of the list minus one, wherever the image node stands in the file.
    Hence, once the loaded program is one of the programs of the
    application, in every frame rendered while it is the active program,
    after any sequence of events (frames, rebuilds of the bindings,
    program changes), the pass executed last is the terminal pass, and the
    blit reads the descriptor set of pool slot
    [GetImagePassIndex * 2 + parity]. *)
Theorem terminal_pass_is_last_and_composited
    (self : ShProgram) (nodes : list PassNode) (heap : nat) :
  let program := lr_program (Load self (Some nodes) heap) in
  lr_return (Load self (Some nodes) heap) = true →
  ∃ imagePass,
    last (GetPasses program) = Some imagePass
    ∧ pn_type (m_Declaration imagePass) = "image"%string
    ∧ GetImagePassIndex program = (length (GetPasses program) - 1)%nat
    ∧ GetPasses program !! GetImagePassIndex program = Some imagePass
    ∧ ∀ s0 events s frames env s' fr,
        run s0 events = Some (s, frames) →
        at_int (m_Programs s0) (m_ActiveProgram s) = Some program →
        Render env s = Some (s', fr) →
        ∃ pe,
          last (fr_passes fr) = Some pe
          ∧ pe_pass pe = this imagePass
          ∧ length (fr_passes fr) = length (GetPasses program)
          ∧ fr_finalBufferIndex fr
            = (GetImagePassIndex program * 2 + fr_historyIndex fr)%nat
          ∧ fr_historyIndex fr = Z.to_nat (fr_iFrame fr mod 2)
          ∧ m_BlitDescriptorSets s !! fr_finalBufferIndex fr
            = Some (fr_blitDescriptorSet fr).
Proof.
  intros program Hret.
  destruct (Load_terminal self nodes heap Hret)
    as (imagePass & Hlast & Htype & Hterm & Hat).
  fold program in Hlast, Hterm, Hat.
  exists imagePass. unfold terminal_last in Hterm.
  split; [exact Hlast|]. split; [exact Htype|]. split; [lia|].
  split; [exact Hat|].
  intros s0 events s frames env s' fr Hrun Hactive0 Hrender.
  assert (∃ program1,
            at_int (m_Programs s) (m_ActiveProgram s) = Some program1
            ∧ same_passes program program1)
    as (program1 & Hactive & Hindex1 & Hthis1).
  { pose proof (run_same_passes _ _ _ _ Hrun) as Hsame.
    apply at_int_Some in Hactive0 as [Hnn Hl].
    destruct (Forall2_lookup_l _ _ _ _ _ Hsame Hl) as (program1 & Hl1 & Hs).
    exists program1. split; [|exact Hs].
    apply at_int_Some. split; [exact Hnn|exact Hl1]. }
  destruct (Render_active_program _ _ _ _ _ Hrender Hactive)
    as (program' & Hp' & Hindex & Hthis).
  rewrite Hindex1 in Hindex. rewrite Hthis1 in Hthis.
  destruct (Render_passes _ _ _ _ Hrender)
    as (program'' & Hp'' & Hall & Hfinal & Hblit).
  assert (program'' = program') as -> by congruence.
  assert (length (GetPasses program') = length (GetPasses program)) as Hlen.
  { unfold GetPasses.
    rewrite <- (length_fmap this (m_Passes program')), Hthis, length_fmap.
    reflexivity. }
  pose proof (Forall2_length _ _ _ Hall) as Hlen2.
  assert (∃ pass', GetPasses program' !! GetImagePassIndex program
                   = Some pass' ∧ this pass' = this imagePass)
    as (pass' & Hpass' & Hthis').
  { assert ((this <$> m_Passes program') !! GetImagePassIndex program
            = Some (this imagePass)) as H.
    { rewrite Hthis, list_lookup_fmap. unfold GetPasses in Hat.
      rewrite Hat. reflexivity. }
    rewrite list_lookup_fmap in H.
    destruct (m_Passes program' !! GetImagePassIndex program) as [pass'|]
      eqn:E; [|discriminate].
    exists pass'. split; [exact E|]. simpl in H. congruence. }
  destruct (Forall2_lookup_l _ _ _ _ _ Hall Hpass') as (pe & Hpe & Hrel & _).
  exists pe. split.
  - rewrite last_lookup. rewrite <- Hlen2, Hlen.
    replace (Init.Nat.pred (length (GetPasses program)))
      with (GetImagePassIndex program) by lia.
    exact Hpe.
  - split; [congruence|]. split; [congruence|].
    split; [rewrite Hfinal; unfold GetImagePassIndex; rewrite Hindex;
            reflexivity|].
    split.
    + apply Render_inv in Hrender. simpl in Hrender.
      destruct Hrender as (_ & ? & ? & _ & _ & _ & Hh & _).
      rewrite Hh. apply historyIndexOf_mod2.
    + pose proof Hrender as Hinv. apply Render_inv in Hinv. simpl in Hinv.
      destruct Hinv as (Hcreate & _).
      unfold frame_state in Hblit.
      destruct (fr_rebuilt fr) as [r|]; [|exact Hblit].
      apply CreateBuffersAndBindings_inv in Hcreate.
      destruct Hcreate as (_ & _ & _ & _ & _ & _ & _ & _ & _ & _ & _ & _
                           & Hsets).
      rewrite <- Hsets. exact Hblit.
Qed.

Lemma terminal_pass_is_last_and_composited_witness :
  ∃ imagePass s frames s' fr pe,
    last (GetPasses (demo_program "foo" 100)) = Some imagePass
    ∧ run demo_app [EvRender (demo_env 0); EvRender (demo_env 1)]
      = Some (s, frames)
    ∧ Render (demo_env 2) s = Some (s', fr)
    ∧ last (fr_passes fr) = Some pe
    ∧ pe_pass pe = this imagePass.
Proof.
  destruct (terminal_pass_is_last_and_composited (ShProgram_ctor "foo")
              demo_nodes 100 eq_refl)
    as (imagePass & Hlast & _ & _ & _ & Hrender).
  assert (∃ s frames,
            run demo_app [EvRender (demo_env 0); EvRender (demo_env 1)]
            = Some (s, frames)
            ∧ m_ActiveProgram s = 0
            ∧ is_Some (Render (demo_env 2) s))
    as (s & frames & Hrun & Hactive & [[s' fr] H]).
  { eexists _, _. split; [vm_compute; reflexivity|].
    split; [reflexivity|]. vm_compute. eauto. }
  destruct (Hrender demo_app _ s frames (demo_env 2) s' fr Hrun) as
    (pe & Hpe & Hthis & _); [rewrite Hactive; reflexivity|exact H|].
  exists imagePass, s, frames, s', fr, pe. auto.
Defined.
